(** * Layered DAG layout ([layout.js]): model and verified properties

    The development embeds [computeLayout] and [baryPos] of [layout.js]
    and proves the properties the specification states about them.

    Conventions of the embedding.
    - A JavaScript [Map] whose iteration order is observed ([layer],
      [positions]) is an insertion-ordered association list ([JSMap]).
      A [Map] that is only read with [get]/[has] and written with [set]
      ([pred], [succ], [inDeg], [nodeY], [nodeMap], the per-sweep index
      maps) is a [gmap].
    - The result of the function is an [option]: [None] stands for a run
      that leaves the fragment modelled here, i.e. a [TypeError] (property
      access on [undefined]), an [undefined]/[NaN] entering arithmetic, or
      the loop running out of fuel.  [computeLayout_total] shows that this
      never happens.
    - Numbers.  [computeLayout] below computes with exact rationals.
      The module [Fl] at the end of the definitions is the same function
      with the result of every inexact operation rounded by a parameter
      [rnd] and with the sort of the rows as a parameter; [round64] is
      the rounding to the nearest double.  What depends on the rounding
      or on the sort is stated on [Fl]; [Fl_computeLayout_exact] shows
      that [computeLayout] is [Fl.computeLayout] without rounding.
      Layers and intra-layer indices are natural numbers, in-degrees are
      integers.
    - A height is a number or a member that [NODE_HEIGHTS] inherits from
      [Object.prototype] ([Height]); with such a member the bottom of a
      box and the canvas height are [NaN].  [plainTypes] says that no
      node type names such a member.
    - [posInLayer] of the source is written but never read, so it is not
      carried in the model.
    - The limits of an engine (the number of arguments a call such as
      [Math.max(...values)] accepts, the length of an array, memory) are
      not modelled: lists are unbounded.

    The later sections embed the code around the layout: the edge
    routing of [renderGraph], the view transform of [app.js] ([fitView],
    [zoomAround], [navigateToNode] and the handlers that pan), the
    rectangles of [drawMinimap], [escHtml], the branch of [parseGraph]
    for the compiler's format, and [getStage] of [scan_passes.js].
    There too numbers are exact rationals, and [None] marks the inputs on
    which the source computes with a number that is not finite.  Strings
    are sequences of bytes; the characters [escHtml] looks for are ASCII,
    so the encoding of the other characters does not matter. *)

From Stdlib Require Import QArith Qminmax Qround Qpower Lia Lqa Ascii.
From stdpp Require Import gmap strings list fin_maps relations sorting pretty.

Local Close Scope Q_scope.
Local Open Scope list_scope.

(** ** Data model *)

Record Node := { id : string; type : string }.
Record Edge := { source : string; target : string }.
Record Graph := { nodes : list Node; edges : list Edge }.

(** What [NODE_HEIGHTS[type] ?? 124] can be: a number of pixels, or the
    member of [Object.prototype] that the object literal inherits under
    the name [type] (a function, or the prototype itself for
    [__proto__]). *)
Inductive Height := Px (q : Q) | Inherited (name : string).

Record Pos := { x : Q; y : Q; w : Q; h : Height }.

(** ** Insertion-ordered maps (JavaScript [Map]) *)

Module JSMap.
Section defs.
Context {V : Type}.

Definition get (m : list (string * V)) (k : string) : option V :=
  snd <$> List.find (λ p, bool_decide (p.1 = k)) m.

Definition has (m : list (string * V)) (k : string) : bool :=
  bool_decide (is_Some (get m k)).

(** [m.set(k, v)]: an existing key keeps its place, a new key goes last. *)
Fixpoint set (m : list (string * V)) (k : string) (v : V) : list (string * V) :=
  match m with
  | [] => [(k, v)]
  | p :: m' => if decide (p.1 = k) then (k, v) :: m' else p :: set m' k v
  end.

Definition keys (m : list (string * V)) : list string := fst <$> m.
Definition values (m : list (string * V)) : list V := snd <$> m.
End defs.
End JSMap.

(** [new Map(pairs)] for the maps kept as [gmap]: later pairs win. *)
Definition newMap {V} (pairs : list (string * V)) : gmap string V :=
  foldl (λ m p, <[p.1 := p.2]> m) ∅ pairs.

(** Left fold of a step that can fail. *)
Fixpoint foldM {S A} (f : S → A → option S) (s : S) (l : list A) : option S :=
  match l with
  | [] => Some s
  | a :: l' => s' ← f s a; foldM f s' l'
  end.

(** ** Constants *)

Definition NODE_W : Q := 250%Q.
Definition H_STEP : Q := 330%Q.
Definition V_STEP : Q := 220%Q.
Definition PAD : Q := 60%Q.

(** The property names every object literal inherits from
    [Object.prototype]. *)
Definition objectPrototypeNames : list string :=
  ["constructor"; "hasOwnProperty"; "isPrototypeOf"; "propertyIsEnumerable";
   "toLocaleString"; "toString"; "valueOf"; "__defineGetter__";
   "__defineSetter__"; "__lookupGetter__"; "__lookupSetter__"; "__proto__"]%string.

(** [NODE_HEIGHTS[type] ?? 124]; the argument is [node?.type].  The
    lookup finds the four own properties of [NODE_HEIGHTS], then the
    members inherited from [Object.prototype], which are not nullish and
    so are returned as they are; every other name gives [undefined] and
    124. *)
Definition getNodeHeight (type : option string) : Height :=
  match type with
  | Some "incast"%string => Px 200
  | Some "outcast"%string => Px 200
  | Some "op"%string => Px 148
  | Some "tensor"%string => Px 200
  | Some t => if decide (t ∈ objectPrototypeNames) then Inherited t else Px 124
  | None => Px 124
  end.

Definition nat2Q (n : nat) : Q := inject_Z (Z.of_nat n).

(** [a < b] on numbers, as a boolean. *)
Definition Qltb (a b : Q) : bool := (Qnum a * QDen b <? Qnum b * QDen a)%Z.

(** ** The numbers a comparator can return *)

Inductive Num := Fin (q : Q) | Infinity | NegInfinity | NaN.

Definition Num_sub (a b : Num) : Num :=
  match a, b with
  | Fin p, Fin q => Fin (p - q)%Q
  | Fin _, Infinity => NegInfinity
  | Fin _, NegInfinity => Infinity
  | Infinity, Fin _ => Infinity
  | Infinity, NegInfinity => Infinity
  | NegInfinity, Fin _ => NegInfinity
  | NegInfinity, Infinity => NegInfinity
  | _, _ => NaN
  end.

(** [v > 0], false for [NaN]. *)
Definition Num_pos (v : Num) : bool :=
  match v with
  | Fin q => Qltb 0 q
  | Infinity => true
  | _ => false
  end.

(** ** [Array.prototype.sort]

    The sort is stable; a comparator result that is positive moves the
    first argument after the second, every other result (negative, zero,
    [NaN]) leaves it in front.  With the consistent comparators of this
    program the result is the stable sorted permutation. *)

Fixpoint sortInsert (cmp : string → string → Num) (a : string) (l : list string)
  : list string :=
  match l with
  | [] => [a]
  | b :: l' => if Num_pos (cmp a b) then b :: sortInsert cmp a l' else a :: b :: l'
  end.

Definition Array_sort (cmp : string → string → Num) (l : list string) : list string :=
  foldr (sortInsert cmp) [] l.

(** ** [baryPos] *)

Definition baryPos (nodeId : string) (neighbors : gmap string (list string))
    (prevPositions : gmap string nat) : Num :=
  let nbrs := default [] (neighbors !! nodeId) in
  if decide (length nbrs = 0) then Infinity
  else
    let '(sum, count) :=
      foldl (λ '(sum, count) nid,
               match prevPositions !! nid with
               | Some p => (sum + p, count + 1)
               | None => (sum, count)
               end) (0, 0) nbrs in
    if decide (0 < count) then Fin (nat2Q sum / nat2Q count)%Q else Infinity.

(** ** Adjacency *)

Definition emptyAdj (nodes : list Node) : gmap string (list string) :=
  newMap ((λ n, (id n, [])) <$> nodes).

(** One iteration of [for (const e of edges)]. *)
Definition addEdge (adj : gmap string (list string) * gmap string (list string))
    (e : Edge) : gmap string (list string) * gmap string (list string) :=
  let '(pred, succ) := adj in
  match pred !! target e, succ !! source e with
  | Some ps, Some ss =>
      (<[target e := ps ++ [source e]]> pred, <[source e := ss ++ [target e]]> succ)
  | _, _ => (pred, succ)
  end.

Definition buildAdj (g : Graph) : gmap string (list string) * gmap string (list string) :=
  foldl addEdge (emptyAdj (nodes g), emptyAdj (nodes g)) (edges g).

(** ** Layer assignment *)

Record BfsState := {
  layer : list (string * nat);
  inDeg : gmap string Z;
  queue : list string;
  head : nat
}.

(** One iteration of [for (const nextId of succ.get(id))]. *)
Definition relax (currentLayer : nat) (st : BfsState) (nextId : string)
  : option BfsState :=
  let proposed := currentLayer + 1 in
  let layer' :=
    match JSMap.get (layer st) nextId with
    | None => JSMap.set (layer st) nextId proposed
    | Some l => if decide (l < proposed) then JSMap.set (layer st) nextId proposed
                else layer st
    end in
  d ← inDeg st !! nextId;
  let inDeg' := <[nextId := (d - 1)%Z]> (inDeg st) in
  let queue' := if decide ((d - 1)%Z = 0%Z) then queue st ++ [nextId] else queue st in
  Some {| layer := layer'; inDeg := inDeg'; queue := queue'; head := head st |}.

(** The body of [while (head < queue.length)]. *)
Definition bfsStep (succ : gmap string (list string)) (st : BfsState)
  : option BfsState :=
  i ← queue st !! head st;
  currentLayer ← JSMap.get (layer st) i;
  nexts ← succ !! i;
  foldM (relax currentLayer)
        {| layer := layer st; inDeg := inDeg st; queue := queue st;
           head := S (head st) |}
        nexts.

Fixpoint bfs (fuel : nat) (succ : gmap string (list string)) (st : BfsState)
  : option BfsState :=
  if decide (head st < length (queue st)) then
    match fuel with
    | O => None
    | S fuel' => st' ← bfsStep succ st; bfs fuel' succ st'
    end
  else Some st.

Definition initBfs (nodes : list Node) (pred : gmap string (list string))
  : option BfsState :=
  degs ← mapM (λ n, ps ← pred !! id n; Some (id n, Z.of_nat (length ps))) nodes;
  let inDeg := newMap degs in
  seeds ← mapM (λ n, d ← inDeg !! id n; Some (id n, d)) nodes;
  let queue := fst <$> filter (λ p, p.2 = 0%Z) seeds in
  Some {| layer := foldl (λ m i, JSMap.set m i 0) [] queue;
          inDeg := inDeg; queue := queue; head := 0 |}.

(** [for (const n of nodes) if (!layer.has(n.id)) layer.set(n.id, 0)] *)
Definition fallback (nodes : list Node) (layer : list (string * nat))
  : list (string * nat) :=
  foldl (λ m n, if JSMap.has m (id n) then m else JSMap.set m (id n) 0) layer nodes.

(** The loop always ends within two iterations per node. *)
Definition bfsFuel (g : Graph) : nat := 2 * length (nodes g).

Definition kahn (g : Graph) : option BfsState :=
  let '(pred, succ) := buildAdj g in
  st ← initBfs (nodes g) pred;
  bfs (bfsFuel g) succ st.

Definition assignLayers (g : Graph) : option (list (string * nat)) :=
  st ← kahn g;
  Some (fallback (nodes g) (layer st)).

(** ** Grouping by layer *)

Definition pushAt (layerNodes : list (list string)) (p : string * nat)
  : option (list (list string)) :=
  ids ← layerNodes !! p.2;
  Some (<[p.2 := ids ++ [p.1]]> layerNodes).

Definition groupByLayer (maxLayer : nat) (layer : list (string * nat))
  : option (list (list string)) :=
  foldM pushAt (replicate (maxLayer + 1) []) layer.

(** ** Crossing minimisation *)

(** [new Map(ids.map((id, i) => [id, i]))] *)
Definition indexMap (ids : list string) : gmap string nat :=
  newMap (imap (λ i a, (a, i)) ids).

Definition baryCmp (neighbors : gmap string (list string)) (adjacent : list string)
    (a b : string) : Num :=
  Num_sub (baryPos a neighbors (indexMap adjacent))
          (baryPos b neighbors (indexMap adjacent)).

Definition sortLayer (neighbors : gmap string (list string))
    (adjacent ids : list string) : list string :=
  Array_sort (baryCmp neighbors adjacent) ids.

Definition forwardStep (pred : gmap string (list string))
    (layerNodes : list (list string)) (l : nat) : option (list (list string)) :=
  prev ← layerNodes !! (l - 1);
  ids ← layerNodes !! l;
  Some (<[l := sortLayer pred prev ids]> layerNodes).

Definition backwardStep (succ : gmap string (list string))
    (layerNodes : list (list string)) (l : nat) : option (list (list string)) :=
  next ← layerNodes !! (l + 1);
  ids ← layerNodes !! l;
  Some (<[l := sortLayer succ next ids]> layerNodes).

Definition forwardPass pred (maxLayer : nat) layerNodes :=
  foldM (forwardStep pred) layerNodes (seq 1 maxLayer).

Definition backwardPass succ (maxLayer : nat) layerNodes :=
  foldM (backwardStep succ) layerNodes (reverse (seq 0 maxLayer)).

Definition minimizeCrossings pred succ (maxLayer : nat) layerNodes :=
  ln1 ← forwardPass pred maxLayer layerNodes;
  ln2 ← backwardPass succ maxLayer ln1;
  forwardPass pred maxLayer ln2.

(** ** Coordinates *)

(** [ys.reduce((s, p) => s + p, 0) / ys.length] *)
Definition mean (ys : list Q) : Q := (foldl Qplus 0 ys / nat2Q (length ys))%Q.

(** The neighbours that already have a y, as their y values. *)
Definition placed (nodeY : gmap string Q) (adj : gmap string (list string))
    (i : string) : list Q :=
  omap (λ p, nodeY !! p) (default [] (adj !! i)).

(** Body of the inner loop of the top-down pass; the state is
    [(nodeY, cursor)]. *)
Definition placeNode (pred : gmap string (list string))
    (st : gmap string Q * Q) (i : string) : gmap string Q * Q :=
  let '(nodeY, cursor) := st in
  let placedPreds := placed nodeY pred i in
  let y := if decide (0 < length placedPreds)
           then Qmax cursor (mean placedPreds) else cursor in
  (<[i := y]> nodeY, (y + V_STEP)%Q).

Definition topDownStep pred (layerNodes : list (list string))
    (nodeY : gmap string Q) (l : nat) : option (gmap string Q) :=
  ids ← layerNodes !! l;
  Some (foldl (placeNode pred) (nodeY, PAD) ids).1.

Definition topDown pred (maxLayer : nat) layerNodes : option (gmap string Q) :=
  foldM (topDownStep pred layerNodes) ∅ (seq 0 (maxLayer + 1)).

(** Body of the inner loop of the backward pass; the state is
    [(nodeY, ceiling)], with [None] for the ceiling [Infinity]. *)
Definition pullNode (succ : gmap string (list string))
    (st : gmap string Q * option Q) (i : string)
  : option (gmap string Q * option Q) :=
  let '(nodeY, ceiling) := st in
  let placedSuccs := placed nodeY succ i in
  nodeY' ←
    (if decide (0 < length placedSuccs) then
       let ideal := mean placedSuccs in
       let maxY := match ceiling with
                   | None => ideal
                   | Some c => Qmin ideal (c - V_STEP)%Q
                   end in
       yi ← nodeY !! i;
       if Qltb yi maxY then Some nodeY
       else Some (<[i := Qmax yi (if Qltb maxY PAD then PAD else maxY)]> nodeY)
     else Some nodeY);
  c ← nodeY' !! i;
  Some (nodeY', Some c).

Definition bottomUpStep succ (layerNodes : list (list string))
    (nodeY : gmap string Q) (l : nat) : option (gmap string Q) :=
  ids ← layerNodes !! l;
  st ← foldM (pullNode succ) (nodeY, None) (reverse ids);
  Some st.1.

Definition bottomUp succ (maxLayer : nat) layerNodes (nodeY : gmap string Q)
  : option (gmap string Q) :=
  foldM (bottomUpStep succ layerNodes) nodeY (reverse (seq 0 maxLayer)).

(** ** Positions and canvas *)

Definition mkPos (nodeMap : gmap string Node) (nodeY : gmap string Q)
    (lx : Q) (i : string) : Pos :=
  {| x := lx;
     y := default PAD (nodeY !! i);
     w := NODE_W;
     h := getNodeHeight (type <$> nodeMap !! i) |}.

Definition positionsStep nodeMap nodeY (layerNodes : list (list string))
    (layerX : list Q) (positions : list (string * Pos)) (l : nat)
  : option (list (string * Pos)) :=
  ids ← layerNodes !! l;
  lx ← layerX !! l;
  Some (foldl (λ m i, JSMap.set m i (mkPos nodeMap nodeY lx i)) positions ids).

Definition buildPositions nodeMap nodeY (maxLayer : nat) layerNodes
  : option (list (string * Pos)) :=
  let layerX := imap (λ l _, (PAD + nat2Q l * H_STEP)%Q) layerNodes in
  foldM (positionsStep nodeMap nodeY layerNodes layerX) [] (seq 0 (maxLayer + 1)).

(** [p.y + p.h]: the sum of two numbers, or, for an inherited member,
    the concatenation of the two operands as strings, which is not the
    text of a number and which [Math.max] converts to [NaN]. *)
Definition bottom (p : Pos) : Num :=
  match h p with
  | Px q => Fin (y p + q)
  | Inherited _ => NaN
  end.

Definition Num_max (a b : Num) : Num :=
  match a, b with
  | NaN, _ | _, NaN => NaN
  | Infinity, _ | _, Infinity => Infinity
  | NegInfinity, v | v, NegInfinity => v
  | Fin p, Fin q => Fin (Qmax p q)
  end.

Definition Num_add (a b : Num) : Num :=
  match a, b with
  | NaN, _ | _, NaN => NaN
  | Infinity, NegInfinity | NegInfinity, Infinity => NaN
  | Infinity, _ | _, Infinity => Infinity
  | NegInfinity, _ | _, NegInfinity => NegInfinity
  | Fin p, Fin q => Fin (p + q)
  end.

(** [Math.max(...vs)]: [NaN] as soon as one argument is, [-Infinity]
    without arguments. *)
Definition Math_max (vs : list Num) : Num := foldl Num_max NegInfinity vs.

(** The returned object; [canvasW]/[canvasH] are [None] when the property
    is absent from it. *)
Record Layout := {
  positions : list (string * Pos);
  layerNodes : list (list string);
  maxLayer : nat;
  canvasW : option Q;
  canvasH : option Num
}.

(** The y map after the top-down pass and after the whole coordinate
    assignment, as separate stages. *)
Record Stages := {
  st_pred : gmap string (list string);
  st_succ : gmap string (list string);
  st_layer : list (string * nat);
  st_maxLayer : nat;
  st_layerNodes : list (list string);
  st_topDownY : gmap string Q;
  st_nodeY : gmap string Q
}.

Definition stages (g : Graph) : option Stages :=
  let '(pred, succ) := buildAdj g in
  layer ← assignLayers g;
  let maxLayer := max_list (JSMap.values layer) in
  grouped ← groupByLayer maxLayer layer;
  layerNodes ← minimizeCrossings pred succ maxLayer grouped;
  nodeY0 ← topDown pred maxLayer layerNodes;
  nodeY ← bottomUp succ maxLayer layerNodes nodeY0;
  Some {| st_pred := pred; st_succ := succ; st_layer := layer;
          st_maxLayer := maxLayer; st_layerNodes := layerNodes;
          st_topDownY := nodeY0; st_nodeY := nodeY |}.

Definition finish (g : Graph) (s : Stages) (nodeY : gmap string Q) : option Layout :=
  let nodeMap := newMap ((λ n, (id n, n)) <$> nodes g) in (* new Map(nodes.map(n => [n.id, n])) *)
  positions ← buildPositions nodeMap nodeY (st_maxLayer s) (st_layerNodes s);
  let maxNodeBottom := Math_max (bottom <$> JSMap.values positions) in
  Some {| positions := positions;
          layerNodes := st_layerNodes s;
          maxLayer := st_maxLayer s;
          canvasW := Some (PAD * 2 + (nat2Q (st_maxLayer s) + 1) * H_STEP)%Q;
          canvasH := Some (Num_add maxNodeBottom (Fin PAD)) |}.

Definition computeLayout (g : Graph) : option Layout :=
  if decide (length (nodes g) = 0) then
    Some {| positions := []; layerNodes := []; maxLayer := 0;
            canvasW := None; canvasH := None |}
  else
    s ← stages g;
    finish g s (st_nodeY s).

(** The layout with the backward pass left out: the result the top-down
    pass alone would give. *)
Definition computeLayoutTopDownOnly (g : Graph) : option Layout :=
  if decide (length (nodes g) = 0) then
    Some {| positions := []; layerNodes := []; maxLayer := 0;
            canvasW := None; canvasH := None |}
  else
    s ← stages g;
    finish g s (st_topDownY s).

(** No node has a type that names a member inherited from
    [Object.prototype]: every height is a number. *)
Definition plainTypes (g : Graph) : Prop :=
  ∀ nd, nd ∈ nodes g → type nd ∉ objectPrototypeNames.

(** ** Sample graphs *)

Definition mkNode (i : string) : Node := {| id := i; type := "op"%string |}.
Definition mkEdge (s t : string) : Edge := {| source := s; target := t |}.

Definition chainGraph : Graph :=
  {| nodes := [mkNode "A"; mkNode "B"; mkNode "C"];
     edges := [mkEdge "A" "B"; mkEdge "B" "C"] |}.

Definition diamondGraph : Graph :=
  {| nodes := [mkNode "A"; mkNode "B"; mkNode "C"; mkNode "D"];
     edges := [mkEdge "A" "B"; mkEdge "A" "C"; mkEdge "B" "D"; mkEdge "C" "D"] |}.

Definition cycleGraph : Graph :=
  {| nodes := [mkNode "A"; mkNode "B"; mkNode "C"];
     edges := [mkEdge "A" "B"; mkEdge "B" "C"; mkEdge "C" "B"] |}.


Definition emptyGraph : Graph := {| nodes := []; edges := [] |}.

(** The ids of the nodes, in declaration order. *)
Definition nodeIds (g : Graph) : list string := id <$> nodes g.


(** ** Notions used to state the properties *)

(** An edge is kept by the adjacency loop when both endpoints are nodes. *)
Definition validEdge (g : Graph) (e : Edge) : Prop :=
  target e ∈ nodeIds g ∧ source e ∈ nodeIds g.

(** Predecessors and successors of a node, with multiplicity, in edge order. *)
Definition predsOf (g : Graph) (n : string) : list string :=
  source <$> filter (λ e, target e = n ∧ validEdge g e) (edges g).

Definition succsOf (g : Graph) (n : string) : list string :=
  target <$> filter (λ e, source e = n ∧ validEdge g e) (edges g).

Definition edgeRel (g : Graph) (a b : string) : Prop :=
  ∃ e, e ∈ edges g ∧ source e = a ∧ target e = b.

(** No node reaches itself along one or more edges. *)
Definition acyclic (g : Graph) : Prop := ∀ n, ¬ tc (edgeRel g) n n.

(** [a] occurs before [b] in [l]. *)
Definition before (a b : string) (l : list string) : Prop :=
  ∃ i j, i < j ∧ l !! i = Some a ∧ l !! j = Some b.

(** What the adjacency loop has built after the edges [es]. *)
Definition adjOf (g : Graph) (es : list Edge)
    (adj : gmap string (list string) * gmap string (list string)) : Prop :=
  ∀ n,
    adj.1 !! n = (if decide (n ∈ nodeIds g)
                  then Some (source <$> filter (λ e, target e = n ∧ validEdge g e) es)
                  else None) ∧
    adj.2 !! n = (if decide (n ∈ nodeIds g)
                  then Some (target <$> filter (λ e, source e = n ∧ validEdge g e) es)
                  else None).

(** Number of ids whose remaining in-degree is still positive. *)
Definition pending (inDeg : gmap string Z) : nat :=
  size (filter (λ kv : string * Z, (0 < kv.2)%Z) inDeg).

(** The loop measure: entries still to dequeue plus ids still to enqueue. *)
Definition bfsMeasure (st : BfsState) : nat :=
  (length (queue st) - head st) + pending (inDeg st).

(** What every state of the traversal satisfies, for any input graph. *)
Definition bfsSafe (g : Graph) (st : BfsState) : Prop :=
  (∀ k, k ∈ nodeIds g → is_Some (inDeg st !! k)) ∧
  (∀ q, q ∈ queue st → q ∈ nodeIds g ∧ is_Some (JSMap.get (layer st) q)) ∧
  (∀ k, k ∈ JSMap.keys (layer st) → k ∈ nodeIds g) ∧
  NoDup (JSMap.keys (layer st)) ∧
  head st ≤ length (queue st).

(** The in-degree a node starts with, and the seeds of the traversal. *)
Definition inDeg0 (g : Graph) (k : string) : Z := Z.of_nat (length (predsOf g k)).

Definition seedsOf (g : Graph) : list string :=
  filter (λ k, inDeg0 g k = 0%Z) (nodeIds g).

Definition initState (g : Graph) : BfsState :=
  {| layer := foldl (λ m i, JSMap.set m i 0) [] (seedsOf g);
     inDeg := newMap ((λ n, (id n, inDeg0 g (id n))) <$> nodes g);
     queue := seedsOf g;
     head := 0 |}.

(** Consecutive nodes of a row are at least [V_STEP] apart in [nodeY]. *)
Definition gapped (nodeY : gmap string Q) (ids : list string) : Prop :=
  ∀ i a b, ids !! i = Some a → ids !! (S i) = Some b →
    ∃ ya yb, nodeY !! a = Some ya ∧ nodeY !! b = Some yb ∧ (ya + V_STEP <= yb)%Q.

(** No y of the map lies above the top padding. *)
Definition abovePad (nodeY : gmap string Q) : Prop :=
  ∀ k y, nodeY !! k = Some y → (PAD <= y)%Q.

(** The [nodeMap] of [computeLayout]. *)
Definition nodeMapOf (g : Graph) : gmap string Node :=
  newMap ((λ n, (id n, n)) <$> nodes g).

(** The entry of the position map for node [i] of row [l], and the whole
    map row by row. *)
Definition posEntry (nodeMap : gmap string Node) (nodeY : gmap string Q)
    (l : nat) (i : string) : string * Pos :=
  (i, mkPos nodeMap nodeY (PAD + nat2Q l * H_STEP)%Q i).

Definition posRows (nodeMap : gmap string Node) (nodeY : gmap string Q)
    (ln : list (list string)) : list (string * Pos) :=
  concat (imap (λ l ids, posEntry nodeMap nodeY l <$> ids) ln).

(** What the stages of a run satisfy; [st] is the final state of the
    traversal. *)
Definition stagesOK (g : Graph) (st : BfsState) (s : Stages) : Prop :=
  st_pred s = (buildAdj g).1 ∧
  st_succ s = (buildAdj g).2 ∧
  st_layer s = fallback (nodes g) (layer st) ∧
  st_maxLayer s = max_list (JSMap.values (st_layer s)) ∧
  length (st_layerNodes s) = st_maxLayer s + 1 ∧
  (∀ l ids, st_layerNodes s !! l = Some ids →
     ids ≡ₚ (filter (λ p, p.2 = l) (st_layer s)).*1) ∧
  concat (st_layerNodes s) ≡ₚ JSMap.keys (st_layer s) ∧
  NoDup (JSMap.keys (st_layer s)) ∧
  abovePad (st_topDownY s) ∧
  (∀ l ids, st_layerNodes s !! l = Some ids →
     gapped (st_topDownY s) ids ∧ ∀ k, k ∈ ids → is_Some (st_topDownY s !! k)) ∧
  st_nodeY s = st_topDownY s.

(** The bottoms [y + h] of the entries of a position map. *)
Definition bottoms (positions : list (string * Pos)) : list Num :=
  bottom <$> JSMap.values positions.

(** The value returned for a non-empty graph, from its stages, its y map
    and the result [m] of [Math.max] on the bottoms. *)
Definition layoutOf (g : Graph) (s : Stages) (nodeY : gmap string Q) (m : Num) : Layout :=
  {| positions := posRows (nodeMapOf g) nodeY (st_layerNodes s);
     layerNodes := st_layerNodes s;
     maxLayer := st_maxLayer s;
     canvasW := Some (PAD * 2 + (nat2Q (st_maxLayer s) + 1) * H_STEP)%Q;
     canvasH := Some (Num_add m (Fin PAD)) |}.

(** The value returned for a graph without nodes. *)
Definition emptyLayout : Layout :=
  {| positions := []; layerNodes := []; maxLayer := 0;
     canvasW := None; canvasH := None |}.

(** A graph with one of its edges taken out. *)
Definition withoutEdge (g : Graph) (es1 es2 : list Edge) : Graph :=
  {| nodes := nodes g; edges := es1 ++ es2 |}.

(** Results of sample runs. *)
Definition diamondLayout : Layout :=
  Eval vm_compute in default emptyLayout (computeLayout diamondGraph).

Definition cycleLayout : Layout :=
  Eval vm_compute in default emptyLayout (computeLayout cycleGraph).

Definition danglingGraph : Graph :=
  {| nodes := [mkNode "A"; mkNode "B"];
     edges := [mkEdge "X" "A"; mkEdge "A" "B"] |}.

Definition emptyStages : Stages :=
  {| st_pred := ∅; st_succ := ∅; st_layer := []; st_maxLayer := 0;
     st_layerNodes := []; st_topDownY := ∅; st_nodeY := ∅ |}.

(** Stages and traversal state of sample runs. *)
Definition diamondStages : Stages := default emptyStages (stages diamondGraph).
Definition cycleState : BfsState := default (initState cycleGraph) (kahn cycleGraph).
Definition cycleLayers : list (string * nat) :=
  Eval vm_compute in default [] (assignLayers cycleGraph).

(** The barycenter of a node in a sweep over the row [adjacent]. *)
Definition baryKey (neighbors : gmap string (list string)) (adjacent : list string)
    (a : string) : Num :=
  baryPos a neighbors (indexMap adjacent).

(** Equal barycenters: both infinite, or finite and equal as numbers. *)
Definition Num_equiv (a b : Num) : Prop :=
  match a, b with
  | Fin p, Fin q => (p == q)%Q
  | Infinity, Infinity => True
  | _, _ => False
  end.

(** The values [baryPos] can return. *)
Definition regular (k : Num) : Prop := k = Infinity ∨ ∃ q, k = Fin q.

(** The comparator that subtracts the keys of its arguments. *)
Definition keyCmp (key : string → Num) (a b : string) : Num :=
  Num_sub (key a) (key b).

(** [a] does not have to move behind [b]: the comparator is not positive. *)
Definition keyLe (key : string → Num) (a b : string) : Prop :=
  Num_pos (keyCmp key a b) = false.

(** ** Invariant of the traversal on graphs with distinct node ids *)

(** In-edges of [n] whose source is not in [P], and occurrences of [n]
    in a list. *)
Definition unconsumed (g : Graph) (P : list string) (n : string) : nat :=
  length (filter (λ p, p ∉ P) (predsOf g n)).

Definition occurrences (n : string) (l : list string) : nat :=
  length (filter (λ x, x = n) l).

(** [P] are the dequeued nodes, [extra] the successors of the current
    node still to visit, [C p n] the edges already visited. *)
Definition kahnInv (g : Graph) (P extra : list string)
    (C : string → string → Prop) (st : BfsState) : Prop :=
  NoDup (queue st) ∧
  (∀ q, q ∈ queue st → q ∈ nodeIds g) ∧
  (∀ p, p ∈ P → p ∈ queue st) ∧
  (∀ n, n ∈ nodeIds g →
     inDeg st !! n = Some (Z.of_nat (unconsumed g P n + occurrences n extra))) ∧
  (∀ n, n ∈ nodeIds g →
     n ∈ queue st ↔ unconsumed g P n + occurrences n extra = 0) ∧
  (∀ q, q ∈ queue st → is_Some (JSMap.get (layer st) q)) ∧
  (∀ p n, C p n →
     p ∈ queue st ∧
     ∃ lp ln, JSMap.get (layer st) p = Some lp ∧ JSMap.get (layer st) n = Some ln ∧
              lp + 1 ≤ ln) ∧
  (∀ n ln, JSMap.get (layer st) n = Some (S ln) →
     ∃ p, C p n ∧ JSMap.get (layer st) p = Some ln) ∧
  (∀ n, JSMap.get (layer st) n = Some 0 → n ∈ nodeIds g ∧ predsOf g n = []).

(** The edges leaving the dequeued nodes. *)
Definition processedEdges (g : Graph) (P : list string) (p n : string) : Prop :=
  p ∈ P ∧ n ∈ succsOf g p.

(** The invariant between two iterations of the [while] loop. *)
Definition kahnOuter (g : Graph) (st : BfsState) : Prop :=
  head st ≤ length (queue st) ∧
  kahnInv g (take (head st) (queue st)) []
    (processedEdges g (take (head st) (queue st))) st.

(** The layer of a node in a layer map, 0 when it has none. *)
Definition layerOf (layer : list (string * nat)) (n : string) : nat :=
  default 0 (JSMap.get layer n).

(** Predecessors of [n] over all edges of the graph. *)
Definition preds (g : Graph) (n : string) : list string :=
  source <$> filter (λ e, target e = n) (edges g).

(** Every edge joins two nodes of the graph. *)
Definition edgesValid (g : Graph) : Prop := ∀ e, e ∈ edges g → validEdge g e.

(** A rank for the nodes of the diamond graph that grows along its edges. *)
Definition diamondRank (n : string) : nat :=
  if decide (n = "A"%string) then 0 else if decide (n = "D"%string) then 2 else 1.

(** A node list that declares the id A twice (not a graph in the sense of
    the data model, where identifiers are unique). *)
Definition dupGraph : Graph :=
  {| nodes := [mkNode "A"; mkNode "A"; mkNode "B1"; mkNode "B2"; mkNode "C"; mkNode "D"];
     edges := [mkEdge "A" "B1"; mkEdge "B1" "B2"; mkEdge "B2" "C"; mkEdge "A" "C";
               mkEdge "C" "D"] |}.

(** Layer map of a sample run. *)
Definition diamondLayers : list (string * nat) :=
  Eval vm_compute in default [] (assignLayers diamondGraph).

(** ** The placement rule of the top-down pass *)

(** [Math.max(cursor, ideal)] when some predecessor is placed, else the
    cursor; [ys] are the y of the placed predecessors. *)
Definition placeY (cursor : Q) (ys : list Q) : Q :=
  if decide (0 < length ys) then Qmax cursor (mean ys) else cursor.

(** The cursor at index [i] of a row that starts with cursor [c0]. *)
Definition cursorFrom (c0 : Q) (nodeY : gmap string Q) (ids : list string) (i : nat) : Q :=
  match i with
  | 0 => c0
  | S i' => (default PAD (ids !! i' ≫= (nodeY !!.)) + V_STEP)%Q
  end.

(** The nodes placed before index [i] of row [l]. *)
Definition placedBefore (ln : list (list string)) (l i : nat) : list string :=
  concat (take l ln) ++ take i (default [] (ln !! l)).

(** The y of a node in a returned layout. *)
Definition posY (r : Layout) (k : string) : Q :=
  default PAD (y <$> JSMap.get (positions r) k).

(** The cursor at index [i] of a row, read off the returned positions. *)
Definition rowCursor (r : Layout) (ids : list string) (i : nat) : Q :=
  match i with
  | 0 => PAD
  | S i' => (default PAD (posY r <$> ids !! i') + V_STEP)%Q
  end.

(** Three nodes without edges, and their layout. *)
Definition edgelessGraph : Graph :=
  {| nodes := [mkNode "P"; mkNode "Q"; mkNode "R"]; edges := [] |}.

Definition edgelessLayout : Layout :=
  Eval vm_compute in default emptyLayout (computeLayout edgelessGraph).

(** ** Callers of the layout: edge routing in [renderGraph] *)

Definition CONN_Y : Q := 60%Q.

Definition edgeClassFor (nodeType : option string) : string :=
  match nodeType with
  | Some "incast"%string => "edge-incast"
  | Some "op"%string => "edge-op"
  | Some "outcast"%string => "edge-outcast"
  | _ => "edge-default"
  end.

(** The path element made for an edge: the cubic curve
    [M x1 y1 C c1x y1 c2x y2 x2 y2] of its [d] attribute, its
    [data-source] and [data-target], and the edge class of its [class]. *)
Record EdgePath := {
  ep_source : string; ep_target : string; ep_class : string;
  ep_x1 : Q; ep_y1 : Q; ep_c1x : Q; ep_c2x : Q; ep_x2 : Q; ep_y2 : Q
}.

(** One iteration of [for (const edge of edges)]; [None] is the
    [continue] taken when an endpoint has no position. *)
Definition edgePath (nodeMap : gmap string Node) (positions : list (string * Pos))
    (e : Edge) : option EdgePath :=
  sp ← JSMap.get positions (source e);
  tp ← JSMap.get positions (target e);
  let srcNode := nodeMap !! source e in
  let x1 := (x sp + w sp)%Q in
  let y1 := (y sp + CONN_Y)%Q in
  let x2 := x tp in
  let y2 := (y tp + CONN_Y)%Q in
  let dx := ((x2 - x1) * (45 # 100))%Q in
  Some {| ep_source := source e; ep_target := target e;
          ep_class := edgeClassFor (type <$> srcNode);
          ep_x1 := x1; ep_y1 := y1; ep_c1x := (x1 + dx)%Q; ep_c2x := (x2 - dx)%Q;
          ep_x2 := x2; ep_y2 := y2 |}.

(** The paths appended to the edge group of [renderGraph], in order. *)
Definition renderEdges (g : Graph) (r : Layout) : list EdgePath :=
  omap (edgePath (nodeMapOf g) (positions r)) (edges g).

(** ** Callers of the layout: the view transform of [app.js]

    The state is [tx], [ty] and [scale]; [applyTransform] only writes
    them to the page.  [vw] and [vh] are [viewport.clientWidth] and
    [viewport.clientHeight]. *)

Record View := { tx : Q; ty : Q; scale : Q }.

Definition SCALE_MIN : Q := (6 # 100)%Q.
Definition SCALE_MAX : Q := 4%Q.

(** The number a canvas side holds, if it is finite. *)
Definition finite (v : Num) : option Q :=
  match v with
  | Fin q => Some q
  | _ => None
  end.

(** [fitView]; [layout] is [None] before a graph is loaded.  The result
    is [None] where [canvasH] is undefined, zero or not a finite number,
    so that the source computes with a quotient that is not a finite
    number. *)
Definition fitView (layout : option Layout) (vw vh : Q) (v : View) : option View :=
  match layout ≫= canvasW with
  | None => Some v
  | Some cw =>
      if Qeq_bool cw 0 then Some v
      else
        ch ← (layout ≫= canvasH) ≫= finite;
        if Qeq_bool ch 0 then None
        else
          let pad := 48%Q in
          let s := Qmin (Qmin ((vw - pad * 2) / cw) ((vh - pad * 2) / ch)) 1 in
          Some {| tx := ((vw - cw * s) / 2)%Q; ty := ((vh - ch * s) / 2)%Q; scale := s |}
  end.

(** [zoomAround]; [None] where the scale is zero, so that the ratio
    [ns / scale] of the source is not a finite number. *)
Definition zoomAround (cx cy factor : Q) (v : View) : option View :=
  if Qeq_bool (scale v) 0 then None
  else
    let ns := Qmax SCALE_MIN (Qmin SCALE_MAX (scale v * factor)) in
    let r := (ns / scale v)%Q in
    Some {| tx := (cx - r * (cx - tx v))%Q; ty := (cy - r * (cy - ty v))%Q; scale := ns |}.

(** The view part of [navigateToNode]; [None] where [pos.h] is not a
    number, so that [pos.h / 2] and the new [ty] are [NaN]. *)
Definition navigateToNode (layout : option Layout) (vw vh : Q) (nodeId : string)
    (v : View) : option View :=
  match layout with
  | None => Some v
  | Some r =>
      match JSMap.get (positions r) nodeId with
      | None => Some v
      | Some pos =>
          match h pos with
          | Px hq =>
              let cx := (x pos + w pos / 2)%Q in
              let cy := (y pos + hq / 2)%Q in
              Some {| tx := (vw / 2 - cx * scale v)%Q; ty := (vh / 2 - cy * scale v)%Q;
                      scale := scale v |}
          | Inherited _ => None
          end
      end
  end.

(** Where the view draws the graph point [(gx, gy)]. *)
Definition screenX (v : View) (gx : Q) : Q := (tx v + gx * scale v)%Q.
Definition screenY (v : View) (gy : Q) : Q := (ty v + gy * scale v)%Q.

(** ** [escHtml] *)

(** [s.replace(/c/g, by)] for a single character [c]. *)
Fixpoint replaceAll (c : Ascii.ascii) (by_ : String.string) (s : String.string)
  : String.string :=
  match s with
  | EmptyString => EmptyString
  | String a s' =>
      if Ascii.eqb a c then String.append by_ (replaceAll c by_ s')
      else String a (replaceAll c by_ s')
  end.

Definition escHtml (str : String.string) : String.string :=
  replaceAll "034"%char "&quot;"
    (replaceAll ">"%char "&gt;"
       (replaceAll "<"%char "&lt;"
          (replaceAll "&"%char "&amp;" str))).

(** The characters of a string. *)
Fixpoint chars (s : String.string) : list Ascii.ascii :=
  match s with
  | EmptyString => []
  | String a s' => a :: chars s'
  end.

(** The endpoints of an edge and of a drawn path. *)
Definition ends (e : Edge) : string * string := (source e, target e).
Definition ep_ends (p : EdgePath) : string * string := (ep_source p, ep_target p).

Definition danglingLayout : Layout :=
  Eval vm_compute in default emptyLayout (computeLayout danglingGraph).

(** ** The handlers of [app.js] that change the view

    [EvFit]: the fit button, the key F and the end of loading call
    [fitView]; [EvZoom]: the zoom buttons, the wheel, pinching and the
    keys + and - call [zoomAround]; [EvPan]: dragging with the mouse or
    one finger assigns [tx] and [ty]; [EvNavigate]: [navigateToNode]. *)
Inductive ViewEvent :=
  | EvFit (layout : option Layout) (vw vh : Q)
  | EvZoom (cx cy factor : Q)
  | EvPan (tx' ty' : Q)
  | EvNavigate (layout : option Layout) (vw vh : Q) (nodeId : string).

Definition handle (v : View) (ev : ViewEvent) : option View :=
  match ev with
  | EvFit layout vw vh => fitView layout vw vh v
  | EvZoom cx cy factor => zoomAround cx cy factor v
  | EvPan tx' ty' => Some {| tx := tx'; ty := ty'; scale := scale v |}
  | EvNavigate layout vw vh nodeId => navigateToNode layout vw vh nodeId v
  end.

(** [let tx = 0, ty = 0, scale = 1]. *)
Definition initialView : View := {| tx := 0; ty := 0; scale := 1 |}.

(** The variable [layout] of [app.js]: [null], or the result of
    [computeLayout] on the loaded graph, here a graph whose node types
    name no member of [Object.prototype]. *)
Definition layoutVar (layout : option Layout) : Prop :=
  layout = None ∨ ∃ g, plainTypes g ∧ computeLayout g = layout.

(** An event as the page can produce it, [fitView] running in a viewport
    larger than its two margins. *)
Definition pageEvent (ev : ViewEvent) : Prop :=
  match ev with
  | EvFit layout vw vh => layoutVar layout ∧ (96 < vw)%Q ∧ (96 < vh)%Q
  | EvNavigate layout _ _ _ => layoutVar layout
  | _ => True
  end.

(** What [escHtml] makes of one character. *)
Definition escChar (a : ascii) : string :=
  if Ascii.eqb a "&" then "&amp;"
  else if Ascii.eqb a "<" then "&lt;"
  else if Ascii.eqb a ">" then "&gt;"
  else if Ascii.eqb a "034" then "&quot;"
  else String a EmptyString.

(** The characters [escHtml] replaces, and those that end or open markup
    or an attribute value. *)
Definition special (a : ascii) : Prop :=
  a = "&"%char ∨ a = "<"%char ∨ a = ">"%char ∨ a = "034"%char.

Definition markup (a : ascii) : Prop :=
  a = "<"%char ∨ a = ">"%char ∨ a = "034"%char.

(** ** The parser of the compiler's graph format ([parseGraph])

    The part of [parseGraph] that makes the graph the layout reads: the
    ids and types of the nodes and the edges, for an input with
    [functions] (an input with a [nodes] array and no [functions] goes to
    [parseSampleGraph], which is not modelled).  Labels, the [data] of a
    node and [meta] are left out.  A magic number is an integer of
    magnitude below [10^21], which the template strings [t_${magic}] and
    [op_${magic}] write in decimal (from [10^21] on a number is written
    with an exponent, which [pretty] does not do). *)

Record Tensor := { magic : Z }.
Record Op := { opmagic : Z; ioperands : list Z; ooperands : list Z }.

(** [data.functions[0]]; [incasts] and [outcasts] hold the first
    component of each entry, the magic number of a tensor. *)
Record Func := {
  tensors : list Tensor; operations : list Op;
  incasts : list Z; outcasts : list Z
}.

Definition tensorId (m : Z) : string := "t_" +:+ pretty m.
Definition opId (m : Z) : string := "op_" +:+ pretty m.

Definition tensorNode (incastSet outcastSet : gset Z) (tensor : Tensor) : Node :=
  let type0 := "tensor"%string in
  let type1 := if decide (magic tensor ∈ incastSet) then "incast"%string else type0 in
  let type2 := if decide (magic tensor ∈ outcastSet) then "outcast"%string else type1 in
  {| id := tensorId (magic tensor); type := type2 |}.

Definition opNode (op : Op) : Node := {| id := opId (opmagic op); type := "op" |}.

(** The two loops over the operands of an operation. *)
Definition pushInputs (tensorMap : gmap Z Tensor) (op : Op) (edges : list Edge) : list Edge :=
  foldl (λ edges tId,
           if decide (is_Some (tensorMap !! tId))
           then edges ++ [mkEdge (tensorId tId) (opId (opmagic op))] else edges)
        edges (ioperands op).

Definition pushOutputs (tensorMap : gmap Z Tensor) (op : Op) (edges : list Edge) : list Edge :=
  foldl (λ edges tId,
           if decide (is_Some (tensorMap !! tId))
           then edges ++ [mkEdge (opId (opmagic op)) (tensorId tId)] else edges)
        edges (ooperands op).

(** The body of [for (const op of opList)]. *)
Definition opStep (tensorMap : gmap Z Tensor) (st : list Node * list Edge) (op : Op)
  : list Node * list Edge :=
  let nodes := st.1 ++ [opNode op] in
  let edges := pushOutputs tensorMap op (pushInputs tensorMap op st.2) in
  (nodes, edges).

Definition parseFunc (func : Func) : Graph :=
  let tensorMap : gmap Z Tensor :=
    foldl (λ m t, <[magic t := t]> m) ∅ (tensors func) in
  let incastSet : gset Z := list_to_set (incasts func) in
  let outcastSet : gset Z := list_to_set (outcasts func) in
  let nodes := foldl (λ nodes t, nodes ++ [tensorNode incastSet outcastSet t]) []
                 (tensors func) in
  let st := foldl (opStep tensorMap) (nodes, []) (operations func) in
  {| nodes := st.1; edges := st.2 |}.

(** The edges of one operation: from its input tensors, then to its
    output tensors, for the operands that are magic numbers of tensors. *)
Definition opEdges (func : Func) (op : Op) : list Edge :=
  ((λ tId, mkEdge (tensorId tId) (opId (opmagic op)))
     <$> filter (λ tId, tId ∈ magic <$> tensors func) (ioperands op)) ++
  ((λ tId, mkEdge (opId (opmagic op)) (tensorId tId))
     <$> filter (λ tId, tId ∈ magic <$> tensors func) (ooperands op)).

(** A function with three tensors and one operation, one of whose
    operands names no tensor. *)
Definition sampleFunc : Func :=
  {| tensors := [{| magic := 1 |}; {| magic := 2 |}; {| magic := 3 |}];
     operations := [{| opmagic := 10; ioperands := [1; 2; 99]; ooperands := [3] |}];
     incasts := [1; 2]; outcasts := [3] |}%Z.

Definition sampleFuncLayout : Layout :=
  Eval vm_compute in default emptyLayout (computeLayout (parseFunc sampleFunc)).

(** [a] is joined to [b] by an edge between two nodes of the graph. *)
Definition linked (g : Graph) (a b : string) : Prop := a ∈ predsOf g b.

(** The diamond with its edges in another order and one of them twice. *)
Definition diamondGraphShuffled : Graph :=
  {| nodes := [mkNode "A"; mkNode "B"; mkNode "C"; mkNode "D"];
     edges := [mkEdge "C" "D"; mkEdge "A" "C"; mkEdge "B" "D"; mkEdge "A" "B";
               mkEdge "A" "C"] |}.

Definition diamondLayoutShuffled : Layout :=
  Eval vm_compute in default emptyLayout (computeLayout diamondGraphShuffled).

(** No y of the map lies below [b]. *)
Definition belowBound (nodeY : gmap string Q) (b : Q) : Prop :=
  ∀ k v, nodeY !! k = Some v → (v <= b)%Q.

(** ** The stage of a compiler pass ([scan_passes.js]) *)

Record Stage := { st_label : string; st_from : Z; st_to : Z }.

Definition STAGES : list Stage :=
  [ {| st_label := "Tensor"; st_from := 0; st_to := 4 |};
    {| st_label := "Tile"; st_from := 5; st_to := 26 |};
    {| st_label := "Split"; st_from := 27; st_to := 27 |};
    {| st_label := "Block/Execute"; st_from := 28; st_to := 36 |} ]%Z.

(** [STAGES.find(s => idx >= s.range[0] && idx <= s.range[1])?.label ?? 'Unknown'] *)
Definition getStage (idx : Z) : string :=
  default "Unknown"
    ((λ s, st_label s.2)
       <$> list_find (λ s, (st_from s ≤ idx)%Z ∧ (idx ≤ st_to s)%Z) STAGES).

(** ** The minimap ([drawMinimap])

    The rectangles filled for the nodes and the rectangle of the
    viewport; colours are left out.  [mw] and [mh] are the width and
    height of the minimap canvas. *)

Record Rect := { rc_left : Z; rc_top : Z; rc_width : Z; rc_height : Z }.

(** [Math.round]: the nearest integer, halves rounded up. *)
Definition Math_round (q : Q) : Z := Qfloor (q + (1 # 2)).

(** [v || d] for a number that may be undefined. *)
Definition orElse (v : option Q) (d : Q) : Q :=
  match v with
  | Some q => if Qeq_bool q 0 then d else q
  | None => d
  end.

(** [v || d] for the canvas height, which may be undefined or [NaN];
    [None] for an infinite height. *)
Definition orElseNum (v : option Num) (d : Q) : option Q :=
  match v with
  | Some (Fin q) => Some (if Qeq_bool q 0 then d else q)
  | Some NaN | None => Some d
  | Some _ => None
  end.

(** The argument of [fillRect] for a node.  [None] is the [continue], or
    a call with an argument that is not a finite number, which draws
    nothing: a height that is not a number makes the last argument
    [NaN], an infinite canvas height makes the second one not finite. *)
Definition minimapRect (layout : Layout) (mw mh : Q) (node : Node) : option Rect :=
  pos ← JSMap.get (positions layout) (id node);
  hq ← match h pos with Px q => Some q | Inherited _ => None end;
  ch1 ← orElseNum (canvasH layout) 1;
  ch0 ← orElseNum (canvasH layout) 0;
  let gs := (Qmin (mw / orElse (canvasW layout) 1) (mh / ch1) * (92 # 100))%Q in
  let ox := ((mw - orElse (canvasW layout) 0 * gs) / 2)%Q in
  let oy := ((mh - ch0 * gs) / 2)%Q in
  Some {| rc_left := Math_round (x pos * gs + ox);
          rc_top := Math_round (y pos * gs + oy);
          rc_width := Z.max 2 (Math_round (w pos * gs));
          rc_height := Z.max 1 (Math_round (hq * gs)) |}.

(** The rectangles filled by [drawMinimap], in order; none when the
    position map is empty. *)
Definition minimapRects (g : Graph) (layout : Layout) (mw mh : Q) : list Rect :=
  if decide (length (positions layout) = 0) then []
  else omap (minimapRect layout mw mh) (nodes g).

(** In the rows before row [j], every row is in ascending order of the
    barycenters its nodes have in the row before it. *)
Definition rowsSorted (pred : gmap string (list string)) (ln : list (list string))
    (j : nat) : Prop :=
  ∀ l prev ids, S l < j → ln !! l = Some prev → ln !! S l = Some ids →
    StronglySorted (keyLe (baryKey pred prev)) ids.

(** The indices, in the row [adjacent], of the neighbours of [a] that
    are in that row. *)
Definition neighborIndices (neighbors : gmap string (list string))
    (adjacent : list string) (a : string) : list nat :=
  omap (λ n, indexMap adjacent !! n) (default [] (neighbors !! a)).



(** The number of pixels of a height that is a number. *)
Definition pxOf (hh : Height) : Q :=
  match hh with
  | Px q => q
  | Inherited _ => 0%Q
  end.

(** * The layout in floating-point arithmetic

    The numbers of the program are IEEE-754 doubles, and the algorithm of
    [Array.prototype.sort] is the engine's.  [Fl] is [computeLayout] once
    more, statement by statement as above, with two parameters: the
    rounding [rnd], applied to the result of every sum, difference and
    quotient whose exact value need not be a double, and the function
    [sort].  Not rounded are [Math.max] and [Math.min], which return one
    of their arguments, the products and sums of [PAD + l * H_STEP] and of
    the canvas width, which are integers far below [2^53], and the
    difference the comparator returns, of which the sort reads the sign
    only: the sign of a rounded difference of two doubles is the sign of
    the exact difference.  With the identity for [rnd] and the insertion
    sort for [sort] this is the computation on exact numbers above. *)

Module Fl.
Section engine.
Variable rnd : Q → Q.
Variable sort : (string → string → Num) → list string → list string.

(** The rounding of a number that may be infinite. *)
Definition roundNum (v : Num) : Num :=
  match v with
  | Fin q => Fin (rnd q)
  | _ => v
  end.

Definition baryPos (nodeId : string) (neighbors : gmap string (list string))
    (prevPositions : gmap string nat) : Num :=
  let nbrs := default [] (neighbors !! nodeId) in
  if decide (length nbrs = 0) then Infinity
  else
    let '(sum, count) :=
      foldl (λ '(sum, count) nid,
               match prevPositions !! nid with
               | Some p => (rnd (sum + nat2Q p), count + 1)
               | None => (sum, count)
               end) (0%Q, 0) nbrs in
    if decide (0 < count) then Fin (rnd (sum / nat2Q count)) else Infinity.

Definition baryCmp (neighbors : gmap string (list string)) (adjacent : list string)
    (a b : string) : Num :=
  Num_sub (baryPos a neighbors (indexMap adjacent))
          (baryPos b neighbors (indexMap adjacent)).

Definition sortLayer (neighbors : gmap string (list string))
    (adjacent ids : list string) : list string :=
  sort (baryCmp neighbors adjacent) ids.

Definition forwardStep (pred : gmap string (list string))
    (layerNodes : list (list string)) (l : nat) : option (list (list string)) :=
  prev ← layerNodes !! (l - 1);
  ids ← layerNodes !! l;
  Some (<[l := sortLayer pred prev ids]> layerNodes).

Definition backwardStep (succ : gmap string (list string))
    (layerNodes : list (list string)) (l : nat) : option (list (list string)) :=
  next ← layerNodes !! (l + 1);
  ids ← layerNodes !! l;
  Some (<[l := sortLayer succ next ids]> layerNodes).

Definition forwardPass pred (maxLayer : nat) layerNodes :=
  foldM (forwardStep pred) layerNodes (seq 1 maxLayer).

Definition backwardPass succ (maxLayer : nat) layerNodes :=
  foldM (backwardStep succ) layerNodes (reverse (seq 0 maxLayer)).

Definition minimizeCrossings pred succ (maxLayer : nat) layerNodes :=
  ln1 ← forwardPass pred maxLayer layerNodes;
  ln2 ← backwardPass succ maxLayer ln1;
  forwardPass pred maxLayer ln2.

(** [ys.reduce((s, p) => s + p, 0) / ys.length] *)
Definition mean (ys : list Q) : Q :=
  rnd (foldl (λ s p, rnd (s + p)) 0 ys / nat2Q (length ys))%Q.

Definition placeNode (pred : gmap string (list string))
    (st : gmap string Q * Q) (i : string) : gmap string Q * Q :=
  let '(nodeY, cursor) := st in
  let placedPreds := placed nodeY pred i in
  let y := if decide (0 < length placedPreds)
           then Qmax cursor (mean placedPreds) else cursor in
  (<[i := y]> nodeY, rnd (y + V_STEP)).

Definition topDownStep pred (layerNodes : list (list string))
    (nodeY : gmap string Q) (l : nat) : option (gmap string Q) :=
  ids ← layerNodes !! l;
  Some (foldl (placeNode pred) (nodeY, PAD) ids).1.

Definition topDown pred (maxLayer : nat) layerNodes : option (gmap string Q) :=
  foldM (topDownStep pred layerNodes) ∅ (seq 0 (maxLayer + 1)).

Definition pullNode (succ : gmap string (list string))
    (st : gmap string Q * option Q) (i : string)
  : option (gmap string Q * option Q) :=
  let '(nodeY, ceiling) := st in
  let placedSuccs := placed nodeY succ i in
  nodeY' ←
    (if decide (0 < length placedSuccs) then
       let ideal := mean placedSuccs in
       let maxY := match ceiling with
                   | None => ideal
                   | Some c => Qmin ideal (rnd (c - V_STEP))
                   end in
       yi ← nodeY !! i;
       if Qltb yi maxY then Some nodeY
       else Some (<[i := Qmax yi (if Qltb maxY PAD then PAD else maxY)]> nodeY)
     else Some nodeY);
  c ← nodeY' !! i;
  Some (nodeY', Some c).

Definition bottomUpStep succ (layerNodes : list (list string))
    (nodeY : gmap string Q) (l : nat) : option (gmap string Q) :=
  ids ← layerNodes !! l;
  st ← foldM (pullNode succ) (nodeY, None) (reverse ids);
  Some st.1.

Definition bottomUp succ (maxLayer : nat) layerNodes (nodeY : gmap string Q)
  : option (gmap string Q) :=
  foldM (bottomUpStep succ layerNodes) nodeY (reverse (seq 0 maxLayer)).

(** [p.y + p.h] *)
Definition bottom (p : Pos) : Num :=
  match h p with
  | Px q => Fin (rnd (y p + q))
  | Inherited _ => NaN
  end.

Definition stages (g : Graph) : option Stages :=
  let '(pred, succ) := buildAdj g in
  layer ← assignLayers g;
  let maxLayer := max_list (JSMap.values layer) in
  grouped ← groupByLayer maxLayer layer;
  layerNodes ← minimizeCrossings pred succ maxLayer grouped;
  nodeY0 ← topDown pred maxLayer layerNodes;
  nodeY ← bottomUp succ maxLayer layerNodes nodeY0;
  Some {| st_pred := pred; st_succ := succ; st_layer := layer;
          st_maxLayer := maxLayer; st_layerNodes := layerNodes;
          st_topDownY := nodeY0; st_nodeY := nodeY |}.

Definition finish (g : Graph) (s : Stages) (nodeY : gmap string Q) : option Layout :=
  let nodeMap := newMap ((λ n, (id n, n)) <$> nodes g) in
  positions ← buildPositions nodeMap nodeY (st_maxLayer s) (st_layerNodes s);
  let maxNodeBottom := Math_max (bottom <$> JSMap.values positions) in
  Some {| positions := positions;
          layerNodes := st_layerNodes s;
          maxLayer := st_maxLayer s;
          canvasW := Some (PAD * 2 + (nat2Q (st_maxLayer s) + 1) * H_STEP)%Q;
          canvasH := Some (roundNum (Num_add maxNodeBottom (Fin PAD))) |}.

Definition computeLayout (g : Graph) : option Layout :=
  if decide (length (nodes g) = 0) then
    Some {| positions := []; layerNodes := []; maxLayer := 0;
            canvasW := None; canvasH := None |}
  else
    s ← stages g;
    finish g s (st_nodeY s).

(** The barycenter of a node in a sweep over the row [adjacent]. *)
Definition baryKey (neighbors : gmap string (list string)) (adjacent : list string)
    (a : string) : Num :=
  baryPos a neighbors (indexMap adjacent).

(** Consecutive nodes of a row: the second is not above the cursor the
    first one left, [y + V_STEP] rounded. *)
Definition gapped (nodeY : gmap string Q) (ids : list string) : Prop :=
  ∀ i a b, ids !! i = Some a → ids !! (S i) = Some b →
    ∃ ya yb, nodeY !! a = Some ya ∧ nodeY !! b = Some yb ∧ (rnd (ya + V_STEP) <= yb)%Q.

(** What the stages of a run satisfy; [st] is the final state of the
    traversal. *)
Definition stagesOK (g : Graph) (st : BfsState) (s : Stages) : Prop :=
  st_pred s = (buildAdj g).1 ∧
  st_succ s = (buildAdj g).2 ∧
  st_layer s = fallback (nodes g) (layer st) ∧
  st_maxLayer s = max_list (JSMap.values (st_layer s)) ∧
  length (st_layerNodes s) = st_maxLayer s + 1 ∧
  (∀ l ids, st_layerNodes s !! l = Some ids →
     ids ≡ₚ (filter (λ p, p.2 = l) (st_layer s)).*1) ∧
  concat (st_layerNodes s) ≡ₚ JSMap.keys (st_layer s) ∧
  NoDup (JSMap.keys (st_layer s)) ∧
  abovePad (st_topDownY s) ∧
  (∀ l ids, st_layerNodes s !! l = Some ids →
     gapped (st_topDownY s) ids ∧ ∀ k, k ∈ ids → is_Some (st_topDownY s !! k)) ∧
  st_nodeY s = st_topDownY s.

(** The bottoms [y + h] of the entries of a position map. *)
Definition bottoms (positions : list (string * Pos)) : list Num :=
  bottom <$> JSMap.values positions.

(** The value returned for a non-empty graph, from its stages, its y map
    and the result [m] of [Math.max] on the bottoms. *)
Definition layoutOf (g : Graph) (s : Stages) (nodeY : gmap string Q) (m : Num) : Layout :=
  {| positions := posRows (nodeMapOf g) nodeY (st_layerNodes s);
     layerNodes := st_layerNodes s;
     maxLayer := st_maxLayer s;
     canvasW := Some (PAD * 2 + (nat2Q (st_maxLayer s) + 1) * H_STEP)%Q;
     canvasH := Some (roundNum (Num_add m (Fin PAD))) |}.

End engine.
End Fl.

(** What the language guarantees of [Array.prototype.sort] when the
    comparator subtracts keys that are numbers or [Infinity] (a consistent
    comparator): the result is a permutation in ascending order of the
    keys, and elements with equal keys keep their order. *)
Definition sortContract
    (sort : (string → string → Num) → list string → list string) : Prop :=
  ∀ key l, (∀ a, regular (key a)) → NoDup l →
    sort (keyCmp key) l ≡ₚ l ∧
    StronglySorted (keyLe key) (sort (keyCmp key) l) ∧
    ∀ a b, before a b l → Num_equiv (key a) (key b) → before a b (sort (keyCmp key) l).

(** What is used of the rounding of IEEE-754 arithmetic: it is monotone,
    and the integers up to [2^53] are doubles. *)
Definition rounding (rnd : Q → Q) : Prop :=
  (∀ p q, (p <= q)%Q → (rnd p <= rnd q)%Q) ∧
  (∀ z, (Z.abs z ≤ 2 ^ 53)%Z → (rnd (inject_Z z) == inject_Z z)%Q).

(** Round to the nearest integer, ties to the even one. *)
Definition roundEven (q : Q) : Z :=
  let f := Qfloor q in
  match (q - inject_Z f ?= 1 # 2)%Q with
  | Lt => f
  | Gt => (f + 1)%Z
  | Eq => if Z.even f then f else (f + 1)%Z
  end.

(** The exponent [k] with [2^k <= q < 2^(k+1)], for a positive [q]. *)
Definition ilog2 (q : Q) : Z :=
  if Qle_bool 1 q then Z.log2 (Qfloor q)
  else (- Z.log2_up (Qceiling (/ q)))%Z.

(** The exponent of the last bit of the significand of the double
    nearest to a positive [q]: 52 below that of [q], and no less than
    that of the subnormal numbers. *)
Definition ulpExp (q : Q) : Z := Z.max (ilog2 q - 52) (-1074).

Definition roundPos (q : Q) : Q :=
  Qred (inject_Z (roundEven (q / 2 ^ ulpExp q)) * 2 ^ ulpExp q).

(** The double nearest to [q], ties to the even significand.  The
    exponent has no upper bound here: the overflow to [Infinity] of
    numbers of [2^1024] and more is not modelled. *)
Definition round64 (q : Q) : Q :=
  match (q ?= 0)%Q with
  | Eq => 0%Q
  | Gt => roundPos q
  | Lt => (- roundPos (- q))%Q
  end.

(** A graph in which the mean of three predecessors is not a double, and
    its layout in doubles. *)
Definition gapGraph : Graph :=
  {| nodes := [mkNode "A0"; mkNode "A1"; mkNode "B0"; mkNode "B1"; mkNode "T0"; mkNode "T1"];
     edges := [mkEdge "A0" "B0"; mkEdge "A1" "B1"; mkEdge "A1" "T0"; mkEdge "B0" "T0";
               mkEdge "B1" "T0"; mkEdge "B1" "T1"] |}.

Definition gapLayout : Layout :=
  Eval vm_compute in default emptyLayout (Fl.computeLayout round64 Array_sort gapGraph).

(** [v < 0], false for [NaN]. *)
Definition Num_neg (v : Num) : bool :=
  match v with
  | Fin q => Qltb q 0
  | NegInfinity => true
  | _ => false
  end.

(** ** A second sort: insertion from the left

    Each element in turn is inserted into the sorted prefix, in front of
    the first element the comparator puts it before (a negative result).
    This is the order in which a binary insertion sort, the sort of short
    arrays in V8, places the elements. *)
Fixpoint insertLeft (cmp : string → string → Num) (a : string) (l : list string)
  : list string :=
  match l with
  | [] => [a]
  | b :: l' => if Num_neg (cmp a b) then a :: b :: l' else b :: insertLeft cmp a l'
  end.

Definition insertionSortLeft (cmp : string → string → Num) (l : list string)
  : list string :=
  foldl (λ sorted a, insertLeft cmp a sorted) [] l.

(** A rank for the ids of [dupGraph] that grows along its edges. *)
Definition dupRank (n : string) : nat :=
  if decide (n = "A"%string) then 0
  else if decide (n = "B1"%string) then 1
  else if decide (n = "B2"%string) then 2
  else if decide (n = "C"%string) then 3 else 4.

(** Layer map of the run on [dupGraph]. *)
Definition dupLayers : list (string * nat) :=
  Eval vm_compute in default [] (assignLayers dupGraph).
(** * Properties *)

(** ** Rational arithmetic helpers *)

Lemma Qltb_lt (a b : Q) : Qltb a b = true ↔ (a < b)%Q.
Proof. unfold Qltb, Qlt. apply Z.ltb_lt. Qed.

Lemma Qltb_ge (a b : Q) : Qltb a b = false ↔ (b <= a)%Q.
Proof. unfold Qltb, Qle. rewrite Z.ltb_ge. reflexivity. Qed.

(** [Math.max] returns its first argument unless the second is larger. *)
Lemma Qmax_left (a b : Q) : (b <= a)%Q → Qmax a b = a.
Proof.
  intros Hle. unfold Qmax, GenericMinMax.gmax.
  destruct (a ?= b)%Q eqn:Hc; try reflexivity.
  apply Qlt_alt in Hc. exfalso. apply (Qlt_not_le _ _ Hc Hle).
Qed.

Lemma Qmax_cases (a b : Q) : Qmax a b = a ∨ Qmax a b = b.
Proof. unfold Qmax, GenericMinMax.gmax. destruct (a ?= b)%Q; auto. Qed.

(** ** Facts about [JSMap] *)

Section jsmap_facts.
Context {V : Type}.
Implicit Types (m : list (string * V)) (k : string) (v : V).

Lemma JSMap_get_cons p m k :
  JSMap.get (p :: m) k = if decide (p.1 = k) then Some p.2 else JSMap.get m k.
Proof.
  unfold JSMap.get. simpl. case_bool_decide; case_decide; done.
Qed.

Lemma JSMap_get_set_eq m k v : JSMap.get (JSMap.set m k v) k = Some v.
Proof.
  induction m as [|p m IH]; simpl.
  - rewrite JSMap_get_cons. simpl. by rewrite decide_True.
  - case_decide; rewrite JSMap_get_cons; simpl.
    + by rewrite decide_True.
    + by rewrite decide_False.
Qed.

Lemma JSMap_get_set_ne m k k' v :
  k ≠ k' → JSMap.get (JSMap.set m k v) k' = JSMap.get m k'.
Proof.
  intros Hne. induction m as [|p m IH]; simpl.
  - rewrite JSMap_get_cons. simpl. by rewrite decide_False.
  - case_decide as Hp; rewrite !JSMap_get_cons; simpl.
    + rewrite decide_False by done. rewrite decide_False; [done|congruence].
    + by rewrite IH.
Qed.

Lemma JSMap_get_is_Some m k : is_Some (JSMap.get m k) ↔ k ∈ JSMap.keys m.
Proof.
  unfold JSMap.keys. induction m as [|p m IH].
  - split; [intros [? ?]; done | intros ?%elem_of_nil; done].
  - rewrite JSMap_get_cons, fmap_cons, elem_of_cons. case_decide as Hp.
    + split; [auto | eauto].
    + rewrite IH. split; [auto | intros [?|?]; [congruence | done]].
Qed.

Lemma JSMap_get_None m k : JSMap.get m k = None ↔ k ∉ JSMap.keys m.
Proof. rewrite <-JSMap_get_is_Some, eq_None_not_Some. done. Qed.

Lemma JSMap_has_true m k : JSMap.has m k = true ↔ k ∈ JSMap.keys m.
Proof. unfold JSMap.has. rewrite bool_decide_eq_true. apply JSMap_get_is_Some. Qed.

Lemma JSMap_keys_set_in m k v :
  k ∈ JSMap.keys m → JSMap.keys (JSMap.set m k v) = JSMap.keys m.
Proof.
  unfold JSMap.keys. induction m as [|p m IH]; simpl.
  - intros ?%elem_of_nil. done.
  - intros Hin. case_decide as Hp; simpl.
    + by rewrite Hp.
    + f_equal. apply IH. apply elem_of_cons in Hin as [?|?]; [congruence|done].
Qed.

Lemma JSMap_keys_set_notin m k v :
  k ∉ JSMap.keys m → JSMap.keys (JSMap.set m k v) = JSMap.keys m ++ [k].
Proof.
  unfold JSMap.keys. induction m as [|p m IH]; simpl; [done|].
  intros Hin. apply not_elem_of_cons in Hin as [Hne Hin].
  rewrite decide_False by done. simpl. f_equal. by apply IH.
Qed.

Lemma JSMap_elem_of_keys_set m k k' v :
  k' ∈ JSMap.keys (JSMap.set m k v) ↔ k' = k ∨ k' ∈ JSMap.keys m.
Proof.
  destruct (decide (k ∈ JSMap.keys m)) as [Hin|Hin].
  - rewrite JSMap_keys_set_in by done. split; [auto | intros [->|?]; done].
  - rewrite JSMap_keys_set_notin by done.
    rewrite elem_of_app, list_elem_of_singleton. tauto.
Qed.

Lemma JSMap_NoDup_keys_set m k v :
  NoDup (JSMap.keys m) → NoDup (JSMap.keys (JSMap.set m k v)).
Proof.
  intros Hnd. destruct (decide (k ∈ JSMap.keys m)) as [Hin|Hin].
  - by rewrite JSMap_keys_set_in.
  - rewrite JSMap_keys_set_notin by done.
    apply NoDup_app. split_and!; [done | | apply NoDup_singleton].
    intros a Ha ->%list_elem_of_singleton. done.
Qed.

Lemma JSMap_set_id m k v : JSMap.get m k = Some v → JSMap.set m k v = m.
Proof.
  induction m as [|[k0 v0] m IH]; [done|].
  rewrite JSMap_get_cons. simpl. case_decide as Hp.
  - intros [= ->]. by rewrite Hp.
  - intros Hg. by rewrite IH.
Qed.

Lemma JSMap_get_Some_elem_of m k v : JSMap.get m k = Some v → (k, v) ∈ m.
Proof.
  induction m as [|[k0 v0] m IH]; [done|].
  rewrite JSMap_get_cons. simpl. case_decide as Hp.
  - intros [= ->]. subst. apply list_elem_of_here.
  - intros Hg. apply list_elem_of_further. auto.
Qed.

Lemma JSMap_elem_of_get m k v :
  NoDup (JSMap.keys m) → (k, v) ∈ m → JSMap.get m k = Some v.
Proof.
  unfold JSMap.keys. induction m as [|[k0 v0] m IH]; [by intros _ ?%elem_of_nil|].
  rewrite fmap_cons, NoDup_cons. intros [Hk0 Hnd] Hin.
  rewrite JSMap_get_cons. simpl in *.
  apply elem_of_cons in Hin as [[= -> ->]|Hin].
  - by rewrite decide_True.
  - rewrite decide_False; [auto|].
    intros ->. apply Hk0. apply list_elem_of_fmap. by exists (k, v).
Qed.
End jsmap_facts.

(** ** Facts about [newMap] and [foldM] *)

Lemma newMap_snoc {V} (l : list (string * V)) p :
  newMap (l ++ [p]) = <[p.1 := p.2]> (newMap l).
Proof. unfold newMap. by rewrite foldl_app. Qed.

Lemma newMap_lookup_is_Some {V} (l : list (string * V)) k :
  is_Some (newMap l !! k) ↔ k ∈ l.*1.
Proof.
  induction l as [|p l IH] using rev_ind.
  - unfold newMap. simpl. rewrite lookup_empty, elem_of_nil. split; [by intros [? ?]|done].
  - rewrite newMap_snoc, fmap_app, elem_of_app, <-IH. simpl.
    rewrite list_elem_of_singleton, lookup_insert_is_Some.
    destruct (decide (p.1 = k)); intuition congruence.
Qed.

Lemma newMap_lookup_Some_elem_of {V} (l : list (string * V)) k v :
  newMap l !! k = Some v → (k, v) ∈ l.
Proof.
  induction l as [|p l IH] using rev_ind.
  - unfold newMap. simpl. by rewrite lookup_empty.
  - rewrite newMap_snoc, elem_of_app, list_elem_of_singleton.
    destruct (decide (p.1 = k)) as [<-|Hne].
    + rewrite lookup_insert_eq. intros [= <-]. right. by destruct p.
    + rewrite lookup_insert_ne by done. auto.
Qed.

Lemma foldM_app {S A} (f : S → A → option S) s l1 l2 :
  foldM f s (l1 ++ l2) = s' ← foldM f s l1; foldM f s' l2.
Proof.
  revert s. induction l1 as [|a l1 IH]; intros s; simpl; [done|].
  destruct (f s a); simpl; [apply IH | done].
Qed.

(** An invariant kept by every step holds after the fold. *)
Lemma foldM_inv {S A} (P : S → Prop) (f : S → A → option S) l s s' :
  (∀ s a s', a ∈ l → P s → f s a = Some s' → P s') →
  P s → foldM f s l = Some s' → P s'.
Proof.
  revert s. induction l as [|a l IH]; intros s Hstep Hs; simpl.
  - by intros [= <-].
  - destruct (f s a) as [s1|] eqn:Hf; simpl; [|done].
    apply IH.
    + intros ???? ; apply Hstep. by apply list_elem_of_further.
    + eapply Hstep; [apply list_elem_of_here | done | done].
Qed.

(** If every step succeeds under an invariant it keeps, the fold succeeds. *)
Lemma foldM_total {S A} (P : S → Prop) (f : S → A → option S) l s :
  (∀ s a, a ∈ l → P s → ∃ s', f s a = Some s' ∧ P s') →
  P s → ∃ s', foldM f s l = Some s' ∧ P s'.
Proof.
  revert s. induction l as [|a l IH]; intros s Hstep Hs; simpl; [eauto|].
  destruct (Hstep s a) as (s1 & -> & Hs1); [apply list_elem_of_here | done |].
  simpl. apply IH; [|done].
  intros ????. apply Hstep; [by apply list_elem_of_further | done].
Qed.

(** ** Adjacency *)

Lemma emptyAdj_lookup (ns : list Node) (n : string) :
  emptyAdj ns !! n = if decide (n ∈ id <$> ns) then Some [] else None.
Proof.
  unfold emptyAdj. induction ns as [|a ns IH] using rev_ind.
  - destruct (decide (n ∈ id <$> [])) as [Hin|_]; [by apply elem_of_nil in Hin|].
    apply lookup_empty.
  - rewrite fmap_app. cbn [fmap list_fmap]. rewrite newMap_snoc. cbn [fst snd].
    destruct (decide (n ∈ id <$> ns ++ [a])) as [Hin'|Hin'];
      rewrite fmap_app, elem_of_app in Hin'; cbn [fmap list_fmap] in Hin';
      rewrite list_elem_of_singleton in Hin'.
    + destruct (decide (id a = n)) as [<-|Hne]; [by rewrite lookup_insert_eq|].
      rewrite lookup_insert_ne, IH by done.
      rewrite decide_True; [done|]. destruct Hin'; [done|congruence].
    + rewrite lookup_insert_ne by (intros ?; apply Hin'; by right).
      rewrite IH. rewrite decide_False; [done|]. intros ?; apply Hin'; by left.
Qed.

Lemma addEdge_adjOf g es adj e :
  adjOf g es adj → adjOf g (es ++ [e]) (addEdge adj e).
Proof.
  intros Hadj. destruct adj as [pred succ]. unfold addEdge.
  destruct (Hadj (target e)) as [Ht _]. destruct (Hadj (source e)) as [_ Hs].
  simpl in Ht, Hs. intros n. destruct (Hadj n) as [Hp Hsu]. simpl in Hp, Hsu.
  rewrite !filter_app, !fmap_app.
  destruct (decide (target e ∈ nodeIds g)) as [Htin|Htin];
    destruct (decide (source e ∈ nodeIds g)) as [Hsin|Hsin];
    rewrite Ht, ?Hs; simpl.
  - split.
    + destruct (decide (target e = n)) as [<-|Hne].
      * rewrite lookup_insert_eq, decide_True by done.
        rewrite filter_cons_True by (split; [done|by split]). done.
      * rewrite lookup_insert_ne, Hp by done.
        rewrite filter_cons_False by (intros [? _]; done).
        rewrite filter_nil. simpl. by rewrite app_nil_r.
    + destruct (decide (source e = n)) as [<-|Hne].
      * rewrite lookup_insert_eq, decide_True by done.
        rewrite filter_cons_True by (split; [done|by split]). done.
      * rewrite lookup_insert_ne, Hsu by done.
        rewrite filter_cons_False by (intros [? _]; done).
        rewrite filter_nil. simpl. by rewrite app_nil_r.
  - rewrite Hp, Hsu.
    rewrite !filter_cons_False by (intros [_ [_ ?]]; done).
    rewrite filter_nil. simpl. by rewrite !app_nil_r.
  - rewrite Hp, Hsu.
    rewrite !filter_cons_False by (intros [_ [? _]]; done).
    rewrite filter_nil. simpl. by rewrite !app_nil_r.
  - rewrite Hp, Hsu.
    rewrite !filter_cons_False by (intros [_ [? _]]; done).
    rewrite filter_nil. simpl. by rewrite !app_nil_r.
Qed.

Lemma foldl_addEdge_adjOf g es :
  adjOf g es (foldl addEdge (emptyAdj (nodes g), emptyAdj (nodes g)) es).
Proof.
  induction es as [|e es IH] using rev_ind.
  - intros n. simpl. rewrite emptyAdj_lookup. unfold nodeIds.
    destruct (decide (n ∈ id <$> nodes g)); done.
  - rewrite foldl_app. simpl. by apply addEdge_adjOf.
Qed.

Lemma buildAdj_pred g n :
  (buildAdj g).1 !! n = if decide (n ∈ nodeIds g) then Some (predsOf g n) else None.
Proof. apply (foldl_addEdge_adjOf g (edges g) n). Qed.

Lemma buildAdj_succ g n :
  (buildAdj g).2 !! n = if decide (n ∈ nodeIds g) then Some (succsOf g n) else None.
Proof. apply (foldl_addEdge_adjOf g (edges g) n). Qed.

Lemma predsOf_nodeIds g n p : p ∈ predsOf g n → p ∈ nodeIds g.
Proof.
  unfold predsOf. intros (e & -> & He)%list_elem_of_fmap.
  apply list_elem_of_filter in He as [[_ [_ ?]] _]. done.
Qed.

Lemma succsOf_nodeIds g n s : s ∈ succsOf g n → s ∈ nodeIds g.
Proof.
  unfold succsOf. intros (e & -> & He)%list_elem_of_fmap.
  apply list_elem_of_filter in He as [[_ [? _]] _]. done.
Qed.

(** ** The traversal never fails and ends within its fuel *)

Lemma pending_decrement (m : gmap string Z) k d :
  m !! k = Some d →
  pending (<[k := (d - 1)%Z]> m) =
    if decide ((d - 1)%Z = 0%Z) then pending m - 1 else pending m.
Proof.
  intros Hk. unfold pending.
  destruct (decide (0 < d - 1)%Z) as [Hpos|Hnpos].
  - rewrite map_filter_insert_True by done.
    rewrite map_size_insert_Some.
    + rewrite decide_False by lia. done.
    + exists d. apply map_lookup_filter_Some. split; [done|simpl; lia].
  - rewrite map_filter_insert_False by done.
    rewrite map_filter_delete.
    destruct (decide ((d - 1)%Z = 0%Z)) as [Hz|Hz].
    + rewrite map_size_delete_Some; [lia|].
      exists d. apply map_lookup_filter_Some. split; [done|simpl; lia].
    + rewrite map_size_delete_None; [done|].
      apply map_lookup_filter_None. right. intros x Hx. simpl.
      rewrite Hk in Hx. injection Hx as <-. lia.
Qed.

Lemma pending_positive (m : gmap string Z) k :
  m !! k = Some 1%Z → 0 < pending m.
Proof.
  intros Hk. unfold pending.
  assert (filter (λ kv : string * Z, (0 < kv.2)%Z) m !! k = Some 1%Z) as Hf.
  { apply map_lookup_filter_Some. split; [done|simpl; lia]. }
  destruct (size (filter (λ kv : string * Z, (0 < kv.2)%Z) m)) eqn:Hs; [|lia].
  apply map_size_empty_inv in Hs. rewrite Hs, lookup_empty in Hf. done.
Qed.

Lemma relax_safe g cl st nextId :
  bfsSafe g st → nextId ∈ nodeIds g →
  ∃ st', relax cl st nextId = Some st' ∧ bfsSafe g st' ∧ head st' = head st ∧
         length (queue st') + pending (inDeg st') =
           length (queue st) + pending (inDeg st).
Proof.
  intros (Hdeg & Hq & Hkeys & Hnd & Hhead) Hin.
  destruct (Hdeg nextId Hin) as [d Hd]. unfold relax. rewrite Hd. simpl.
  eexists. split; [done|]. simpl. split_and!.
  - split_and!; simpl.
    + intros k Hk. rewrite lookup_insert_is_Some. destruct (decide (nextId = k)); auto.
    + intros q Hq'.
      assert (q = nextId ∨ q ∈ queue st) as [->|Hq''].
      { destruct (decide ((d - 1)%Z = 0%Z)); [|by right].
        apply elem_of_app in Hq' as [?|?%list_elem_of_singleton]; auto. }
      * split; [done|].
        destruct (JSMap.get (layer st) nextId) as [l|] eqn:Hl.
        -- destruct (decide (l < cl + 1)); [rewrite JSMap_get_set_eq|rewrite Hl]; done.
        -- rewrite JSMap_get_set_eq. done.
      * destruct (Hq q Hq'') as [? Hs]. split; [done|].
        destruct (JSMap.get (layer st) nextId) as [l|] eqn:Hl;
          [destruct (decide (l < cl + 1))|]; try done;
          (destruct (decide (nextId = q)) as [->|Hne];
           [rewrite JSMap_get_set_eq; done | rewrite JSMap_get_set_ne by done; done]).
    + intros k.
      destruct (JSMap.get (layer st) nextId) as [l|] eqn:Hl;
        [destruct (decide (l < cl + 1))|]; auto;
        rewrite JSMap_elem_of_keys_set; intros [->|?]; auto.
    + destruct (JSMap.get (layer st) nextId) as [l|] eqn:Hl;
        [destruct (decide (l < cl + 1))|]; auto using JSMap_NoDup_keys_set.
    + destruct (decide ((d - 1)%Z = 0%Z)); [rewrite length_app; simpl|]; lia.
  - done.
  - rewrite (pending_decrement _ _ _ Hd).
    destruct (decide ((d - 1)%Z = 0%Z)) as [Hz|Hz]; [|done].
    rewrite length_app. simpl.
    assert (0 < pending (inDeg st)); [|lia].
    apply (pending_positive _ nextId). rewrite Hd. f_equal. lia.
Qed.

Lemma foldM_relax_safe g cl nexts st :
  bfsSafe g st → (∀ n, n ∈ nexts → n ∈ nodeIds g) →
  ∃ st', foldM (relax cl) st nexts = Some st' ∧ bfsSafe g st' ∧ head st' = head st ∧
         length (queue st') + pending (inDeg st') =
           length (queue st) + pending (inDeg st).
Proof.
  revert st. induction nexts as [|n nexts IH]; intros st Hsafe Hn; simpl.
  - eauto.
  - destruct (relax_safe g cl st n Hsafe) as (st1 & -> & Hs1 & Hh1 & Hm1).
    { apply Hn, list_elem_of_here. }
    simpl. destruct (IH st1 Hs1) as (st2 & -> & Hs2 & Hh2 & Hm2).
    { intros ??. by apply Hn, list_elem_of_further. }
    exists st2. split_and!; [done|done|congruence|congruence].
Qed.

Lemma bfsStep_safe g st :
  bfsSafe g st → head st < length (queue st) →
  ∃ st', bfsStep (buildAdj g).2 st = Some st' ∧ bfsSafe g st' ∧
         S (bfsMeasure st') = bfsMeasure st.
Proof.
  intros Hsafe Hlt. pose proof Hsafe as (Hdeg & Hq & Hkeys & Hnd & Hhead).
  destruct (lookup_lt_is_Some_2 (queue st) (head st) Hlt) as [i Hi].
  destruct (Hq i) as [Hin [cl Hcl]]; [by eapply list_elem_of_lookup_2|].
  unfold bfsStep. rewrite Hi. simpl. rewrite Hcl. simpl.
  rewrite buildAdj_succ, decide_True by done. simpl.
  destruct (foldM_relax_safe g cl (succsOf g i)
              {| layer := layer st; inDeg := inDeg st; queue := queue st;
                 head := S (head st) |})
    as (st' & Hst' & Hs' & Hh' & Hm').
  - split_and!; simpl; [done|done|done|done|lia].
  - intros n. apply succsOf_nodeIds.
  - exists st'. split_and!; [done|done|].
    simpl in Hh', Hm'. destruct Hs' as (_ & _ & _ & _ & Hle).
    unfold bfsMeasure. lia.
Qed.

Lemma bfs_safe g fuel st :
  bfsSafe g st → bfsMeasure st ≤ fuel →
  ∃ st', bfs fuel (buildAdj g).2 st = Some st' ∧ bfsSafe g st' ∧
         head st' = length (queue st').
Proof.
  revert st. induction fuel as [|fuel IH]; intros st Hsafe Hm.
  - simpl. destruct (decide (head st < length (queue st))) as [Hlt|Hge].
    + unfold bfsMeasure in Hm. lia.
    + exists st. destruct Hsafe as (? & ? & ? & ? & ?). split_and!; [done|done|lia].
  - simpl. destruct (decide (head st < length (queue st))) as [Hlt|Hge].
    + destruct (bfsStep_safe g st Hsafe Hlt) as (st1 & -> & Hs1 & Hm1). simpl.
      apply IH; [done|lia].
    + exists st. pose proof Hsafe as (? & ? & ? & ? & ?). split_and!; [done|done|lia].
Qed.

(** ** The initial state of the traversal *)

Lemma newMap_fmap_lookup {V} (F : string → V) (ns : list Node) (k : string) :
  newMap ((λ n, (id n, F (id n))) <$> ns) !! k =
    if decide (k ∈ id <$> ns) then Some (F k) else None.
Proof.
  induction ns as [|a ns IH] using rev_ind.
  - destruct (decide (k ∈ id <$> [])) as [Hin|_]; [by apply elem_of_nil in Hin|].
    apply lookup_empty.
  - rewrite fmap_app. cbn [fmap list_fmap]. rewrite newMap_snoc. cbn [fst snd].
    destruct (decide (k ∈ id <$> ns ++ [a])) as [Hin'|Hin'];
      rewrite fmap_app, elem_of_app in Hin'; cbn [fmap list_fmap] in Hin';
      rewrite list_elem_of_singleton in Hin'.
    + destruct (decide (id a = k)) as [<-|Hne]; [by rewrite lookup_insert_eq|].
      rewrite lookup_insert_ne, IH by done.
      rewrite decide_True; [done|]. destruct Hin'; [done|congruence].
    + rewrite lookup_insert_ne by (intros ?; apply Hin'; by right).
      rewrite IH. rewrite decide_False; [done|]. intros ?; apply Hin'; by left.
Qed.

Lemma newMap_size {V} (l : list (string * V)) : size (newMap l) ≤ length l.
Proof.
  induction l as [|p l IH] using rev_ind; [unfold newMap; simpl; by rewrite map_size_empty|].
  rewrite newMap_snoc, length_app, map_size_insert. simpl.
  destruct (newMap l !! p.1); simpl; lia.
Qed.

Lemma mapM_Some_fmap {A B} (f : A → option B) (h : A → B) (l : list A) :
  (∀ a, a ∈ l → f a = Some (h a)) → mapM f l = Some (h <$> l).
Proof.
  intros Hf. apply mapM_Some. induction l as [|a l IH]; [constructor|].
  rewrite fmap_cons. constructor.
  - apply Hf, list_elem_of_here.
  - apply IH. intros ??. by apply Hf, list_elem_of_further.
Qed.

Lemma filter_snd_fmap (F : string → Z) (ns : list Node) :
  (filter (λ p : string * Z, p.2 = 0%Z) ((λ n, (id n, F (id n))) <$> ns)).*1 =
  filter (λ k, F k = 0%Z) (id <$> ns).
Proof.
  induction ns as [|a ns IH]; [done|].
  rewrite !fmap_cons. destruct (decide (F (id a) = 0%Z)) as [Hz|Hz].
  - rewrite !filter_cons_True by done. rewrite fmap_cons. simpl. by rewrite IH.
  - rewrite !filter_cons_False by done. done.
Qed.

Lemma initBfs_eq g : initBfs (nodes g) (buildAdj g).1 = Some (initState g).
Proof.
  unfold initBfs.
  rewrite (mapM_Some_fmap _ (λ n, (id n, inDeg0 g (id n)))).
  2:{ intros n Hn. rewrite buildAdj_pred, decide_True; [done|].
      unfold nodeIds. apply list_elem_of_fmap. eauto. }
  simpl.
  rewrite (mapM_Some_fmap _ (λ n, (id n, inDeg0 g (id n)))).
  2:{ intros n Hn. rewrite newMap_fmap_lookup, decide_True; [done|].
      apply list_elem_of_fmap. eauto. }
  simpl. rewrite filter_snd_fmap. done.
Qed.

Lemma initLayer_get (l : list string) (m : list (string * nat)) k :
  JSMap.get (foldl (λ m i, JSMap.set m i 0) m l) k =
    if decide (k ∈ l) then Some 0 else JSMap.get m k.
Proof.
  revert m. induction l as [|a l IH]; intros m; cbn [foldl].
  - rewrite decide_False; [done|apply not_elem_of_nil].
  - rewrite IH. destruct (decide (k ∈ l)) as [Hin|Hin].
    + rewrite decide_True; [done|by apply list_elem_of_further].
    + destruct (decide (a = k)) as [->|Hne].
      * rewrite JSMap_get_set_eq, decide_True; [done|apply list_elem_of_here].
      * rewrite JSMap_get_set_ne by done. rewrite decide_False; [done|].
        intros [?|?]%elem_of_cons; congruence.
Qed.

Lemma initLayer_NoDup (l : list string) (m : list (string * nat)) :
  NoDup (JSMap.keys m) → NoDup (JSMap.keys (foldl (λ m i, JSMap.set m i 0) m l)).
Proof.
  revert m. induction l as [|a l IH]; intros m Hnd; simpl; [done|].
  apply IH. by apply JSMap_NoDup_keys_set.
Qed.

Lemma seedsOf_nodeIds g k : k ∈ seedsOf g → k ∈ nodeIds g.
Proof. unfold seedsOf. by intros [_ ?]%list_elem_of_filter. Qed.

Lemma initState_inDeg g k :
  inDeg (initState g) !! k = if decide (k ∈ nodeIds g) then Some (inDeg0 g k) else None.
Proof. apply (newMap_fmap_lookup (inDeg0 g)). Qed.

Lemma initState_safe g : bfsSafe g (initState g).
Proof.
  split_and!; simpl.
  - intros k Hk. rewrite (newMap_fmap_lookup (inDeg0 g)).
    by rewrite decide_True.
  - intros q Hq. split; [by apply seedsOf_nodeIds|].
    rewrite initLayer_get, decide_True by done. done.
  - intros k Hk. apply JSMap_get_is_Some in Hk.
    rewrite initLayer_get in Hk. destruct (decide (k ∈ seedsOf g)) as [Hin|Hin].
    + by apply seedsOf_nodeIds.
    + destruct Hk as [? Hk]. done.
  - apply initLayer_NoDup. constructor.
  - lia.
Qed.

Lemma initState_measure g : bfsMeasure (initState g) ≤ bfsFuel g.
Proof.
  unfold bfsMeasure, bfsFuel, pending. simpl.
  pose proof (length_filter (λ k, inDeg0 g k = 0%Z) (nodeIds g)) as H1.
  unfold nodeIds in H1. rewrite length_fmap in H1.
  pose proof (map_subseteq_size _ _
    (map_filter_subseteq (λ kv : string * Z, (0 < kv.2)%Z)
       (newMap ((λ n, (id n, inDeg0 g (id n))) <$> nodes g)))) as H2.
  pose proof (newMap_size ((λ n, (id n, inDeg0 g (id n))) <$> nodes g)) as H3.
  rewrite length_fmap in H3. unfold seedsOf, nodeIds. lia.
Qed.

(** The traversal of every graph ends, without failure, with an empty
    work list. *)
Lemma kahn_total g :
  ∃ st, kahn g = Some st ∧ bfsSafe g st ∧ head st = length (queue st).
Proof.
  unfold kahn. destruct (buildAdj g) as [pred succ] eqn:Hadj.
  pose proof (initBfs_eq g) as Hinit. rewrite Hadj in Hinit. simpl in Hinit.
  rewrite Hinit. simpl.
  pose proof (bfs_safe g (bfsFuel g) (initState g) (initState_safe g)
                (initState_measure g)) as Hbfs.
  rewrite Hadj in Hbfs. done.
Qed.

(** ** Fallback layer and grouping *)

Lemma fallback_get (ns : list Node) (m : list (string * nat)) k :
  JSMap.get (fallback ns m) k =
    match JSMap.get m k with
    | Some l => Some l
    | None => if decide (k ∈ id <$> ns) then Some 0 else None
    end.
Proof.
  unfold fallback. revert m. induction ns as [|a ns IH]; intros m; cbn [foldl].
  - destruct (JSMap.get m k); [done|].
    rewrite decide_False; [done|apply not_elem_of_nil].
  - rewrite IH. rewrite fmap_cons. destruct (JSMap.has m (id a)) eqn:Hhas.
    + apply JSMap_has_true, JSMap_get_is_Some in Hhas as [la Hla].
      destruct (JSMap.get m k) as [l|] eqn:Hk; [done|].
      destruct (decide (k ∈ id <$> ns)) as [Hin|Hin].
      * rewrite decide_True; [done|by apply list_elem_of_further].
      * rewrite decide_False; [done|].
        intros [->|?]%elem_of_cons; [congruence|done].
    + assert (JSMap.get m (id a) = None) as Hnone.
      { apply eq_None_not_Some. intros Hs. apply JSMap_get_is_Some, JSMap_has_true in Hs.
        congruence. }
      destruct (decide (id a = k)) as [<-|Hne].
      * rewrite JSMap_get_set_eq, Hnone. rewrite decide_True; [done|apply list_elem_of_here].
      * rewrite JSMap_get_set_ne by done. destruct (JSMap.get m k); [done|].
        destruct (decide (k ∈ id <$> ns)) as [Hin|Hin].
        -- rewrite decide_True; [done|by apply list_elem_of_further].
        -- rewrite decide_False; [done|].
           intros [->|?]%elem_of_cons; [congruence|done].
Qed.

Lemma fallback_NoDup (ns : list Node) (m : list (string * nat)) :
  NoDup (JSMap.keys m) → NoDup (JSMap.keys (fallback ns m)).
Proof.
  unfold fallback. revert m. induction ns as [|a ns IH]; intros m Hnd; cbn [foldl]; [done|].
  apply IH. destruct (JSMap.has m (id a)); [done|by apply JSMap_NoDup_keys_set].
Qed.

Lemma fallback_keys (ns : list Node) (m : list (string * nat)) k :
  k ∈ JSMap.keys (fallback ns m) ↔ k ∈ JSMap.keys m ∨ k ∈ id <$> ns.
Proof.
  rewrite <-!JSMap_get_is_Some, fallback_get.
  destruct (JSMap.get m k) as [l|].
  - split; [left|]; eauto.
  - destruct (decide (k ∈ id <$> ns)).
    + split; [by right | eauto].
    + split; [by intros [? ?] | intros [[? ?]|?]; done].
Qed.

(** Every graph gets a layer map: the layers of the traversal, then layer
    0 for the nodes the traversal gave none. *)
Lemma assignLayers_total g :
  ∃ st, kahn g = Some st ∧ bfsSafe g st ∧ head st = length (queue st) ∧
        assignLayers g = Some (fallback (nodes g) (layer st)).
Proof.
  destruct (kahn_total g) as (st & Hk & Hsafe & Hh).
  exists st. split_and!; try done. unfold assignLayers. by rewrite Hk.
Qed.

Lemma concat_insert_snoc (ln : list (list string)) l ids k :
  ln !! l = Some ids → concat (<[l := ids ++ [k]]> ln) ≡ₚ concat ln ++ [k].
Proof.
  revert l. induction ln as [|x ln IH]; intros l Hl; [done|].
  destruct l as [|l]; simpl in *.
  - injection Hl as ->. rewrite <-!(assoc_L (++)). f_equiv. apply Permutation_app_comm.
  - rewrite IH by done. by rewrite (assoc_L (++)).
Qed.

Lemma concat_insert_perm (ln : list (list string)) l ids ids' :
  ln !! l = Some ids → ids' ≡ₚ ids → concat (<[l := ids']> ln) ≡ₚ concat ln.
Proof.
  revert l. induction ln as [|x ln IH]; intros l Hl Hp; [done|].
  destruct l as [|l]; simpl in *.
  - injection Hl as ->. by rewrite Hp.
  - by rewrite IH.
Qed.

Lemma pushAt_Some (ln : list (list string)) p ids :
  ln !! p.2 = Some ids → pushAt ln p = Some (<[p.2 := ids ++ [p.1]]> ln).
Proof. unfold pushAt. by intros ->. Qed.

(** The fold of [pushAt]: it succeeds when every layer is an index of the
    array, and it appends to each row the ids of that layer in map order. *)
Lemma foldM_pushAt (entries : list (string * nat)) (ln : list (list string)) :
  (∀ p, p ∈ entries → p.2 < length ln) →
  ∃ ln', foldM pushAt ln entries = Some ln' ∧ length ln' = length ln ∧
         concat ln' ≡ₚ concat ln ++ entries.*1 ∧
         ∀ l ids, ln !! l = Some ids →
           ln' !! l = Some (ids ++ (filter (λ p, p.2 = l) entries).*1).
Proof.
  revert ln. induction entries as [|p entries IH]; intros ln Hlt; cbn [foldM].
  - exists ln. split_and!; [done|done|by rewrite app_nil_r|].
    intros l ids Hl. by rewrite filter_nil, app_nil_r.
  - destruct (lookup_lt_is_Some_2 ln p.2) as [ids0 Hids0].
    { apply Hlt, list_elem_of_here. }
    rewrite (pushAt_Some _ _ _ Hids0). simpl.
    destruct (IH (<[p.2 := ids0 ++ [p.1]]> ln)) as (ln' & Hf & Hlen & Hperm & Hrows).
    { intros q Hq. rewrite length_insert. by apply Hlt, list_elem_of_further. }
    exists ln'. split_and!; [done| by rewrite Hlen, length_insert | |].
    + rewrite Hperm, concat_insert_snoc by done.
      rewrite <-(assoc_L (++)). done.
    + intros l ids Hl. destruct (decide (p.2 = l)) as [<-|Hne].
      * rewrite filter_cons_True by done. rewrite fmap_cons.
        rewrite Hids0 in Hl. injection Hl as <-.
        rewrite (Hrows p.2 (ids0 ++ [p.1])).
        -- by rewrite <-(assoc_L (++)).
        -- apply list_lookup_insert_eq. by eapply lookup_lt_Some.
      * rewrite filter_cons_False by done.
        apply Hrows. by rewrite list_lookup_insert_ne.
Qed.

Lemma groupByLayer_spec (maxL : nat) (layer : list (string * nat)) :
  (∀ p, p ∈ layer → p.2 ≤ maxL) →
  ∃ ln, groupByLayer maxL layer = Some ln ∧ length ln = maxL + 1 ∧
        concat ln ≡ₚ JSMap.keys layer ∧
        ∀ l, l ≤ maxL → ln !! l = Some (filter (λ p, p.2 = l) layer).*1.
Proof.
  intros Hle. unfold groupByLayer.
  destruct (foldM_pushAt layer (replicate (maxL + 1) [])) as (ln & Hf & Hlen & Hperm & Hrows).
  { intros p Hp. rewrite length_replicate. specialize (Hle p Hp). lia. }
  exists ln. rewrite length_replicate in Hlen. split_and!; [done|done| |].
  - rewrite Hperm. clear. induction (maxL + 1) as [|n IH]; [done|]. simpl. done.
  - intros l Hl. rewrite (Hrows l []); [done|].
    apply lookup_replicate. split; [done|lia].
Qed.

Lemma max_list_values_le (layer : list (string * nat)) p :
  p ∈ layer → p.2 ≤ max_list (JSMap.values layer).
Proof.
  intros Hp. apply max_list_elem_of_le. unfold JSMap.values.
  apply list_elem_of_fmap. eauto.
Qed.

(** ** The sort and the sweeps permute each layer *)

Lemma sortInsert_perm cmp a l : sortInsert cmp a l ≡ₚ a :: l.
Proof.
  induction l as [|b l IH]; simpl; [done|].
  destruct (Num_pos (cmp a b)); [|done].
  rewrite IH. apply Permutation_swap.
Qed.

Lemma Array_sort_perm cmp l : Array_sort cmp l ≡ₚ l.
Proof.
  unfold Array_sort. induction l as [|a l IH]; simpl; [done|].
  by rewrite sortInsert_perm, IH.
Qed.

Lemma sortLayer_perm nbrs adjacent ids : sortLayer nbrs adjacent ids ≡ₚ ids.
Proof. apply Array_sort_perm. Qed.

Lemma rows_insert_perm (ln0 ln : list (list string)) l ids ids' :
  Forall2 (≡ₚ) ln0 ln → ln !! l = Some ids → ids' ≡ₚ ids →
  Forall2 (≡ₚ) ln0 (<[l := ids']> ln).
Proof.
  intros H0 Hl Hp. rewrite <-(list_insert_id ln0 l (default [] (ln0 !! l))).
  - apply Forall2_insert; [done|].
    destruct (Forall2_lookup_r _ _ _ _ _ H0 Hl) as (x & Hx & Hxy).
    rewrite Hx. simpl. by rewrite Hxy, Hp.
  - destruct (Forall2_lookup_r _ _ _ _ _ H0 Hl) as (x & Hx & Hxy).
    by rewrite Hx.
Qed.

Lemma rows_concat_perm (ln ln' : list (list string)) :
  Forall2 (≡ₚ) ln ln' → concat ln ≡ₚ concat ln'.
Proof. induction 1 as [|?????? IH]; simpl; [done|]. by f_equiv. Qed.

Lemma forwardStep_spec pred (N : nat) ln0 ln l :
  length ln = N → Forall2 (≡ₚ) ln0 ln → l < N →
  ∃ ln', forwardStep pred ln l = Some ln' ∧ length ln' = N ∧ Forall2 (≡ₚ) ln0 ln'.
Proof.
  intros Hlen H0 Hl. unfold forwardStep.
  destruct (lookup_lt_is_Some_2 ln (l - 1)) as [prev ->]; [lia|].
  destruct (lookup_lt_is_Some_2 ln l) as [ids Hids]; [lia|].
  rewrite Hids. simpl. eexists. split_and!; [done| by rewrite length_insert |].
  eapply rows_insert_perm; [done|done|apply sortLayer_perm].
Qed.

Lemma backwardStep_spec succ (N : nat) ln0 ln l :
  length ln = N → Forall2 (≡ₚ) ln0 ln → l + 1 < N →
  ∃ ln', backwardStep succ ln l = Some ln' ∧ length ln' = N ∧ Forall2 (≡ₚ) ln0 ln'.
Proof.
  intros Hlen H0 Hl. unfold backwardStep.
  destruct (lookup_lt_is_Some_2 ln (l + 1)) as [next ->]; [lia|].
  destruct (lookup_lt_is_Some_2 ln l) as [ids Hids]; [lia|].
  rewrite Hids. simpl. eexists. split_and!; [done| by rewrite length_insert |].
  eapply rows_insert_perm; [done|done|apply sortLayer_perm].
Qed.

Lemma forwardPass_spec pred (maxL : nat) ln0 ln :
  length ln = maxL + 1 → Forall2 (≡ₚ) ln0 ln →
  ∃ ln', forwardPass pred maxL ln = Some ln' ∧ length ln' = maxL + 1 ∧
         Forall2 (≡ₚ) ln0 ln'.
Proof.
  intros Hlen H0. unfold forwardPass.
  destruct (foldM_total (λ ln, length ln = maxL + 1 ∧ Forall2 (≡ₚ) ln0 ln)
              (forwardStep pred) (seq 1 maxL) ln) as (ln' & ? & ? & ?); [|done|eauto].
  intros s l Hl [Hs1 Hs2]. apply elem_of_seq in Hl.
  destruct (forwardStep_spec pred (maxL + 1) ln0 s l) as (s' & ? & ? & ?); eauto with lia.
Qed.

Lemma backwardPass_spec succ (maxL : nat) ln0 ln :
  length ln = maxL + 1 → Forall2 (≡ₚ) ln0 ln →
  ∃ ln', backwardPass succ maxL ln = Some ln' ∧ length ln' = maxL + 1 ∧
         Forall2 (≡ₚ) ln0 ln'.
Proof.
  intros Hlen H0. unfold backwardPass.
  destruct (foldM_total (λ ln, length ln = maxL + 1 ∧ Forall2 (≡ₚ) ln0 ln)
              (backwardStep succ) (reverse (seq 0 maxL)) ln) as (ln' & ? & ? & ?);
    [|done|eauto].
  intros s l Hl [Hs1 Hs2]. apply elem_of_reverse, elem_of_seq in Hl.
  destruct (backwardStep_spec succ (maxL + 1) ln0 s l) as (s' & ? & ? & ?); eauto with lia.
Qed.

(** The three sweeps always succeed and only permute each layer. *)
Lemma minimizeCrossings_spec pred succ (maxL : nat) ln :
  length ln = maxL + 1 →
  ∃ ln', minimizeCrossings pred succ maxL ln = Some ln' ∧ length ln' = maxL + 1 ∧
         Forall2 (≡ₚ) ln ln'.
Proof.
  intros Hlen. unfold minimizeCrossings.
  destruct (forwardPass_spec pred maxL ln ln) as (ln1 & -> & Hl1 & Hp1); [done|done|].
  simpl. destruct (backwardPass_spec succ maxL ln ln1) as (ln2 & -> & Hl2 & Hp2); [done|done|].
  simpl. by apply forwardPass_spec.
Qed.

(** ** Rows of a duplicate-free layering *)

Lemma NoDup_concat_row (ln : list (list string)) l ids :
  NoDup (concat ln) → ln !! l = Some ids → NoDup ids.
Proof.
  revert l. induction ln as [|x ln IH]; intros l Hnd Hl; [done|].
  simpl in Hnd. apply NoDup_app in Hnd as (Hx & _ & Hrest).
  destruct l as [|l]; simpl in Hl; [by injection Hl as <-|eauto].
Qed.

Lemma elem_of_concat_row (ln : list (list string)) l ids k :
  ln !! l = Some ids → k ∈ ids → k ∈ concat ln.
Proof.
  revert l. induction ln as [|x ln IH]; intros l Hl Hk; [done|].
  simpl. apply elem_of_app. destruct l as [|l]; simpl in Hl.
  - injection Hl as ->. by left.
  - right. eauto.
Qed.

Lemma NoDup_concat_disjoint (ln : list (list string)) l l' ids ids' k :
  NoDup (concat ln) → ln !! l = Some ids → ln !! l' = Some ids' → l ≠ l' →
  k ∈ ids → k ∉ ids'.
Proof.
  revert l l'. induction ln as [|x ln IH]; intros l l' Hnd Hl Hl' Hne Hk Hk'; [done|].
  simpl in Hnd. apply NoDup_app in Hnd as (Hx & Hdisj & Hrest).
  destruct l as [|l], l' as [|l']; simpl in Hl, Hl'; try done.
  - injection Hl as <-. apply (Hdisj k Hk). by eapply elem_of_concat_row.
  - injection Hl' as <-. apply (Hdisj k Hk'). by eapply elem_of_concat_row.
  - eapply (IH l l'); eauto.
Qed.

(** ** The top-down pass *)

Lemma placeNode_spec pred nodeY (c : Q) i :
  ∃ y, placeNode pred (nodeY, c) i = (<[i := y]> nodeY, (y + V_STEP)%Q) ∧ (c <= y)%Q.
Proof.
  unfold placeNode. destruct (decide (0 < length (placed nodeY pred i))).
  - eexists. split; [done|]. apply Q.le_max_l.
  - eexists. split; [done|]. apply Qle_refl.
Qed.

Lemma V_STEP_nonneg (c : Q) : (c <= c + V_STEP)%Q.
Proof. unfold V_STEP. lra. Qed.

Lemma placeLayer_spec pred ids nodeY (c : Q) :
  NoDup ids →
  (∀ k, k ∉ ids → (foldl (placeNode pred) (nodeY, c) ids).1 !! k = nodeY !! k) ∧
  (∀ k, k ∈ ids →
     ∃ y, (foldl (placeNode pred) (nodeY, c) ids).1 !! k = Some y ∧ (c <= y)%Q) ∧
  gapped (foldl (placeNode pred) (nodeY, c) ids).1 ids.
Proof.
  revert nodeY c. induction ids as [|a ids IH]; intros nodeY c Hnd.
  - split_and!; [done | by intros ? ?%elem_of_nil | by intros ?????].
  - apply NoDup_cons in Hnd as [Ha Hnd]. cbn [foldl].
    destruct (placeNode_spec pred nodeY c a) as (y & -> & Hy).
    destruct (IH (<[a := y]> nodeY) (y + V_STEP)%Q Hnd) as (Hout & Hin & Hgap).
    assert ((foldl (placeNode pred) (<[a:=y]> nodeY, (y + V_STEP)%Q) ids).1 !! a = Some y)
      as Hya by (rewrite Hout by done; apply lookup_insert_eq).
    split_and!.
    + intros k Hk. apply not_elem_of_cons in Hk as [Hne Hk].
      rewrite Hout by done. by rewrite lookup_insert_ne.
    + intros k [->|Hk]%elem_of_cons; [eauto|].
      destruct (Hin k Hk) as (yk & Hyk & Hle). exists yk. split; [done|].
      pose proof (V_STEP_nonneg y). lra.
    + intros i x b Hx Hb. destruct i as [|i]; simpl in Hx, Hb.
      * injection Hx as <-.
        destruct (Hin b) as (yb & Hyb & Hle); [by eapply list_elem_of_lookup_2|].
        exists y, yb. done.
      * by apply (Hgap i).
Qed.

Lemma topDown_prefix pred (ln : list (list string)) (j : nat) :
  NoDup (concat ln) → j ≤ length ln →
  ∃ nodeY, foldM (topDownStep pred ln) ∅ (seq 0 j) = Some nodeY ∧ abovePad nodeY ∧
    ∀ l ids, l < j → ln !! l = Some ids →
      gapped nodeY ids ∧ ∀ k, k ∈ ids → is_Some (nodeY !! k).
Proof.
  intros Hnd. induction j as [|j IH]; intros Hj.
  - exists ∅. split_and!; [done | by intros ?? ?%lookup_empty_Some | intros; lia].
  - destruct IH as (nodeY & Hf & Hpad & Hrows); [lia|].
    rewrite seq_S, foldM_app, Hf. simpl.
    destruct (lookup_lt_is_Some_2 ln j) as [ids Hids]; [lia|].
    unfold topDownStep at 1. rewrite Hids. simpl.
    pose proof (NoDup_concat_row ln j ids Hnd Hids) as Hndj.
    destruct (placeLayer_spec pred ids nodeY PAD Hndj) as (Hout & Hin & Hgap).
    eexists. split_and!; [done| |].
    + intros k y Hk. destruct (decide (k ∈ ids)) as [Hkin|Hkin].
      * destruct (Hin k Hkin) as (y' & Hy' & Hle). congruence.
      * rewrite Hout in Hk by done. by eapply Hpad.
    + intros l ids' Hl Hids'. destruct (decide (l = j)) as [->|Hne].
      * rewrite Hids in Hids'. injection Hids' as <-. split; [done|].
        intros k Hk. destruct (Hin k Hk) as (y & -> & _). done.
      * destruct (Hrows l ids') as [Hg Hd]; [lia|done|].
        assert (∀ k, k ∈ ids' → k ∉ ids) as Hdisj.
        { intros k Hk. by eapply (NoDup_concat_disjoint ln l j). }
        split.
        -- intros i a b Ha Hb. destruct (Hg i a b Ha Hb) as (ya & yb & ? & ? & ?).
           exists ya, yb. rewrite !Hout; [done| |];
             apply Hdisj; by eapply list_elem_of_lookup_2.
        -- intros k Hk. rewrite Hout by auto. auto.
Qed.

Lemma topDown_spec pred (maxL : nat) (ln : list (list string)) :
  NoDup (concat ln) → length ln = maxL + 1 →
  ∃ nodeY, topDown pred maxL ln = Some nodeY ∧ abovePad nodeY ∧
    ∀ l ids, ln !! l = Some ids →
      gapped nodeY ids ∧ ∀ k, k ∈ ids → is_Some (nodeY !! k).
Proof.
  intros Hnd Hlen. unfold topDown.
  destruct (topDown_prefix pred ln (maxL + 1) Hnd) as (nodeY & Hf & Hpad & Hrows); [lia|].
  exists nodeY. split_and!; [done|done|].
  intros l ids Hl. apply (Hrows l ids); [|done]. apply lookup_lt_Some in Hl. lia.
Qed.

(** ** The backward pass *)

Lemma pullNode_id succ nodeY c i :
  abovePad nodeY → is_Some (nodeY !! i) →
  ∃ c', pullNode succ (nodeY, c) i = Some (nodeY, c').
Proof.
  intros Hpad [yi Hyi]. unfold pullNode.
  destruct (decide (0 < length (placed nodeY succ i))); [|simpl; rewrite Hyi; simpl; eauto].
  rewrite Hyi. simpl.
  set (maxY := match c with
               | Some c0 => Qmin (mean (placed nodeY succ i)) (c0 - V_STEP)
               | None => mean (placed nodeY succ i)
               end).
  destruct (Qltb yi maxY) eqn:Hlt; simpl; [rewrite Hyi; simpl; eauto|].
  apply Qltb_ge in Hlt.
  assert (Qmax yi (if Qltb maxY PAD then PAD else maxY) = yi) as ->.
  { apply Qmax_left. destruct (Qltb maxY PAD); [by eapply Hpad|done]. }
  rewrite insert_id by done. rewrite Hyi. simpl. eauto.
Qed.

Lemma foldM_pullNode_id succ nodeY ids c :
  abovePad nodeY → (∀ i, i ∈ ids → is_Some (nodeY !! i)) →
  ∃ c', foldM (pullNode succ) (nodeY, c) ids = Some (nodeY, c').
Proof.
  intros Hpad. revert c. induction ids as [|i ids IH]; intros c Hdom; cbn [foldM]; [eauto|].
  destruct (pullNode_id succ nodeY c i Hpad) as (c1 & ->).
  { apply Hdom, list_elem_of_here. }
  simpl. apply IH. intros ??. by apply Hdom, list_elem_of_further.
Qed.

(** The backward pass returns the y map it was given. *)
Lemma bottomUp_id succ (maxL : nat) (ln : list (list string)) nodeY :
  abovePad nodeY → length ln = maxL + 1 →
  (∀ l ids, ln !! l = Some ids → ∀ k, k ∈ ids → is_Some (nodeY !! k)) →
  bottomUp succ maxL ln nodeY = Some nodeY.
Proof.
  intros Hpad Hlen Hdom. unfold bottomUp.
  assert (∀ ls, (∀ l, l ∈ ls → l < length ln) →
                foldM (bottomUpStep succ ln) nodeY ls = Some nodeY) as Hgen.
  { induction ls as [|l ls IH]; intros Hls; cbn [foldM]; [done|].
    destruct (lookup_lt_is_Some_2 ln l) as [ids Hids]; [apply Hls, list_elem_of_here|].
    assert (bottomUpStep succ ln nodeY l = Some nodeY) as ->.
    { unfold bottomUpStep. rewrite Hids. simpl.
      destruct (foldM_pullNode_id succ nodeY (reverse ids) None Hpad) as (c' & ->);
        [|done].
      intros i Hi. apply (proj1 (elem_of_reverse _ _)) in Hi.
      apply (Hdom l ids Hids i Hi). }
    simpl. apply IH. intros ??. by apply Hls, list_elem_of_further. }
  apply Hgen. intros l Hl. apply (proj1 (elem_of_reverse _ _)), elem_of_seq in Hl. lia.
Qed.

(** ** Positions and canvas *)

Lemma JSMap_set_fresh {V} (m : list (string * V)) k v :
  k ∉ JSMap.keys m → JSMap.set m k v = m ++ [(k, v)].
Proof.
  unfold JSMap.keys. induction m as [|p m IH]; [done|].
  rewrite fmap_cons. intros [Hne Hk]%not_elem_of_cons. simpl.
  rewrite decide_False by done. f_equal. by apply IH.
Qed.

Lemma foldl_set_fresh {V} (F : string → V) (ids : list string) (m : list (string * V)) :
  NoDup (JSMap.keys m ++ ids) →
  foldl (λ m i, JSMap.set m i (F i)) m ids = m ++ ((λ i, (i, F i)) <$> ids).
Proof.
  revert m. induction ids as [|a ids IH]; intros m Hnd; cbn [foldl].
  - by rewrite app_nil_r.
  - apply NoDup_app in Hnd as (Hm & Hdisj & Hids).
    apply NoDup_cons in Hids as [Ha Hids].
    assert (a ∉ JSMap.keys m) as Ham.
    { intros Hin. apply (Hdisj a Hin). apply list_elem_of_here. }
    rewrite JSMap_set_fresh by done. rewrite IH.
    + rewrite fmap_cons, <-(assoc_L (++)). done.
    + unfold JSMap.keys in *. rewrite fmap_app. cbn [fmap list_fmap fst].
      rewrite <-(assoc_L (++)). apply NoDup_app. split_and!; [done| |by constructor].
      intros k Hk [->|Hk']%elem_of_cons; [done|].
      apply (Hdisj k Hk). by apply list_elem_of_further.
Qed.

Lemma posRows_snoc nodeMap nodeY ln ids :
  posRows nodeMap nodeY (ln ++ [ids]) =
    posRows nodeMap nodeY ln ++ (posEntry nodeMap nodeY (length ln) <$> ids).
Proof.
  unfold posRows. rewrite imap_app, concat_app. cbn [imap concat].
  rewrite app_nil_r. f_equal. by rewrite Nat.add_0_r.
Qed.

Lemma posRows_keys nodeMap nodeY ln : JSMap.keys (posRows nodeMap nodeY ln) = concat ln.
Proof.
  unfold JSMap.keys. induction ln as [|ids ln IH] using rev_ind; [done|].
  rewrite posRows_snoc, fmap_app, IH, concat_app. cbn [concat].
  rewrite app_nil_r. f_equal. rewrite <-list_fmap_compose.
  rewrite <-(list_fmap_id ids) at 2. by apply list_fmap_ext.
Qed.

Lemma concat_take_NoDup (ln : list (list string)) j :
  NoDup (concat ln) → NoDup (concat (take j ln)).
Proof.
  intros Hnd. rewrite <-(take_drop j ln), concat_app in Hnd.
  by apply NoDup_app in Hnd as (? & _ & _).
Qed.

Lemma buildPositions_spec nodeMap nodeY (maxL : nat) (ln : list (list string)) :
  NoDup (concat ln) → length ln = maxL + 1 →
  buildPositions nodeMap nodeY maxL ln = Some (posRows nodeMap nodeY ln).
Proof.
  intros Hnd Hlen. unfold buildPositions.
  set (layerX := imap (λ l _, (PAD + nat2Q l * H_STEP)%Q) ln).
  assert (∀ j, j ≤ length ln →
            foldM (positionsStep nodeMap nodeY ln layerX) [] (seq 0 j) =
              Some (posRows nodeMap nodeY (take j ln))) as Hgen.
  { induction j as [|j IH]; intros Hj; [done|].
    rewrite seq_S, foldM_app, IH by lia. simpl.
    destruct (lookup_lt_is_Some_2 ln j) as [ids Hids]; [lia|].
    unfold positionsStep. rewrite Hids. simpl.
    assert (layerX !! j = Some (PAD + nat2Q j * H_STEP)%Q) as ->.
    { unfold layerX. rewrite list_lookup_imap, Hids. done. }
    simpl. f_equal.
    rewrite (take_S_r _ _ _ Hids), posRows_snoc.
    rewrite length_take_le by lia.
    apply (foldl_set_fresh (λ i, mkPos nodeMap nodeY (PAD + nat2Q j * H_STEP)%Q i)).
    rewrite posRows_keys.
    pose proof (concat_take_NoDup ln (S j) Hnd) as Hnd'.
    rewrite (take_S_r _ _ _ Hids), concat_app in Hnd'. cbn [concat] in Hnd'.
    by rewrite app_nil_r in Hnd'. }
  rewrite Hgen by lia. rewrite firstn_all2 by lia. done.
Qed.

Lemma posRows_get nodeMap nodeY (ln : list (list string)) l ids k :
  NoDup (concat ln) → ln !! l = Some ids → k ∈ ids →
  JSMap.get (posRows nodeMap nodeY ln) k =
    Some (mkPos nodeMap nodeY (PAD + nat2Q l * H_STEP)%Q k).
Proof.
  intros Hnd Hl Hk. apply JSMap_elem_of_get; [by rewrite posRows_keys|].
  revert l Hl Hnd. induction ln as [|x ln IH] using rev_ind; intros l Hl Hnd; [done|].
  rewrite posRows_snoc. apply elem_of_app.
  destruct (decide (l = length ln)) as [->|Hne].
  - rewrite list_lookup_middle in Hl by done. injection Hl as ->.
    right. apply list_elem_of_fmap. exists k. done.
  - left. apply (IH l).
    + rewrite lookup_app_l in Hl; [done|]. apply lookup_lt_Some in Hl.
      rewrite length_app in Hl. simpl in Hl. lia.
    + rewrite concat_app in Hnd. by apply NoDup_app in Hnd as (? & _ & _).
Qed.

Lemma foldl_Qmax_spec (qs : list Q) (q : Q) :
  foldl Qmax q qs ∈ q :: qs ∧ ∀ r, r ∈ q :: qs → (r <= foldl Qmax q qs)%Q.
Proof.
  revert q. induction qs as [|a qs IH]; intros q; cbn [foldl].
  - split; [apply list_elem_of_here|].
    intros r ->%list_elem_of_singleton. apply Qle_refl.
  - destruct (IH (Qmax q a)) as [Hin Hle]. split.
    + apply elem_of_cons in Hin as [Heq|Hin].
      * rewrite Heq. destruct (Qmax_cases q a) as [->| ->].
        -- apply list_elem_of_here.
        -- apply list_elem_of_further, list_elem_of_here.
      * by do 2 apply list_elem_of_further.
    + intros r Hr.
      assert (Qmax q a <= foldl Qmax (Qmax q a) qs)%Q as Hm
        by apply Hle, list_elem_of_here.
      apply elem_of_cons in Hr as [->|Hr]; [|apply elem_of_cons in Hr as [->|Hr]].
      * pose proof (Q.le_max_l q a). lra.
      * pose proof (Q.le_max_r q a). lra.
      * by apply Hle, list_elem_of_further.
Qed.

Lemma foldl_Num_max_Fin (qs : list Q) (q : Q) :
  foldl Num_max (Fin q) (Fin <$> qs) = Fin (foldl Qmax q qs).
Proof.
  revert q. induction qs as [|a qs IH]; intros q; [done|].
  cbn [fmap list_fmap foldl]. apply IH.
Qed.

(** [Math.max] of a non-empty list of numbers is an element of the list
    and bounds every element. *)
Lemma Math_max_spec (qs : list Q) :
  qs ≠ [] →
  ∃ m, Math_max (Fin <$> qs) = Fin m ∧ m ∈ qs ∧ ∀ r, r ∈ qs → (r <= m)%Q.
Proof.
  destruct qs as [|q qs]; [done|]. intros _. exists (foldl Qmax q qs).
  split; [|apply foldl_Qmax_spec].
  unfold Math_max. cbn [fmap list_fmap foldl]. apply foldl_Num_max_Fin.
Qed.

Lemma foldl_Num_max_NaN (vs : list Num) : foldl Num_max NaN vs = NaN.
Proof. induction vs as [|v vs IH]; [done|]. cbn [foldl]. by destruct v. Qed.

(** [Math.max] is [NaN] as soon as one argument is. *)
Lemma Math_max_NaN (vs : list Num) : NaN ∈ vs → Math_max vs = NaN.
Proof.
  unfold Math_max. generalize NegInfinity. induction vs as [|v vs IH]; intros a Hin.
  - by apply elem_of_nil in Hin.
  - cbn [foldl]. apply elem_of_cons in Hin as [<-|Hin].
    + replace (Num_max a NaN) with NaN by (by destruct a). apply foldl_Num_max_NaN.
    + by apply IH.
Qed.

(** ** The pipeline as a whole *)

Lemma stages_spec g :
  ∃ st s, kahn g = Some st ∧ bfsSafe g st ∧ head st = length (queue st) ∧
          stages g = Some s ∧ stagesOK g st s.
Proof.
  destruct (assignLayers_total g) as (st & Hk & Hsafe & Hh & Hlay).
  set (lay := fallback (nodes g) (layer st)) in *.
  set (maxL := max_list (JSMap.values lay)).
  assert (NoDup (JSMap.keys lay)) as Hndk.
  { apply fallback_NoDup. by destruct Hsafe as (_ & _ & _ & ? & _). }
  destruct (groupByLayer_spec maxL lay) as (ln0 & Hg & Hlen0 & Hperm0 & Hrows0).
  { intros p Hp. by apply max_list_values_le. }
  destruct (minimizeCrossings_spec (buildAdj g).1 (buildAdj g).2 maxL ln0 Hlen0)
    as (ln & Hmin & Hlen & Hrows).
  assert (concat ln ≡ₚ JSMap.keys lay) as Hperm.
  { rewrite <-Hperm0. symmetry. by apply rows_concat_perm. }
  assert (NoDup (concat ln)) as Hnd by (by rewrite Hperm).
  destruct (topDown_spec (buildAdj g).1 maxL ln Hnd Hlen) as (nodeY & Htd & Hpad & Hgap).
  pose proof (bottomUp_id (buildAdj g).2 maxL ln nodeY Hpad Hlen
                (λ l ids Hl, proj2 (Hgap l ids Hl))) as Hbu.
  exists st,
    {| st_pred := (buildAdj g).1; st_succ := (buildAdj g).2; st_layer := lay;
       st_maxLayer := maxL; st_layerNodes := ln; st_topDownY := nodeY;
       st_nodeY := nodeY |}.
  split_and!; [done|done|done| |].
  - unfold stages. destruct (buildAdj g) as [pred succ]. rewrite Hlay. simpl.
    fold lay. fold maxL. rewrite Hg. simpl. simpl in Hmin. rewrite Hmin. simpl.
    simpl in Htd. rewrite Htd. simpl. simpl in Hbu. rewrite Hbu. simpl. done.
  - unfold stagesOK. simpl. split_and!; try done.
    intros l ids Hl.
    destruct (Forall2_lookup_r _ _ _ _ _ Hrows Hl) as (x & Hx & Hxy).
    rewrite Hrows0 in Hx.
    + injection Hx as <-. by symmetry.
    + apply lookup_lt_Some in Hl. lia.
Qed.

Lemma fallback_nonempty g st : nodes g ≠ [] → JSMap.keys (fallback (nodes g) (layer st)) ≠ [].
Proof.
  intros Hne Hnil. destruct (nodes g) as [|n ns] eqn:Hn; [done|].
  assert (id n ∈ JSMap.keys (fallback (n :: ns) (layer st))) as Hin.
  { apply fallback_keys. right. rewrite fmap_cons. apply list_elem_of_here. }
  rewrite Hnil in Hin. by apply elem_of_nil in Hin.
Qed.

Lemma stagesOK_NoDup_rows g st s : stagesOK g st s → NoDup (concat (st_layerNodes s)).
Proof. intros (_ & _ & _ & _ & _ & _ & Hperm & Hnd & _). by rewrite Hperm. Qed.

Lemma finish_spec g st s nodeY :
  nodes g ≠ [] → stagesOK g st s →
  ∃ m, finish g s nodeY = Some (layoutOf g s nodeY m) ∧
       Math_max (bottoms (posRows (nodeMapOf g) nodeY (st_layerNodes s))) = m.
Proof.
  intros Hne Hok. pose proof (stagesOK_NoDup_rows g st s Hok) as Hnd.
  destruct Hok as (_ & _ & Hlay & _ & Hlen & _ & Hperm & _).
  unfold finish. fold (nodeMapOf g).
  rewrite (buildPositions_spec _ _ _ _ Hnd Hlen). simpl.
  eexists. split; [|done]. done.
Qed.

(** The position map of a graph with nodes is not empty. *)
Lemma posRows_nonempty g st s nodeY :
  nodes g ≠ [] → stagesOK g st s →
  posRows (nodeMapOf g) nodeY (st_layerNodes s) ≠ [].
Proof.
  intros Hne Hok Hnil. destruct Hok as (_ & _ & Hlay & _ & Hlen & _ & Hperm & _).
  apply (fallback_nonempty g st Hne). rewrite <-Hlay.
  apply Permutation_nil_r. rewrite <-Hperm, <-(posRows_keys (nodeMapOf g) nodeY).
  by rewrite Hnil.
Qed.

(** The result of a run on a non-empty graph. *)
Lemma computeLayout_spec g :
  nodes g ≠ [] →
  ∃ st s m, kahn g = Some st ∧ bfsSafe g st ∧ head st = length (queue st) ∧
            stages g = Some s ∧ stagesOK g st s ∧
            Math_max (bottoms (posRows (nodeMapOf g) (st_nodeY s) (st_layerNodes s)))
              = m ∧
            computeLayout g = Some (layoutOf g s (st_nodeY s) m).
Proof.
  intros Hne. destruct (stages_spec g) as (st & s & Hk & Hsafe & Hh & Hs & Hok).
  destruct (finish_spec g st s (st_nodeY s) Hne Hok) as (m & Hf & Hm).
  exists st, s, m. split_and!; try done.
  unfold computeLayout. rewrite decide_False.
  - rewrite Hs. simpl. done.
  - intros Hz. by apply nil_length_inv in Hz.
Qed.

(** [computeLayout] returns a value on every graph: no exception is
    raised and the traversal loop ends. *)
Lemma computeLayout_total g : is_Some (computeLayout g).
Proof.
  destruct (decide (nodes g = [])) as [Hnil|Hne].
  - unfold computeLayout. rewrite Hnil. simpl. eauto.
  - destruct (computeLayout_spec g Hne) as (? & ? & ? & _ & _ & _ & _ & _ & _ & ->). eauto.
Qed.

(** ** Dependence on the input *)

(** The layout depends on the graph only through its nodes and the
    adjacency built from its edges. *)
Lemma computeLayout_ext g g' :
  nodes g = nodes g' → buildAdj g = buildAdj g' → computeLayout g = computeLayout g'.
Proof.
  intros Hn Hb.
  unfold computeLayout, stages, finish, assignLayers, kahn, bfsFuel.
  rewrite Hn, Hb. reflexivity.
Qed.

Lemma addEdge_invalid g es adj e :
  adjOf g es adj → ¬ validEdge g e → addEdge adj e = adj.
Proof.
  intros Hadj Hinv. destruct adj as [pred succ]. unfold addEdge.
  destruct (Hadj (target e)) as [Ht _]. destruct (Hadj (source e)) as [_ Hs].
  simpl in Ht, Hs.
  destruct (decide (target e ∈ nodeIds g)) as [Htin|Htin]; rewrite Ht; [|done].
  destruct (decide (source e ∈ nodeIds g)) as [Hsin|Hsin]; rewrite Hs; [|done].
  exfalso. apply Hinv. by split.
Qed.

Lemma buildAdj_withoutEdge g e es1 es2 :
  edges g = es1 ++ e :: es2 → ¬ validEdge g e →
  buildAdj g = buildAdj (withoutEdge g es1 es2).
Proof.
  intros He Hinv. unfold buildAdj, withoutEdge. cbn [nodes edges].
  rewrite He, !foldl_app. cbn [foldl]. f_equal.
  apply (addEdge_invalid g es1); [apply foldl_addEdge_adjOf|done].
Qed.

(** ** Row membership and layers *)

Lemma row_elem_layer g st s l ids k :
  stagesOK g st s → st_layerNodes s !! l = Some ids →
  k ∈ ids ↔ JSMap.get (st_layer s) k = Some l.
Proof.
  intros (_ & _ & _ & _ & _ & Hrows & _ & Hnd & _) Hl.
  rewrite (Hrows l ids Hl). rewrite list_elem_of_fmap. split.
  - intros (p & -> & Hp). apply list_elem_of_filter in Hp as [Hp2 Hp].
    apply JSMap_elem_of_get; [done|]. destruct p; simpl in *; by subst.
  - intros Hget. exists (k, l). split; [done|].
    apply list_elem_of_filter. split; [done|]. by apply JSMap_get_Some_elem_of.
Qed.

Lemma layer_keys_nodeIds g st k :
  bfsSafe g st → k ∈ JSMap.keys (fallback (nodes g) (layer st)) ↔ k ∈ nodeIds g.
Proof.
  intros (_ & _ & Hkeys & _). rewrite fallback_keys. unfold nodeIds. split.
  - intros [?|?]; [by apply Hkeys|done].
  - by right.
Qed.

(** ** The stable sort by barycenter *)

Section sort_by_key.
Context (key : string → Num).
Hypothesis key_regular : ∀ a, regular (key a).

Lemma keyLe_trans a b c : keyLe key a b → keyLe key b c → keyLe key a c.
Proof.
  unfold keyLe, keyCmp.
  destruct (key_regular a) as [->|[p ->]], (key_regular b) as [->|[q ->]],
    (key_regular c) as [->|[r ->]]; simpl; try done.
  rewrite !Qltb_ge. intros H1 H2. lra.
Qed.

Lemma keyLe_of_gt a b : Num_pos ((keyCmp key) a b) = true → keyLe key b a.
Proof.
  unfold keyLe, keyCmp.
  destruct (key_regular a) as [->|[p ->]], (key_regular b) as [->|[q ->]];
    simpl; try done.
  rewrite Qltb_lt, Qltb_ge. intros H. lra.
Qed.

Lemma sortInsert_elem_of a x l : x ∈ sortInsert (keyCmp key) a l ↔ x = a ∨ x ∈ l.
Proof. by rewrite sortInsert_perm, elem_of_cons. Qed.

Lemma sortInsert_sorted a l :
  StronglySorted (keyLe key) l → StronglySorted (keyLe key) (sortInsert (keyCmp key) a l).
Proof.
  induction 1 as [|b l Hs IH Hb]; simpl.
  - repeat constructor.
  - destruct (Num_pos ((keyCmp key) a b)) eqn:Hc.
    + constructor; [done|]. apply Forall_forall. intros x Hx.
      apply sortInsert_elem_of in Hx as [->|Hx].
      * by apply keyLe_of_gt.
      * by eapply Forall_forall in Hb.
    + constructor; [by constructor|]. constructor; [done|].
      apply Forall_forall. intros x Hx. eapply keyLe_trans; [exact Hc|].
      by eapply Forall_forall in Hb.
Qed.

Lemma Array_sort_sorted l : StronglySorted (keyLe key) (Array_sort (keyCmp key) l).
Proof.
  unfold Array_sort. induction l as [|a l IH]; simpl; [constructor|].
  by apply sortInsert_sorted.
Qed.

(** Where the insertion puts the new element: behind a prefix of
    elements whose keys are strictly smaller. *)
Lemma sortInsert_split a l :
  ∃ l1 l2, l = l1 ++ l2 ∧ sortInsert (keyCmp key) a l = l1 ++ a :: l2 ∧
           ∀ x, x ∈ l1 → Num_pos ((keyCmp key) a x) = true.
Proof.
  induction l as [|b l IH]; simpl.
  - exists [], []. split_and!; [done|done|by intros ? ?%elem_of_nil].
  - destruct (Num_pos ((keyCmp key) a b)) eqn:Hc.
    + destruct IH as (l1 & l2 & -> & -> & Hl1).
      exists (b :: l1), l2. split_and!; [done|done|].
      intros x [->|Hx]%elem_of_cons; auto.
    + exists [], (b :: l). split_and!; [done|done|by intros ? ?%elem_of_nil].
Qed.

Lemma before_insert_middle a b x (l1 l2 : list string) :
  before a b (l1 ++ l2) → before a b (l1 ++ x :: l2).
Proof.
  intros (i & j & Hij & Hi & Hj).
  set (sh := λ k, if decide (k < length l1) then k else S k).
  assert (∀ k c, (l1 ++ l2) !! k = Some c → (l1 ++ x :: l2) !! sh k = Some c) as Hsh.
  { intros k c Hk. unfold sh. destruct (decide (k < length l1)).
    - rewrite lookup_app_l in Hk by done. by rewrite lookup_app_l.
    - rewrite lookup_app_r in Hk by lia. rewrite lookup_app_r by lia.
      replace (S k - length l1) with (S (k - length l1)) by lia. done. }
  exists (sh i), (sh j). split_and!; [|by apply Hsh|by apply Hsh].
  unfold sh. repeat case_decide; lia.
Qed.

Lemma Array_sort_stable l a b :
  before a b l → Num_equiv (key a) (key b) → before a b (Array_sort (keyCmp key) l).
Proof.
  intros Hbef Heq. unfold Array_sort.
  induction l as [|x l IH]; [by destruct Hbef as (? & ? & _ & ? & _)|].
  simpl. destruct (sortInsert_split x (foldr (sortInsert (keyCmp key)) [] l))
    as (l1 & l2 & Hl & -> & Hl1).
  destruct Hbef as (i & j & Hij & Hi & Hj). destruct i as [|i].
  - simpl in Hi. injection Hi as ->. destruct j as [|j]; [lia|]. simpl in Hj.
    assert (b ∈ l1 ++ l2) as Hb.
    { rewrite <-Hl. fold (Array_sort (keyCmp key) l). rewrite Array_sort_perm.
      by eapply list_elem_of_lookup_2. }
    apply elem_of_app in Hb as [Hb|Hb].
    + exfalso. specialize (Hl1 b Hb). unfold keyCmp in Hl1.
      destruct (key a) as [p| | |], (key b) as [q| | |]; simpl in *; try done.
      apply Qltb_lt in Hl1. lra.
    + apply list_elem_of_lookup in Hb as [k Hk].
      exists (length l1), (length l1 + S k). split_and!; [lia| |].
      * by rewrite list_lookup_middle.
      * rewrite lookup_app_r by lia.
        replace (length l1 + S k - length l1) with (S k) by lia. done.
  - destruct j as [|j]; [lia|]. simpl in Hi, Hj.
    apply before_insert_middle. rewrite <-Hl. apply IH.
    exists i, j. split_and!; [lia|done|done].
Qed.
End sort_by_key.

Lemma StronglySorted_lookup_lt {A} (R : relation A) (l : list A) i j a b :
  StronglySorted R l → i < j → l !! i = Some a → l !! j = Some b → R a b.
Proof.
  intros Hs. revert i j. induction Hs as [|x l Hs IH Hx]; intros i j Hij Hi Hj; [done|].
  destruct j as [|j]; [lia|]. simpl in Hj. destruct i as [|i]; simpl in Hi.
  - injection Hi as <-. eapply Forall_forall in Hx; [done|].
    by eapply list_elem_of_lookup_2.
  - apply (IH i j); [lia|done|done].
Qed.

(** ** [baryPos] *)

Lemma imap_index_fst (ids : list string) (f : nat → nat) :
  (imap (λ i a, (a, f i)) ids).*1 = ids.
Proof.
  revert f. induction ids as [|a ids IH]; intros f; [done|].
  cbn [imap fmap list_fmap fst]. f_equal. apply (IH (f ∘ S)).
Qed.

Lemma indexMap_is_Some (ids : list string) k : is_Some (indexMap ids !! k) ↔ k ∈ ids.
Proof.
  unfold indexMap. rewrite newMap_lookup_is_Some.
  by rewrite (imap_index_fst ids (λ i, i)).
Qed.

Lemma baryPos_regular a nbrs prevPos : regular (baryPos a nbrs prevPos).
Proof.
  unfold baryPos, regular. destruct (decide (length (default [] (nbrs !! a)) = 0)); [by left|].
  destruct (foldl _ _ _) as [sum count]. destruct (decide (0 < count)); eauto.
Qed.

Lemma baryPos_fold_none (prevPos : gmap string nat) (l : list string) acc :
  (∀ n, n ∈ l → prevPos !! n = None) →
  foldl (λ '(sum, count) nid,
           match prevPos !! nid with
           | Some p => (sum + p, count + 1)
           | None => (sum, count)
           end) acc l = acc.
Proof.
  revert acc. induction l as [|n l IH]; intros [sum count] Hnone; cbn [foldl]; [done|].
  rewrite (Hnone n) by apply list_elem_of_here.
  apply IH. intros ??. by apply Hnone, list_elem_of_further.
Qed.

Lemma baryPos_no_neighbors a nbrs adjacent :
  (∀ n, n ∈ default [] (nbrs !! a) → n ∉ adjacent) →
  baryPos a nbrs (indexMap adjacent) = Infinity.
Proof.
  intros Hno. unfold baryPos.
  destruct (decide (length (default [] (nbrs !! a)) = 0)); [done|].
  rewrite baryPos_fold_none; [by rewrite decide_False by lia|].
  intros x Hx. apply eq_None_not_Some. rewrite indexMap_is_Some. by apply Hno.
Qed.

(** ** Counting edges *)

Lemma occurrences_cons_eq n l : occurrences n (n :: l) = S (occurrences n l).
Proof. unfold occurrences. by rewrite filter_cons_True. Qed.

Lemma occurrences_cons_ne n x l : x ≠ n → occurrences n (x :: l) = occurrences n l.
Proof. intros Hne. unfold occurrences. by rewrite filter_cons_False. Qed.

Lemma occurrences_nil n : occurrences n [] = 0.
Proof. done. Qed.

Lemma occurrences_pos n l : n ∈ l → 0 < occurrences n l.
Proof.
  induction l as [|x l IH]; [by intros ?%elem_of_nil|].
  intros Hin. destruct (decide (x = n)) as [->|Hne].
  - rewrite occurrences_cons_eq. lia.
  - rewrite occurrences_cons_ne by done. apply IH.
    apply elem_of_cons in Hin as [?|?]; [congruence|done].
Qed.

Lemma filter_notin_snoc (P l : list string) cur :
  cur ∉ P →
  length (filter (λ p, p ∉ P) l) =
    length (filter (λ p, p ∉ P ++ [cur]) l) + occurrences cur l.
Proof.
  intros Hcur. induction l as [|x l IH]; [done|].
  destruct (decide (x = cur)) as [->|Hne].
  - rewrite occurrences_cons_eq, filter_cons_True by done.
    rewrite filter_cons_False.
    + simpl. lia.
    + intros Hn. apply Hn. apply elem_of_app. right. apply list_elem_of_here.
  - rewrite occurrences_cons_ne by done. destruct (decide (x ∈ P)) as [Hin|Hin].
    + rewrite !filter_cons_False; [done| |by intros ?].
      intros Hn. apply Hn. apply elem_of_app. by left.
    + rewrite !filter_cons_True; [simpl; lia| |done].
      rewrite elem_of_app, list_elem_of_singleton. intros [?|?]; done.
Qed.

Lemma occurrences_preds_succs g cur n :
  occurrences cur (predsOf g n) = occurrences n (succsOf g cur).
Proof.
  unfold occurrences, predsOf, succsOf. induction (edges g) as [|e es IH]; [done|].
  destruct (decide (validEdge g e)) as [Hv|Hv].
  - destruct (decide (target e = n)) as [Ht|Ht], (decide (source e = cur)) as [Hs|Hs].
    + rewrite !(filter_cons_True _ e) by done. rewrite !fmap_cons.
      rewrite !filter_cons_True by done. simpl. by rewrite IH.
    + rewrite (filter_cons_True _ e) by done.
      rewrite (filter_cons_False _ e) by (intros [? _]; done).
      rewrite fmap_cons, filter_cons_False by done. done.
    + rewrite (filter_cons_False _ e) by (intros [? _]; done).
      rewrite (filter_cons_True _ e) by done.
      rewrite fmap_cons, filter_cons_False by done. done.
    + rewrite !(filter_cons_False _ e) by (intros [? _]; done). done.
  - rewrite !(filter_cons_False _ e) by (intros [_ ?]; done). done.
Qed.

Lemma unconsumed_snoc g P cur n :
  cur ∉ P →
  unconsumed g P n = unconsumed g (P ++ [cur]) n + occurrences n (succsOf g cur).
Proof.
  intros Hcur. unfold unconsumed.
  rewrite (filter_notin_snoc P _ cur Hcur). by rewrite occurrences_preds_succs.
Qed.

Lemma unconsumed_nil g n : unconsumed g [] n = length (predsOf g n).
Proof.
  unfold unconsumed. f_equal. induction (predsOf g n) as [|x l IH]; [done|].
  rewrite filter_cons_True; [by rewrite IH|apply not_elem_of_nil].
Qed.

Lemma unconsumed_pos g P n :
  0 < unconsumed g P n → ∃ p, p ∈ predsOf g n ∧ p ∉ P.
Proof.
  unfold unconsumed. intros Hpos.
  destruct (filter (λ p, p ∉ P) (predsOf g n)) as [|p l] eqn:Hf; [simpl in Hpos; lia|].
  assert (p ∈ filter (λ p, p ∉ P) (predsOf g n)) as Hp
    by (rewrite Hf; apply list_elem_of_here).
  apply list_elem_of_filter in Hp as [? ?]. eauto.
Qed.

Lemma unconsumed_zero g P n p :
  unconsumed g P n = 0 → p ∈ predsOf g n → p ∈ P.
Proof.
  unfold unconsumed. intros Hz Hp. destruct (decide (p ∈ P)) as [|Hn]; [done|].
  assert (p ∈ filter (λ p, p ∉ P) (predsOf g n)) as Hf
    by (apply list_elem_of_filter; done).
  apply nil_length_inv in Hz. rewrite Hz in Hf. by apply elem_of_nil in Hf.
Qed.

Lemma preds_succs g p n : p ∈ predsOf g n ↔ n ∈ succsOf g p.
Proof.
  unfold predsOf, succsOf. rewrite !list_elem_of_fmap. split.
  - intros (e & -> & He). apply list_elem_of_filter in He as [[Ht Hv] He].
    exists e. split; [done|]. apply list_elem_of_filter. done.
  - intros (e & -> & He). apply list_elem_of_filter in He as [[Hs Hv] He].
    exists e. split; [done|]. apply list_elem_of_filter. done.
Qed.

(** ** One relaxation step *)

Lemma relax_Some cl st x d :
  inDeg st !! x = Some d →
  ∃ st', relax cl st x = Some st' ∧
    inDeg st' = <[x := (d - 1)%Z]> (inDeg st) ∧
    queue st' = (if decide ((d - 1)%Z = 0%Z) then queue st ++ [x] else queue st) ∧
    head st' = head st ∧
    (∀ k, k ≠ x → JSMap.get (layer st') k = JSMap.get (layer st) k) ∧
    ∃ lx, JSMap.get (layer st') x = Some lx ∧ cl + 1 ≤ lx ∧
          (lx = cl + 1 ∨ JSMap.get (layer st) x = Some lx) ∧
          (∀ l0, JSMap.get (layer st) x = Some l0 → l0 ≤ lx).
Proof.
  intros Hd. unfold relax. rewrite Hd. simpl. eexists. split; [done|]. simpl.
  split_and!; try done.
  - intros k Hk. destruct (JSMap.get (layer st) x) as [l|];
      [destruct (decide (l < cl + 1))|]; try done; by rewrite JSMap_get_set_ne.
  - destruct (JSMap.get (layer st) x) as [l|] eqn:Hl;
      [destruct (decide (l < cl + 1))|].
    + exists (cl + 1). rewrite JSMap_get_set_eq. split_and!; [done|lia|by left|].
      intros l' [= <-]. lia.
    + exists l. rewrite Hl. split_and!; [done|lia|by right|]. intros l' [= <-]. lia.
    + exists (cl + 1). rewrite JSMap_get_set_eq. split_and!; [done|lia|by left|done].
Qed.

Lemma relax_inv g P x extra C cur cl st st' :
  kahnInv g P (x :: extra) C st → x ∈ nodeIds g → cur ∈ queue st →
  JSMap.get (layer st) cur = Some cl →
  relax cl st x = Some st' →
  kahnInv g P extra (λ p n, C p n ∨ (p = cur ∧ n = x)) st' ∧
  cur ∈ queue st' ∧ JSMap.get (layer st') cur = Some cl ∧ head st' = head st ∧
  ∃ suffix, queue st' = queue st ++ suffix.
Proof.
  intros (I1 & I2 & I3 & I4 & I5 & I6 & I7 & I8 & I9) Hx Hcur Hcl Hrel.
  pose proof (I4 x Hx) as Hd. rewrite occurrences_cons_eq in Hd.
  destruct (relax_Some cl st x _ Hd)
    as (st1 & Hrel1 & HinDeg & Hqueue & Hhead & Hother & lx & Hlx & Hge & Hlxor & Hmono).
  rewrite Hrel1 in Hrel. injection Hrel as <-.
  assert (x ∉ queue st) as Hxq.
  { intros Hin. apply (I5 x Hx) in Hin. rewrite occurrences_cons_eq in Hin. lia. }
  assert (∀ q, q ∈ queue st → q ≠ x) as Hqne by (intros q Hq ->; done).
  assert (∀ q, q ∈ queue st1 ↔ q ∈ queue st ∨
            (q = x ∧ unconsumed g P x + occurrences x extra = 0)) as Hq1.
  { intros q. rewrite Hqueue. destruct (decide _) as [Hz|Hz].
    - rewrite elem_of_app, list_elem_of_singleton. split; [|tauto].
      intros [?| ->]; [by left|right]. split; [done|lia].
    - split; [by left|]. intros [?|[_ ?]]; [done|lia]. }
  assert (JSMap.get (layer st1) cur = Some cl) as Hcl1.
  { rewrite Hother; [done|]. by apply Hqne. }
  split_and!; [|apply Hq1; by left|done|done|].
  2:{ rewrite Hqueue. destruct (decide _); [eauto|]. exists []. by rewrite app_nil_r. }
  split_and!.
  - rewrite Hqueue. destruct (decide _); [|done].
    apply NoDup_app. split_and!; [done| |apply NoDup_singleton].
    intros q Hq ->%list_elem_of_singleton. done.
  - intros q [Hq|[-> _] ]%Hq1; auto.
  - intros p Hp. apply Hq1. left. auto.
  - intros n Hn. rewrite HinDeg. destruct (decide (x = n)) as [<-|Hne].
    + rewrite lookup_insert_eq. f_equal. lia.
    + rewrite lookup_insert_ne by done. rewrite (I4 n Hn).
      by rewrite occurrences_cons_ne.
  - intros n Hn. rewrite Hq1. destruct (decide (n = x)) as [->|Hne].
    + split; [intros [?|[_ ?]]; done | intros ?; by right].
    + rewrite (I5 n Hn), occurrences_cons_ne by done.
      split; [intros [?|[? _]]; done | by left].
  - intros q [Hq|[-> _] ]%Hq1; [|eauto].
    rewrite Hother by (by apply Hqne). auto.
  - intros p n [Hc|[-> ->]].
    + destruct (I7 p n Hc) as (Hp & lp & ln & Hlp & Hln & Hle).
      split; [apply Hq1; by left|].
      rewrite (Hother p) by (by apply Hqne).
      destruct (decide (n = x)) as [->|Hne].
      * exists lp, lx. split_and!; [done|done|]. specialize (Hmono ln Hln). lia.
      * exists lp, ln. by rewrite Hother.
    + split; [apply Hq1; by left|]. exists cl, lx. done.
  - intros n ln Hn. destruct (decide (n = x)) as [->|Hne].
    + rewrite Hlx in Hn. injection Hn as ->. destruct Hlxor as [Heq|Hold].
      * exists cur. split; [by right|]. rewrite Hcl1. f_equal. lia.
      * destruct (I8 x ln Hold) as (p & Hc & Hp). exists p. split; [by left|].
        destruct (I7 p x Hc) as (Hpq & _). rewrite Hother; [done|by apply Hqne].
    + rewrite Hother in Hn by done.
      destruct (I8 n ln Hn) as (p & Hc & Hp). exists p. split; [by left|].
      destruct (I7 p n Hc) as (Hpq & _). rewrite Hother; [done|by apply Hqne].
  - intros n Hn. destruct (decide (n = x)) as [->|Hne].
    + rewrite Hlx in Hn. injection Hn as ->. lia.
    + rewrite Hother in Hn by done. auto.
Qed.

(** ** The invariant through the loops *)

Lemma kahnInv_iff g P extra (C C' : string → string → Prop) st :
  (∀ p n, C p n ↔ C' p n) → kahnInv g P extra C st → kahnInv g P extra C' st.
Proof.
  intros HC (I1 & I2 & I3 & I4 & I5 & I6 & I7 & I8 & I9).
  split_and!; try done.
  - intros p n Hc. apply I7. by apply HC.
  - intros n ln Hn. destruct (I8 n ln Hn) as (p & Hc & Hp). exists p. split; [|done].
    by apply HC.
Qed.

Lemma foldM_relax_inv g P cur cl xs C st st' :
  kahnInv g P xs C st → (∀ x, x ∈ xs → x ∈ nodeIds g) → cur ∈ queue st →
  JSMap.get (layer st) cur = Some cl →
  foldM (relax cl) st xs = Some st' →
  kahnInv g P [] (λ p n, C p n ∨ (p = cur ∧ n ∈ xs)) st' ∧ head st' = head st ∧
  ∃ suffix, queue st' = queue st ++ suffix.
Proof.
  revert C st. induction xs as [|x xs IH]; intros C st Hinv Hxs Hcur Hcl Hf.
  - simpl in Hf. injection Hf as <-. split_and!; [|done|exists []; by rewrite app_nil_r].
    eapply kahnInv_iff; [|done]. intros p n. split; [by left|].
    intros [?|[_ ?%elem_of_nil] ]; done.
  - cbn [foldM] in Hf. destruct (relax cl st x) as [st1|] eqn:Hrel; [|done].
    simpl in Hf.
    destruct (relax_inv g P x xs C cur cl st st1 Hinv) as (Hinv1 & Hcur1 & Hcl1 & Hh1 & s1 & Hq1);
      [apply Hxs, list_elem_of_here|done|done|done|].
    destruct (IH _ st1 Hinv1) as (Hinv' & Hh' & s2 & Hq'); [|done|done|done|].
    { intros ??. by apply Hxs, list_elem_of_further. }
    split_and!; [|congruence|exists (s1 ++ s2); by rewrite Hq', Hq1, (assoc_L (++))].
    eapply kahnInv_iff; [|done]. intros p n. simpl. rewrite elem_of_cons. tauto.
Qed.

Lemma bfsStep_inv g st st' :
  kahnOuter g st → head st < length (queue st) →
  bfsStep (buildAdj g).2 st = Some st' → kahnOuter g st'.
Proof.
  intros [Hle Hinv] Hlt Hstep.
  pose proof Hinv as (I1 & I2 & I3 & I4 & I5 & I6 & I7 & I8 & I9).
  destruct (lookup_lt_is_Some_2 (queue st) (head st) Hlt) as [cur Hcur].
  assert (cur ∈ queue st) as Hcurq by (by eapply list_elem_of_lookup_2).
  pose proof (I2 cur Hcurq) as Hcurid.
  destruct (I6 cur Hcurq) as [cl Hcl].
  unfold bfsStep in Hstep. rewrite Hcur in Hstep. simpl in Hstep.
  rewrite Hcl in Hstep. simpl in Hstep.
  rewrite buildAdj_succ, decide_True in Hstep by done. simpl in Hstep.
  set (P := take (head st) (queue st)) in *.
  assert (cur ∉ P) as HcurP.
  { pose proof I1 as Hnd. rewrite <-(take_drop_middle _ _ _ Hcur) in Hnd.
    apply NoDup_app in Hnd as (_ & Hdisj & _). intros Hin.
    apply (Hdisj cur Hin). apply list_elem_of_here. }
  set (st0 := {| layer := layer st; inDeg := inDeg st; queue := queue st;
                 head := S (head st) |}) in *.
  assert (kahnInv g (P ++ [cur]) (succsOf g cur) (processedEdges g P) st0) as Hinv0.
  { split_and!; simpl; try done.
    - intros p [Hp| ->%list_elem_of_singleton]%elem_of_app; auto.
    - intros n Hn. rewrite (I4 n Hn). do 2 f_equal.
      rewrite (unconsumed_snoc g P cur n HcurP). rewrite occurrences_nil. lia.
    - intros n Hn. rewrite (I5 n Hn).
      rewrite (unconsumed_snoc g P cur n HcurP), occurrences_nil. lia. }
  destruct (foldM_relax_inv g (P ++ [cur]) cur cl (succsOf g cur) _ st0 st' Hinv0)
    as (Hinv' & Hh' & suffix & Hq'); [apply succsOf_nodeIds|done|done|done|].
  simpl in Hh', Hq'.
  assert (take (head st') (queue st') = P ++ [cur]) as Htake.
  { rewrite Hh', Hq'. rewrite take_app_le by lia. by apply take_S_r. }
  split.
  - rewrite Hh', Hq', length_app. lia.
  - rewrite Htake. eapply kahnInv_iff; [|done].
    intros p n. unfold processedEdges. simpl.
    rewrite elem_of_app, list_elem_of_singleton. split.
    + intros [[? ?]|[-> ?] ]; auto.
    + intros [[?| ->] ?]; auto.
Qed.

Lemma bfs_inv g fuel st st' :
  kahnOuter g st → bfs fuel (buildAdj g).2 st = Some st' →
  kahnOuter g st' ∧ head st' = length (queue st').
Proof.
  revert st. induction fuel as [|fuel IH]; intros st Hout Hbfs; simpl in Hbfs.
  - destruct (decide (head st < length (queue st))); [done|].
    injection Hbfs as <-. split; [done|]. destruct Hout as [? _]. lia.
  - destruct (decide (head st < length (queue st))) as [Hlt|Hge].
    + destruct (bfsStep (buildAdj g).2 st) as [st1|] eqn:Hstep; [|done].
      simpl in Hbfs. apply (IH st1); [|done]. by eapply bfsStep_inv.
    + injection Hbfs as <-. split; [done|]. destruct Hout as [? _]. lia.
Qed.

Lemma initState_outer g : NoDup (nodeIds g) → kahnOuter g (initState g).
Proof.
  intros Hnd. split; [simpl; lia|]. simpl. split_and!; simpl.
  - unfold seedsOf. by apply NoDup_filter.
  - apply seedsOf_nodeIds.
  - by intros p ?%elem_of_nil.
  - intros n Hn. rewrite (newMap_fmap_lookup (inDeg0 g)).
    rewrite decide_True by done. unfold inDeg0.
    rewrite unconsumed_nil, occurrences_nil. do 2 f_equal. lia.
  - intros n Hn. rewrite unconsumed_nil, occurrences_nil. unfold seedsOf.
    rewrite list_elem_of_filter. unfold inDeg0. split; [intros [? _]; lia|].
    intros ?. split; [lia|done].
  - intros q Hq. rewrite initLayer_get, decide_True by done. done.
  - intros p n [Hp _]. by apply elem_of_nil in Hp.
  - intros n ln. rewrite initLayer_get. by destruct (decide _).
  - intros n. rewrite initLayer_get. destruct (decide (n ∈ seedsOf g)) as [Hin|]; [|done].
    intros _. split; [by apply seedsOf_nodeIds|].
    unfold seedsOf in Hin. apply list_elem_of_filter in Hin as [Hz _].
    unfold inDeg0 in Hz. apply nil_length_inv. lia.
Qed.

(** With distinct node ids the traversal ends in a state that satisfies
    the invariant, with every queue entry dequeued. *)
Lemma kahn_outer g st :
  NoDup (nodeIds g) → kahn g = Some st →
  kahnOuter g st ∧ head st = length (queue st).
Proof.
  intros Hnd Hk. unfold kahn in Hk.
  pose proof (initBfs_eq g) as Hinit.
  pose proof (bfs_inv g (bfsFuel g) (initState g) st (initState_outer g Hnd)) as Hbfs.
  destruct (buildAdj g) as [pred succ]. simpl in Hinit, Hbfs.
  rewrite Hinit in Hk. simpl in Hk. by apply Hbfs.
Qed.

(** ** Acyclic graphs: every node is dequeued *)

(** In a finite set without cycles, not every member can have a
    predecessor in the set. *)
Lemma no_infinite_descent (R : relation string) (U : string → Prop) (ids : list string) n0 :
  (∀ m, ¬ tc R m m) → (∀ n, U n → n ∈ ids) → (∀ n, U n → ∃ p, U p ∧ R p n) →
  ¬ U n0.
Proof.
  intros Hacyc Hfin Hpred Hn0.
  assert (∀ k, ∃ c : list string, length c = S k ∧ (∀ x, x ∈ c → U x) ∧
            ∀ i j a b, i < j → c !! i = Some a → c !! j = Some b → tc R a b) as Hchain.
  { induction k as [|k (c & Hlen & HU & Hrel)].
    - exists [n0]. split_and!; [done| |].
      + by intros x ->%list_elem_of_singleton.
      + intros i j a b Hij Hi Hj. apply lookup_lt_Some in Hj. simpl in Hj. lia.
    - destruct c as [|h t]; [done|].
      destruct (Hpred h) as (p & Hp & Hph); [apply HU, list_elem_of_here|].
      exists (p :: h :: t). split_and!; [simpl in *; lia| |].
      + intros x [->|Hx]%elem_of_cons; auto.
      + intros i j a b Hij Hi Hj. destruct j as [|j]; [lia|]. simpl in Hj.
        destruct i as [|i]; simpl in Hi.
        * injection Hi as <-. destruct j as [|j]; simpl in Hj.
          -- injection Hj as <-. by apply tc_once.
          -- eapply tc_l; [done|]. apply (Hrel 0 (S j)); [lia|done|done].
        * apply (Hrel i j); [lia|done|done]. }
  destruct (Hchain (length ids)) as (c & Hlen & HU & Hrel).
  assert (NoDup c) as Hnd.
  { apply NoDup_alt. intros i j x Hi Hj.
    destruct (lt_eq_lt_dec i j) as [[Hlt|Heq]|Hgt]; [|done|].
    - destruct (Hacyc x). by apply (Hrel i j).
    - destruct (Hacyc x). by apply (Hrel j i). }
  assert (length c ≤ length ids); [|lia].
  apply submseteq_length, NoDup_submseteq; [done|]. intros x Hx. auto.
Qed.

Lemma predsOf_edgeRel g p n : p ∈ predsOf g n → edgeRel g p n.
Proof.
  unfold predsOf. intros (e & -> & He)%list_elem_of_fmap.
  apply list_elem_of_filter in He as [[Ht _] He]. by exists e.
Qed.

Lemma acyclic_all_enqueued g st n :
  acyclic g → kahnOuter g st → head st = length (queue st) →
  n ∈ nodeIds g → n ∈ queue st.
Proof.
  intros Hacyc [_ Hinv] Hh Hn.
  rewrite Hh, firstn_all in Hinv.
  destruct Hinv as (_ & _ & _ & _ & I5 & _).
  destruct (decide (n ∈ queue st)) as [|Hnq]; [done|]. exfalso.
  apply (no_infinite_descent (edgeRel g) (λ k, k ∈ nodeIds g ∧ k ∉ queue st)
           (nodeIds g) n Hacyc); [by intros ? [? _] | | done].
  intros k [Hk Hkq].
  destruct (unconsumed_pos g (queue st) k) as (p & Hp & Hpq).
  { rewrite (I5 k Hk), occurrences_nil in Hkq. lia. }
  exists p. split_and!; [by eapply predsOf_nodeIds|done|by apply predsOf_edgeRel].
Qed.

Lemma max_list_le (ns : list nat) m : (∀ x, x ∈ ns → x ≤ m) → max_list ns ≤ m.
Proof.
  induction ns as [|a ns IH]; intros Hle; simpl; [lia|].
  pose proof (Hle a (list_elem_of_here _ _)).
  assert (max_list ns ≤ m) by (apply IH; intros ??; by apply Hle, list_elem_of_further).
  lia.
Qed.

Lemma preds_predsOf g n : edgesValid g → preds g n = predsOf g n.
Proof.
  intros Hv. unfold preds, predsOf, edgesValid in *. f_equal.
  induction (edges g) as [|e es IH]; [done|].
  assert (validEdge g e) as He by apply Hv, list_elem_of_here.
  assert (filter (λ e, target e = n) es = filter (λ e, target e = n ∧ validEdge g e) es)
    as IH' by (apply IH; intros ??; by apply Hv, list_elem_of_further).
  destruct (decide (target e = n)) as [Ht|Ht].
  - rewrite !filter_cons_True by done. by rewrite IH'.
  - rewrite !filter_cons_False; [done|by intros [? _]|done].
Qed.

(** The layers of an acyclic graph with distinct node ids: every node has
    a layer from the traversal, at least one more than the layer of each
    predecessor and, unless it is 0 on a node without predecessors, one
    more than the layer of some predecessor. *)
Lemma kahn_layers g st :
  NoDup (nodeIds g) → acyclic g → kahn g = Some st →
  ∀ n, n ∈ nodeIds g →
    ∃ l, JSMap.get (layer st) n = Some l ∧
         l = max_list ((λ p, layerOf (layer st) p + 1) <$> predsOf g n).
Proof.
  intros Hnd Hacyc Hk n Hn.
  destruct (kahn_outer g st Hnd Hk) as [Hout Hh].
  pose proof (λ k, acyclic_all_enqueued g st k Hacyc Hout Hh) as Hall.
  destruct Hout as [_ Hinv]. rewrite Hh, firstn_all in Hinv.
  destruct Hinv as (_ & _ & _ & _ & _ & I6 & I7 & I8 & I9).
  destruct (I6 n (Hall n Hn)) as [l Hl]. exists l. split; [done|].
  apply Nat.le_antisymm.
  - destruct l as [|l]; [lia|].
    destruct (I8 n l Hl) as (p & [Hp Hsucc] & Hlp).
    apply max_list_elem_of_le, list_elem_of_fmap. exists p. split.
    + unfold layerOf. rewrite Hlp. simpl. lia.
    + by apply preds_succs.
  - apply max_list_le. intros x (p & -> & Hp)%list_elem_of_fmap.
    destruct (I7 p n) as (_ & lp & ln & Hlp & Hln & Hle).
    { split; [|by apply preds_succs]. apply Hall. by eapply predsOf_nodeIds. }
    unfold layerOf. rewrite Hlp. simpl. rewrite Hl in Hln. injection Hln as <-. lia.
Qed.

(** A graph whose edges all go up in some rank has no cycle. *)
Lemma acyclic_of_rank g (rank : string → nat) :
  Forall (λ e, rank (source e) < rank (target e)) (edges g) → acyclic g.
Proof.
  intros Hrank n Hcyc.
  assert (∀ a b, tc (edgeRel g) a b → rank a < rank b) as Hlt.
  { induction 1 as [a b (e & He & <- & <-)|a b c (e & He & <- & <-) _ IH].
    - by eapply Forall_forall in Hrank.
    - eapply Forall_forall in Hrank; [|done]. simpl in Hrank. lia. }
  specialize (Hlt n n Hcyc). lia.
Qed.

Lemma edgesValid_Forall g :
  Forall (λ e, target e ∈ nodeIds g ∧ source e ∈ nodeIds g) (edges g) → edgesValid g.
Proof. intros H e He. by eapply Forall_forall in H. Qed.

(** ** The stable sorted permutation is unique *)

Lemma before_NoDup_asym (l : list string) a b :
  NoDup l → before a b l → ¬ before b a l.
Proof.
  intros Hnd (i & j & Hij & Hi & Hj) (i' & j' & Hij' & Hi' & Hj').
  pose proof (NoDup_lookup _ _ _ _ Hnd Hi Hj'). pose proof (NoDup_lookup _ _ _ _ Hnd Hj Hi').
  lia.
Qed.

Lemma before_NoDup_ne (l : list string) a b : NoDup l → before a b l → a ≠ b.
Proof.
  intros Hnd (i & j & Hij & Hi & Hj) ->.
  pose proof (NoDup_lookup _ _ _ _ Hnd Hi Hj). lia.
Qed.

Lemma before_elem_of (l : list string) a b : before a b l → a ∈ l ∧ b ∈ l.
Proof. intros (i & j & _ & Hi & Hj). split; by eapply list_elem_of_lookup_2. Qed.

Lemma before_total (l : list string) a b :
  a ∈ l → b ∈ l → a ≠ b → before a b l ∨ before b a l.
Proof.
  intros [i Hi]%list_elem_of_lookup [j Hj]%list_elem_of_lookup Hne.
  destruct (lt_eq_lt_dec i j) as [[Hlt|Heq]|Hgt].
  - left. by exists i, j.
  - subst j. congruence.
  - right. by exists j, i.
Qed.

Lemma before_cons_inv (l : list string) x a b :
  a ≠ x → before a b (x :: l) → before a b l.
Proof.
  intros Hne (i & j & Hij & Hi & Hj). destruct i as [|i]; simpl in Hi; [congruence|].
  destruct j as [|j]; [lia|]. simpl in Hj. exists i, j. split_and!; [lia|done|done].
Qed.

Lemma before_head (l : list string) x b : b ∈ l → before x b (x :: l).
Proof.
  intros [j Hj]%list_elem_of_lookup. exists 0, (S j). split_and!; [lia|done|done].
Qed.

Lemma before_cons (l : list string) x a b : before a b l → before a b (x :: l).
Proof.
  intros (i & j & Hij & Hi & Hj). exists (S i), (S j). split_and!; [lia|done|done].
Qed.

(** Two arrangements of the same distinct elements that order every pair
    the same way are the same list. *)
Lemma same_order_eq (t s : list string) :
  NoDup t → s ≡ₚ t → (∀ a b, before a b t → before a b s) → s = t.
Proof.
  revert s. induction t as [|x t IH]; intros s Hnd Hperm Hord.
  - by apply Permutation_nil_r.
  - apply NoDup_cons in Hnd as [Hx Hnd].
    assert (NoDup s) as Hnds by (rewrite Hperm; by constructor).
    destruct s as [|y s]; [by apply Permutation_nil_cons in Hperm|].
    destruct (decide (y = x)) as [->|Hne].
    + f_equal. apply IH; [done|by eapply Permutation_cons_inv|].
      intros a b Hab. apply (before_cons_inv _ x).
      * intros ->. by destruct (before_elem_of _ _ _ Hab) as [? _].
      * apply Hord. by apply before_cons.
    + exfalso. assert (y ∈ t) as Hy.
      { assert (y ∈ x :: t) as Hin by (rewrite <-Hperm; apply list_elem_of_here).
        apply elem_of_cons in Hin as [?|?]; [done|done]. }
      pose proof (Hord x y (before_head t x y Hy)) as Hxy.
      assert (x ∈ s) as Hxs.
      { assert (x ∈ y :: s) as Hin by (rewrite Hperm; apply list_elem_of_here).
        apply elem_of_cons in Hin as [?|?]; [congruence|done]. }
      by apply (before_NoDup_asym (y :: s) y x Hnds (before_head s y x Hxs)).
Qed.

Section sort_unique.
Context (key : string → Num).
Hypothesis key_regular : ∀ a, regular (key a).

Lemma key_trichotomy a b :
  Num_pos (keyCmp key a b) = true ∨ Num_pos (keyCmp key b a) = true ∨
  Num_equiv (key a) (key b).
Proof.
  unfold keyCmp. destruct (key_regular a) as [->|[p ->]], (key_regular b) as [->|[q ->]];
    simpl; auto.
  rewrite !Qltb_lt. destruct (Q_dec p q) as [[Hlt|Hgt]|Heq].
  - right. left. lra.
  - left. lra.
  - right. right. done.
Qed.

Lemma Num_equiv_sym a b : Num_equiv (key a) (key b) → Num_equiv (key b) (key a).
Proof.
  destruct (key a), (key b); simpl; done.
Qed.

(** Whatever algorithm sorts the row, a sorted and stable permutation of
    it is the result of [Array_sort]. *)
Lemma Array_sort_unique (l s : list string) :
  NoDup l → s ≡ₚ l → StronglySorted (keyLe key) s →
  (∀ a b, before a b l → Num_equiv (key a) (key b) → before a b s) →
  s = Array_sort (keyCmp key) l.
Proof.
  intros Hnd Hperm Hsorted Hstable.
  pose proof (Array_sort_perm (keyCmp key) l) as HpermT.
  pose proof (Array_sort_sorted key key_regular l) as HsortedT.
  assert (NoDup (Array_sort (keyCmp key) l)) as HndT by (by rewrite HpermT).
  assert (NoDup s) as Hnds by (by rewrite Hperm).
  apply same_order_eq; [done|by rewrite HpermT|].
  intros a b Hab.
  pose proof (before_NoDup_ne _ _ _ HndT Hab) as Hne.
  destruct (before_elem_of _ _ _ Hab) as [Ha Hb].
  rewrite HpermT in Ha, Hb.
  destruct (key_trichotomy a b) as [Hgt|[Hlt|Heq]].
  - exfalso. destruct Hab as (i & j & Hij & Hi & Hj).
    pose proof (StronglySorted_lookup_lt _ _ _ _ _ _ HsortedT Hij Hi Hj) as Hle.
    unfold keyLe in Hle. congruence.
  - destruct (before_total s a b) as [?|Hba]; [by rewrite Hperm|by rewrite Hperm|done|done|].
    exfalso. destruct Hba as (i & j & Hij & Hi & Hj).
    pose proof (StronglySorted_lookup_lt _ _ _ _ _ _ Hsorted Hij Hi Hj) as Hle.
    unfold keyLe in Hle. congruence.
  - destruct (before_total l a b Ha Hb Hne) as [Hl|Hl]; [by apply Hstable|].
    exfalso. apply (before_NoDup_asym _ _ _ HndT Hab).
    apply (Array_sort_stable key); [done|by apply Num_equiv_sym].
Qed.
End sort_unique.

(** ** Sample runs *)

(** Scenario 1 of the specification: the chain A -> B -> C. *)
Example chain_layout :
  computeLayout chainGraph =
    Some {| positions :=
              [("A"%string, {| x := 60; y := 60; w := 250; h := Px 148 |});
               ("B"%string, {| x := 390; y := 60; w := 250; h := Px 148 |});
               ("C"%string, {| x := 720; y := 60; w := 250; h := Px 148 |})];
            layerNodes := [["A"%string]; ["B"%string]; ["C"%string]];
            maxLayer := 2;
            canvasW := Some 1110%Q;
            canvasH := Some (Fin 268) |}.
Proof. vm_compute. reflexivity. Qed.

(** Scenario 2: the diamond; D sits at the mean of B and C. *)
Example diamond_layers :
  assignLayers diamondGraph =
    Some [("A"%string, 0); ("B"%string, 1); ("C"%string, 1); ("D"%string, 2)].
Proof. vm_compute. reflexivity. Qed.

Example diamond_D_y :
  y <$> JSMap.get (positions diamondLayout) "D" = Some (340 # 2)%Q.
Proof. vm_compute. reflexivity. Qed.

(** Why the layer invariant needs distinct node ids: when A is declared
    twice it is dequeued twice, C is enqueued before B2 is, and D keeps
    layer 2 although its predecessor C ends on layer 3. *)
Example repeated_id_layers :
  assignLayers dupGraph =
    Some [("A"%string, 0); ("B1"%string, 1); ("C"%string, 3); ("B2"%string, 2);
          ("D"%string, 2)].
Proof. vm_compute. reflexivity. Qed.

(** ** Reading a returned layout *)

Lemma elem_of_concat_lookup (ln : list (list string)) k :
  k ∈ concat ln → ∃ l ids, ln !! l = Some ids ∧ k ∈ ids.
Proof.
  induction ln as [|x ln IH]; simpl; [by intros ?%elem_of_nil|].
  intros [Hk|Hk]%elem_of_app.
  - by exists 0, x.
  - destruct (IH Hk) as (l & ids & Hl & Hin). by exists (S l), ids.
Qed.

Lemma nodeMapOf_lookup g k nd :
  nodeMapOf g !! k = Some nd → nd ∈ nodes g ∧ id nd = k.
Proof.
  unfold nodeMapOf. intros H%newMap_lookup_Some_elem_of.
  apply list_elem_of_fmap in H as (n & [= -> ->] & Hn). done.
Qed.

Lemma nodeMapOf_is_Some g k : k ∈ nodeIds g → is_Some (nodeMapOf g !! k).
Proof.
  intros Hk. unfold nodeMapOf. apply newMap_lookup_is_Some.
  rewrite <-list_fmap_compose. exact Hk.
Qed.

(** The parts of a run on a non-empty graph, from its result. *)
Lemma computeLayout_inv g r :
  computeLayout g = Some r → nodes g ≠ [] →
  ∃ st s m, kahn g = Some st ∧ bfsSafe g st ∧ stages g = Some s ∧ stagesOK g st s ∧
            assignLayers g = Some (st_layer s) ∧
            Math_max (bottoms (posRows (nodeMapOf g) (st_nodeY s) (st_layerNodes s)))
              = m ∧
            r = layoutOf g s (st_nodeY s) m.
Proof.
  intros Hr Hne.
  destruct (computeLayout_spec g Hne) as (st & s & m & Hk & Hsafe & _ & Hs & Hok & Hm & Hr').
  rewrite Hr' in Hr. injection Hr as <-. exists st, s, m. split_and!; try done.
  destruct Hok as (_ & _ & Hlay & _). unfold assignLayers. rewrite Hk. simpl.
  by rewrite Hlay.
Qed.

Lemma computeLayout_empty g r : computeLayout g = Some r → nodes g = [] → r = emptyLayout.
Proof.
  intros Hr Hnil. unfold computeLayout in Hr. rewrite Hnil in Hr. simpl in Hr. by injection Hr.
Qed.

(** Every entry of the position map belongs to a node of some row. *)
Lemma posRows_entry nodeMap nodeY (ln : list (list string)) k p :
  NoDup (concat ln) → JSMap.get (posRows nodeMap nodeY ln) k = Some p →
  ∃ l ids, ln !! l = Some ids ∧ k ∈ ids ∧
           p = mkPos nodeMap nodeY (PAD + nat2Q l * H_STEP)%Q k.
Proof.
  intros Hnd Hget.
  assert (k ∈ concat ln) as Hk.
  { rewrite <-(posRows_keys nodeMap nodeY). apply JSMap_get_is_Some. eauto. }
  destruct (elem_of_concat_lookup ln k Hk) as (l & ids & Hl & Hin).
  exists l, ids. split_and!; [done|done|].
  rewrite (posRows_get nodeMap nodeY ln l ids k Hnd Hl Hin) in Hget. by injection Hget.
Qed.

Lemma nat2Q_le (a b : nat) : a ≤ b → (nat2Q a <= nat2Q b)%Q.
Proof. intros H. unfold nat2Q. rewrite <-Zle_Qle. lia. Qed.

Lemma nat2Q_S (a : nat) : (nat2Q (S a) == nat2Q a + 1)%Q.
Proof. unfold nat2Q. rewrite Nat2Z.inj_succ, <-Z.add_1_r, inject_Z_plus. reflexivity. Qed.

Lemma getNodeHeight_cases t :
  getNodeHeight t = Px 124 ∨ getNodeHeight t = Px 148 ∨ getNodeHeight t = Px 200 ∨
  ∃ n, t = Some n ∧ n ∈ objectPrototypeNames ∧ getNodeHeight t = Inherited n.
Proof.
  destruct t as [n|]; [|by left].
  assert (getNodeHeight (Some n) = Px 200 ∨ getNodeHeight (Some n) = Px 148 ∨
          getNodeHeight (Some n)
            = if decide (n ∈ objectPrototypeNames) then Inherited n else Px 124) as H.
  { unfold getNodeHeight. repeat case_match; auto. }
  destruct H as [H|[H|H]]; [auto|auto|].
  rewrite H. destruct (decide (n ∈ objectPrototypeNames)); [|auto].
  right; right; right. by exists n.
Qed.

(** A height that is not inherited is a number between 124 and 200. *)
Lemma getNodeHeight_bounds t :
  (∀ n, t = Some n → n ∉ objectPrototypeNames) →
  ∃ q, getNodeHeight t = Px q ∧ (124 <= q)%Q ∧ (q <= 200)%Q.
Proof.
  intros Hplain.
  destruct (getNodeHeight_cases t) as [H|[H|[H|(n & -> & Hn & _)]]].
  - exists 124%Q. split; [done|]. split; by vm_compute.
  - exists 148%Q. split; [done|]. split; by vm_compute.
  - exists 200%Q. split; [done|]. split; by vm_compute.
  - by destruct (Hplain n eq_refl).
Qed.

(** The position of a node: its column is its layer, its height comes
    from the type of the node declared under its id. *)
Lemma node_position g r lay n :
  computeLayout g = Some r → assignLayers g = Some lay → n ∈ nodeIds g →
  ∃ l p nd ids,
    JSMap.get lay n = Some l ∧ layerNodes r !! l = Some ids ∧ n ∈ ids ∧
    JSMap.get (positions r) n = Some p ∧
    x p = (PAD + nat2Q l * H_STEP)%Q ∧ w p = NODE_W ∧ (PAD <= y p)%Q ∧
    nd ∈ nodes g ∧ id nd = n ∧ h p = getNodeHeight (Some (type nd)).
Proof.
  intros Hr Hlay Hn.
  assert (nodes g ≠ []) as Hne.
  { intros Hnil. unfold nodeIds in Hn. rewrite Hnil in Hn. by apply elem_of_nil in Hn. }
  destruct (computeLayout_inv g r Hr Hne) as (st & s & m & Hk & Hsafe & Hs & Hok & Hlay' & Hm & ->).
  rewrite Hlay' in Hlay. injection Hlay as <-.
  pose proof (stagesOK_NoDup_rows g st s Hok) as Hnd.
  pose proof Hok as (_ & _ & Hsl & _ & _ & _ & Hperm & _ & Hpad & Hgap & HY).
  assert (n ∈ concat (st_layerNodes s)) as Hin.
  { rewrite Hperm, Hsl. by apply layer_keys_nodeIds. }
  destruct (elem_of_concat_lookup _ _ Hin) as (l & ids & Hl & Hnl).
  destruct (nodeMapOf_is_Some g n Hn) as [nd Hnd'].
  destruct (nodeMapOf_lookup g n nd Hnd') as [Hndin Hndid].
  destruct (Hgap l ids Hl) as [_ Hdom]. destruct (Hdom n Hnl) as [yn Hyn].
  exists l, (mkPos (nodeMapOf g) (st_nodeY s) (PAD + nat2Q l * H_STEP)%Q n), nd, ids.
  cbn [layerNodes positions layoutOf]. split_and!; try done.
  - by apply (row_elem_layer g st s l ids n Hok Hl).
  - by apply posRows_get with ids.
  - simpl. rewrite HY, Hyn. simpl. by eapply Hpad.
  - simpl. by rewrite Hnd'.
Qed.

(** ** Distances inside a row, layers along edges, occupied rows *)

Lemma gapped_distance nodeY (ids : list string) i j a b :
  gapped nodeY ids → i < j → ids !! i = Some a → ids !! j = Some b →
  ∃ ya yb, nodeY !! a = Some ya ∧ nodeY !! b = Some yb ∧
           (ya + nat2Q (j - i) * V_STEP <= yb)%Q.
Proof.
  intros Hgap Hij Ha. revert b. induction j as [|j IH]; intros b Hb; [lia|].
  destruct (lookup_lt_is_Some_2 ids j) as [c Hc].
  { apply lookup_lt_Some in Hb. lia. }
  destruct (Hgap j c b Hc Hb) as (yc & yb & Hyc & Hyb & Hle).
  destruct (decide (i = j)) as [->|Hne].
  - rewrite Ha in Hc. injection Hc as ->. exists yc, yb. split_and!; [done|done|].
    replace (S j - j) with 1 by lia. change (nat2Q 1) with 1%Q. lra.
  - destruct (IH ltac:(lia) c Hc) as (ya & yc' & Hya & Hyc' & Hle').
    rewrite Hyc in Hyc'. injection Hyc' as <-. exists ya, yb. split_and!; [done|done|].
    replace (S j - i) with (S (j - i)) by lia. rewrite nat2Q_S. lra.
Qed.

Lemma assignLayers_of_kahn g st lay :
  kahn g = Some st → assignLayers g = Some lay → lay = fallback (nodes g) (layer st).
Proof. intros Hk. unfold assignLayers. rewrite Hk. simpl. by intros [= <-]. Qed.

(** In an acyclic graph with distinct ids the layer grows along every
    edge between two nodes. *)
Lemma acyclic_layer_edge g lay p n :
  NoDup (nodeIds g) → acyclic g → assignLayers g = Some lay → p ∈ predsOf g n →
  ∃ lp ln, JSMap.get lay p = Some lp ∧ JSMap.get lay n = Some ln ∧ lp + 1 ≤ ln.
Proof.
  intros Hnd Hacyc Hlay Hp.
  destruct (assignLayers_total g) as (st & Hk & _ & _ & Hlay').
  rewrite Hlay' in Hlay. injection Hlay as <-.
  assert (n ∈ nodeIds g) as Hn by (apply preds_succs in Hp; by eapply succsOf_nodeIds).
  assert (p ∈ nodeIds g) as Hpid by (by eapply predsOf_nodeIds).
  destruct (kahn_layers g st Hnd Hacyc Hk n Hn) as (ln & Hln & Hmax).
  destruct (kahn_layers g st Hnd Hacyc Hk p Hpid) as (lp & Hlp & _).
  exists lp, ln. rewrite !fallback_get, Hln, Hlp. split_and!; [done|done|].
  rewrite Hmax. apply max_list_elem_of_le, list_elem_of_fmap. exists p. split; [|done].
  unfold layerOf. by rewrite Hlp.
Qed.

(** With distinct ids a layer above 0 is never assigned without the
    layer below it being assigned too. *)
Lemma layers_downward_closed g lay n k :
  NoDup (nodeIds g) → assignLayers g = Some lay → JSMap.get lay n = Some (S k) →
  ∃ p, JSMap.get lay p = Some k.
Proof.
  intros Hnd Hlay Hn.
  destruct (assignLayers_total g) as (st & Hk & _ & _ & Hlay').
  rewrite Hlay' in Hlay. injection Hlay as <-.
  destruct (kahn_outer g st Hnd Hk) as [[_ Hinv] _].
  destruct Hinv as (_ & _ & _ & _ & _ & _ & _ & I8 & _).
  rewrite fallback_get in Hn.
  destruct (JSMap.get (layer st) n) as [l|] eqn:Hl.
  - injection Hn as ->. destruct (I8 n k Hl) as (p & _ & Hp). exists p.
    by rewrite fallback_get, Hp.
  - by destruct (decide _).
Qed.

Lemma layers_all_used g lay l :
  NoDup (nodeIds g) → assignLayers g = Some lay → NoDup (JSMap.keys lay) → lay ≠ [] →
  l ≤ max_list (JSMap.values lay) → ∃ n, JSMap.get lay n = Some l.
Proof.
  intros Hnd Hlay Hkeys Hne Hl.
  assert (∃ n, JSMap.get lay n = Some (max_list (JSMap.values lay))) as Hmax.
  { assert (max_list (JSMap.values lay) ∈ JSMap.values lay) as Hin.
    { apply max_list_elem_of. unfold JSMap.values. by intros ?%fmap_nil_inv. }
    unfold JSMap.values in Hin. apply list_elem_of_fmap in Hin as ([k v] & Hv & Hkv).
    exists k. apply JSMap_elem_of_get; [done|]. simpl in Hv.
    change (JSMap.values lay) with (lay.*2). by rewrite Hv. }
  assert (∀ d, d ≤ max_list (JSMap.values lay) →
            ∃ n, JSMap.get lay n = Some (max_list (JSMap.values lay) - d)) as Hdown.
  { induction d as [|d IH]; intros Hd.
    - by rewrite Nat.sub_0_r.
    - destruct IH as [n Hn]; [lia|].
      replace (max_list (JSMap.values lay) - d)
        with (S (max_list (JSMap.values lay) - S d)) in Hn by lia.
      by eapply layers_downward_closed. }
  destruct (Hdown (max_list (JSMap.values lay) - l)) as [n Hn]; [lia|].
  exists n. rewrite Hn. f_equal. lia.
Qed.

Lemma concat_length_ge (ln : list (list string)) :
  (∀ l ids, ln !! l = Some ids → ids ≠ []) → length ln ≤ length (concat ln).
Proof.
  induction ln as [|x ln IH]; intros Hne; simpl; [lia|].
  rewrite length_app. specialize (Hne 0 x eq_refl) as Hx.
  assert (length ln ≤ length (concat ln)) by (apply IH; intros l ids ?; by apply (Hne (S l))).
  destruct x; [done|simpl; lia].
Qed.

(** ** The placement equation of the top-down pass *)

Lemma placeNode_placeY pred nodeY (c : Q) i :
  placeNode pred (nodeY, c) i =
    (<[i := placeY c (placed nodeY pred i)]> nodeY,
     (placeY c (placed nodeY pred i) + V_STEP)%Q).
Proof. reflexivity. Qed.

Lemma placeLayer_equation pred ids nodeY0 (c0 : Q) :
  NoDup ids → (∀ k, k ∈ ids → nodeY0 !! k = None) →
  nodeY0 ⊆ (foldl (placeNode pred) (nodeY0, c0) ids).1 ∧
  (∀ k, is_Some ((foldl (placeNode pred) (nodeY0, c0) ids).1 !! k) ↔
        is_Some (nodeY0 !! k) ∨ k ∈ ids) ∧
  ∀ i a, ids !! i = Some a →
    ∃ nodeYt, nodeYt ⊆ (foldl (placeNode pred) (nodeY0, c0) ids).1 ∧
      (∀ k, is_Some (nodeYt !! k) ↔ is_Some (nodeY0 !! k) ∨ k ∈ take i ids) ∧
      (foldl (placeNode pred) (nodeY0, c0) ids).1 !! a =
        Some (placeY (cursorFrom c0 (foldl (placeNode pred) (nodeY0, c0) ids).1 ids i)
                (placed nodeYt pred a)).
Proof.
  revert nodeY0 c0. induction ids as [|a ids IH]; intros nodeY0 c0 Hnd Hfresh.
  - simpl. split_and!; [done| |done].
    intros k. rewrite elem_of_nil. tauto.
  - apply NoDup_cons in Hnd as [Ha Hnd]. cbn [foldl]. rewrite placeNode_placeY.
    set (y0 := placeY c0 (placed nodeY0 pred a)).
    assert (nodeY0 !! a = None) as Ha0 by apply Hfresh, list_elem_of_here.
    destruct (IH (<[a := y0]> nodeY0) (y0 + V_STEP)%Q Hnd) as (Hsub & Hdom & Heq).
    { intros k Hk. rewrite lookup_insert_ne by (intros ->; done).
      by apply Hfresh, list_elem_of_further. }
    set (nodeY' := (foldl (placeNode pred) (<[a:=y0]> nodeY0, (y0 + V_STEP)%Q) ids).1) in *.
    assert (nodeY0 ⊆ nodeY') as Hsub0.
    { etrans; [|exact Hsub]. by apply insert_subseteq. }
    assert (nodeY' !! a = Some y0) as Hya.
    { eapply lookup_weaken; [|exact Hsub]. apply lookup_insert_eq. }
    split_and!; [done| |].
    + intros k. rewrite Hdom, lookup_insert_is_Some, elem_of_cons.
      destruct (decide (a = k)) as [->|]; [|intuition congruence]. rewrite Ha0.
      split; [auto|]. intros _. left. by left.
    + intros i b Hb. destruct i as [|i]; simpl in Hb.
      * injection Hb as <-. exists nodeY0. split_and!; [done| |done].
        intros k. rewrite take_0, elem_of_nil. tauto.
      * destruct (Heq i b Hb) as (nodeYt & Hsubt & Hdomt & Hyb).
        exists nodeYt. split_and!; [done| |].
        -- intros k. rewrite Hdomt, lookup_insert_is_Some. cbn [take].
           rewrite elem_of_cons. destruct (decide (a = k)) as [->|]; [|intuition congruence].
           rewrite Ha0. split; [auto|]. intros _. left. by left.
        -- rewrite Hyb. do 2 f_equal. destruct i as [|i]; simpl; [|done].
           by rewrite Hya.
Qed.

Lemma concat_take_S (ln : list (list string)) j ids :
  ln !! j = Some ids → concat (take (S j) ln) = concat (take j ln) ++ ids.
Proof.
  intros Hj. rewrite (take_S_r _ _ _ Hj), concat_app. simpl. by rewrite app_nil_r.
Qed.

Lemma elem_of_concat_take (ln : list (list string)) j k :
  k ∈ concat (take j ln) ↔ ∃ l ids, l < j ∧ ln !! l = Some ids ∧ k ∈ ids.
Proof.
  split.
  - intros (l & ids & Hl & Hk)%elem_of_concat_lookup.
    apply lookup_take_Some in Hl as [Hl Hlt]. eauto.
  - intros (l & ids & Hlt & Hl & Hk). apply (elem_of_concat_row _ l ids); [|done].
    by rewrite lookup_take_lt.
Qed.

Lemma cursorFrom_weaken (c0 : Q) (m1 m2 : gmap string Q) ids i :
  m1 ⊆ m2 → (∀ k, k ∈ ids → is_Some (m1 !! k)) →
  cursorFrom c0 m2 ids i = cursorFrom c0 m1 ids i.
Proof.
  intros Hsub Hdom. destruct i as [|i]; [done|]. simpl.
  destruct (ids !! i) as [k|] eqn:Hk; [|done]. simpl.
  destruct (Hdom k) as [v Hv]; [by eapply list_elem_of_lookup_2|].
  by rewrite Hv, (lookup_weaken _ _ _ _ Hv Hsub).
Qed.

Lemma topDown_equation_prefix pred (ln : list (list string)) (j : nat) :
  NoDup (concat ln) → j ≤ length ln →
  ∃ nodeY, foldM (topDownStep pred ln) ∅ (seq 0 j) = Some nodeY ∧
    (∀ k, is_Some (nodeY !! k) ↔ k ∈ concat (take j ln)) ∧
    ∀ l ids i a, l < j → ln !! l = Some ids → ids !! i = Some a →
      ∃ nodeYt, nodeYt ⊆ nodeY ∧
        (∀ k, is_Some (nodeYt !! k) ↔ k ∈ placedBefore ln l i) ∧
        nodeY !! a = Some (placeY (cursorFrom PAD nodeY ids i) (placed nodeYt pred a)).
Proof.
  intros Hnd. induction j as [|j IH]; intros Hj.
  - exists ∅. split_and!; [done| |intros; lia].
    intros k. rewrite lookup_empty. simpl. rewrite elem_of_nil.
    split; [by intros [? ?]|done].
  - destruct IH as (nodeY & Hf & Hdom & Hrows); [lia|].
    rewrite seq_S, foldM_app, Hf. simpl.
    destruct (lookup_lt_is_Some_2 ln j) as [ids Hids]; [lia|].
    unfold topDownStep at 1. rewrite Hids. simpl.
    pose proof (NoDup_concat_row ln j ids Hnd Hids) as Hndj.
    assert (∀ k, k ∈ ids → nodeY !! k = None) as Hfresh.
    { intros k Hk. apply eq_None_not_Some. rewrite Hdom.
      intros (l & ids' & Hlt & Hl & Hk')%elem_of_concat_take.
      apply (NoDup_concat_disjoint ln j l ids ids' k Hnd Hids Hl); [lia|done|done]. }
    destruct (placeLayer_equation pred ids nodeY PAD Hndj Hfresh) as (Hsub & Hdom' & Heq).
    set (nodeY' := (foldl (placeNode pred) (nodeY, PAD) ids).1) in *.
    exists nodeY'. split_and!; [done| |].
    + intros k. rewrite Hdom', Hdom, (concat_take_S _ _ _ Hids), elem_of_app. done.
    + intros l ids' i a Hl Hids' Ha. destruct (decide (l = j)) as [->|Hne].
      * rewrite Hids in Hids'. injection Hids' as <-.
        destruct (Heq i a Ha) as (nodeYt & Hsubt & Hdomt & Hya).
        exists nodeYt. split_and!; [done| |done].
        intros k. rewrite Hdomt, Hdom. unfold placedBefore. rewrite Hids. simpl.
        by rewrite elem_of_app.
      * destruct (Hrows l ids' i a) as (nodeYt & Hsubt & Hdomt & Hya); [lia|done|done|].
        exists nodeYt. split_and!; [by etrans|done|].
        rewrite (lookup_weaken _ _ _ _ Hya Hsub). do 2 f_equal.
        symmetry. apply cursorFrom_weaken; [exact Hsub|].
        intros k Hk. apply Hdom. apply elem_of_concat_take. exists l, ids'.
        split_and!; [lia|done|done].
Qed.

(** The top-down pass gives every node the y its rule prescribes, from
    the cursor of its row and from the y of the predecessors placed
    before it. *)
Lemma topDown_equation pred (maxL : nat) (ln : list (list string)) nodeY l ids i a :
  NoDup (concat ln) → length ln = maxL + 1 → topDown pred maxL ln = Some nodeY →
  ln !! l = Some ids → ids !! i = Some a →
  ∃ nodeYt, nodeYt ⊆ nodeY ∧
    (∀ k, is_Some (nodeYt !! k) ↔ k ∈ placedBefore ln l i) ∧
    nodeY !! a = Some (placeY (cursorFrom PAD nodeY ids i) (placed nodeYt pred a)).
Proof.
  intros Hnd Hlen Htd Hl Ha. unfold topDown in Htd.
  destruct (topDown_equation_prefix pred ln (maxL + 1) Hnd) as (nodeY' & Hf & _ & Hrows);
    [lia|].
  rewrite Hf in Htd. injection Htd as <-.
  apply (Hrows l ids i a); [|done|done]. apply lookup_lt_Some in Hl. lia.
Qed.

(** ** The placement equation on the returned layout *)

Lemma stages_topDown g s :
  stages g = Some s →
  st_pred s = (buildAdj g).1 ∧
  topDown (st_pred s) (st_maxLayer s) (st_layerNodes s) = Some (st_topDownY s).
Proof.
  unfold stages. destruct (buildAdj g) as [pred succ]. intros Hs.
  destruct (assignLayers g) as [lay|]; [|done]. simpl in Hs.
  destruct (groupByLayer _ lay) as [grouped|]; [|done]. simpl in Hs.
  destruct (minimizeCrossings _ _ _ grouped) as [ln|]; [|done]. simpl in Hs.
  destruct (topDown _ _ ln) as [nodeY0|] eqn:Htd; [|done]. simpl in Hs.
  destruct (bottomUp _ _ ln nodeY0) as [nodeY|]; [|done]. simpl in Hs.
  injection Hs as <-. done.
Qed.

Lemma omap_Some_fmap {A B} (f : A → option B) (h : A → B) (l : list A) :
  (∀ a, a ∈ l → f a = Some (h a)) → omap f l = h <$> l.
Proof.
  induction l as [|a l IH]; intros Hf; [done|].
  simpl. rewrite (Hf a) by apply list_elem_of_here. simpl. f_equal.
  apply IH. intros ??. by apply Hf, list_elem_of_further.
Qed.

Lemma posY_row g st s m (k : string) l ids :
  stagesOK g st s → st_layerNodes s !! l = Some ids → k ∈ ids →
  ∃ v, st_nodeY s !! k = Some v ∧ posY (layoutOf g s (st_nodeY s) m) k = v.
Proof.
  intros Hok Hl Hk. pose proof (stagesOK_NoDup_rows g st s Hok) as Hnd.
  destruct Hok as (_ & _ & _ & _ & _ & _ & _ & _ & _ & Hgap & HY).
  destruct (Hgap l ids Hl) as [_ Hdom]. destruct (Hdom k Hk) as [v Hv].
  exists v. rewrite HY. split; [done|]. unfold posY. cbn [positions layoutOf].
  rewrite (posRows_get _ _ _ l ids k Hnd Hl Hk). simpl. by rewrite Hv.
Qed.

(** In an acyclic graph with distinct ids the y of every node is given
    by the rule of the top-down pass applied to the final y of all its
    predecessors and to the final y of the node above it in its row. *)
Lemma dag_placement g r l ids i a :
  NoDup (nodeIds g) → acyclic g → computeLayout g = Some r →
  layerNodes r !! l = Some ids → ids !! i = Some a →
  posY r a = placeY (rowCursor r ids i) (posY r <$> predsOf g a).
Proof.
  intros Hnd Hacyc Hr Hl Ha. destruct (decide (nodes g = [])) as [Hnil|Hne].
  { rewrite (computeLayout_empty g r Hr Hnil) in Hl. done. }
  destruct (computeLayout_inv g r Hr Hne) as (st & s & m & Hk & Hsafe & Hs & Hok & Hlay & _ & ->).
  cbn [layerNodes layoutOf] in Hl.
  pose proof (stagesOK_NoDup_rows g st s Hok) as Hndrows.
  pose proof Hok as (_ & _ & Hsl & _ & Hlen & _ & Hperm & _ & _ & _ & HY).
  destruct (stages_topDown g s Hs) as [Hpred Htd].
  assert (a ∈ ids) as Hain by (by eapply list_elem_of_lookup_2).
  destruct (topDown_equation _ _ _ _ l ids i a Hndrows Hlen Htd Hl Ha)
    as (nodeYt & Hsubt & Hdomt & Hya).
  destruct (posY_row g st s m a l ids Hok Hl Hain) as (va & Hva & ->).
  rewrite HY in Hva. rewrite Hya in Hva. injection Hva as <-.
  assert (a ∈ nodeIds g) as Haid.
  { apply (layer_keys_nodeIds g st a Hsafe). rewrite <-Hsl, <-Hperm.
    by eapply elem_of_concat_row. }
  assert (JSMap.get (st_layer s) a = Some l) as Hla
    by (by apply (row_elem_layer g st s l ids a Hok Hl)).
  f_equal.
  - destruct i as [|i]; [done|]. simpl.
    destruct (ids !! i) as [k|] eqn:Hki; [|done]. simpl.
    destruct (posY_row g st s m k l ids Hok Hl) as (v & Hv & ->);
      [by eapply list_elem_of_lookup_2|].
    rewrite HY in Hv. by rewrite Hv.
  - unfold placed. rewrite Hpred, buildAdj_pred, decide_True by done. simpl.
    apply omap_Some_fmap. intros p Hp.
    destruct (acyclic_layer_edge g _ p a Hnd Hacyc Hlay Hp) as (lp & la & Hlp & Hla' & Hle).
    rewrite Hla in Hla'. injection Hla' as <-.
    assert (p ∈ concat (st_layerNodes s)) as Hpin.
    { rewrite Hperm, Hsl. apply layer_keys_nodeIds; [done|]. by eapply predsOf_nodeIds. }
    destruct (elem_of_concat_lookup _ _ Hpin) as (lp' & idsp & Hlp' & Hpidsp).
    assert (lp' = lp) as ->.
    { apply (row_elem_layer g st s lp' idsp p Hok Hlp') in Hpidsp. congruence. }
    destruct (posY_row g st s m p lp idsp Hok Hlp' Hpidsp) as (v & Hv & ->).
    assert (is_Some (nodeYt !! p)) as [v' Hv'].
    { apply Hdomt. unfold placedBefore. apply elem_of_app. left.
      apply elem_of_concat_take. exists lp, idsp. split_and!; [lia|done|done]. }
    rewrite Hv'. f_equal. pose proof (lookup_weaken _ _ _ _ Hv' Hsubt) as Hv''.
    rewrite HY in Hv. congruence.
Qed.





(** Row [l] of a returned layout holds exactly the nodes of layer [l]. *)
Lemma rows_of_layout g r lay l ids :
  computeLayout g = Some r → assignLayers g = Some lay →
  layerNodes r !! l = Some ids →
  NoDup ids ∧ ∀ k, k ∈ ids ↔ JSMap.get lay k = Some l.
Proof.
  intros Hr Hlay Hl. destruct (decide (nodes g = [])) as [Hnil|Hne].
  { rewrite (computeLayout_empty g r Hr Hnil) in Hl. done. }
  destruct (computeLayout_inv g r Hr Hne) as (st & s & m & _ & _ & _ & Hok & Hlay' & _ & ->).
  rewrite Hlay' in Hlay. injection Hlay as <-. cbn [layerNodes layoutOf] in Hl.
  split.
  - eapply NoDup_concat_row; [|done]. by eapply stagesOK_NoDup_rows.
  - intros k. by apply (row_elem_layer g st s l ids k Hok Hl).
Qed.

(** ** Facts for the callers of the layout *)

(** The position map has entries for node ids only, and one for each. *)
Lemma positions_keys_nodeIds g r k p :
  computeLayout g = Some r → JSMap.get (positions r) k = Some p → k ∈ nodeIds g.
Proof.
  intros Hr Hp. destruct (decide (nodes g = [])) as [Hnil|Hne].
  { rewrite (computeLayout_empty g r Hr Hnil) in Hp. done. }
  destruct (computeLayout_inv g r Hr Hne) as (st & s & m & Hk & Hsafe & _ & Hok & _ & _ & ->).
  cbn [positions layoutOf] in Hp.
  destruct Hok as (_ & _ & Hsl & _ & _ & _ & Hperm & _).
  apply (layer_keys_nodeIds g st k Hsafe). rewrite <-Hsl, <-Hperm.
  rewrite <-(posRows_keys (nodeMapOf g) (st_nodeY s)). apply JSMap_get_is_Some. eauto.
Qed.

Lemma positions_of_node g r k :
  computeLayout g = Some r → k ∈ nodeIds g → is_Some (JSMap.get (positions r) k).
Proof.
  intros Hr Hk. destruct (assignLayers_total g) as (st & _ & _ & _ & Hlay).
  destruct (node_position g r _ k Hr Hlay Hk) as (_ & p & _ & _ & _ & _ & _ & Hp & _).
  eauto.
Qed.

(** The keys of a returned position map are pairwise distinct. *)
Lemma positions_NoDup g r : computeLayout g = Some r → NoDup (JSMap.keys (positions r)).
Proof.
  intros Hr. destruct (decide (nodes g = [])) as [Hnil|Hne].
  { rewrite (computeLayout_empty g r Hr Hnil). apply NoDup_nil_2. }
  destruct (computeLayout_inv g r Hr Hne) as (st & s & m & _ & _ & _ & Hok & _ & _ & ->).
  cbn [positions layoutOf]. rewrite posRows_keys. by eapply stagesOK_NoDup_rows.
Qed.

(** With plain types every height of the layout is a number between 124
    and 200. *)
Lemma plain_height g r n p :
  plainTypes g → computeLayout g = Some r → JSMap.get (positions r) n = Some p →
  ∃ hq, h p = Px hq ∧ (124 <= hq)%Q ∧ (hq <= 200)%Q.
Proof.
  intros Hplain Hr Hp. pose proof (positions_keys_nodeIds g r n p Hr Hp) as Hn.
  destruct (assignLayers_total g) as (st & _ & _ & _ & Hlay).
  destruct (node_position g r _ n Hr Hlay Hn)
    as (_ & q & nd & _ & _ & _ & _ & Hq & _ & _ & _ & Hnd & _ & Hh).
  rewrite Hp in Hq. injection Hq as <-. rewrite Hh.
  apply getNodeHeight_bounds. intros t [= <-]. by apply Hplain.
Qed.

(** With plain types the bottoms handed to [Math.max] are numbers. *)
Lemma plain_bottoms g r :
  plainTypes g → computeLayout g = Some r →
  bottoms (positions r) = Fin <$> ((λ p, (y p + pxOf (h p))%Q) <$> JSMap.values (positions r)).
Proof.
  intros Hplain Hr. unfold bottoms. rewrite <-list_fmap_compose.
  apply list_fmap_ext. intros i p Hi.
  unfold JSMap.values in Hi. rewrite list_lookup_fmap in Hi.
  destruct (positions r !! i) as [[k p']|] eqn:Hkp; [|done]. injection Hi as <-.
  assert (JSMap.get (positions r) k = Some p') as Hget.
  { apply JSMap_elem_of_get; [by eapply positions_NoDup|]. by eapply list_elem_of_lookup_2. }
  destruct (plain_height g r k p' Hplain Hr Hget) as (hq & Hh & _).
  unfold bottom. cbn [snd compose]. by rewrite Hh.
Qed.

(** The canvas height of a graph with nodes and plain types: the largest
    bottom plus [PAD]. *)
Lemma plain_canvasH g r :
  plainTypes g → computeLayout g = Some r → nodes g ≠ [] →
  ∃ m, canvasH r = Some (Fin (m + PAD)) ∧
       m ∈ (λ p, (y p + pxOf (h p))%Q) <$> JSMap.values (positions r) ∧
       ∀ p, p ∈ JSMap.values (positions r) → (y p + pxOf (h p) <= m)%Q.
Proof.
  intros Hplain Hr Hne. pose proof (plain_bottoms g r Hplain Hr) as Hb.
  destruct (computeLayout_inv g r Hr Hne) as (st & s & m & _ & _ & _ & Hok & _ & Hm & Hreq).
  assert (positions r ≠ []) as Hpos.
  { rewrite Hreq. cbn [positions layoutOf]. by eapply posRows_nonempty. }
  destruct (Math_max_spec ((λ p, (y p + pxOf (h p))%Q) <$> JSMap.values (positions r)))
    as (m' & Hm' & Hin & Hub).
  { unfold JSMap.values. intros Hnil. by apply fmap_nil_inv, fmap_nil_inv in Hnil. }
  exists m'. split_and!; [|done|].
  - rewrite Hreq in Hb, Hm' |- *. cbn [positions canvasH layoutOf] in *.
    rewrite <-Hm, Hb, Hm'. done.
  - intros p Hp. apply Hub. apply list_elem_of_fmap. by exists p.
Qed.

(** Every box lies inside the canvas, [PAD] away from its sides. *)
Lemma box_in_canvas g r n p :
  plainTypes g → computeLayout g = Some r → JSMap.get (positions r) n = Some p →
  ∃ cw ch hq, canvasW r = Some cw ∧ canvasH r = Some (Fin ch) ∧ h p = Px hq ∧
           (124 <= hq)%Q ∧ (hq <= 200)%Q ∧
           (PAD <= x p)%Q ∧ (x p + w p <= cw - PAD)%Q ∧
           (PAD <= y p)%Q ∧ (y p + hq <= ch - PAD)%Q.
Proof.
  intros Hplain Hr Hp. destruct (decide (nodes g = [])) as [Hnil|Hne].
  { rewrite (computeLayout_empty g r Hr Hnil) in Hp. done. }
  destruct (plain_height g r n p Hplain Hr Hp) as (hq & Hh & Hlo & Hhi).
  destruct (plain_canvasH g r Hplain Hr Hne) as (m & Hch & _ & Hub).
  assert (y p + hq <= m)%Q as Hbottom.
  { assert (p ∈ JSMap.values (positions r)) as Hin.
    { unfold JSMap.values. apply list_elem_of_fmap. exists (n, p). split; [done|].
      by apply JSMap_get_Some_elem_of. }
    specialize (Hub p Hin). by rewrite Hh in Hub. }
  destruct (computeLayout_inv g r Hr Hne) as (st & s & m0 & _ & _ & _ & Hok & _ & _ & Hreq).
  rewrite Hreq in Hp, Hch |- *. cbn [positions canvasW canvasH layoutOf] in *.
  pose proof (stagesOK_NoDup_rows g st s Hok) as Hnd.
  destruct Hok as (_ & _ & _ & _ & Hlen & _ & _ & _ & Hpad & Hgap & HY).
  destruct (posRows_entry _ _ _ n p Hnd Hp) as (l & ids & Hl & Hin & Hpeq).
  assert (nat2Q l + 1 <= nat2Q (st_maxLayer s) + 1)%Q as Hl'.
  { apply lookup_lt_Some in Hl.
    assert (nat2Q l <= nat2Q (st_maxLayer s))%Q by (apply nat2Q_le; lia). lra. }
  assert (0 <= nat2Q l)%Q as Hl0 by (apply (nat2Q_le 0); lia).
  destruct (Hgap l ids Hl) as [_ Hdom]. destruct (Hdom n Hin) as [yn Hyn].
  rewrite HY in Hpeq. subst p. simpl in *. rewrite Hyn in *. simpl in *.
  exists (PAD * 2 + (nat2Q (st_maxLayer s) + 1) * H_STEP)%Q, (m + PAD)%Q, hq.
  split_and!; [done|done|done|done|done| | | |].
  - unfold PAD, H_STEP. lra.
  - unfold PAD, H_STEP, NODE_W. lra.
  - by eapply Hpad.
  - lra.
Qed.

(** The canvas of a graph with nodes and plain types: both sides are
    numbers larger than twice the padding. *)
Lemma canvas_of_nodes g r :
  plainTypes g → computeLayout g = Some r → nodes g ≠ [] →
  ∃ cw ch, canvasW r = Some cw ∧ canvasH r = Some (Fin ch) ∧
           (2 * PAD < cw)%Q ∧ (2 * PAD < ch)%Q.
Proof.
  intros Hplain Hr Hne. destruct (nodes g) as [|nd nds] eqn:Hn; [done|].
  assert (id nd ∈ nodeIds g) as Hin.
  { unfold nodeIds. rewrite Hn. simpl. apply list_elem_of_here. }
  destruct (positions_of_node g r _ Hr Hin) as [p Hp].
  destruct (box_in_canvas g r _ p Hplain Hr Hp)
    as (cw & ch & hq & Hcw & Hch & Hh & Hlo & Hhi & Hx & Hxw & Hy & Hyh).
  destruct (assignLayers_total g) as (st & _ & _ & _ & Hlay).
  destruct (node_position g r _ _ Hr Hlay Hin)
    as (_ & p' & nd' & _ & _ & _ & _ & Hp' & _ & Hw & _).
  rewrite Hp in Hp'. injection Hp' as <-.
  exists cw, ch. split_and!; [done|done| |].
  - rewrite Hw in Hxw. unfold NODE_W, PAD in *. lra.
  - unfold PAD in *. lra.
Qed.

(** A drawn path comes from an edge whose endpoints have positions. *)
Lemma renderEdges_elem g r ep :
  ep ∈ renderEdges g r →
  ∃ e ps pt, e ∈ edges g ∧ edgePath (nodeMapOf g) (positions r) e = Some ep ∧
             JSMap.get (positions r) (source e) = Some ps ∧
             JSMap.get (positions r) (target e) = Some pt.
Proof.
  unfold renderEdges. intros (e & He & Hep)%list_elem_of_omap.
  exists e. pose proof Hep as Hep'. unfold edgePath in Hep.
  destruct (JSMap.get (positions r) (source e)) as [ps|]; [|done].
  destruct (JSMap.get (positions r) (target e)) as [pt|]; [|done].
  by exists ps, pt.
Qed.

Lemma edgePath_valid g r e :
  computeLayout g = Some r →
  (validEdge g e → ∃ ep, edgePath (nodeMapOf g) (positions r) e = Some ep ∧ ep_ends ep = ends e) ∧
  (¬ validEdge g e → edgePath (nodeMapOf g) (positions r) e = None).
Proof.
  intros Hr. split.
  - intros [Ht Hs].
    destruct (positions_of_node g r _ Hr Hs) as [ps Hps].
    destruct (positions_of_node g r _ Hr Ht) as [pt Hpt].
    unfold edgePath. rewrite Hps, Hpt. simpl. eauto.
  - intros Hinv. unfold edgePath.
    destruct (JSMap.get (positions r) (source e)) as [ps|] eqn:Hps; [|done].
    destruct (JSMap.get (positions r) (target e)) as [pt|] eqn:Hpt; [|done].
    destruct Hinv. split; by eapply positions_keys_nodeIds.
Qed.

(** ** Facts on the view transform *)

Lemma Qeq_bool_false_pos (a : Q) : (0 < a)%Q → Qeq_bool a 0 = false.
Proof.
  intros Ha. destruct (Qeq_bool a 0) eqn:E; [|done].
  apply Qeq_bool_eq in E. rewrite E in Ha. by apply Qlt_irrefl in Ha.
Qed.

(** The scale chosen by [fitView]: positive, at most 1, and small enough
    for the canvas to fit between the margins. *)
Lemma fit_scale (vw vh cw ch : Q) :
  (0 < cw)%Q → (0 < ch)%Q → (96 < vw)%Q → (96 < vh)%Q →
  let s := Qmin (Qmin ((vw - 48 * 2) / cw) ((vh - 48 * 2) / ch)) 1 in
  (0 < s)%Q ∧ (s <= 1)%Q ∧ (cw * s <= vw - 96)%Q ∧ (ch * s <= vh - 96)%Q ∧
  (s == 1 ∨ cw * s == vw - 96 ∨ ch * s == vh - 96)%Q.
Proof.
  intros Hcw Hch Hvw Hvh s.
  set (a := ((vw - 48 * 2) / cw)%Q) in *. set (b := ((vh - 48 * 2) / ch)%Q) in *.
  assert (cw * a == vw - 96)%Q as Ha.
  { unfold a. rewrite Qmult_div_r; [ring|]. intros E. rewrite E in Hcw. by apply Qlt_irrefl in Hcw. }
  assert (ch * b == vh - 96)%Q as Hb.
  { unfold b. rewrite Qmult_div_r; [ring|]. intros E. rewrite E in Hch. by apply Qlt_irrefl in Hch. }
  assert (0 < a)%Q as Ha0.
  { unfold a. apply Qlt_shift_div_l; [done|]. lra. }
  assert (0 < b)%Q as Hb0.
  { unfold b. apply Qlt_shift_div_l; [done|]. lra. }
  assert (s <= a)%Q as Hsa.
  { unfold s. eapply Qle_trans; [apply Q.le_min_l|apply Q.le_min_l]. }
  assert (s <= b)%Q as Hsb.
  { unfold s. eapply Qle_trans; [apply Q.le_min_l|apply Q.le_min_r]. }
  split_and!.
  - unfold s. apply Q.min_glb_lt; [apply Q.min_glb_lt; done|done].
  - apply Q.le_min_r.
  - rewrite <-Ha. apply Qmult_le_l; done.
  - rewrite <-Hb. apply Qmult_le_l; done.
  - unfold s. destruct (Q.min_dec (Qmin a b) 1) as [E|E]; [|by left].
    rewrite E. destruct (Q.min_dec a b) as [E'|E']; rewrite E'.
    + right; left. done.
    + right; right. done.
Qed.

(** [fitView] with the variable [layout] in a viewport larger than the
    margins gives a positive scale not above the old scale or 1. *)
Lemma fitView_scale layout vw vh v :
  layoutVar layout → (96 < vw)%Q → (96 < vh)%Q → (0 < scale v)%Q →
  ∃ v', fitView layout vw vh v = Some v' ∧ (0 < scale v')%Q ∧
        (scale v' = scale v ∨ scale v' <= 1)%Q.
Proof.
  intros [->|(g & Hplain & Hg)] Hvw Hvh Hs.
  { exists v. split_and!; [done|done|by left]. }
  destruct (computeLayout_total g) as [r Hr]. rewrite Hr in Hg. subst layout.
  destruct (decide (nodes g = [])) as [Hnil|Hne].
  - rewrite (computeLayout_empty g r Hr Hnil). exists v. split_and!; [done|done|by left].
  - destruct (canvas_of_nodes g r Hplain Hr Hne) as (cw & ch & Hcw & Hch & Hcw2 & Hch2).
    assert (0 < cw)%Q as Hcw0 by (unfold PAD in *; lra).
    assert (0 < ch)%Q as Hch0 by (unfold PAD in *; lra).
    destruct (fit_scale vw vh cw ch Hcw0 Hch0 Hvw Hvh) as (Hs0 & Hs1 & _).
    eexists. split_and!.
    + unfold fitView. cbn [mbind option_bind]. rewrite Hcw, Hch.
      rewrite (Qeq_bool_false_pos cw Hcw0). cbn [mbind option_bind finite].
      by rewrite (Qeq_bool_false_pos ch Hch0).
    + exact Hs0.
    + right. exact Hs1.
Qed.

(** ** Facts on [escHtml] *)

Lemma append_cons a (s1 s2 : string) : String a s1 +:+ s2 = String a (s1 +:+ s2).
Proof. reflexivity. Qed.

Lemma append_nil_l (s : string) : EmptyString +:+ s = s.
Proof. reflexivity. Qed.

Lemma append_assoc (s1 s2 s3 : string) : (s1 +:+ s2) +:+ s3 = s1 +:+ (s2 +:+ s3).
Proof. induction s1 as [|a s1 IH]; [done|]. by rewrite !append_cons, IH. Qed.

Lemma replaceAll_app c by_ s1 s2 :
  replaceAll c by_ (s1 +:+ s2) = replaceAll c by_ s1 +:+ replaceAll c by_ s2.
Proof.
  induction s1 as [|a s1 IH]; [done|]. rewrite append_cons. cbn [replaceAll].
  destruct (Ascii.eqb a c).
  - by rewrite IH, append_assoc.
  - by rewrite IH, append_cons.
Qed.

Lemma escHtml_app s1 s2 : escHtml (s1 +:+ s2) = escHtml s1 +:+ escHtml s2.
Proof. unfold escHtml. by rewrite !replaceAll_app. Qed.

Lemma escHtml_char a : escHtml (String a EmptyString) = escChar a.
Proof.
  unfold escHtml, escChar. cbn [replaceAll].
  destruct (Ascii.eqb_spec a "&") as [->|H1]; [reflexivity|].
  cbn [replaceAll].
  destruct (Ascii.eqb_spec a "<") as [->|H2]; [reflexivity|].
  cbn [replaceAll].
  destruct (Ascii.eqb_spec a ">") as [->|H3]; [reflexivity|].
  cbn [replaceAll].
  destruct (Ascii.eqb_spec a "034") as [->|H4]; reflexivity.
Qed.

Lemma escHtml_cons a s : escHtml (String a s) = escChar a +:+ escHtml s.
Proof.
  change (String a s) with (String a EmptyString +:+ s).
  by rewrite escHtml_app, escHtml_char.
Qed.

Lemma chars_app s1 s2 : chars (s1 +:+ s2) = chars s1 ++ chars s2.
Proof. induction s1 as [|a s1 IH]; [done|]. rewrite append_cons. cbn [chars]. by rewrite IH. Qed.

Lemma escChar_cases a :
  (a = "&"%char ∧ escChar a = "&amp;") ∨ (a = "<"%char ∧ escChar a = "&lt;") ∨
  (a = ">"%char ∧ escChar a = "&gt;") ∨ (a = "034"%char ∧ escChar a = "&quot;") ∨
  (¬ special a ∧ escChar a = String a EmptyString).
Proof.
  unfold escChar, special.
  destruct (Ascii.eqb_spec a "&") as [->|H1]; [by left|].
  destruct (Ascii.eqb_spec a "<") as [->|H2]; [by right; left|].
  destruct (Ascii.eqb_spec a ">") as [->|H3]; [by right; right; left|].
  destruct (Ascii.eqb_spec a "034") as [->|H4]; [by right; right; right; left|].
  right; right; right; right. split; [|done]. intuition congruence.
Qed.

Lemma escChar_prefix a b (X Y : string) :
  escChar a +:+ X = escChar b +:+ Y → a = b ∧ X = Y.
Proof.
  destruct (escChar_cases a) as [[-> ->]|[[-> ->]|[[-> ->]|[[-> ->]|[Ha ->]]]]];
  destruct (escChar_cases b) as [[-> ->]|[[-> ->]|[[-> ->]|[[-> ->]|[Hb ->]]]]];
  cbv [String.append]; intros H; try discriminate H;
  try (injection H as ->; done);
  try (injection H as H' _; unfold special in *; exfalso; intuition congruence).
Qed.

Lemma escChar_markup_free a : Forall (λ c, ¬ markup c) (chars (escChar a)).
Proof.
  destruct (escChar_cases a) as [[-> ->]|[[-> ->]|[[-> ->]|[[-> ->]|[Ha ->]]]]];
    cbn [chars]; repeat apply Forall_cons_2; try apply Forall_nil_2;
    unfold markup, special in *; try (intros [?|[?|?]]; discriminate).
  intuition congruence.
Qed.

Lemma escChar_length a : 1 ≤ String.length (escChar a) ∧
  (String.length (escChar a) = 1 → ¬ special a).
Proof.
  destruct (escChar_cases a) as [[-> ->]|[[-> ->]|[[-> ->]|[[-> ->]|[Ha ->]]]]];
    cbn; split; try lia; try done.
Qed.

Lemma string_length_app (s1 s2 : string) :
  String.length (s1 +:+ s2) = String.length s1 + String.length s2.
Proof. induction s1 as [|a s1 IH]; [done|]. rewrite append_cons. cbn. by rewrite IH. Qed.

Lemma escHtml_length s : String.length s ≤ String.length (escHtml s).
Proof.
  induction s as [|a s IH]; [done|]. rewrite escHtml_cons, string_length_app.
  pose proof (escChar_length a) as [H1 _]. cbn [String.length]. lia.
Qed.

(** ** Facts on the parser *)

Lemma foldl_snoc_fmap {A B} (f : A → B) (l0 : list B) (l : list A) :
  foldl (λ acc a, acc ++ [f a]) l0 l = l0 ++ (f <$> l).
Proof.
  revert l0. induction l as [|a l IH]; intros l0; cbn [foldl fmap list_fmap].
  - by rewrite app_nil_r.
  - rewrite IH. by rewrite <-app_assoc.
Qed.

Lemma tensorMap_is_Some (ts : list Tensor) (m0 : gmap Z Tensor) (k : Z) :
  is_Some (foldl (λ m t, <[magic t := t]> m) m0 ts !! k)
  ↔ k ∈ magic <$> ts ∨ is_Some (m0 !! k).
Proof.
  revert m0. induction ts as [|t ts IH]; intros m0; cbn [foldl fmap list_fmap].
  - rewrite elem_of_nil. tauto.
  - rewrite IH, elem_of_cons. destruct (decide (k = magic t)) as [->|Hne].
    + rewrite lookup_insert_eq. intuition eauto.
    + rewrite lookup_insert_ne by done. intuition congruence.
Qed.

Lemma foldl_push_filter {A} (P : A → Prop) `{∀ a, Decision (P a)}
    (Q : A → Prop) `{∀ a, Decision (Q a)} (f : A → Edge) (es : list Edge) (l : list A) :
  (∀ a, P a ↔ Q a) →
  foldl (λ edges a, if decide (P a) then edges ++ [f a] else edges) es l
  = es ++ (f <$> filter Q l).
Proof.
  intros HPQ. revert es. induction l as [|a l IH]; intros es; cbn [foldl].
  - by rewrite app_nil_r.
  - rewrite IH, filter_cons. destruct (decide (P a)) as [HP|HP], (decide (Q a)) as [HQ|HQ];
      try (exfalso; apply HPQ in HP; done); try (exfalso; apply HPQ in HQ; done).
    + cbn. by rewrite <-app_assoc.
    + done.
Qed.

Lemma opStep_fold (func : Func) (ops : list Op) (ns : list Node) (es : list Edge) :
  foldl (opStep (foldl (λ m t, <[magic t := t]> m) ∅ (tensors func))) (ns, es) ops
  = (ns ++ (opNode <$> ops), es ++ concat (opEdges func <$> ops)).
Proof.
  revert ns es. induction ops as [|op ops IH]; intros ns es; cbn [foldl fmap list_fmap concat].
  - by rewrite !app_nil_r.
  - unfold opStep at 2. cbn [fst snd]. rewrite IH. f_equal.
    + by rewrite <-app_assoc.
    + unfold pushOutputs, pushInputs, opEdges.
      assert (∀ k, is_Some (foldl (λ m t, <[magic t := t]> m) (∅ : gmap Z Tensor)
                              (tensors func) !! k)
                   ↔ k ∈ magic <$> tensors func) as Hhas.
      { intros k. rewrite tensorMap_is_Some, lookup_empty, is_Some_alt. tauto. }
      rewrite !(foldl_push_filter _ (λ tId, tId ∈ magic <$> tensors func)) by exact Hhas.
      by rewrite <-!app_assoc.
Qed.

Lemma parseFunc_nodes func :
  nodes (parseFunc func)
  = (tensorNode (list_to_set (incasts func)) (list_to_set (outcasts func)) <$> tensors func)
    ++ (opNode <$> operations func).
Proof. unfold parseFunc. cbn [nodes]. by rewrite opStep_fold, foldl_snoc_fmap. Qed.

Lemma parseFunc_edges func :
  edges (parseFunc func) = concat (opEdges func <$> operations func).
Proof. unfold parseFunc. cbn [edges]. by rewrite opStep_fold. Qed.

Lemma elem_of_opEdges func op e :
  e ∈ opEdges func op ↔
  ∃ tId, tId ∈ magic <$> tensors func ∧
    ((tId ∈ ioperands op ∧ e = mkEdge (tensorId tId) (opId (opmagic op))) ∨
     (tId ∈ ooperands op ∧ e = mkEdge (opId (opmagic op)) (tensorId tId))).
Proof.
  unfold opEdges. rewrite elem_of_app, !list_elem_of_fmap. split.
  - intros [(tId & -> & Hin)|(tId & -> & Hin)]; apply list_elem_of_filter in Hin as [Ht Hin];
      exists tId; (split; [done|]); [left|right]; done.
  - intros (tId & Ht & [[Hin ->]|[Hin ->]]); [left|right]; exists tId; (split; [done|]);
      by apply list_elem_of_filter.
Qed.

Lemma elem_of_parseFunc_edges func e :
  e ∈ edges (parseFunc func) ↔
  ∃ op tId, op ∈ operations func ∧ tId ∈ magic <$> tensors func ∧
    ((tId ∈ ioperands op ∧ e = mkEdge (tensorId tId) (opId (opmagic op))) ∨
     (tId ∈ ooperands op ∧ e = mkEdge (opId (opmagic op)) (tensorId tId))).
Proof.
  rewrite parseFunc_edges. split.
  - intros He.
    assert (∃ op, op ∈ operations func ∧ e ∈ opEdges func op) as (op & Hop & Hin).
    { induction (operations func) as [|op' ops IH]; [by apply elem_of_nil in He|].
      cbn [fmap list_fmap concat] in He. apply elem_of_app in He as [He|He].
      - exists op'. split; [apply list_elem_of_here|done].
      - destruct (IH He) as (op & Hop & Hin). exists op.
        split; [by apply list_elem_of_further|done]. }
    apply elem_of_opEdges in Hin as (tId & Ht & Hc). by exists op, tId.
  - intros (op & tId & Hop & Ht & Hc).
    assert (e ∈ opEdges func op) as He by (apply elem_of_opEdges; eauto).
    clear Hc Ht. induction (operations func) as [|op' ops IH]; [by apply elem_of_nil in Hop|].
    cbn [fmap list_fmap concat]. apply elem_of_app.
    apply elem_of_cons in Hop as [->|Hop]; [by left|right; by apply IH].
Qed.

Lemma parseFunc_nodeIds func :
  nodeIds (parseFunc func)
  = (tensorId <$> (magic <$> tensors func)) ++ (opId <$> (opmagic <$> operations func)).
Proof.
  unfold nodeIds. rewrite parseFunc_nodes, fmap_app, <-!list_fmap_compose. done.
Qed.

Lemma parseFunc_edgesValid func : edgesValid (parseFunc func).
Proof.
  intros e (op & tId & Hop & Ht & Hc)%elem_of_parseFunc_edges.
  assert (tensorId tId ∈ nodeIds (parseFunc func)) as HT.
  { rewrite parseFunc_nodeIds. apply elem_of_app. left. by apply list_elem_of_fmap_2. }
  assert (opId (opmagic op) ∈ nodeIds (parseFunc func)) as HO.
  { rewrite parseFunc_nodeIds. apply elem_of_app. right.
    by apply list_elem_of_fmap_2, list_elem_of_fmap_2. }
  destruct Hc as [[_ ->]|[_ ->]]; split; done.
Qed.

Lemma tensorId_inj : Inj (=) (=) tensorId.
Proof. intros a b H. unfold tensorId in H. apply String.app_inj in H. by apply (inj pretty). Qed.

Lemma opId_inj : Inj (=) (=) opId.
Proof. intros a b H. unfold opId in H. apply String.app_inj in H. by apply (inj pretty). Qed.

Lemma tensorId_opId a b : tensorId a ≠ opId b.
Proof. unfold tensorId, opId. rewrite !append_cons. intros H. discriminate H. Qed.

Lemma tensorNode_type ics ocs t :
  type (tensorNode ics ocs t) = "tensor"%string ∨ type (tensorNode ics ocs t) = "incast"%string ∨
  type (tensorNode ics ocs t) = "outcast"%string.
Proof. unfold tensorNode. cbn [type]. repeat case_decide; auto. Qed.

Lemma elem_of_parseFunc_nodes func nd :
  nd ∈ nodes (parseFunc func) →
  (∃ t, t ∈ tensors func ∧ id nd = tensorId (magic t) ∧
        getNodeHeight (Some (type nd)) = Px 200) ∨
  (∃ op, op ∈ operations func ∧ id nd = opId (opmagic op) ∧
         getNodeHeight (Some (type nd)) = Px 148).
Proof.
  rewrite parseFunc_nodes, elem_of_app, !list_elem_of_fmap.
  intros [(t & -> & Ht)|(op & -> & Hop)]; [left; exists t|right; exists op]; split_and!; try done.
  destruct (tensorNode_type (list_to_set (incasts func)) (list_to_set (outcasts func)) t)
    as [-> |[-> | ->]]; done.
Qed.

(** ** Layers as lengths of longest paths *)

Lemma dag_layer_equation g lay n :
  NoDup (nodeIds g) → acyclic g → assignLayers g = Some lay → n ∈ nodeIds g →
  JSMap.get lay n = Some (layerOf lay n) ∧
  layerOf lay n = max_list ((λ p, layerOf lay p + 1) <$> predsOf g n).
Proof.
  intros Hnd Hacyc Hlay Hn.
  destruct (assignLayers_total g) as (st & Hk & _ & _ & Hlay').
  rewrite Hlay' in Hlay. injection Hlay as <-.
  assert (∀ k, k ∈ nodeIds g →
            JSMap.get (fallback (nodes g) (layer st)) k = JSMap.get (layer st) k) as Hget.
  { intros k Hk'. destruct (kahn_layers g st Hnd Hacyc Hk k Hk') as (lk & Hlk & _).
    by rewrite fallback_get, Hlk. }
  destruct (kahn_layers g st Hnd Hacyc Hk n Hn) as (l & Hl & Hmax).
  unfold layerOf at 1 2. rewrite (Hget n Hn), Hl. cbn. split; [done|].
  rewrite Hmax. f_equal. apply list_fmap_ext. intros i p Hp. unfold layerOf.
  rewrite Hget; [done|]. eapply predsOf_nodeIds. by eapply list_elem_of_lookup_2.
Qed.

Lemma linked_nodeIds g a b : linked g a b → a ∈ nodeIds g ∧ b ∈ nodeIds g.
Proof.
  intros H. split; [by eapply predsOf_nodeIds|].
  apply preds_succs in H. by eapply succsOf_nodeIds.
Qed.

(** A path of [k] edges raises the layer by at least [k]. *)
Lemma path_raises_layer g lay k a n :
  NoDup (nodeIds g) → acyclic g → assignLayers g = Some lay →
  nsteps (linked g) k a n → layerOf lay a + k ≤ layerOf lay n.
Proof.
  intros Hnd Hacyc Hlay. induction 1 as [x|k x y z Hxy _ IH]; [lia|].
  destruct (linked_nodeIds g x y Hxy) as [_ Hy].
  destruct (dag_layer_equation g lay y Hnd Hacyc Hlay Hy) as [_ Hmax].
  assert (layerOf lay x + 1 ≤ layerOf lay y).
  { rewrite Hmax. apply max_list_elem_of_le, list_elem_of_fmap. by exists x. }
  lia.
Qed.

(** Every node is the end of a path of as many edges as its layer, from a
    node without predecessors. *)
Lemma path_of_layer g lay n :
  NoDup (nodeIds g) → acyclic g → assignLayers g = Some lay → n ∈ nodeIds g →
  ∃ a, nsteps (linked g) (layerOf lay n) a n ∧ predsOf g a = [].
Proof.
  intros Hnd Hacyc Hlay. remember (layerOf lay n) as l eqn:Hl. revert n Hl.
  induction l as [l IH] using lt_wf_ind. intros n Hl Hn.
  destruct (dag_layer_equation g lay n Hnd Hacyc Hlay Hn) as [_ Hmax].
  destruct (predsOf g n) as [|p ps] eqn:Hps.
  - exists n. rewrite Hl, Hmax. cbn. split; [constructor|done].
  - pose proof (max_list_elem_of ((λ p, layerOf lay p + 1) <$> (p :: ps))) as Hin.
    rewrite <-Hmax in Hin. apply list_elem_of_fmap in Hin as (q & Hq & Hqin); [|done].
    assert (linked g q n) as Hqn by (unfold linked; by rewrite Hps).
    destruct (linked_nodeIds g q n Hqn) as [Hqid _].
    destruct (IH (layerOf lay q) ltac:(lia) q eq_refl Hqid) as (a & Hpath & Ha).
    exists a. split; [|done]. rewrite Hl, Hq.
    replace (layerOf lay q + 1) with (S (layerOf lay q)) by lia.
    by eapply nsteps_r.
Qed.

Lemma linked_iff g a b :
  linked g a b ↔ ∃ e, e ∈ edges g ∧ source e = a ∧ target e = b ∧ validEdge g e.
Proof.
  unfold linked, predsOf. rewrite list_elem_of_fmap. split.
  - intros (e & -> & He). apply list_elem_of_filter in He as [[Ht Hv] He]. by exists e.
  - intros (e & He & <- & <- & Hv). exists e. split; [done|]. by apply list_elem_of_filter.
Qed.

Lemma linked_same_edges g g' a b :
  nodes g = nodes g' → (∀ e, e ∈ edges g ↔ e ∈ edges g') → linked g a b → linked g' a b.
Proof.
  intros Hn He. rewrite !linked_iff. intros (e & Hin & Hs & Ht & Hv). exists e.
  split_and!; [by apply He|done|done|]. unfold validEdge, nodeIds in *. by rewrite <-Hn.
Qed.

Lemma acyclic_same_edges g g' :
  (∀ e, e ∈ edges g ↔ e ∈ edges g') → acyclic g → acyclic g'.
Proof.
  intros He Hacyc n Hn. apply (Hacyc n).
  apply (tc_congruence (R:=edgeRel g') (λ x, x) (edgeRel g) n n); [|exact Hn].
  intros a b (e & Hin & Hs & Ht). exists e. split; [by apply He|done].
Qed.

Lemma node_of_id (l : list Node) (a b : Node) :
  NoDup (id <$> l) → a ∈ l → b ∈ l → id a = id b → a = b.
Proof.
  induction l as [|c l IH]; intros Hnd Ha Hb Hid; [by apply elem_of_nil in Ha|].
  cbn [fmap list_fmap] in Hnd. apply NoDup_cons in Hnd as [Hc Hnd].
  apply elem_of_cons in Ha as [->|Ha]; apply elem_of_cons in Hb as [->|Hb]; try done.
  - destruct Hc. rewrite Hid. by apply list_elem_of_fmap_2.
  - destruct Hc. rewrite <-Hid. by apply list_elem_of_fmap_2.
  - by apply IH.
Qed.

Lemma nsteps_subrel {A} (R R' : relation A) k a b :
  (∀ x y, R x y → R' x y) → nsteps R k a b → nsteps R' k a b.
Proof. intros HR. induction 1; econstructor; eauto. Qed.

Lemma layer_same_edges_le g g' lay lay' n :
  nodes g = nodes g' → (∀ e, e ∈ edges g ↔ e ∈ edges g') →
  NoDup (nodeIds g) → acyclic g →
  assignLayers g = Some lay → assignLayers g' = Some lay' → n ∈ nodeIds g →
  layerOf lay n ≤ layerOf lay' n.
Proof.
  intros Hn He Hnd Hacyc Hlay Hlay' Hin.
  destruct (path_of_layer g lay n Hnd Hacyc Hlay Hin) as (a & Hpath & _).
  apply (nsteps_subrel _ (linked g')) in Hpath; [|intros x y; by apply linked_same_edges].
  assert (NoDup (nodeIds g')) as Hnd' by (unfold nodeIds in *; by rewrite <-Hn).
  pose proof (acyclic_same_edges g g' He Hacyc) as Hacyc'.
  pose proof (path_raises_layer g' lay' _ a n Hnd' Hacyc' Hlay' Hpath). lia.
Qed.

(** ** A bound on the height of the canvas *)


Lemma foldl_Qplus_le (c : Q) (ys : list Q) (acc : Q) :
  Forall (λ v, (v <= c)%Q) ys → (foldl Qplus acc ys <= acc + nat2Q (length ys) * c)%Q.
Proof.
  intros Hall. revert acc. induction Hall as [|v ys Hv _ IH]; intros acc.
  - simpl. change (nat2Q 0) with 0%Q. lra.
  - cbn [foldl length]. specialize (IH (acc + v)%Q). rewrite nat2Q_S. lra.
Qed.

Lemma mean_le (c : Q) (ys : list Q) :
  ys ≠ [] → Forall (λ v, (v <= c)%Q) ys → (mean ys <= c)%Q.
Proof.
  intros Hne Hall. unfold mean.
  assert (0 < nat2Q (length ys))%Q as Hpos.
  { destruct ys; [done|]. simpl length. rewrite nat2Q_S.
    assert (0 <= nat2Q (length ys))%Q by (apply (nat2Q_le 0); lia). lra. }
  apply Qle_shift_div_r; [done|].
  pose proof (foldl_Qplus_le c ys 0 Hall). lra.
Qed.

Lemma placed_below nodeY adj i b :
  belowBound nodeY b → Forall (λ v, (v <= b)%Q) (placed nodeY adj i).
Proof.
  intros Hb. unfold placed. apply Forall_forall. intros v Hv.
  apply list_elem_of_omap in Hv as (p & _ & Hp). by eapply Hb.
Qed.

Lemma placeNode_below pred nodeY cursor i b :
  belowBound nodeY b → (cursor <= b + V_STEP)%Q →
  belowBound (placeNode pred (nodeY, cursor) i).1 (b + V_STEP) ∧
  ((placeNode pred (nodeY, cursor) i).2 <= b + V_STEP + V_STEP)%Q.
Proof.
  intros Hb Hc. unfold placeNode. cbn [fst snd].
  set (ys := placed nodeY pred i).
  assert ((if decide (0 < length ys)%nat then Qmax cursor (mean ys) else cursor) <= b + V_STEP)%Q
    as Hy.
  { destruct (decide (0 < length ys)) as [Hlen|_]; [|done].
    apply Q.max_lub; [done|].
    assert (mean ys <= b)%Q.
    { apply mean_le; [by destruct ys; [simpl in Hlen; lia|]|by apply placed_below]. }
    unfold V_STEP. lra. }
  split; [|lra].
  intros k v Hk. destruct (decide (k = i)) as [->|Hne].
  - rewrite lookup_insert_eq in Hk. by injection Hk as <-.
  - rewrite lookup_insert_ne in Hk by done. specialize (Hb k v Hk). unfold V_STEP. lra.
Qed.

Lemma foldl_placeNode_below pred ids nodeY cursor b :
  belowBound nodeY b → (cursor <= b + V_STEP)%Q →
  belowBound (foldl (placeNode pred) (nodeY, cursor) ids).1 (b + nat2Q (length ids) * V_STEP).
Proof.
  revert nodeY cursor b. induction ids as [|i ids IH]; intros nodeY cursor b Hb Hc.
  - cbn. intros k v Hk. specialize (Hb k v Hk). change (nat2Q 0) with 0%Q. lra.
  - cbn [foldl length]. destruct (placeNode_below pred nodeY cursor i b Hb Hc) as [Hb' Hc'].
    destruct (placeNode pred (nodeY, cursor) i) as [nodeY' cursor'] eqn:E. cbn [fst snd] in *.
    pose proof (IH nodeY' cursor' (b + V_STEP)%Q Hb' Hc') as H.
    intros k v Hk. specialize (H k v Hk). rewrite nat2Q_S. unfold V_STEP in *. lra.
Qed.

Lemma topDown_rows_below pred (ln : list (list string)) n j nodeY nodeY' b :
  foldM (topDownStep pred ln) nodeY (seq j n) = Some nodeY' →
  belowBound nodeY b → (PAD - V_STEP <= b)%Q →
  belowBound nodeY' (b + nat2Q (length (concat (take n (drop j ln)))) * V_STEP).
Proof.
  revert j nodeY b. induction n as [|n IH]; intros j nodeY b Hf Hb Hpad.
  - cbn in Hf. injection Hf as <-. rewrite take_0. cbn [concat length].
    intros k v Hk. specialize (Hb k v Hk). change (nat2Q 0) with 0%Q. lra.
  - cbn [seq foldM] in Hf.
    destruct (topDownStep pred ln nodeY j) as [nodeY1|] eqn:Hstep; [|done].
    cbn [mbind option_bind] in Hf. unfold topDownStep in Hstep.
    destruct (ln !! j) as [ids|] eqn:Hj; [|done]. cbn [mbind option_bind] in Hstep.
    injection Hstep as <-.
    assert (PAD <= b + V_STEP)%Q as Hc by lra.
    pose proof (foldl_placeNode_below pred ids nodeY PAD b Hb Hc) as Hrow.
    assert (PAD - V_STEP <= b + nat2Q (length ids) * V_STEP)%Q as Hpad'.
    { assert (0 <= nat2Q (length ids))%Q by (apply (nat2Q_le 0); lia). unfold V_STEP in *. nra. }
    pose proof (IH (S j) _ _ Hf Hrow Hpad') as H.
    rewrite (drop_S _ _ _ Hj). cbn [take concat]. rewrite length_app.
    intros k v Hk. specialize (H k v Hk).
    assert (nat2Q (length ids + length (concat (take n (drop (S j) ln))))
            == nat2Q (length ids) + nat2Q (length (concat (take n (drop (S j) ln)))))%Q as E.
    { unfold nat2Q. rewrite Nat2Z.inj_add, inject_Z_plus. reflexivity. }
    rewrite E. unfold V_STEP in *. lra.
Qed.

Lemma layout_y_below g r n p :
  computeLayout g = Some r → JSMap.get (positions r) n = Some p →
  (y p <= PAD + (nat2Q (length (nodes g)) - 1) * V_STEP)%Q.
Proof.
  intros Hr Hp. destruct (decide (nodes g = [])) as [Hnil|Hne].
  { rewrite (computeLayout_empty g r Hr Hnil) in Hp. done. }
  destruct (computeLayout_inv g r Hr Hne) as (st & s & m & _ & Hsafe & Hs & Hok & _ & _ & ->).
  cbn [positions layoutOf] in Hp.
  pose proof (stagesOK_NoDup_rows g st s Hok) as Hnd.
  destruct (stages_topDown g s Hs) as [_ Htd].
  destruct Hok as (_ & _ & Hsl & _ & Hlen & _ & Hperm & Hkeys & _ & Hgap & HY).
  unfold topDown in Htd.
  assert (belowBound ∅ (PAD - V_STEP)) as H0 by (intros k v Hk; by rewrite lookup_empty in Hk).
  pose proof (topDown_rows_below _ _ _ _ _ _ _ Htd H0 (Qle_refl _)) as Hb.
  rewrite drop_0, <-Hlen, firstn_all in Hb.
  assert (length (concat (st_layerNodes s)) ≤ length (nodes g)) as Hcount.
  { rewrite Hperm. rewrite <-(length_fmap id (nodes g)).
    apply submseteq_length, NoDup_submseteq; [done|].
    intros k Hk. rewrite Hsl in Hk. by apply (layer_keys_nodeIds g st k Hsafe). }
  destruct (posRows_entry _ _ _ n p Hnd Hp) as (l & ids & Hl & Hin & ->).
  destruct (Hgap l ids Hl) as [_ Hdom]. destruct (Hdom n Hin) as [v Hv].
  cbn [y mkPos]. rewrite HY, Hv. cbn [default].
  specialize (Hb n v Hv).
  assert (nat2Q (length (concat (st_layerNodes s))) <= nat2Q (length (nodes g)))%Q
    by (by apply nat2Q_le).
  change (Datatypes.id v) with v. unfold V_STEP in *. lra.
Qed.

(** ** Facts on the minimap *)

Lemma orElse_pos (q d : Q) : (0 < q)%Q → orElse (Some q) d = q.
Proof. intros Hq. unfold orElse. by rewrite (Qeq_bool_false_pos q Hq). Qed.

Lemma minimap_scale (mw mh cw ch : Q) :
  (0 < cw)%Q → (0 < ch)%Q → (0 < mw)%Q → (0 < mh)%Q →
  let gs := (Qmin (mw / cw) (mh / ch) * (92 # 100))%Q in
  (0 < gs)%Q ∧ (cw * gs <= (92 # 100) * mw)%Q ∧ (ch * gs <= (92 # 100) * mh)%Q.
Proof.
  intros Hcw Hch Hmw Hmh gs. set (a := (mw / cw)%Q) in *. set (b := (mh / ch)%Q) in *.
  assert (cw * a == mw)%Q as Ha.
  { unfold a. rewrite Qmult_div_r; [reflexivity|]. intros E. rewrite E in Hcw.
    by apply Qlt_irrefl in Hcw. }
  assert (ch * b == mh)%Q as Hb.
  { unfold b. rewrite Qmult_div_r; [reflexivity|]. intros E. rewrite E in Hch.
    by apply Qlt_irrefl in Hch. }
  assert (0 < a)%Q as Ha0 by (unfold a; apply Qlt_shift_div_l; [done|lra]).
  assert (0 < b)%Q as Hb0 by (unfold b; apply Qlt_shift_div_l; [done|lra]).
  set (m := Qmin a b) in *.
  assert (0 < m)%Q as Hm0 by (by apply Q.min_glb_lt).
  assert (cw * m <= cw * a)%Q as H1 by (apply Qmult_le_l; [done|apply Q.le_min_l]).
  assert (ch * m <= ch * b)%Q as H2 by (apply Qmult_le_l; [done|apply Q.le_min_r]).
  unfold gs. split_and!; lra.
Qed.

Lemma Math_round_bounds (q : Q) :
  (inject_Z (Math_round q) <= q + (1 # 2))%Q ∧ ((0 <= q)%Q → (0 ≤ Math_round q)%Z).
Proof.
  unfold Math_round. split; [apply Qfloor_le|].
  intros Hq. change 0%Z with (Qfloor 0). apply Qfloor_resp_le. lra.
Qed.

Lemma orElseNum_pos (q d : Q) : (0 < q)%Q → orElseNum (Some (Fin q)) d = Some q.
Proof. intros Hq. unfold orElseNum. by rewrite (Qeq_bool_false_pos q Hq). Qed.

(** With plain types the rectangle of a node that has a position is as
    the source computes it with numbers. *)
Lemma minimapRect_plain g r mw mh nd p :
  plainTypes g → computeLayout g = Some r → JSMap.get (positions r) (id nd) = Some p →
  ∃ cw ch hq, canvasW r = Some cw ∧ canvasH r = Some (Fin ch) ∧ h p = Px hq ∧
    minimapRect r mw mh nd =
      let gs := (Qmin (mw / cw) (mh / ch) * (92 # 100))%Q in
      Some {| rc_left := Math_round (x p * gs + (mw - cw * gs) / 2);
              rc_top := Math_round (y p * gs + (mh - ch * gs) / 2);
              rc_width := Z.max 2 (Math_round (w p * gs));
              rc_height := Z.max 1 (Math_round (hq * gs)) |}.
Proof.
  intros Hplain Hr Hp.
  destruct (box_in_canvas g r _ p Hplain Hr Hp)
    as (cw & ch & hq & Hcw & Hch & Hh & Hlo & Hhi & Hx & Hxw & Hy & Hyh).
  pose proof (positions_keys_nodeIds g r _ p Hr Hp) as Hk.
  destruct (assignLayers_total g) as (st & _ & _ & _ & Hlay).
  destruct (node_position g r _ _ Hr Hlay Hk)
    as (_ & q & nd' & _ & _ & _ & _ & Hq & _ & Hw & _).
  rewrite Hp in Hq. injection Hq as <-.
  unfold PAD, NODE_W in *. rewrite Hw in *.
  assert (0 < cw)%Q as Hcw0 by lra. assert (0 < ch)%Q as Hch0 by lra.
  exists cw, ch, hq. split_and!; [done|done|done|].
  unfold minimapRect. rewrite Hp. cbn [mbind option_bind]. rewrite Hh, Hch, Hcw.
  cbn [mbind option_bind]. rewrite !orElseNum_pos by done. cbn [mbind option_bind].
  rewrite !orElse_pos by done. by rewrite Hw.
Qed.

Lemma minimapRect_inside g r mw mh nd rc :
  plainTypes g → computeLayout g = Some r → (63 <= mw)%Q → (38 <= mh)%Q →
  minimapRect r mw mh nd = Some rc →
  (0 ≤ rc_left rc)%Z ∧ (0 ≤ rc_top rc)%Z ∧ (2 ≤ rc_width rc)%Z ∧ (1 ≤ rc_height rc)%Z ∧
  (inject_Z (rc_left rc + rc_width rc) <= mw)%Q ∧
  (inject_Z (rc_top rc + rc_height rc) <= mh)%Q.
Proof.
  intros Hplain Hr Hmw Hmh Hrc.
  destruct (JSMap.get (positions r) (id nd)) as [p|] eqn:Hp;
    [|by unfold minimapRect in Hrc; rewrite Hp in Hrc].
  destruct (minimapRect_plain g r mw mh nd p Hplain Hr Hp)
    as (cw & ch & hq & Hcw & Hch & Hh & Heq).
  rewrite Heq in Hrc. cbn zeta in Hrc. injection Hrc as <-.
  cbn [rc_left rc_top rc_width rc_height].
  destruct (box_in_canvas g r _ p Hplain Hr Hp)
    as (cw' & ch' & hq' & Hcw' & Hch' & Hh' & Hlo & Hhi & Hx & Hxw & Hy & Hyh).
  rewrite Hcw in Hcw'. injection Hcw' as <-. rewrite Hch in Hch'. injection Hch' as <-.
  rewrite Hh in Hh'. injection Hh' as <-.
  pose proof (positions_keys_nodeIds g r _ p Hr Hp) as Hk.
  destruct (assignLayers_total g) as (st & _ & _ & _ & Hlay).
  destruct (node_position g r _ _ Hr Hlay Hk)
    as (_ & q & nd' & _ & _ & _ & _ & Hq & _ & Hw & _).
  rewrite Hp in Hq. injection Hq as <-.
  unfold PAD, NODE_W in *. rewrite Hw in *.
  assert (0 < cw)%Q as Hcw0 by lra. assert (0 < ch)%Q as Hch0 by lra.
  destruct (minimap_scale mw mh cw ch Hcw0 Hch0) as (Hg0 & Hgw & Hgh); [lra|lra|].
  set (gs := (Qmin (mw / cw) (mh / ch) * (92 # 100))%Q) in *.
  assert ((mw - cw * gs) / 2 == (mw - cw * gs) * (1 # 2))%Q as Eox by field.
  assert ((mh - ch * gs) / 2 == (mh - ch * gs) * (1 # 2))%Q as Eoy by field.
  revert Eox Eoy. generalize ((mw - cw * gs) / 2)%Q ((mh - ch * gs) / 2)%Q. intros ox oy Eox Eoy.
  assert (0 <= x p * gs)%Q as Hxg by (apply Qmult_le_0_compat; lra).
  assert (0 <= y p * gs)%Q as Hyg by (apply Qmult_le_0_compat; lra).
  assert (0 <= (cw - 60 - (x p + 250)) * gs)%Q as Hxr by (apply Qmult_le_0_compat; lra).
  assert (0 <= (ch - 60 - (y p + hq)) * gs)%Q as Hyr by (apply Qmult_le_0_compat; lra).
  assert (0 <= 250 * gs)%Q as Hwg by (apply Qmult_le_0_compat; lra).
  assert (0 <= hq * gs)%Q as Hhg by (apply Qmult_le_0_compat; lra).
  destruct (Math_round_bounds (x p * gs + ox)) as [Hl1 Hl0].
  destruct (Math_round_bounds (y p * gs + oy)) as [Ht1 Ht0].
  destruct (Math_round_bounds (250 * gs)) as [Hw1 _].
  destruct (Math_round_bounds (hq * gs)) as [Hh1 _].
  split_and!.
  - apply Hl0. lra.
  - apply Ht0. lra.
  - lia.
  - lia.
  - rewrite inject_Z_plus.
    destruct (Z.max_spec 2 (Math_round (250 * gs))) as [[_ ->]|[_ ->]].
    + lra.
    + change (inject_Z 2) with 2%Q. lra.
  - rewrite inject_Z_plus.
    destruct (Z.max_spec 1 (Math_round (hq * gs))) as [[_ ->]|[_ ->]].
    + lra.
    + change (inject_Z 1) with 1%Q. lra.
Qed.

(** ** The order of the rows after the sweeps *)

Lemma forwardStep_sorted pred ln ln' j :
  forwardStep pred ln j = Some ln' → 1 ≤ j →
  rowsSorted pred ln j → rowsSorted pred ln' (S j).
Proof.
  unfold forwardStep. intros Hstep Hj Hsorted.
  destruct (ln !! (j - 1)) as [prev|] eqn:Hprev; [|done]. cbn [mbind option_bind] in Hstep.
  destruct (ln !! j) as [row|] eqn:Hrow; [|done]. cbn [mbind option_bind] in Hstep.
  injection Hstep as <-. intros l p ids Hl Hp Hids.
  destruct (decide (S l = j)) as [<-|Hne].
  - rewrite list_lookup_insert_ne in Hp by lia.
    rewrite list_lookup_insert_eq in Hids by (by eapply lookup_lt_Some).
    injection Hids as <-. replace (S l - 1) with l in Hprev by lia.
    rewrite Hprev in Hp. injection Hp as <-.
    apply Array_sort_sorted. intros a. apply baryPos_regular.
  - rewrite list_lookup_insert_ne in Hp by lia.
    rewrite list_lookup_insert_ne in Hids by lia.
    apply (Hsorted l p ids); [lia|done|done].
Qed.

Lemma forwardSteps_sorted pred n j ln ln' :
  foldM (forwardStep pred) ln (seq j n) = Some ln' → 1 ≤ j →
  rowsSorted pred ln j → rowsSorted pred ln' (j + n).
Proof.
  revert j ln. induction n as [|n IH]; intros j ln Hf Hj Hsorted.
  - cbn in Hf. injection Hf as <-. by rewrite Nat.add_0_r.
  - cbn [seq foldM] in Hf.
    destruct (forwardStep pred ln j) as [ln1|] eqn:Hstep; [|done].
    cbn [mbind option_bind] in Hf.
    replace (j + S n) with (S j + n) by lia. apply (IH (S j) ln1 Hf); [lia|].
    by eapply forwardStep_sorted.
Qed.

Lemma forwardPass_sorted pred maxL ln ln' :
  forwardPass pred maxL ln = Some ln' → rowsSorted pred ln' (1 + maxL).
Proof.
  intros Hf. apply (forwardSteps_sorted pred maxL 1 ln ln' Hf); [lia|].
  intros l p ids Hl. lia.
Qed.

Lemma stages_lastForward g s :
  stages g = Some s →
  ∃ ln2, forwardPass (buildAdj g).1 (st_maxLayer s) ln2 = Some (st_layerNodes s).
Proof.
  unfold stages. destruct (buildAdj g) as [pred succ]. intros Hs.
  destruct (assignLayers g) as [lay|]; [|done]. cbn [mbind option_bind] in Hs.
  destruct (groupByLayer _ lay) as [grouped|]; [|done]. cbn [mbind option_bind] in Hs.
  destruct (minimizeCrossings _ _ _ grouped) as [ln|] eqn:Hmin; [|done].
  cbn [mbind option_bind] in Hs.
  destruct (topDown _ _ ln) as [nodeY0|]; [|done]. cbn [mbind option_bind] in Hs.
  destruct (bottomUp _ _ ln nodeY0) as [nodeY|]; [|done]. cbn [mbind option_bind] in Hs.
  injection Hs as <-. cbn [st_maxLayer st_layerNodes fst].
  unfold minimizeCrossings in Hmin.
  destruct (forwardPass pred _ grouped) as [ln1|]; [|done]. cbn [mbind option_bind] in Hmin.
  destruct (backwardPass succ _ ln1) as [ln2|]; [|done]. cbn [mbind option_bind] in Hmin.
  by exists ln2.
Qed.

(** ** The value of a barycenter *)

Lemma baryPos_fold (prevPos : gmap string nat) (l : list string) sum count :
  foldl (λ '(sum, count) nid,
           match prevPos !! nid with
           | Some p => (sum + p, count + 1)
           | None => (sum, count)
           end) (sum, count) l
  = (sum + sum_list (omap (λ n, prevPos !! n) l), count + length (omap (λ n, prevPos !! n) l)).
Proof.
  revert sum count. induction l as [|n l IH]; intros sum count; cbn [foldl omap list_omap].
  - cbn. by rewrite !Nat.add_0_r.
  - destruct (prevPos !! n) as [p|]; rewrite IH; [|done]. simpl. f_equal; lia.
Qed.

Lemma indexMap_lookup (ids : list string) k i :
  indexMap ids !! k = Some i → ids !! i = Some k.
Proof.
  unfold indexMap. intros H%newMap_lookup_Some_elem_of.
  apply elem_of_lookup_imap in H as (j & b & [= -> ->] & Hj). done.
Qed.

Lemma sum_list_le (l : list nat) (b : nat) :
  (∀ i, i ∈ l → i ≤ b) → sum_list l ≤ length l * b.
Proof.
  induction l as [|i l IH]; intros Hb; [done|].
  assert (i ≤ b) by apply Hb, list_elem_of_here.
  assert (sum_list l ≤ length l * b) by (apply IH; intros ??; by apply Hb, list_elem_of_further).
  change (sum_list (i :: l)) with (i + sum_list l). cbn [length]. lia.
Qed.

Lemma nat2Q_mult (a b : nat) : (nat2Q (a * b) == nat2Q a * nat2Q b)%Q.
Proof. unfold nat2Q. by rewrite Nat2Z.inj_mul, inject_Z_mult. Qed.

(** * Rounding to the nearest double *)

Lemma roundEven_cases q : roundEven q = Qfloor q ∨ roundEven q = (Qfloor q + 1)%Z.
Proof. unfold roundEven. destruct (_ ?= _)%Q; [destruct (Z.even _)|..]; auto. Qed.

Lemma roundEven_Z (n : Z) : roundEven (inject_Z n) = n.
Proof.
  unfold roundEven. rewrite Qfloor_Z.
  assert ((inject_Z n - inject_Z n ?= 1 # 2)%Q = Lt) as ->; [|done].
  rewrite <-Qlt_alt. lra.
Qed.

Lemma roundEven_mono p q : (p <= q)%Q → (roundEven p ≤ roundEven q)%Z.
Proof.
  intros Hpq. pose proof (Qfloor_resp_le _ _ Hpq) as Hfl.
  destruct (decide (Qfloor p = Qfloor q)) as [Heq|Hne].
  - unfold roundEven. rewrite <-Heq.
    destruct (Qcompare_spec (p - inject_Z (Qfloor p)) (1 # 2)) as [Hp|Hp|Hp],
             (Qcompare_spec (q - inject_Z (Qfloor p)) (1 # 2)) as [Hq|Hq|Hq];
      try (destruct (Z.even (Qfloor p))); try lia; exfalso; lra.
  - destruct (roundEven_cases p) as [-> | ->], (roundEven_cases q) as [-> | ->]; lia.
Qed.

Lemma roundEven_comp p q : (p == q)%Q → roundEven p = roundEven q.
Proof.
  intros Heq. apply Z.le_antisymm; apply roundEven_mono; rewrite Heq; apply Qle_refl.
Qed.

Lemma roundEven_ge (n : Z) q : (inject_Z n <= q)%Q → (n ≤ roundEven q)%Z.
Proof. intros H. rewrite <-(roundEven_Z n). by apply roundEven_mono. Qed.

Lemma roundEven_le (n : Z) q : (q <= inject_Z n)%Q → (roundEven q ≤ n)%Z.
Proof. intros H. rewrite <-(roundEven_Z n). by apply roundEven_mono. Qed.

(** ** The exponent *)

Lemma pow2_pos (e : Z) : (0 < 2 ^ e)%Q.
Proof. by apply Qpower_0_lt. Qed.

Lemma pow2_Z (n : Z) : (0 ≤ n)%Z → (inject_Z (2 ^ n) == 2 ^ n)%Q.
Proof. intros Hn. by rewrite Zpower_Qpower. Qed.

Lemma ilog2_spec (q : Q) :
  (0 < q)%Q → (2 ^ ilog2 q <= q)%Q ∧ (q < 2 ^ (ilog2 q + 1))%Q.
Proof.
  intros Hq. unfold ilog2. destruct (Qle_bool 1 q) eqn:H1.
  - apply Qle_bool_iff in H1.
    assert (1 ≤ Qfloor q)%Z as Hf.
    { change 1%Z with (Qfloor 1). by apply Qfloor_resp_le. }
    destruct (Z.log2_spec (Qfloor q)) as [Hlo Hhi]; [lia|].
    pose proof (Z.log2_nonneg (Qfloor q)) as Hk.
    pose proof (Qfloor_le q) as Hfl. pose proof (Qlt_floor q) as Hlt.
    rewrite <-!pow2_Z by lia. split.
    + rewrite Zle_Qle in Hlo. lra.
    + assert (Qfloor q + 1 ≤ 2 ^ (Z.log2 (Qfloor q) + 1))%Z as Hhi'.
      { rewrite <-Z.add_1_r in Hhi. lia. }
      rewrite Zle_Qle in Hhi'. lra.
  - assert (q < 1)%Q as Hq1.
    { apply Qnot_le_lt. intros Hle. apply Qle_bool_iff in Hle. congruence. }
    assert (1 < / q)%Q as Hinv.
    { apply Qlt_shift_inv_l; lra. }
    pose proof (Qle_ceiling (/ q)) as Hce. pose proof (Qceiling_lt (/ q)) as Hcl.
    assert (1 < Qceiling (/ q))%Z as Hc1.
    { rewrite Zlt_Qlt. change (inject_Z 1) with 1%Q. lra. }
    destruct (Z.log2_up_spec (Qceiling (/ q)) Hc1) as [Hlo Hhi].
    set (j := Z.log2_up (Qceiling (/ q))) in *.
    assert (0 < j)%Z as Hj by (by apply Z.log2_up_pos).
    split.
    + rewrite Qpower_opp. rewrite Zle_Qle in Hhi. rewrite pow2_Z in Hhi by lia.
      apply Qle_shift_inv_r; [apply pow2_pos|].
      assert (/ q <= 2 ^ j)%Q as Hle by lra.
      apply (Qmult_le_r _ _ q) in Hle; [|done].
      rewrite Qmult_comm, Qmult_inv_r in Hle by lra. lra.
    + replace (- j + 1)%Z with (- (j - 1))%Z by lia. rewrite Qpower_opp.
      assert (2 ^ (j - 1) < / q)%Q as Hlt.
      { apply Qnot_le_lt. intros Hle.
        assert (Qceiling (/ q) ≤ 2 ^ Z.pred j)%Z as Hc; [|lia].
        rewrite <-(Qceiling_Z (2 ^ Z.pred j)). apply Qceiling_resp_le.
        rewrite pow2_Z by lia. by rewrite <-Z.sub_1_r. }
      apply Qlt_shift_inv_l; [apply pow2_pos|].
      apply (Qmult_lt_r _ _ q) in Hlt; [|done].
      rewrite (Qmult_comm (/ q)), Qmult_inv_r in Hlt by lra. lra.
Qed.

Lemma ilog2_mono p q : (0 < p)%Q → (p <= q)%Q → (ilog2 p ≤ ilog2 q)%Z.
Proof.
  intros Hp Hpq. destruct (ilog2_spec p Hp) as [Hlo _].
  destruct (ilog2_spec q) as [_ Hhi]; [lra|].
  apply Z.lt_succ_r. rewrite <-Z.add_1_r.
  apply (Qpower_lt_compat_l_inv 2); [|done]. lra.
Qed.

Lemma ulpExp_mono p q : (0 < p)%Q → (p <= q)%Q → (ulpExp p ≤ ulpExp q)%Z.
Proof. intros Hp Hpq. unfold ulpExp. pose proof (ilog2_mono p q Hp Hpq). lia. Qed.

Lemma pow2_split (a b : Z) : (2 ^ (a + b) == 2 ^ a * 2 ^ b)%Q.
Proof. by apply Qpower_plus. Qed.

Lemma div_pow2_le (p q : Q) (e : Z) : (p <= q)%Q → (p / 2 ^ e <= q / 2 ^ e)%Q.
Proof.
  intros H. unfold Qdiv. apply Qmult_le_compat_r; [done|].
  apply Qinv_le_0_compat, Qlt_le_weak, pow2_pos.
Qed.

Lemma pow2_div (a e : Z) : (2 ^ a / 2 ^ e == 2 ^ (a - e))%Q.
Proof. by rewrite Qpower_minus. Qed.

Lemma roundPos_eq q :
  (roundPos q == inject_Z (roundEven (q / 2 ^ ulpExp q)) * 2 ^ ulpExp q)%Q.
Proof. unfold roundPos. apply Qred_correct. Qed.

Lemma roundPos_nonneg q : (0 <= q)%Q → (0 <= roundPos q)%Q.
Proof.
  intros Hq. rewrite roundPos_eq. apply Qmult_le_0_compat.
  - change 0%Q with (inject_Z 0). rewrite <-Zle_Qle. apply roundEven_ge.
    change (inject_Z 0) with 0%Q. apply Qle_shift_div_l; [apply pow2_pos|]. lra.
  - apply Qlt_le_weak, pow2_pos.
Qed.

Lemma roundPos_mono p q : (0 < p)%Q → (p <= q)%Q → (roundPos p <= roundPos q)%Q.
Proof.
  intros Hp Hpq. assert (0 < q)%Q as Hq by lra.
  pose proof (ulpExp_mono p q Hp Hpq) as He. rewrite !roundPos_eq.
  destruct (decide (ulpExp p = ulpExp q)) as [Heq|Hne].
  - rewrite Heq. apply Qmult_le_compat_r; [|apply Qlt_le_weak, pow2_pos].
    rewrite <-Zle_Qle. apply roundEven_mono. by apply div_pow2_le.
  - assert (ulpExp q = ilog2 q - 52 ∧ ilog2 p < ilog2 q)%Z as [Heq Hk].
    { unfold ulpExp in *. lia. }
    destruct (ilog2_spec p Hp) as [_ Hphi]. destruct (ilog2_spec q Hq) as [Hqlo _].
    apply Qle_trans with (2 ^ ilog2 q)%Q.
    + assert (p <= 2 ^ ilog2 q)%Q as Hple.
      { apply Qle_trans with (2 ^ (ilog2 p + 1))%Q; [lra|].
        apply Qpower_le_compat_l; [lia|lra]. }
      assert (0 ≤ ilog2 q - ulpExp p)%Z as Hn by lia.
      assert (roundEven (p / 2 ^ ulpExp p) ≤ 2 ^ (ilog2 q - ulpExp p))%Z as Hr.
      { apply roundEven_le. rewrite pow2_Z by done. rewrite <-pow2_div.
        by apply div_pow2_le. }
      rewrite Zle_Qle, pow2_Z in Hr by done.
      apply (Qmult_le_compat_r _ _ (2 ^ ulpExp p)) in Hr; [|apply Qlt_le_weak, pow2_pos].
      rewrite <-pow2_split in Hr. by replace (ilog2 q - ulpExp p + ulpExp p)%Z
        with (ilog2 q) in Hr by lia.
    + assert (2 ^ 52 ≤ roundEven (q / 2 ^ ulpExp q))%Z as Hr.
      { apply roundEven_ge. rewrite pow2_Z by lia.
        replace 52%Z with (ilog2 q - ulpExp q)%Z at 1 by lia. rewrite <-pow2_div.
        by apply div_pow2_le. }
      rewrite Zle_Qle, pow2_Z in Hr by lia.
      apply (Qmult_le_compat_r _ _ (2 ^ ulpExp q)) in Hr; [|apply Qlt_le_weak, pow2_pos].
      rewrite <-pow2_split in Hr. by replace (52 + ulpExp q)%Z with (ilog2 q) in Hr by lia.
Qed.

Lemma roundPos_comp p q : (0 < p)%Q → (p == q)%Q → (roundPos p == roundPos q)%Q.
Proof.
  intros Hp Heq. apply Qle_antisym; apply roundPos_mono; try done.
  - rewrite Heq. apply Qle_refl.
  - by rewrite <-Heq.
  - rewrite Heq. apply Qle_refl.
Qed.

Lemma round64_mono p q : (p <= q)%Q → (round64 p <= round64 q)%Q.
Proof.
  intros Hpq. unfold round64.
  destruct (Qcompare_spec p 0) as [Hp|Hp|Hp], (Qcompare_spec q 0) as [Hq|Hq|Hq];
    try (exfalso; lra).
  - apply Qle_refl.
  - apply roundPos_nonneg. lra.
  - pose proof (roundPos_nonneg (- p)). lra.
  - pose proof (roundPos_mono (- q) (- p)). lra.
  - pose proof (roundPos_nonneg (- p)). pose proof (roundPos_nonneg q). lra.
  - by apply roundPos_mono.
Qed.

Lemma roundPos_Z (z : Z) : (0 < z ≤ 2 ^ 53)%Z → (roundPos (inject_Z z) == inject_Z z)%Q.
Proof.
  intros [Hz0 Hz53].
  assert (0 < inject_Z z)%Q as Hq.
  { change 0%Q with (inject_Z 0). by rewrite <-Zlt_Qlt. }
  destruct (ilog2_spec (inject_Z z) Hq) as [Hlo Hhi].
  set (k := ilog2 (inject_Z z)) in *.
  assert (0 ≤ k)%Z as Hk0.
  { apply Z.lt_succ_r. rewrite <-Z.add_1_r. apply (Qpower_lt_compat_l_inv 2); [|done].
    apply Qle_lt_trans with (inject_Z z); [|done].
    change (2 ^ 0)%Q with (inject_Z 1). rewrite <-Zle_Qle. lia. }
  assert (k ≤ 53)%Z as Hk53.
  { apply (Qpower_le_compat_l_inv 2); [|done].
    apply Qle_trans with (inject_Z z); [done|].
    rewrite <-pow2_Z by done. by rewrite <-Zle_Qle. }
  assert (ulpExp (inject_Z z) = k - 52)%Z as He by (unfold ulpExp; fold k; lia).
  rewrite roundPos_eq, He.
  assert (∃ n : Z, (inject_Z z / 2 ^ (k - 52) == inject_Z n)%Q) as [n Hn].
  { destruct (decide (k = 53%Z)) as [Hk|Hne].
    - exists (2 ^ 52)%Z. rewrite <-pow2_Z in Hlo by done. rewrite <-Zle_Qle in Hlo.
      rewrite Hk in Hlo |- *. assert (z = 2 ^ 53)%Z as -> by lia. by vm_compute.
    - exists (z * 2 ^ (52 - k))%Z. rewrite inject_Z_mult, pow2_Z by lia.
      replace (52 - k)%Z with (- (k - 52))%Z by lia. rewrite Qpower_opp. reflexivity. }
  rewrite (roundEven_comp _ _ Hn), roundEven_Z, <-Hn. field.
  apply Qnot_eq_sym, Qlt_not_eq, pow2_pos.
Qed.

Lemma round64_Z (z : Z) : (Z.abs z ≤ 2 ^ 53)%Z → (round64 (inject_Z z) == inject_Z z)%Q.
Proof.
  intros Hz. unfold round64.
  destruct (Qcompare_spec (inject_Z z) 0) as [H0|H0|H0].
  - by rewrite H0.
  - assert (0 < - z)%Z as Hneg.
    { rewrite Zlt_Qlt, inject_Z_opp. change (inject_Z 0) with 0%Q. lra. }
    rewrite <-(Qopp_involutive (inject_Z z)) at 2. apply Qopp_comp.
    rewrite <-inject_Z_opp at 2. rewrite <-(roundPos_Z (- z)) by lia.
    apply roundPos_comp; [lra|]. by rewrite inject_Z_opp.
  - apply roundPos_Z. split; [|lia]. rewrite Zlt_Qlt. by change (inject_Z 0) with 0%Q.
Qed.

(** The rounding to the nearest double has the properties used. *)
Lemma rounding_round64 : rounding round64.
Proof. split; [apply round64_mono|apply round64_Z]. Qed.


(** * The layout in floating-point arithmetic: properties *)

Lemma foldM_agree {S A} (P : S → Prop) (f f' : S → A → option S) l s :
  (∀ s a, P s → f s a = f' s a) → (∀ s a s', P s → f' s a = Some s' → P s') →
  P s → foldM f s l = foldM f' s l ∧ ∀ s', foldM f' s l = Some s' → P s'.
Proof.
  intros Heq Hpres. revert s. induction l as [|a l IH]; intros s Hs; cbn [foldM].
  - split; [done|]. by intros s' [= <-].
  - rewrite (Heq s a Hs). destruct (f' s a) as [s1|] eqn:Hf; [|done]. simpl.
    apply IH. by eapply Hpres.
Qed.

Section fl_sort.
Context (rnd : Q → Q).

Lemma Fl_baryPos_regular a nbrs prevPos : regular (Fl.baryPos rnd a nbrs prevPos).
Proof.
  unfold Fl.baryPos, regular. destruct (decide (length (default [] (nbrs !! a)) = 0)); [by left|].
  destruct (foldl _ _ _) as [sum count]. destruct (decide (0 < count)); eauto.
Qed.

(** Every sort that meets the contract returns the row the insertion
    sort returns. *)
Lemma Fl_sortLayer_contract sort nbrs adj ids :
  sortContract sort → NoDup ids →
  Fl.sortLayer rnd sort nbrs adj ids = Fl.sortLayer rnd Array_sort nbrs adj ids.
Proof.
  intros Hc Hnd. unfold Fl.sortLayer.
  change (Fl.baryCmp rnd nbrs adj) with (keyCmp (Fl.baryKey rnd nbrs adj)).
  destruct (Hc (Fl.baryKey rnd nbrs adj) ids) as (Hp & Hs & Hst);
    [intros a; apply Fl_baryPos_regular|done|].
  apply Array_sort_unique; try done. intros a; apply Fl_baryPos_regular.
Qed.

Lemma Fl_sortLayer_perm nbrs adj ids : Fl.sortLayer rnd Array_sort nbrs adj ids ≡ₚ ids.
Proof. apply Array_sort_perm. Qed.

Lemma Fl_forwardStep_sort sort pred ln l :
  sortContract sort → Forall NoDup ln →
  Fl.forwardStep rnd sort pred ln l = Fl.forwardStep rnd Array_sort pred ln l.
Proof.
  intros Hc Hnd. unfold Fl.forwardStep.
  destruct (ln !! (l - 1)) as [prev|]; [|done]. simpl.
  destruct (ln !! l) as [ids|] eqn:Hl; [|done]. simpl.
  rewrite (Fl_sortLayer_contract sort); [done|done|]. by eapply Forall_lookup_1.
Qed.

Lemma Fl_backwardStep_sort sort succ ln l :
  sortContract sort → Forall NoDup ln →
  Fl.backwardStep rnd sort succ ln l = Fl.backwardStep rnd Array_sort succ ln l.
Proof.
  intros Hc Hnd. unfold Fl.backwardStep.
  destruct (ln !! (l + 1)) as [next|]; [|done]. simpl.
  destruct (ln !! l) as [ids|] eqn:Hl; [|done]. simpl.
  rewrite (Fl_sortLayer_contract sort); [done|done|]. by eapply Forall_lookup_1.
Qed.

Lemma Fl_forwardStep_NoDup pred ln l ln' :
  Forall NoDup ln → Fl.forwardStep rnd Array_sort pred ln l = Some ln' → Forall NoDup ln'.
Proof.
  intros Hnd. unfold Fl.forwardStep.
  destruct (ln !! (l - 1)) as [prev|]; [|done]. simpl.
  destruct (ln !! l) as [ids|] eqn:Hl; [|done]. simpl. intros [= <-].
  apply Forall_insert; [done|]. rewrite Fl_sortLayer_perm. by eapply Forall_lookup_1.
Qed.

Lemma Fl_backwardStep_NoDup succ ln l ln' :
  Forall NoDup ln → Fl.backwardStep rnd Array_sort succ ln l = Some ln' → Forall NoDup ln'.
Proof.
  intros Hnd. unfold Fl.backwardStep.
  destruct (ln !! (l + 1)) as [next|]; [|done]. simpl.
  destruct (ln !! l) as [ids|] eqn:Hl; [|done]. simpl. intros [= <-].
  apply Forall_insert; [done|]. rewrite Fl_sortLayer_perm. by eapply Forall_lookup_1.
Qed.

Lemma Fl_minimizeCrossings_sort sort pred succ (maxL : nat) ln :
  sortContract sort → Forall NoDup ln →
  Fl.minimizeCrossings rnd sort pred succ maxL ln =
    Fl.minimizeCrossings rnd Array_sort pred succ maxL ln.
Proof.
  intros Hc Hnd. unfold Fl.minimizeCrossings, Fl.forwardPass, Fl.backwardPass.
  assert (∀ ls s, Forall NoDup s →
            foldM (Fl.forwardStep rnd sort pred) s ls =
              foldM (Fl.forwardStep rnd Array_sort pred) s ls ∧
            ∀ s', foldM (Fl.forwardStep rnd Array_sort pred) s ls = Some s' →
                  Forall NoDup s') as Hfwd.
  { intros ls s Hs. apply (foldM_agree (Forall NoDup)); [|..|done].
    - intros. by apply Fl_forwardStep_sort.
    - intros ????. by apply Fl_forwardStep_NoDup. }
  assert (∀ ls s, Forall NoDup s →
            foldM (Fl.backwardStep rnd sort succ) s ls =
              foldM (Fl.backwardStep rnd Array_sort succ) s ls ∧
            ∀ s', foldM (Fl.backwardStep rnd Array_sort succ) s ls = Some s' →
                  Forall NoDup s') as Hbwd.
  { intros ls s Hs. apply (foldM_agree (Forall NoDup)); [|..|done].
    - intros. by apply Fl_backwardStep_sort.
    - intros ????. by apply Fl_backwardStep_NoDup. }
  destruct (Hfwd (seq 1 maxL) ln Hnd) as [-> H1].
  destruct (foldM (Fl.forwardStep rnd Array_sort pred) ln (seq 1 maxL)) as [ln1|]; [|done].
  simpl. destruct (Hbwd (reverse (seq 0 maxL)) ln1) as [-> H2]; [by apply H1|].
  destruct (foldM (Fl.backwardStep rnd Array_sort succ) ln1 _) as [ln2|]; [|done].
  simpl. apply Hfwd. by apply H2.
Qed.

Lemma Forall_NoDup_concat (ln : list (list string)) : NoDup (concat ln) → Forall NoDup ln.
Proof.
  induction ln as [|x ln IH]; [constructor|]. simpl.
  intros (? & _ & ?)%NoDup_app. constructor; auto.
Qed.

Lemma Fl_stages_sort sort g :
  sortContract sort → Fl.stages rnd sort g = Fl.stages rnd Array_sort g.
Proof.
  intros Hc. unfold Fl.stages. destruct (buildAdj g) as [pred succ].
  destruct (assignLayers_total g) as (st & Hk & Hsafe & Hh & ->). simpl.
  set (lay := fallback (nodes g) (layer st)).
  destruct (groupByLayer_spec (max_list (JSMap.values lay)) lay)
    as (ln0 & -> & Hlen0 & Hperm0 & Hrows0).
  { intros p Hp. by apply max_list_values_le. }
  simpl. rewrite (Fl_minimizeCrossings_sort sort); [done|done|].
  apply Forall_NoDup_concat. rewrite Hperm0.
  apply fallback_NoDup. by destruct Hsafe as (_ & _ & _ & ? & _).
Qed.

(** The layout does not depend on the algorithm of the sort. *)
Lemma Fl_computeLayout_sort sort g :
  sortContract sort → Fl.computeLayout rnd sort g = Fl.computeLayout rnd Array_sort g.
Proof.
  intros Hc. unfold Fl.computeLayout. by rewrite (Fl_stages_sort sort).
Qed.
End fl_sort.

Lemma Array_sort_contract : sortContract Array_sort.
Proof.
  intros key l Hreg Hnd. split_and!.
  - apply Array_sort_perm.
  - by apply Array_sort_sorted.
  - intros a b. by apply Array_sort_stable.
Qed.

Section fl_pipeline.
Context (rnd : Q → Q).
Hypothesis rnd_ok : rounding rnd.

Lemma rnd_PAD_le (q : Q) : (PAD <= q)%Q → (PAD <= rnd q)%Q.
Proof.
  intros Hq. destruct rnd_ok as [Hmono Hint].
  pose proof (Hmono _ _ Hq) as Hle.
  pose proof (Hint 60%Z) as H60. unfold PAD in *.
  change (inject_Z 60) with 60%Q in H60. rewrite H60 in Hle; [done|].
  vm_compute. by intros ?.
Qed.

Lemma Fl_forwardStep_spec pred (N : nat) ln0 ln l :
  length ln = N → Forall2 (≡ₚ) ln0 ln → l < N →
  ∃ ln', Fl.forwardStep rnd Array_sort pred ln l = Some ln' ∧ length ln' = N ∧
         Forall2 (≡ₚ) ln0 ln'.
Proof.
  intros Hlen H0 Hl. unfold Fl.forwardStep.
  destruct (lookup_lt_is_Some_2 ln (l - 1)) as [prev ->]; [lia|].
  destruct (lookup_lt_is_Some_2 ln l) as [ids Hids]; [lia|].
  rewrite Hids. simpl. eexists. split_and!; [done| by rewrite length_insert |].
  eapply rows_insert_perm; [done|done|apply Fl_sortLayer_perm].
Qed.

Lemma Fl_backwardStep_spec succ (N : nat) ln0 ln l :
  length ln = N → Forall2 (≡ₚ) ln0 ln → l + 1 < N →
  ∃ ln', Fl.backwardStep rnd Array_sort succ ln l = Some ln' ∧ length ln' = N ∧
         Forall2 (≡ₚ) ln0 ln'.
Proof.
  intros Hlen H0 Hl. unfold Fl.backwardStep.
  destruct (lookup_lt_is_Some_2 ln (l + 1)) as [next ->]; [lia|].
  destruct (lookup_lt_is_Some_2 ln l) as [ids Hids]; [lia|].
  rewrite Hids. simpl. eexists. split_and!; [done| by rewrite length_insert |].
  eapply rows_insert_perm; [done|done|apply Fl_sortLayer_perm].
Qed.

Lemma Fl_forwardPass_spec pred (maxL : nat) ln0 ln :
  length ln = maxL + 1 → Forall2 (≡ₚ) ln0 ln →
  ∃ ln', Fl.forwardPass rnd Array_sort pred maxL ln = Some ln' ∧ length ln' = maxL + 1 ∧
         Forall2 (≡ₚ) ln0 ln'.
Proof.
  intros Hlen H0. unfold Fl.forwardPass.
  destruct (foldM_total (λ ln, length ln = maxL + 1 ∧ Forall2 (≡ₚ) ln0 ln)
              (Fl.forwardStep rnd Array_sort pred) (seq 1 maxL) ln)
    as (ln' & ? & ? & ?); [|done|eauto].
  intros s l Hl [Hs1 Hs2]. apply elem_of_seq in Hl.
  destruct (Fl_forwardStep_spec pred (maxL + 1) ln0 s l) as (s' & ? & ? & ?);
    eauto with lia.
Qed.

Lemma Fl_backwardPass_spec succ (maxL : nat) ln0 ln :
  length ln = maxL + 1 → Forall2 (≡ₚ) ln0 ln →
  ∃ ln', Fl.backwardPass rnd Array_sort succ maxL ln = Some ln' ∧ length ln' = maxL + 1 ∧
         Forall2 (≡ₚ) ln0 ln'.
Proof.
  intros Hlen H0. unfold Fl.backwardPass.
  destruct (foldM_total (λ ln, length ln = maxL + 1 ∧ Forall2 (≡ₚ) ln0 ln)
              (Fl.backwardStep rnd Array_sort succ) (reverse (seq 0 maxL)) ln)
    as (ln' & ? & ? & ?); [|done|eauto].
  intros s l Hl [Hs1 Hs2]. apply elem_of_reverse, elem_of_seq in Hl.
  destruct (Fl_backwardStep_spec succ (maxL + 1) ln0 s l) as (s' & ? & ? & ?);
    eauto with lia.
Qed.

Lemma Fl_minimizeCrossings_spec pred succ (maxL : nat) ln :
  length ln = maxL + 1 →
  ∃ ln', Fl.minimizeCrossings rnd Array_sort pred succ maxL ln = Some ln' ∧
         length ln' = maxL + 1 ∧ Forall2 (≡ₚ) ln ln'.
Proof.
  intros Hlen. unfold Fl.minimizeCrossings.
  destruct (Fl_forwardPass_spec pred maxL ln ln) as (ln1 & -> & Hl1 & Hp1); [done|done|].
  simpl. destruct (Fl_backwardPass_spec succ maxL ln ln1) as (ln2 & -> & Hl2 & Hp2);
    [done|done|].
  simpl. by apply Fl_forwardPass_spec.
Qed.

(** ** The top-down pass *)

Lemma Fl_placeNode_spec pred nodeY (c : Q) i :
  ∃ y, Fl.placeNode rnd pred (nodeY, c) i = (<[i := y]> nodeY, rnd (y + V_STEP)) ∧
       (c <= y)%Q.
Proof.
  unfold Fl.placeNode. destruct (decide (0 < length (placed nodeY pred i))).
  - eexists. split; [done|]. apply Q.le_max_l.
  - eexists. split; [done|]. apply Qle_refl.
Qed.

Lemma Fl_placeLayer_spec pred ids nodeY (c : Q) :
  NoDup ids → (PAD <= c)%Q →
  (∀ k, k ∉ ids → (foldl (Fl.placeNode rnd pred) (nodeY, c) ids).1 !! k = nodeY !! k) ∧
  (∀ k, k ∈ ids →
     ∃ y, (foldl (Fl.placeNode rnd pred) (nodeY, c) ids).1 !! k = Some y ∧ (PAD <= y)%Q) ∧
  (∀ b, ids !! 0 = Some b →
     ∃ y, (foldl (Fl.placeNode rnd pred) (nodeY, c) ids).1 !! b = Some y ∧ (c <= y)%Q) ∧
  Fl.gapped rnd (foldl (Fl.placeNode rnd pred) (nodeY, c) ids).1 ids.
Proof.
  revert nodeY c. induction ids as [|a ids IH]; intros nodeY c Hnd Hc.
  - split_and!; [done | by intros ? ?%elem_of_nil | done | by intros ?????].
  - apply NoDup_cons in Hnd as [Ha Hnd]. cbn [foldl].
    destruct (Fl_placeNode_spec pred nodeY c a) as (y & -> & Hy).
    assert (PAD <= rnd (y + V_STEP))%Q as Hc'.
    { apply rnd_PAD_le. pose proof (V_STEP_nonneg y). lra. }
    destruct (IH (<[a := y]> nodeY) (rnd (y + V_STEP)) Hnd Hc') as (Hout & Hin & Hhd & Hgap).
    assert ((foldl (Fl.placeNode rnd pred) (<[a:=y]> nodeY, rnd (y + V_STEP)) ids).1 !! a
            = Some y) as Hya by (rewrite Hout by done; apply lookup_insert_eq).
    split_and!.
    + intros k Hk. apply not_elem_of_cons in Hk as [Hne Hk].
      rewrite Hout by done. by rewrite lookup_insert_ne.
    + intros k [->|Hk]%elem_of_cons; [|by apply Hin].
      exists y. split; [done|lra].
    + intros b [= <-]. eauto.
    + intros i x b Hx Hb. destruct i as [|i]; simpl in Hx, Hb.
      * injection Hx as <-. destruct (Hhd b Hb) as (yb & Hyb & Hle).
        exists y, yb. done.
      * by apply (Hgap i).
Qed.

Lemma Fl_topDown_prefix pred (ln : list (list string)) (j : nat) :
  NoDup (concat ln) → j ≤ length ln →
  ∃ nodeY, foldM (Fl.topDownStep rnd pred ln) ∅ (seq 0 j) = Some nodeY ∧ abovePad nodeY ∧
    ∀ l ids, l < j → ln !! l = Some ids →
      Fl.gapped rnd nodeY ids ∧ ∀ k, k ∈ ids → is_Some (nodeY !! k).
Proof.
  intros Hnd. induction j as [|j IH]; intros Hj.
  - exists ∅. split_and!; [done | by intros ?? ?%lookup_empty_Some | intros; lia].
  - destruct IH as (nodeY & Hf & Hpad & Hrows); [lia|].
    rewrite seq_S, foldM_app, Hf. simpl.
    destruct (lookup_lt_is_Some_2 ln j) as [ids Hids]; [lia|].
    unfold Fl.topDownStep at 1. rewrite Hids. simpl.
    pose proof (NoDup_concat_row ln j ids Hnd Hids) as Hndj.
    destruct (Fl_placeLayer_spec pred ids nodeY PAD Hndj (Qle_refl _))
      as (Hout & Hin & _ & Hgap).
    eexists. split_and!; [done| |].
    + intros k y Hk. destruct (decide (k ∈ ids)) as [Hkin|Hkin].
      * destruct (Hin k Hkin) as (y' & Hy' & Hle). congruence.
      * rewrite Hout in Hk by done. by eapply Hpad.
    + intros l ids' Hl Hids'. destruct (decide (l = j)) as [->|Hne].
      * rewrite Hids in Hids'. injection Hids' as <-. split; [done|].
        intros k Hk. destruct (Hin k Hk) as (y & -> & _). done.
      * destruct (Hrows l ids') as [Hg Hd]; [lia|done|].
        assert (∀ k, k ∈ ids' → k ∉ ids) as Hdisj.
        { intros k Hk. by eapply (NoDup_concat_disjoint ln l j). }
        split.
        -- intros i a b Ha Hb. destruct (Hg i a b Ha Hb) as (ya & yb & ? & ? & ?).
           exists ya, yb. rewrite !Hout; [done| |];
             apply Hdisj; by eapply list_elem_of_lookup_2.
        -- intros k Hk. rewrite Hout by auto. auto.
Qed.

Lemma Fl_topDown_spec pred (maxL : nat) (ln : list (list string)) :
  NoDup (concat ln) → length ln = maxL + 1 →
  ∃ nodeY, Fl.topDown rnd pred maxL ln = Some nodeY ∧ abovePad nodeY ∧
    ∀ l ids, ln !! l = Some ids →
      Fl.gapped rnd nodeY ids ∧ ∀ k, k ∈ ids → is_Some (nodeY !! k).
Proof.
  intros Hnd Hlen. unfold Fl.topDown.
  destruct (Fl_topDown_prefix pred ln (maxL + 1) Hnd) as (nodeY & Hf & Hpad & Hrows); [lia|].
  exists nodeY. split_and!; [done|done|].
  intros l ids Hl. apply (Hrows l ids); [|done]. apply lookup_lt_Some in Hl. lia.
Qed.

(** ** The backward pass *)

Lemma Fl_pullNode_id succ nodeY c i :
  abovePad nodeY → is_Some (nodeY !! i) →
  ∃ c', Fl.pullNode rnd succ (nodeY, c) i = Some (nodeY, c').
Proof.
  intros Hpad [yi Hyi]. unfold Fl.pullNode.
  destruct (decide (0 < length (placed nodeY succ i))); [|simpl; rewrite Hyi; simpl; eauto].
  rewrite Hyi. simpl.
  set (maxY := match c with
               | Some c0 => Qmin (Fl.mean rnd (placed nodeY succ i)) (rnd (c0 - V_STEP))
               | None => Fl.mean rnd (placed nodeY succ i)
               end).
  destruct (Qltb yi maxY) eqn:Hlt; simpl; [rewrite Hyi; simpl; eauto|].
  apply Qltb_ge in Hlt.
  assert (Qmax yi (if Qltb maxY PAD then PAD else maxY) = yi) as ->.
  { apply Qmax_left. destruct (Qltb maxY PAD); [by eapply Hpad|done]. }
  rewrite insert_id by done. rewrite Hyi. simpl. eauto.
Qed.

Lemma Fl_foldM_pullNode_id succ nodeY ids c :
  abovePad nodeY → (∀ i, i ∈ ids → is_Some (nodeY !! i)) →
  ∃ c', foldM (Fl.pullNode rnd succ) (nodeY, c) ids = Some (nodeY, c').
Proof.
  intros Hpad. revert c. induction ids as [|i ids IH]; intros c Hdom; cbn [foldM]; [eauto|].
  destruct (Fl_pullNode_id succ nodeY c i Hpad) as (c1 & ->).
  { apply Hdom, list_elem_of_here. }
  simpl. apply IH. intros ??. by apply Hdom, list_elem_of_further.
Qed.

(** The backward pass returns the y map it was given, in floating point
    too. *)
Lemma Fl_bottomUp_id succ (maxL : nat) (ln : list (list string)) nodeY :
  abovePad nodeY → length ln = maxL + 1 →
  (∀ l ids, ln !! l = Some ids → ∀ k, k ∈ ids → is_Some (nodeY !! k)) →
  Fl.bottomUp rnd succ maxL ln nodeY = Some nodeY.
Proof.
  intros Hpad Hlen Hdom. unfold Fl.bottomUp.
  assert (∀ ls, (∀ l, l ∈ ls → l < length ln) →
                foldM (Fl.bottomUpStep rnd succ ln) nodeY ls = Some nodeY) as Hgen.
  { induction ls as [|l ls IH]; intros Hls; cbn [foldM]; [done|].
    destruct (lookup_lt_is_Some_2 ln l) as [ids Hids]; [apply Hls, list_elem_of_here|].
    assert (Fl.bottomUpStep rnd succ ln nodeY l = Some nodeY) as ->.
    { unfold Fl.bottomUpStep. rewrite Hids. simpl.
      destruct (Fl_foldM_pullNode_id succ nodeY (reverse ids) None Hpad) as (c' & ->);
        [|done].
      intros i Hi. apply (proj1 (elem_of_reverse _ _)) in Hi.
      apply (Hdom l ids Hids i Hi). }
    simpl. apply IH. intros ??. by apply Hls, list_elem_of_further. }
  apply Hgen. intros l Hl. apply (proj1 (elem_of_reverse _ _)), elem_of_seq in Hl. lia.
Qed.

(** ** The pipeline as a whole *)

Lemma Fl_stages_spec g :
  ∃ st s, kahn g = Some st ∧ bfsSafe g st ∧ head st = length (queue st) ∧
          Fl.stages rnd Array_sort g = Some s ∧ Fl.stagesOK rnd g st s.
Proof.
  destruct (assignLayers_total g) as (st & Hk & Hsafe & Hh & Hlay).
  set (lay := fallback (nodes g) (layer st)) in *.
  set (maxL := max_list (JSMap.values lay)).
  assert (NoDup (JSMap.keys lay)) as Hndk.
  { apply fallback_NoDup. by destruct Hsafe as (_ & _ & _ & ? & _). }
  destruct (groupByLayer_spec maxL lay) as (ln0 & Hg & Hlen0 & Hperm0 & Hrows0).
  { intros p Hp. by apply max_list_values_le. }
  destruct (Fl_minimizeCrossings_spec (buildAdj g).1 (buildAdj g).2 maxL ln0 Hlen0)
    as (ln & Hmin & Hlen & Hrows).
  assert (concat ln ≡ₚ JSMap.keys lay) as Hperm.
  { rewrite <-Hperm0. symmetry. by apply rows_concat_perm. }
  assert (NoDup (concat ln)) as Hnd by (by rewrite Hperm).
  destruct (Fl_topDown_spec (buildAdj g).1 maxL ln Hnd Hlen) as (nodeY & Htd & Hpad & Hgap).
  pose proof (Fl_bottomUp_id (buildAdj g).2 maxL ln nodeY Hpad Hlen
                (λ l ids Hl, proj2 (Hgap l ids Hl))) as Hbu.
  exists st,
    {| st_pred := (buildAdj g).1; st_succ := (buildAdj g).2; st_layer := lay;
       st_maxLayer := maxL; st_layerNodes := ln; st_topDownY := nodeY;
       st_nodeY := nodeY |}.
  split_and!; [done|done|done| |].
  - unfold Fl.stages. destruct (buildAdj g) as [pred succ]. rewrite Hlay. simpl.
    fold lay. fold maxL. rewrite Hg. simpl. simpl in Hmin. rewrite Hmin. simpl.
    simpl in Htd. rewrite Htd. simpl. simpl in Hbu. rewrite Hbu. simpl. done.
  - unfold Fl.stagesOK. simpl. split_and!; try done.
    intros l ids Hl.
    destruct (Forall2_lookup_r _ _ _ _ _ Hrows Hl) as (x & Hx & Hxy).
    rewrite Hrows0 in Hx.
    + injection Hx as <-. by symmetry.
    + apply lookup_lt_Some in Hl. lia.
Qed.

Lemma Fl_stagesOK_NoDup_rows g st s :
  Fl.stagesOK rnd g st s → NoDup (concat (st_layerNodes s)).
Proof. intros (_ & _ & _ & _ & _ & _ & Hperm & Hnd & _). by rewrite Hperm. Qed.

(** The result of a run on a non-empty graph, with any sort that meets
    the contract. *)
Lemma Fl_computeLayout_spec sort g :
  sortContract sort → nodes g ≠ [] →
  ∃ st s, kahn g = Some st ∧ bfsSafe g st ∧ Fl.stagesOK rnd g st s ∧
          posRows (nodeMapOf g) (st_nodeY s) (st_layerNodes s) ≠ [] ∧
          Fl.computeLayout rnd sort g =
            Some (Fl.layoutOf rnd g s (st_nodeY s)
                    (Math_max (Fl.bottoms rnd
                       (posRows (nodeMapOf g) (st_nodeY s) (st_layerNodes s))))).
Proof.
  intros Hc Hne. rewrite (Fl_computeLayout_sort rnd sort g Hc).
  destruct (Fl_stages_spec g) as (st & s & Hk & Hsafe & Hh & Hs & Hok).
  pose proof (Fl_stagesOK_NoDup_rows g st s Hok) as Hnd.
  exists st, s. split_and!; try done.
  - intros Hnil. destruct Hok as (_ & _ & Hlay & _ & Hlen & _ & Hperm & _).
    apply (fallback_nonempty g st Hne). rewrite <-Hlay.
    apply Permutation_nil_r.
    rewrite <-Hperm, <-(posRows_keys (nodeMapOf g) (st_nodeY s)).
    by rewrite Hnil.
  - unfold Fl.computeLayout. rewrite decide_False.
    + rewrite Hs. simpl. unfold Fl.finish. fold (nodeMapOf g).
      destruct Hok as (_ & _ & _ & _ & Hlen & _).
      rewrite (buildPositions_spec _ _ _ _ Hnd Hlen). simpl. done.
    + intros Hz. by apply nil_length_inv in Hz.
Qed.

(** In floating point too a layout is returned for every graph. *)
Lemma Fl_computeLayout_total sort g :
  sortContract sort → is_Some (Fl.computeLayout rnd sort g).
Proof.
  intros Hc. destruct (decide (nodes g = [])) as [Hnil|Hne].
  - unfold Fl.computeLayout. rewrite Hnil. simpl. eauto.
  - destruct (Fl_computeLayout_spec sort g Hc Hne) as (? & ? & _ & _ & _ & _ & ->). eauto.
Qed.
End fl_pipeline.

(** ** Reading a layout computed in floating point *)

Lemma mkPos_plain g nodeY lx k :
  plainTypes g →
  ∃ hq, h (mkPos (nodeMapOf g) nodeY lx k) = Px hq ∧ (124 <= hq)%Q ∧ (hq <= 200)%Q.
Proof.
  intros Hplain. cbn [mkPos h]. apply getNodeHeight_bounds.
  intros t Ht. destruct (nodeMapOf g !! k) as [nd|] eqn:Hnd; [|done].
  injection Ht as <-. destruct (nodeMapOf_lookup g k nd Hnd) as [Hin _].
  by apply Hplain.
Qed.

Lemma rounding_id : rounding (λ q, q).
Proof. split; [done|]. intros z _. reflexivity. Qed.

Lemma rounding_floor rnd (q : Q) :
  rounding rnd → (0 <= q)%Q → (q <= inject_Z (2 ^ 53))%Q →
  (q - 1 < rnd q)%Q.
Proof.
  intros [Hmono Hint] H0 H53.
  pose proof (Qfloor_le q) as Hfl. pose proof (Qlt_floor q) as Hlt.
  pose proof (Hmono _ _ Hfl) as Hle. rewrite Hint in Hle.
  - rewrite inject_Z_plus in Hlt. change (inject_Z 1) with 1%Q in Hlt. lra.
  - assert (0 ≤ Qfloor q)%Z as Hz.
    { change 0%Z with (Qfloor 0). by apply Qfloor_resp_le. }
    assert (Qfloor q ≤ 2 ^ 53)%Z as Hz'.
    { rewrite <-(Qfloor_Z (2 ^ 53)). by apply Qfloor_resp_le. }
    lia.
Qed.

Lemma Fl_positions_entry rnd sort g r k p :
  rounding rnd → sortContract sort → Fl.computeLayout rnd sort g = Some r →
  (k, p) ∈ positions r →
  ∃ lx nodeY, p = mkPos (nodeMapOf g) nodeY lx k ∧ (PAD <= y p)%Q ∧
              (PAD <= x p)%Q ∧ w p = NODE_W ∧
              ∃ cw, canvasW r = Some cw ∧ (x p + w p <= cw - PAD)%Q.
Proof.
  intros Hrnd Hc Hr Hin. destruct (decide (nodes g = [])) as [Hnil|Hne].
  { unfold Fl.computeLayout in Hr. rewrite Hnil in Hr. simpl in Hr. injection Hr as <-.
    by apply elem_of_nil in Hin. }
  destruct (Fl_computeLayout_spec rnd Hrnd sort g Hc Hne) as (st & s & _ & _ & Hok & _ & Hr').
  rewrite Hr' in Hr. injection Hr as <-. cbn [positions canvasW Fl.layoutOf] in *.
  pose proof (Fl_stagesOK_NoDup_rows rnd g st s Hok) as Hnd.
  destruct Hok as (_ & _ & _ & _ & Hlen & _ & _ & _ & Hpad & Hgap & HY).
  assert (JSMap.get (posRows (nodeMapOf g) (st_nodeY s) (st_layerNodes s)) k = Some p)
    as Hget by (apply JSMap_elem_of_get; [by rewrite posRows_keys|done]).
  destruct (posRows_entry _ _ _ k p Hnd Hget) as (l & ids & Hl & Hk & ->).
  destruct (Hgap l ids Hl) as [_ Hdom]. destruct (Hdom k Hk) as [yk Hyk].
  assert (nat2Q l <= nat2Q (st_maxLayer s))%Q as Hl'.
  { apply nat2Q_le. apply lookup_lt_Some in Hl. lia. }
  assert (0 <= nat2Q l)%Q as Hl0 by (apply (nat2Q_le 0); lia).
  eexists _, _. split; [done|]. cbn [mkPos x y w]. rewrite HY, Hyk. cbn [default].
  split_and!; [by eapply Hpad| |done|].
  - unfold PAD, H_STEP. lra.
  - eexists. split; [done|]. unfold PAD, H_STEP, NODE_W. lra.
Qed.

(** With plain types the canvas height is the largest rounded bottom plus
    [PAD], rounded. *)
Lemma Fl_canvasH rnd (Hrnd : rounding rnd) sort g r :
  sortContract sort → plainTypes g → nodes g ≠ [] →
  Fl.computeLayout rnd sort g = Some r →
  ∃ m : Q, canvasH r = Some (Fin (rnd (m + PAD)%Q)) ∧
       (∃ p hq, p ∈ JSMap.values (positions r) ∧ h p = Px hq ∧ m = rnd (y p + hq)%Q) ∧
       (∀ p hq, p ∈ JSMap.values (positions r) → h p = Px hq → (rnd (y p + hq) <= m)%Q).
Proof.
  intros Hc Hplain Hne Hr.
  assert (∀ p, p ∈ JSMap.values (positions r) → ∃ hq, h p = Px hq) as Hpx.
  { intros p Hp. unfold JSMap.values in Hp.
    apply list_elem_of_fmap in Hp as ([k p'] & -> & Hin).
    destruct (Fl_positions_entry rnd sort g r k p' Hrnd Hc Hr Hin) as (lx & nodeY & -> & _).
    destruct (mkPos_plain g nodeY lx k Hplain) as (hq & Hh & _). eauto. }
  assert (Fl.bottoms rnd (positions r) =
          Fin <$> ((λ p, rnd (y p + pxOf (h p))%Q) <$> JSMap.values (positions r))) as Hb.
  { unfold Fl.bottoms. rewrite <-list_fmap_compose. apply list_fmap_ext.
    intros i p Hi. destruct (Hpx p) as (hq & Hh); [by eapply list_elem_of_lookup_2|].
    unfold Fl.bottom. cbn [compose]. by rewrite Hh. }
  destruct (Fl_computeLayout_spec rnd Hrnd sort g Hc Hne) as (st & s & _ & _ & Hok & Hpos & Hr').
  rewrite Hr' in Hr. injection Hr as <-. cbn [positions canvasH Fl.layoutOf] in *.
  destruct (Math_max_spec ((λ p, rnd (y p + pxOf (h p))%Q) <$>
              JSMap.values (posRows (nodeMapOf g) (st_nodeY s) (st_layerNodes s))))
    as (m & Hm & Hin & Hub).
  { unfold JSMap.values. intros Hnil. by apply fmap_nil_inv, fmap_nil_inv in Hnil. }
  exists m. rewrite Hb, Hm. split_and!; [done| |].
  - apply list_elem_of_fmap in Hin as (p & -> & Hp). destruct (Hpx p Hp) as (hq & Hh).
    exists p, hq. rewrite Hh. done.
  - intros p hq Hp Hh. specialize (Hub (rnd (y p + pxOf (h p))%Q)). rewrite Hh in Hub.
    apply Hub. apply list_elem_of_fmap. exists p. by rewrite Hh.
Qed.

(** ** The exact computation is the floating-point one without rounding *)

Lemma foldM_ext {S A} (f f' : S → A → option S) l s :
  (∀ s a, f s a = f' s a) → foldM f s l = foldM f' s l.
Proof.
  intros Heq. revert s. induction l as [|a l IH]; intros s; cbn [foldM]; [done|].
  rewrite Heq. destruct (f' s a); [apply IH|done].
Qed.

Lemma Fl_baryPos_exact a nbrs prevPos :
  Fl.baryPos (λ q, q) a nbrs prevPos = baryPos a nbrs prevPos.
Proof.
  unfold Fl.baryPos, baryPos.
  destruct (decide (length (default [] (nbrs !! a)) = 0)); [done|].
  assert (∀ l (s c : nat),
    foldl (λ '(sum, count) nid,
             match prevPos !! nid with
             | Some p => ((sum + nat2Q p)%Q, count + 1)
             | None => (sum, count)
             end) (nat2Q s, c) l =
    prod_map nat2Q (λ c, c)
      (foldl (λ '(sum, count) nid,
               match prevPos !! nid with
               | Some p => (sum + p, count + 1)
               | None => (sum, count)
               end) (s, c) l)) as Hfold.
  { induction l as [|k l IH]; intros s c; [done|]. cbn [foldl].
    destruct (prevPos !! k) as [p|]; [|apply IH].
    rewrite <-IH. do 2 f_equal. unfold nat2Q, Qplus, inject_Z. cbn [Qnum Qden].
    f_equal. lia. }
  change 0%Q with (nat2Q 0). rewrite Hfold.
  destruct (foldl _ _ _) as [sum count]. done.
Qed.

Lemma sortInsert_ext cmp cmp' a l :
  (∀ a b, cmp a b = cmp' a b) → sortInsert cmp a l = sortInsert cmp' a l.
Proof.
  intros Heq. induction l as [|b l IH]; [done|]. simpl. by rewrite Heq, IH.
Qed.

Lemma Array_sort_ext cmp cmp' l :
  (∀ a b, cmp a b = cmp' a b) → Array_sort cmp l = Array_sort cmp' l.
Proof.
  intros Heq. unfold Array_sort. induction l as [|a l IH]; [done|]. simpl.
  rewrite IH. by apply sortInsert_ext.
Qed.

Lemma Fl_sortLayer_exact nbrs adj ids :
  Fl.sortLayer (λ q, q) Array_sort nbrs adj ids = sortLayer nbrs adj ids.
Proof.
  unfold Fl.sortLayer, sortLayer. apply Array_sort_ext. intros a b.
  unfold Fl.baryCmp, baryCmp. by rewrite !Fl_baryPos_exact.
Qed.

Lemma Fl_minimizeCrossings_exact pred succ (maxL : nat) ln :
  Fl.minimizeCrossings (λ q, q) Array_sort pred succ maxL ln =
    minimizeCrossings pred succ maxL ln.
Proof.
  assert (∀ ls s, foldM (Fl.forwardStep (λ q, q) Array_sort pred) s ls =
                  foldM (forwardStep pred) s ls) as Hfwd.
  { intros ls s. apply foldM_ext. intros s' l. unfold Fl.forwardStep, forwardStep.
    destruct (s' !! (l - 1)); [|done]. simpl. destruct (s' !! l); [|done]. simpl.
    by rewrite Fl_sortLayer_exact. }
  assert (∀ ls s, foldM (Fl.backwardStep (λ q, q) Array_sort succ) s ls =
                  foldM (backwardStep succ) s ls) as Hbwd.
  { intros ls s. apply foldM_ext. intros s' l. unfold Fl.backwardStep, backwardStep.
    destruct (s' !! (l + 1)); [|done]. simpl. destruct (s' !! l); [|done]. simpl.
    by rewrite Fl_sortLayer_exact. }
  unfold Fl.minimizeCrossings, minimizeCrossings, Fl.forwardPass, forwardPass,
    Fl.backwardPass, backwardPass.
  rewrite Hfwd. destruct (foldM (forwardStep pred) ln (seq 1 maxL)) as [ln1|]; [|done].
  simpl. rewrite Hbwd. destruct (foldM (backwardStep succ) ln1 _) as [ln2|]; [|done].
  simpl. apply Hfwd.
Qed.

(** With the identity as rounding and the insertion sort, the
    floating-point layout is the layout on exact numbers. *)
Lemma Fl_computeLayout_exact g :
  Fl.computeLayout (λ q, q) Array_sort g = computeLayout g.
Proof.
  unfold Fl.computeLayout, computeLayout. destruct (decide (length (nodes g) = 0)); [done|].
  unfold Fl.stages, stages. destruct (buildAdj g) as [pred succ].
  destruct (assignLayers g) as [lay|]; [|done]. simpl.
  destruct (groupByLayer _ lay) as [ln0|]; [|done]. simpl.
  rewrite Fl_minimizeCrossings_exact.
  destruct (minimizeCrossings pred succ _ ln0) as [ln|]; [|done]. simpl.
  change (Fl.topDown (λ q, q)) with topDown.
  destruct (topDown pred _ ln) as [nodeY0|]; [|done]. simpl.
  change (Fl.bottomUp (λ q, q)) with bottomUp.
  destruct (bottomUp succ _ ln nodeY0) as [nodeY|]; [|done]. simpl.
  unfold Fl.finish, finish. destruct (buildPositions _ _ _ _) as [positions|]; [|done].
  simpl. do 2 f_equal. change (Fl.bottom (λ q, q)) with bottom.
  by destruct (Num_add _ _).
Qed.

(** ** The second sort meets the contract *)

Lemma insertLeft_perm cmp a l : insertLeft cmp a l ≡ₚ a :: l.
Proof.
  induction l as [|b l IH]; simpl; [done|].
  destruct (Num_neg (cmp a b)); [done|].
  rewrite IH. apply Permutation_swap.
Qed.

Lemma insertionSortLeft_snoc cmp l a :
  insertionSortLeft cmp (l ++ [a]) = insertLeft cmp a (insertionSortLeft cmp l).
Proof. unfold insertionSortLeft. by rewrite foldl_app. Qed.

Lemma insertionSortLeft_perm cmp l : insertionSortLeft cmp l ≡ₚ l.
Proof.
  induction l as [|a l IH] using rev_ind; [done|].
  rewrite insertionSortLeft_snoc, insertLeft_perm, IH.
  by rewrite Permutation_app_comm.
Qed.

Section sort_left.
Context (key : string → Num).
Hypothesis key_regular : ∀ a, regular (key a).

Lemma keyLe_of_neg a b : Num_neg (keyCmp key a b) = true → keyLe key a b.
Proof.
  unfold keyLe, keyCmp.
  destruct (key_regular a) as [->|[p ->]], (key_regular b) as [->|[q ->]];
    simpl; try done.
  rewrite Qltb_lt, Qltb_ge. intros H. lra.
Qed.

Lemma keyLe_of_not_neg a b : Num_neg (keyCmp key a b) = false → keyLe key b a.
Proof.
  unfold keyLe, keyCmp.
  destruct (key_regular a) as [->|[p ->]], (key_regular b) as [->|[q ->]];
    simpl; try done.
  rewrite !Qltb_ge. intros H. lra.
Qed.

Lemma insertLeft_sorted a l :
  StronglySorted (keyLe key) l → StronglySorted (keyLe key) (insertLeft (keyCmp key) a l).
Proof.
  induction 1 as [|b l Hs IH Hb]; simpl.
  - repeat constructor.
  - destruct (Num_neg (keyCmp key a b)) eqn:Hc.
    + constructor; [by constructor|]. constructor; [by apply keyLe_of_neg|].
      apply Forall_forall. intros x Hx.
      eapply (keyLe_trans key key_regular); [by apply keyLe_of_neg|].
      by eapply Forall_forall in Hb.
    + constructor; [done|]. apply Forall_forall. intros x Hx.
      rewrite insertLeft_perm in Hx. apply elem_of_cons in Hx as [->|Hx].
      * by apply keyLe_of_not_neg.
      * by eapply Forall_forall in Hb.
Qed.

Lemma insertionSortLeft_sorted l :
  StronglySorted (keyLe key) (insertionSortLeft (keyCmp key) l).
Proof.
  induction l as [|a l IH] using rev_ind; [constructor|].
  rewrite insertionSortLeft_snoc. by apply insertLeft_sorted.
Qed.

(** Where the insertion puts the new element: in front of a suffix of
    elements whose keys are strictly larger, when the list is sorted. *)
Lemma insertLeft_split a l :
  StronglySorted (keyLe key) l →
  ∃ l1 l2, l = l1 ++ l2 ∧ insertLeft (keyCmp key) a l = l1 ++ a :: l2 ∧
           ∀ x, x ∈ l2 → ¬ Num_equiv (key x) (key a).
Proof.
  induction 1 as [|b l Hs IH Hb]; simpl.
  - exists [], []. split_and!; [done|done|by intros ? ?%elem_of_nil].
  - destruct (Num_neg (keyCmp key a b)) eqn:Hc.
    + exists [], (b :: l). split_and!; [done|done|].
      intros x Hx Heq.
      assert (keyLe key b x) as Hbx.
      { apply elem_of_cons in Hx as [->|Hx]; [|by eapply Forall_forall in Hb].
        unfold keyLe, keyCmp. destruct (key_regular b) as [->|[q ->]]; simpl; [done|].
        apply Qltb_ge. lra. }
      unfold keyLe, keyCmp in *.
      destruct (key a) as [p| | |], (key b) as [q| | |], (key x) as [r| | |];
        simpl in *; try done.
      rewrite Qltb_lt in Hc. rewrite Qltb_ge in Hbx. lra.
    + destruct IH as (l1 & l2 & -> & -> & Hl2).
      exists (b :: l1), l2. done.
Qed.

Lemma insertionSortLeft_stable l a b :
  before a b l → Num_equiv (key a) (key b) →
  before a b (insertionSortLeft (keyCmp key) l).
Proof.
  induction l as [|x l IH] using rev_ind; intros Hbef Heq.
  { by destruct Hbef as (? & ? & _ & ? & _). }
  rewrite insertionSortLeft_snoc.
  destruct (insertLeft_split x (insertionSortLeft (keyCmp key) l))
    as (l1 & l2 & Hl & -> & Hl2); [apply insertionSortLeft_sorted|].
  destruct Hbef as (i & j & Hij & Hi & Hj).
  assert (i < length l) as Hil.
  { apply lookup_lt_Some in Hj. rewrite length_app in Hj. simpl in Hj. lia. }
  rewrite lookup_app_l in Hi by done.
  destruct (decide (j < length l)) as [Hjl|Hjl].
  - rewrite lookup_app_l in Hj by done.
    apply before_insert_middle. rewrite <-Hl. apply IH; [|done].
    exists i, j. done.
  - rewrite lookup_app_r in Hj by lia.
    assert (j - length l = 0) as Hz.
    { apply lookup_lt_Some in Hj. simpl in Hj. lia. }
    rewrite Hz in Hj. injection Hj as ->.
    assert (a ∈ l1 ++ l2) as Ha.
    { rewrite <-Hl, insertionSortLeft_perm. by eapply list_elem_of_lookup_2. }
    apply elem_of_app in Ha as [Ha|Ha]; [|by destruct (Hl2 a Ha)].
    apply list_elem_of_lookup in Ha as [k Hk].
    exists k, (length l1). split_and!.
    + by apply lookup_lt_Some in Hk.
    + by rewrite lookup_app_l by (by eapply lookup_lt_Some).
    + by rewrite list_lookup_middle.
Qed.
End sort_left.

Lemma insertionSortLeft_contract : sortContract insertionSortLeft.
Proof.
  intros key l Hreg Hnd. split_and!.
  - apply insertionSortLeft_perm.
  - by apply insertionSortLeft_sorted.
  - intros a b. by apply insertionSortLeft_stable.
Qed.

Lemma plainTypes_Forall g :
  Forall (λ nd, type nd ∉ objectPrototypeNames) (nodes g) → plainTypes g.
Proof. intros H nd Hnd. by eapply Forall_forall in H. Qed.

(** The graphs made from the compiler's format have the four types
    [tensor], [incast], [outcast] and [op] only. *)
Lemma parseFunc_plainTypes func : plainTypes (parseFunc func).
Proof.
  intros nd Hnd. rewrite parseFunc_nodes, elem_of_app, !list_elem_of_fmap in Hnd.
  destruct Hnd as [(t & -> & Ht)|(op & -> & Hop)].
  - destruct (tensorNode_type (list_to_set (incasts func)) (list_to_set (outcasts func)) t)
      as [-> |[-> | ->]]; apply (bool_decide_unpack _); vm_compute; exact I.
  - apply (bool_decide_unpack _). vm_compute. exact I.
Qed.

(** * The claims of the specification *)

(** C2. Two runs of the layout on the same input (same nodes in the same
    order, same edges in the same order) return the same value, position
    map and canvas size included, also when the two runs sort with
    different algorithms.  What is left open by the language is the
    algorithm of [Array.prototype.sort]; the arithmetic is that of
    IEEE-754 doubles in every engine, and a [Map] is read in insertion
    order.  The theorem is about the layout in floating point, for any
    rounding [rnd] with the properties in [rounding] and any two sorts
    that meet the contract of the language ([sortContract]): a row has
    one sorted and stable permutation only. *)
Theorem layout_deterministic (rnd : Q → Q)
    (sort1 sort2 : (string → string → Num) → list string → list string)
    (g : Graph) :
  rounding rnd → sortContract sort1 → sortContract sort2 →
  ∃ r, Fl.computeLayout rnd sort1 g = Some r ∧ Fl.computeLayout rnd sort2 g = Some r.
Proof.
  intros Hrnd H1 H2.
  destruct (Fl_computeLayout_total rnd Hrnd sort1 g H1) as [r Hr].
  exists r. split; [done|].
  by rewrite (Fl_computeLayout_sort rnd sort2 g H2), <-(Fl_computeLayout_sort rnd sort1 g H1).
Qed.

Lemma layout_deterministic_witness :
  ∃ r, Fl.computeLayout round64 Array_sort gapGraph = Some r ∧
       Fl.computeLayout round64 insertionSortLeft gapGraph = Some r.
Proof.
  apply (layout_deterministic round64 Array_sort insertionSortLeft gapGraph).
  - apply rounding_round64.
  - apply Array_sort_contract.
  - apply insertionSortLeft_contract.
Defined.

(** C3 (as stated, refuted).  In doubles the distance can be smaller than
    [V_STEP].  In [gapGraph] the node T0 is placed at the mean 620/3 of
    its three predecessors, rounded to a double; T1 follows it at the
    cursor, the double nearest to that y plus 220, which is the smaller
    neighbour of the exact sum: the two y differ by 220 - 2^-45. *)
Lemma gap_below_V_STEP :
  ¬ (∀ g r l i ids a b pa pb,
       Fl.computeLayout round64 Array_sort g = Some r →
       layerNodes r !! l = Some ids → ids !! i = Some a → ids !! S i = Some b →
       JSMap.get (positions r) a = Some pa → JSMap.get (positions r) b = Some pb →
       (y pa + V_STEP <= y pb)%Q).
Proof.
  intros H.
  destruct (JSMap.get (positions gapLayout) "T0") as [pa|] eqn:Hpa; [|done].
  destruct (JSMap.get (positions gapLayout) "T1") as [pb|] eqn:Hpb; [|done].
  pose proof (H gapGraph gapLayout 2 0 ["T0"; "T1"]%string "T0"%string "T1"%string pa pb)
    as Hle.
  vm_compute in Hpa, Hpb. injection Hpa as <-. injection Hpb as <-.
  assert (¬ (7271436898358613 # 35184372088832) + V_STEP
              <= 3752999689475413 # 8796093022208)%Q as Hgap.
  { vm_compute. intros Hgt. by apply Hgt. }
  apply Hgap, Hle; try done.
Qed.

(** C3 (amended).  In the layout computed in doubles, two nodes that are
    consecutive in a row of [layerNodes] both have a position, and the y
    of the second is at least the cursor the first one left: its y plus
    [V_STEP], rounded.  When that sum is at most [2^53], the second y
    exceeds the first by more than [V_STEP - 1].  With the identity as
    rounding the first inequality is the distance [V_STEP] of exact
    arithmetic. *)
Theorem consecutive_nodes_gap (rnd : Q → Q)
    (sort : (string → string → Num) → list string → list string)
    (g : Graph) (r : Layout) (l i : nat) (ids : list string) (a b : string) :
  rounding rnd → sortContract sort →
  Fl.computeLayout rnd sort g = Some r →
  layerNodes r !! l = Some ids → ids !! i = Some a → ids !! S i = Some b →
  ∃ pa pb,
    JSMap.get (positions r) a = Some pa ∧ JSMap.get (positions r) b = Some pb ∧
    (rnd (y pa + V_STEP) <= y pb)%Q ∧
    ((y pa + V_STEP <= inject_Z (2 ^ 53))%Q → (y pa + V_STEP - 1 < y pb)%Q).
Proof.
  intros Hrnd Hc Hr Hl Ha Hb.
  assert (nodes g ≠ []) as Hne.
  { intros Hnil. unfold Fl.computeLayout in Hr. rewrite Hnil in Hr. simpl in Hr.
    injection Hr as <-. done. }
  destruct (Fl_computeLayout_spec rnd Hrnd sort g Hc Hne) as (st & s & _ & _ & Hok & _ & Hr').
  rewrite Hr' in Hr. injection Hr as <-. cbn [layerNodes positions Fl.layoutOf] in *.
  pose proof (Fl_stagesOK_NoDup_rows rnd g st s Hok) as Hnd.
  destruct Hok as (_ & _ & _ & _ & _ & _ & _ & _ & Hpad & Hgap & HY).
  destruct (Hgap l ids Hl) as [Hg _].
  destruct (Hg i a b Ha Hb) as (ya & yb & Hya & Hyb & Hle).
  eexists _, _. split_and!.
  - eapply posRows_get; [done|done|by eapply list_elem_of_lookup_2].
  - eapply posRows_get; [done|done|by eapply list_elem_of_lookup_2].
  - cbn [mkPos y]. rewrite HY, Hya, Hyb. done.
  - cbn [mkPos y]. rewrite HY, Hya, Hyb. cbn [default]. unfold Datatypes.id. intros H53.
    pose proof (Hpad a ya Hya) as Hpa.
    assert (0 <= ya + V_STEP)%Q as H0 by (unfold PAD, V_STEP in *; lra).
    pose proof (rounding_floor rnd _ Hrnd H0 H53). lra.
Qed.

Lemma consecutive_nodes_gap_witness :
  ∃ pa pb,
    JSMap.get (positions gapLayout) "T0" = Some pa ∧
    JSMap.get (positions gapLayout) "T1" = Some pb ∧
    (round64 (y pa + V_STEP) <= y pb)%Q ∧
    ((y pa + V_STEP <= inject_Z (2 ^ 53))%Q → (y pa + V_STEP - 1 < y pb)%Q).
Proof.
  apply (consecutive_nodes_gap round64 Array_sort gapGraph gapLayout 2 0
           ["T0"; "T1"]%string).
  - apply rounding_round64.
  - apply Array_sort_contract.
  - vm_compute. reflexivity.
  - reflexivity.
  - reflexivity.
  - reflexivity.
Defined.




(** C5. When the node ids are pairwise distinct, the keys of the returned
    position map are a permutation of the node ids: every node has exactly
    one entry and there is no other entry.  The graph may contain cycles. *)
Theorem positions_one_entry_per_node (g : Graph) (r : Layout) :
  NoDup (nodeIds g) → computeLayout g = Some r →
  JSMap.keys (positions r) ≡ₚ nodeIds g ∧ NoDup (JSMap.keys (positions r)).
Proof.
  intros Hids Hr.
  assert (JSMap.keys (positions r) ≡ₚ nodeIds g) as Hperm; [|by rewrite Hperm].
  destruct (decide (nodes g = [])) as [Hnil|Hne].
  { unfold computeLayout in Hr. unfold nodeIds. rewrite Hnil in *. simpl in Hr.
    by injection Hr as <-. }
  destruct (computeLayout_spec g Hne) as (st & s & m & _ & Hsafe & _ & _ & Hok & _ & Hr').
  rewrite Hr' in Hr. injection Hr as <-. cbn [positions layoutOf].
  rewrite posRows_keys.
  destruct Hok as (_ & _ & Hlay & _ & _ & _ & Hperm & Hnd & _).
  rewrite Hperm. apply NoDup_Permutation; [done|done|].
  intros k. rewrite Hlay. by apply layer_keys_nodeIds.
Qed.

Lemma positions_one_entry_per_node_witness :
  JSMap.keys (positions cycleLayout) ≡ₚ nodeIds cycleGraph ∧
  NoDup (JSMap.keys (positions cycleLayout)).
Proof.
  apply (positions_one_entry_per_node cycleGraph cycleLayout); [|reflexivity].
  apply (bool_decide_unpack _). vm_compute. exact I.
Defined.

(** C6 (as stated, refuted).  For the graph without nodes the returned
    object has no [canvasW] and no [canvasH]: reading them gives
    [undefined], not a number. *)
Lemma empty_graph_canvas_undefined :
  ¬ (∀ r, computeLayout emptyGraph = Some r →
          is_Some (canvasW r) ∧ is_Some (canvasH r)).
Proof.
  intros H. destruct (H emptyLayout) as [[cw Hcw] _]; [reflexivity|].
  discriminate Hcw.
Qed.

(** C6 (amended).  For a graph without nodes the layout returns, without
    failing, an empty position map, an empty row list and [maxLayer = 0];
    [canvasW] and [canvasH] are absent from the returned object. *)
Theorem empty_graph_layout (g : Graph) :
  nodes g = [] →
  computeLayout g = Some emptyLayout ∧
  positions emptyLayout = [] ∧ canvasW emptyLayout = None ∧ canvasH emptyLayout = None.
Proof.
  intros Hnil. unfold computeLayout. rewrite Hnil. done.
Qed.

Lemma empty_graph_layout_witness :
  computeLayout emptyGraph = Some emptyLayout ∧
  positions emptyLayout = [] ∧ canvasW emptyLayout = None ∧ canvasH emptyLayout = None.
Proof. apply (empty_graph_layout emptyGraph). reflexivity. Defined.

(** C7. An edge whose source or target is not the id of a node is skipped
    by the adjacency loop: the layout succeeds, the adjacency maps are
    those of the graph without that edge, and so is the returned layout. *)
Theorem dangling_edge_dropped (g : Graph) (e : Edge) (es1 es2 : list Edge) :
  edges g = es1 ++ e :: es2 →
  source e ∉ nodeIds g ∨ target e ∉ nodeIds g →
  is_Some (computeLayout g) ∧
  buildAdj g = buildAdj (withoutEdge g es1 es2) ∧
  computeLayout g = computeLayout (withoutEdge g es1 es2).
Proof.
  intros He Hdangling.
  assert (¬ validEdge g e) as Hinv by (intros [? ?]; tauto).
  pose proof (buildAdj_withoutEdge g e es1 es2 He Hinv) as Hadj.
  split_and!; [apply computeLayout_total | done |].
  by apply computeLayout_ext.
Qed.

Lemma dangling_edge_dropped_witness :
  is_Some (computeLayout danglingGraph) ∧
  buildAdj danglingGraph = buildAdj (withoutEdge danglingGraph [] [mkEdge "A" "B"]) ∧
  computeLayout danglingGraph =
    computeLayout (withoutEdge danglingGraph [] [mkEdge "A" "B"]).
Proof.
  apply (dangling_edge_dropped danglingGraph (mkEdge "X" "A") [] [mkEdge "A" "B"]).
  - reflexivity.
  - left. apply (bool_decide_unpack _). vm_compute. exact I.
Defined.

(** C10. The backward refinement pass changes no y: it returns the y map
    of the top-down pass unchanged, so the y map used for the positions
    is that of the top-down pass and the returned layout is the one the
    top-down pass alone gives. *)
Theorem backward_pass_changes_nothing (g : Graph) (s : Stages) :
  stages g = Some s →
  bottomUp (st_succ s) (st_maxLayer s) (st_layerNodes s) (st_topDownY s)
    = Some (st_topDownY s) ∧
  st_nodeY s = st_topDownY s ∧
  computeLayout g = computeLayoutTopDownOnly g.
Proof.
  intros Hs'. destruct (stages_spec g) as (st & s' & _ & _ & _ & Hs & Hok).
  rewrite Hs in Hs'. injection Hs' as ->.
  pose proof Hok as (_ & _ & _ & _ & Hlen & _ & _ & _ & Hpad & Hgap & HY).
  split_and!; [|done|].
  - apply bottomUp_id; [done|done|]. intros l ids Hl. by apply (Hgap l ids Hl).
  - unfold computeLayout, computeLayoutTopDownOnly.
    destruct (decide (length (nodes g) = 0)); [done|].
    rewrite Hs. simpl. by rewrite HY.
Qed.

Lemma backward_pass_changes_nothing_witness :
  bottomUp (st_succ diamondStages) (st_maxLayer diamondStages)
    (st_layerNodes diamondStages) (st_topDownY diamondStages)
    = Some (st_topDownY diamondStages) ∧
  st_nodeY diamondStages = st_topDownY diamondStages ∧
  computeLayout diamondGraph = computeLayoutTopDownOnly diamondGraph.
Proof.
  apply (backward_pass_changes_nothing diamondGraph diamondStages).
  vm_compute. reflexivity.
Defined.

(** C8 (as stated, refuted).  In the graph A -> B, B -> C, C -> B the node
    B is never enqueued (its in-degree goes from 2 to 1 and stays there),
    yet its layer is 1, the layer proposed when A was dequeued, not the
    fallback 0. *)
Lemma cycle_node_keeps_proposed_layer :
  ¬ (∀ st lay n, kahn cycleGraph = Some st → assignLayers cycleGraph = Some lay →
                 n ∈ nodeIds cycleGraph → n ∉ queue st → inDeg st !! n ≠ Some 0%Z →
                 JSMap.get lay n = Some 0).
Proof.
  intros H.
  assert (JSMap.get cycleLayers "B" = Some 0) as Hb; [|discriminate Hb].
  apply (H cycleState).
  - vm_compute. reflexivity.
  - vm_compute. reflexivity.
  - apply (bool_decide_unpack _). vm_compute. exact I.
  - apply (bool_decide_unpack _). vm_compute. exact I.
  - vm_compute. discriminate.
Qed.

(** C8 (amended).  On every graph, cyclic or not, the traversal ends and
    the layout returns a value.  A node that has no layer when the
    traversal ends gets layer 0; a node that has one keeps it, whether it
    was ever enqueued or not.  Every node has an entry in the position
    map. *)
Theorem fallback_layer_and_positions (g : Graph) :
  ∃ st lay r,
    kahn g = Some st ∧ head st = length (queue st) ∧
    assignLayers g = Some lay ∧ computeLayout g = Some r ∧
    (∀ n, n ∈ nodeIds g → JSMap.get (layer st) n = None → JSMap.get lay n = Some 0) ∧
    (∀ n l, JSMap.get (layer st) n = Some l → JSMap.get lay n = Some l) ∧
    (∀ n, n ∈ nodeIds g → is_Some (JSMap.get (positions r) n)).
Proof.
  destruct (assignLayers_total g) as (st & Hk & Hsafe & Hh & Hlay).
  destruct (computeLayout_total g) as [r Hr].
  exists st, (fallback (nodes g) (layer st)), r. split_and!; try done.
  - intros n Hn Hnone. rewrite fallback_get, Hnone. by rewrite decide_True.
  - intros n l Hl. by rewrite fallback_get, Hl.
  - intros n Hn. destruct (decide (nodes g = [])) as [Hnil|Hne].
    { unfold nodeIds in Hn. rewrite Hnil in Hn. by apply elem_of_nil in Hn. }
    destruct (computeLayout_spec g Hne)
      as (st' & s & m & Hk' & _ & _ & _ & Hok & _ & Hr').
    rewrite Hr' in Hr. injection Hr as <-. cbn [positions layoutOf].
    apply JSMap_get_is_Some. rewrite posRows_keys.
    destruct Hok as (_ & _ & Hl & _ & _ & _ & Hperm & _).
    rewrite Hperm, Hl. rewrite Hk in Hk'. injection Hk' as <-.
    by apply layer_keys_nodeIds.
Qed.

Lemma fallback_layer_and_positions_witness :
  ∃ st lay r,
    kahn cycleGraph = Some st ∧ head st = length (queue st) ∧
    assignLayers cycleGraph = Some lay ∧ computeLayout cycleGraph = Some r ∧
    (∀ n, n ∈ nodeIds cycleGraph → JSMap.get (layer st) n = None →
          JSMap.get lay n = Some 0) ∧
    (∀ n l, JSMap.get (layer st) n = Some l → JSMap.get lay n = Some l) ∧
    (∀ n, n ∈ nodeIds cycleGraph → is_Some (JSMap.get (positions r) n)).
Proof. apply (fallback_layer_and_positions cycleGraph). Defined.

(** C9. In every barycenter sweep a row [ids] is replaced by
    [sortLayer neighbors adjacent ids], where [adjacent] is the row the
    sweep looks at (the previous row with the predecessors in a forward
    sweep, the next row with the successors in the backward sweep).  A
    node none of whose neighbours is in [adjacent] has barycenter
    [Infinity]; in the sorted row every node with barycenter [Infinity]
    comes after every node with a finite barycenter; and two nodes with
    equal barycenters, finite or both [Infinity], keep the order they had
    before the sort. *)
Theorem barycenter_sweep_order (neighbors : gmap string (list string))
    (adjacent ids : list string) :
  (∀ pred ln l ln', forwardStep pred ln l = Some ln' →
     ∃ prev row, ln !! (l - 1) = Some prev ∧ ln !! l = Some row ∧
                 ln' = <[l := sortLayer pred prev row]> ln) ∧
  (∀ succ ln l ln', backwardStep succ ln l = Some ln' →
     ∃ next row, ln !! (l + 1) = Some next ∧ ln !! l = Some row ∧
                 ln' = <[l := sortLayer succ next row]> ln) ∧
  sortLayer neighbors adjacent ids ≡ₚ ids ∧
  (∀ a, (∀ n, n ∈ default [] (neighbors !! a) → n ∉ adjacent) →
        baryKey neighbors adjacent a = Infinity) ∧
  (∀ a b q, a ∈ ids → b ∈ ids →
     baryKey neighbors adjacent a = Infinity → baryKey neighbors adjacent b = Fin q →
     before b a (sortLayer neighbors adjacent ids) ∧
     ¬ before a b (sortLayer neighbors adjacent ids)) ∧
  (∀ a b, before a b ids →
     Num_equiv (baryKey neighbors adjacent a) (baryKey neighbors adjacent b) →
     before a b (sortLayer neighbors adjacent ids)).
Proof.
  assert (∀ a, regular (baryKey neighbors adjacent a)) as Hreg
    by (intros a; apply baryPos_regular).
  pose proof (Array_sort_sorted (baryKey neighbors adjacent) Hreg ids) as Hsorted.
  split_and!.
  - intros pred ln l ln'. unfold forwardStep.
    destruct (ln !! (l - 1)) as [prev|]; [|done]. simpl.
    destruct (ln !! l) as [row|]; [|done]. simpl. intros [= <-]. eauto.
  - intros succ ln l ln'. unfold backwardStep.
    destruct (ln !! (l + 1)) as [next|]; [|done]. simpl.
    destruct (ln !! l) as [row|]; [|done]. simpl. intros [= <-]. eauto.
  - apply sortLayer_perm.
  - intros a. apply baryPos_no_neighbors.
  - intros a b q Ha Hb Hka Hkb.
    assert (¬ before a b (sortLayer neighbors adjacent ids)) as Hnot.
    { intros (i & j & Hij & Hi & Hj).
      pose proof (StronglySorted_lookup_lt _ _ _ _ _ _ Hsorted Hij Hi Hj) as Hle.
      unfold keyLe, keyCmp in Hle. by rewrite Hka, Hkb in Hle. }
    split; [|done].
    rewrite <-(sortLayer_perm neighbors adjacent ids) in Ha, Hb.
    apply list_elem_of_lookup in Ha as [i Hi]. apply list_elem_of_lookup in Hb as [j Hj].
    destruct (lt_eq_lt_dec i j) as [[Hlt|Heq]|Hgt].
    + exfalso. apply Hnot. by exists i, j.
    + subst j. rewrite Hi in Hj. injection Hj as ->. congruence.
    + by exists j, i.
  - intros a b Hbef Heq.
    by apply (Array_sort_stable (baryKey neighbors adjacent)).
Qed.

Lemma barycenter_sweep_order_witness :
  before "B" "C" (sortLayer (buildAdj diamondGraph).1 ["A"%string] ["B"; "C"]%string).
Proof.
  apply (barycenter_sweep_order (buildAdj diamondGraph).1 ["A"%string] ["B"; "C"]%string).
  - exists 0, 1. split_and!; [lia|reflexivity|reflexivity].
  - vm_compute. reflexivity.
Defined.

(** C1 (as stated, refuted).  The conditions of the claim, no cycle and
    no dangling edge, do not exclude a node list that declares an id
    twice.  In [dupGraph] the id A is declared twice and so is dequeued
    twice: C is enqueued before B2 is, D gets layer 2 from C while C has
    layer 2, and C is raised to layer 3 afterwards.  The layer of D is not
    one more than that of its predecessor C. *)
Lemma repeated_id_breaks_layer_rule :
  ¬ (∀ g, edgesValid g → acyclic g →
          ∃ lay, assignLayers g = Some lay ∧
            ∀ n, n ∈ nodeIds g →
              ∃ l, JSMap.get lay n = Some l ∧
                   l = max_list ((λ p, layerOf lay p + 1) <$> preds g n)).
Proof.
  intros H. destruct (H dupGraph) as (lay & Hlay & Hrule).
  - apply edgesValid_Forall. apply (bool_decide_unpack _). vm_compute. exact I.
  - apply (acyclic_of_rank _ dupRank). apply (bool_decide_unpack _).
    vm_compute. exact I.
  - assert (lay = dupLayers) as -> by (vm_compute in Hlay; by injection Hlay as <-).
    destruct (Hrule "D"%string) as (l & Hl & Hmax).
    + apply (bool_decide_unpack _). vm_compute. exact I.
    + vm_compute in Hl, Hmax. congruence.
Qed.

(** C1 (amended).  For an acyclic graph whose node ids are pairwise
    distinct and whose edges all join nodes of the graph, every node [n]
    gets a layer [l]: a natural number, 0 when [n] has no predecessor, and
    in every case the maximum of [layer p + 1] over the predecessors [p]
    of [n] (the maximum of the empty list being 0).  In the returned
    layout, [n] is in row [l]. *)
Theorem layers_longest_path (g : Graph) :
  NoDup (nodeIds g) → edgesValid g → acyclic g →
  ∃ lay, assignLayers g = Some lay ∧
    ∀ n, n ∈ nodeIds g →
      ∃ l, JSMap.get lay n = Some l ∧ 0 ≤ l ∧
           (preds g n = [] → l = 0) ∧
           l = max_list ((λ p, layerOf lay p + 1) <$> preds g n) ∧
           (∀ r, computeLayout g = Some r →
                 ∃ ids, layerNodes r !! l = Some ids ∧ n ∈ ids).
Proof.
  intros Hnd Hvalid Hacyc.
  destruct (assignLayers_total g) as (st & Hk & Hsafe & Hh & Hlay).
  exists (fallback (nodes g) (layer st)). split; [done|].
  assert (∀ k, k ∈ nodeIds g →
            JSMap.get (fallback (nodes g) (layer st)) k = JSMap.get (layer st) k) as Hget.
  { intros k Hk'. destruct (kahn_layers g st Hnd Hacyc Hk k Hk') as (lk & Hlk & _).
    by rewrite fallback_get, Hlk. }
  intros n Hn. destruct (kahn_layers g st Hnd Hacyc Hk n Hn) as (l & Hl & Hmax).
  assert (l = max_list ((λ p, layerOf (fallback (nodes g) (layer st)) p + 1) <$> preds g n))
    as Hmax'.
  { rewrite Hmax, (preds_predsOf g n Hvalid). f_equal. apply list_fmap_ext.
    intros i p Hp. unfold layerOf. rewrite Hget; [done|].
    eapply predsOf_nodeIds. by eapply list_elem_of_lookup_2. }
  exists l. split_and!; [by rewrite Hget|lia| |done|].
  - intros Hnil. rewrite Hmax', Hnil. done.
  - intros r Hr.
    assert (nodes g ≠ []) as Hne.
    { intros Hnil. unfold nodeIds in Hn. rewrite Hnil in Hn. by apply elem_of_nil in Hn. }
    destruct (computeLayout_spec g Hne) as (st' & s & m & Hk' & _ & _ & _ & Hok & _ & Hr').
    rewrite Hr' in Hr. injection Hr as <-. cbn [layerNodes layoutOf].
    rewrite Hk in Hk'. injection Hk' as <-.
    pose proof Hok as (_ & _ & Hslay & Hsmax & Hlen & _).
    assert (JSMap.get (st_layer s) n = Some l) as Hnl by (by rewrite Hslay, Hget).
    destruct (lookup_lt_is_Some_2 (st_layerNodes s) l) as [ids Hids].
    { rewrite Hlen, Hsmax.
      assert (l ≤ max_list (JSMap.values (st_layer s))); [|lia].
      apply (max_list_values_le _ (n, l)). by apply JSMap_get_Some_elem_of. }
    exists ids. split; [done|]. by apply (row_elem_layer g st s l ids n Hok Hids).
Qed.

Lemma layers_longest_path_witness :
  ∃ lay, assignLayers diamondGraph = Some lay ∧
    ∀ n, n ∈ nodeIds diamondGraph →
      ∃ l, JSMap.get lay n = Some l ∧ 0 ≤ l ∧
           (preds diamondGraph n = [] → l = 0) ∧
           l = max_list ((λ p, layerOf lay p + 1) <$> preds diamondGraph n) ∧
           (∀ r, computeLayout diamondGraph = Some r →
                 ∃ ids, layerNodes r !! l = Some ids ∧ n ∈ ids).
Proof.
  apply (layers_longest_path diamondGraph).
  - apply (bool_decide_unpack _). vm_compute. exact I.
  - apply edgesValid_Forall. apply (bool_decide_unpack _). vm_compute. exact I.
  - apply (acyclic_of_rank _ diamondRank). apply (bool_decide_unpack _).
    vm_compute. exact I.
Defined.

(** * Further properties of the layout *)

(** X1. Every node of the graph has a position; its x is
    [PAD + layer * H_STEP], so it depends on the layer only, its width is
    [NODE_W], its y is at least [PAD], and its height is the height of
    the type of a node declared with that id.  The node is in the row of
    [layerNodes] of its layer. *)
Theorem position_by_layer (g : Graph) (r : Layout) (lay : list (string * nat)) (n : string) :
  computeLayout g = Some r → assignLayers g = Some lay → n ∈ nodeIds g →
  ∃ l p nd ids,
    JSMap.get lay n = Some l ∧ layerNodes r !! l = Some ids ∧ n ∈ ids ∧
    JSMap.get (positions r) n = Some p ∧
    x p = (PAD + nat2Q l * H_STEP)%Q ∧ w p = NODE_W ∧ (PAD <= y p)%Q ∧
    nd ∈ nodes g ∧ id nd = n ∧ h p = getNodeHeight (Some (type nd)).
Proof. apply node_position. Qed.

Lemma position_by_layer_witness :
  ∃ l p nd ids,
    JSMap.get diamondLayers "D" = Some l ∧ layerNodes diamondLayout !! l = Some ids ∧
    "D"%string ∈ ids ∧
    JSMap.get (positions diamondLayout) "D" = Some p ∧
    x p = (PAD + nat2Q l * H_STEP)%Q ∧ w p = NODE_W ∧ (PAD <= y p)%Q ∧
    nd ∈ nodes diamondGraph ∧ id nd = "D"%string ∧ h p = getNodeHeight (Some (type nd)).
Proof.
  apply (position_by_layer diamondGraph diamondLayout diamondLayers "D");
    [reflexivity|reflexivity|].
  apply (bool_decide_unpack _). vm_compute. exact I.
Defined.

(** X2. The column grows with the layer: two nodes on the same layer
    have the same x, and a node on a higher layer lies at least
    [H_STEP] per layer further right. *)
Theorem x_increases_with_layer (g : Graph) (r : Layout) (lay : list (string * nat))
    (a b : string) (la lb : nat) (pa pb : Pos) :
  computeLayout g = Some r → assignLayers g = Some lay →
  a ∈ nodeIds g → b ∈ nodeIds g →
  JSMap.get lay a = Some la → JSMap.get lay b = Some lb →
  JSMap.get (positions r) a = Some pa → JSMap.get (positions r) b = Some pb →
  (la = lb → x pa = x pb) ∧
  (la < lb → (x pa + nat2Q (lb - la) * H_STEP == x pb)%Q ∧ (x pa + w pa < x pb)%Q).
Proof.
  intros Hr Hlay Ha Hb Hla Hlb Hpa Hpb.
  destruct (node_position g r lay a Hr Hlay Ha)
    as (la' & pa' & _ & _ & Hla' & _ & _ & Hpa' & Hxa & Hwa & _).
  destruct (node_position g r lay b Hr Hlay Hb)
    as (lb' & pb' & _ & _ & Hlb' & _ & _ & Hpb' & Hxb & _).
  rewrite Hla in Hla'. injection Hla' as <-. rewrite Hlb in Hlb'. injection Hlb' as <-.
  rewrite Hpa in Hpa'. injection Hpa' as <-. rewrite Hpb in Hpb'. injection Hpb' as <-.
  split.
  - intros ->. by rewrite Hxa, Hxb.
  - intros Hlt. rewrite Hxa, Hxb, Hwa.
    assert (nat2Q lb == nat2Q la + nat2Q (lb - la))%Q as Hsum.
    { unfold nat2Q. rewrite <-inject_Z_plus, <-Nat2Z.inj_add.
      replace (la + (lb - la)) with lb by lia. reflexivity. }
    assert (1 <= nat2Q (lb - la))%Q as Hone.
    { change 1%Q with (nat2Q 1). apply nat2Q_le. lia. }
    unfold NODE_W, H_STEP. split; [rewrite Hsum; ring|]. rewrite Hsum. lra.
Qed.

Lemma x_increases_with_layer_witness :
  (390 + nat2Q (2 - 1) * H_STEP == 720)%Q ∧ (390 + 250 < 720)%Q.
Proof.
  apply (x_increases_with_layer diamondGraph diamondLayout diamondLayers "B" "D" 1 2
           {| x := 390; y := 60; w := 250; h := Px 148 |}
           {| x := 720; y := 340 # 2; w := 250; h := Px 148 |});
    try reflexivity; try lia; apply (bool_decide_unpack _); vm_compute; exact I.
Defined.

(** X3. In the layout computed in doubles, for a graph in which no type
    names a member of [Object.prototype], every node box lies inside the
    canvas: [PAD <= x], [x + w <= canvasW - PAD], [PAD <= y], and the
    canvas height is at least the bottom [y + h], rounded, plus [PAD],
    rounded.  When the canvas height is below [2^53] it exceeds
    [y + h + PAD - 2]: the box ends more than [PAD - 2] above the lower
    side. *)
Theorem boxes_inside_canvas (rnd : Q → Q)
    (sort : (string → string → Num) → list string → list string)
    (g : Graph) (r : Layout) (n : string) (p : Pos) :
  rounding rnd → sortContract sort → plainTypes g →
  Fl.computeLayout rnd sort g = Some r → JSMap.get (positions r) n = Some p →
  ∃ cw ch hq, canvasW r = Some cw ∧ canvasH r = Some (Fin ch) ∧ h p = Px hq ∧
           (PAD <= x p)%Q ∧ (x p + w p <= cw - PAD)%Q ∧ (PAD <= y p)%Q ∧
           (rnd (rnd (y p + hq) + PAD) <= ch)%Q ∧
           ((ch < inject_Z (2 ^ 53))%Q → (y p + hq + PAD - 2 < ch)%Q).
Proof.
  intros Hrnd Hc Hplain Hr Hp.
  assert ((n, p) ∈ positions r) as Hin by (by apply JSMap_get_Some_elem_of).
  assert (nodes g ≠ []) as Hne.
  { intros Hnil. unfold Fl.computeLayout in Hr. rewrite Hnil in Hr. simpl in Hr.
    injection Hr as <-. by apply elem_of_nil in Hin. }
  destruct (Fl_positions_entry rnd sort g r n p Hrnd Hc Hr Hin)
    as (lx & nodeY & Hpeq & Hy & Hx & Hw & cw & Hcw & Hxw).
  destruct (mkPos_plain g nodeY lx n Hplain) as (hq & Hh & Hlo & Hhi).
  rewrite <-Hpeq in Hh.
  destruct (Fl_canvasH rnd Hrnd sort g r Hc Hplain Hne Hr) as (m & Hch & _ & Hub).
  assert (rnd (y p + hq) <= m)%Q as Hb.
  { apply Hub; [|done]. unfold JSMap.values. apply list_elem_of_fmap. by exists (n, p). }
  pose proof Hrnd as [Hmono Hint].
  pose proof (Hint (2 ^ 53)%Z ltac:(lia)) as H53.
  exists cw, (rnd (m + PAD)%Q), hq. split_and!; try done.
  - apply Hmono. lra.
  - intros Hlt.
    assert (m + PAD <= inject_Z (2 ^ 53))%Q as Hm53.
    { apply Qnot_lt_le. intros Hgt.
      assert (inject_Z (2 ^ 53) <= rnd (m + PAD)%Q)%Q; [|lra].
      rewrite <-H53. apply Hmono. lra. }
    assert (y p + hq <= inject_Z (2 ^ 53))%Q as Hy53.
    { apply Qnot_lt_le. intros Hgt.
      assert (inject_Z (2 ^ 53) <= rnd (y p + hq))%Q as Hge.
      { rewrite <-H53. apply Hmono. lra. }
      unfold PAD in *. lra. }
    assert (0 <= y p + hq)%Q as H0 by (unfold PAD in *; lra).
    pose proof (rounding_floor rnd _ Hrnd H0 Hy53) as Hf1.
    assert (0 <= m + PAD)%Q as H0' by (unfold PAD in *; lra).
    pose proof (rounding_floor rnd _ Hrnd H0' Hm53) as Hf2.
    lra.
Qed.

Lemma boxes_inside_canvas_witness :
  ∃ cw ch hq, canvasW gapLayout = Some cw ∧ canvasH gapLayout = Some (Fin ch) ∧
           Px 148 = Px hq ∧
           (PAD <= 720)%Q ∧ (720 + 250 <= cw - PAD)%Q ∧
           (PAD <= 3752999689475413 # 8796093022208)%Q ∧
           (round64 (round64 ((3752999689475413 # 8796093022208) + hq) + PAD) <= ch)%Q ∧
           ((ch < inject_Z (2 ^ 53))%Q →
            ((3752999689475413 # 8796093022208) + hq + PAD - 2 < ch)%Q).
Proof.
  apply (boxes_inside_canvas round64 Array_sort gapGraph gapLayout "T1"
           {| x := 720; y := 3752999689475413 # 8796093022208; w := 250; h := Px 148 |}).
  - apply rounding_round64.
  - apply Array_sort_contract.
  - apply plainTypes_Forall. apply (bool_decide_unpack _). vm_compute. exact I.
  - vm_compute. reflexivity.
  - vm_compute. reflexivity.
Defined.

(** X4. In a graph in which no type names a member of
    [Object.prototype], every height is a number and no two node boxes
    overlap: for two different ids of the position map, one box ends
    before the other begins, horizontally (different columns) or
    vertically (same column: the vertical step 220 exceeds every node
    height, at most 200). *)
Theorem boxes_do_not_overlap (g : Graph) (r : Layout) (a b : string) (pa pb : Pos) :
  plainTypes g → computeLayout g = Some r → a ≠ b →
  JSMap.get (positions r) a = Some pa → JSMap.get (positions r) b = Some pb →
  ∃ ha hb, h pa = Px ha ∧ h pb = Px hb ∧
    ((x pa + w pa < x pb)%Q ∨ (x pb + w pb < x pa)%Q ∨
     (y pa + ha < y pb)%Q ∨ (y pb + hb < y pa)%Q).
Proof.
  intros Hplain Hr Hab Hpa Hpb.
  destruct (plain_height g r a pa Hplain Hr Hpa) as (ha & Hha & _ & Hha200).
  destruct (plain_height g r b pb Hplain Hr Hpb) as (hb & Hhb & _ & Hhb200).
  exists ha, hb. split; [done|]. split; [done|].
  destruct (decide (nodes g = [])) as [Hnil|Hne].
  { rewrite (computeLayout_empty g r Hr Hnil) in Hpa. done. }
  destruct (computeLayout_inv g r Hr Hne) as (st & s & m & _ & _ & _ & Hok & _ & _ & ->).
  cbn [positions layoutOf] in *.
  pose proof (stagesOK_NoDup_rows g st s Hok) as Hnd.
  destruct Hok as (_ & _ & _ & _ & _ & _ & _ & _ & _ & Hgap & HY).
  destruct (posRows_entry _ _ _ a pa Hnd Hpa) as (la & ia & Hla & Hina & ->).
  destruct (posRows_entry _ _ _ b pb Hnd Hpb) as (lb & ib & Hlb & Hinb & ->).
  cbn [mkPos x y w h] in *.
  assert (∀ l l', l < l' →
            (PAD + nat2Q l * H_STEP + NODE_W < PAD + nat2Q l' * H_STEP)%Q) as Hcols.
  { intros l l' Hlt. assert (nat2Q (S l) <= nat2Q l')%Q as Hle by (apply nat2Q_le; lia).
    rewrite nat2Q_S in Hle. unfold H_STEP, NODE_W. lra. }
  assert (∀ i j c d hc, i < j → ia !! i = Some c → ia !! j = Some d → (hc <= 200)%Q →
            (default PAD (st_nodeY s !! c) + hc < default PAD (st_nodeY s !! d))%Q) as Hrow.
  { intros i j c d hc Hij Hc Hd Hhc. destruct (Hgap la ia Hla) as [Hg _].
    destruct (gapped_distance _ _ i j c d Hg Hij Hc Hd) as (yc & yd & Hyc & Hyd & Hle).
    rewrite HY, Hyc, Hyd. simpl.
    assert (1 <= nat2Q (j - i))%Q as Hone.
    { change 1%Q with (nat2Q 1). apply nat2Q_le. lia. }
    unfold V_STEP in Hle. nra. }
  destruct (lt_eq_lt_dec la lb) as [[Hlt|Heq]|Hgt].
  - left. by apply Hcols.
  - subst lb. rewrite Hla in Hlb. injection Hlb as <-.
    apply list_elem_of_lookup in Hina as [i Hi]. apply list_elem_of_lookup in Hinb as [j Hj].
    destruct (lt_eq_lt_dec i j) as [[Hlt|Heq]|Hgt].
    + right. right. left. by apply (Hrow i j).
    + subst j. congruence.
    + right. right. right. by apply (Hrow j i).
  - right. left. by apply Hcols.
Qed.

Lemma boxes_do_not_overlap_witness :
  ∃ ha hb, Px 148 = Px ha ∧ Px 148 = Px hb ∧
    ((390 + 250 < 390)%Q ∨ (390 + 250 < 390)%Q ∨
     (60 + ha < 280)%Q ∨ (280 + hb < 60)%Q).
Proof.
  apply (boxes_do_not_overlap diamondGraph diamondLayout "B" "C"
           {| x := 390; y := 60; w := 250; h := Px 148 |}
           {| x := 390; y := 280; w := 250; h := Px 148 |}); try reflexivity.
  - apply plainTypes_Forall. apply (bool_decide_unpack _). vm_compute. exact I.
  - discriminate.
Defined.

(** X5. In an acyclic graph with distinct node ids every edge between two
    nodes points to the right: the target is at least one column
    ([H_STEP]) further right than the source, so the left side of the
    target box lies to the right of the right side of the source box. *)
Theorem dag_edges_point_right (g : Graph) (r : Layout) (e : Edge) (ps pt : Pos) :
  NoDup (nodeIds g) → acyclic g → computeLayout g = Some r → e ∈ edges g →
  JSMap.get (positions r) (source e) = Some ps →
  JSMap.get (positions r) (target e) = Some pt →
  (x ps + H_STEP <= x pt)%Q ∧ (x ps + w ps < x pt)%Q.
Proof.
  intros Hnd Hacyc Hr He Hps Hpt. destruct (decide (nodes g = [])) as [Hnil|Hne].
  { rewrite (computeLayout_empty g r Hr Hnil) in Hps. done. }
  destruct (computeLayout_inv g r Hr Hne) as (st & s & m & Hk & Hsafe & _ & Hok & Hlay & _ & Hreq).
  assert (∀ k p, JSMap.get (positions r) k = Some p → k ∈ nodeIds g) as Hkeys.
  { intros k p Hp. subst r. cbn [positions layoutOf] in Hp.
    destruct Hok as (_ & _ & Hsl & _ & _ & _ & Hperm & _).
    apply (layer_keys_nodeIds g st k Hsafe). rewrite <-Hsl, <-Hperm.
    rewrite <-(posRows_keys (nodeMapOf g) (st_nodeY s)). apply JSMap_get_is_Some. eauto. }
  pose proof (Hkeys _ _ Hps) as Hs. pose proof (Hkeys _ _ Hpt) as Ht.
  assert (source e ∈ predsOf g (target e)) as Hpred.
  { unfold predsOf. apply list_elem_of_fmap. exists e. split; [done|].
    apply list_elem_of_filter. split; [|done]. split; [done|]. by split. }
  destruct (acyclic_layer_edge g _ _ _ Hnd Hacyc Hlay Hpred) as (ls & lt & Hls & Hlt & Hle).
  destruct (node_position g r _ _ Hr Hlay Hs)
    as (ls' & ps' & _ & _ & Hls' & _ & _ & Hps' & Hxs & Hws & _).
  destruct (node_position g r _ _ Hr Hlay Ht)
    as (lt' & pt' & _ & _ & Hlt' & _ & _ & Hpt' & Hxt & _).
  rewrite Hls in Hls'. injection Hls' as <-. rewrite Hlt in Hlt'. injection Hlt' as <-.
  rewrite Hps in Hps'. injection Hps' as <-. rewrite Hpt in Hpt'. injection Hpt' as <-.
  rewrite Hxs, Hxt, Hws.
  assert (nat2Q (S ls) <= nat2Q lt)%Q as Hq by (apply nat2Q_le; lia).
  rewrite nat2Q_S in Hq. unfold H_STEP, NODE_W. split; lra.
Qed.

Lemma dag_edges_point_right_witness :
  (390 + H_STEP <= 720)%Q ∧ (390 + 250 < 720)%Q.
Proof.
  apply (dag_edges_point_right diamondGraph diamondLayout (mkEdge "B" "D")
           {| x := 390; y := 60; w := 250; h := Px 148 |}
           {| x := 720; y := 340 # 2; w := 250; h := Px 148 |}); try reflexivity.
  - apply (bool_decide_unpack _). vm_compute. exact I.
  - apply (acyclic_of_rank _ diamondRank). apply (bool_decide_unpack _).
    vm_compute. exact I.
  - apply (list_elem_of_lookup_2 _ 2). reflexivity.
Defined.

(** X6. Grouping and the three sweeps keep every node on its layer: row
    [l] of the returned [layerNodes] holds exactly the nodes whose layer
    is [l], each of them once. *)
Theorem rows_hold_their_layer (g : Graph) (r : Layout) (lay : list (string * nat))
    (l : nat) (ids : list string) :
  computeLayout g = Some r → assignLayers g = Some lay →
  layerNodes r !! l = Some ids →
  NoDup ids ∧ ∀ k, k ∈ ids ↔ JSMap.get lay k = Some l.
Proof.
  intros Hr Hlay Hl. destruct (decide (nodes g = [])) as [Hnil|Hne].
  { rewrite (computeLayout_empty g r Hr Hnil) in Hl. done. }
  destruct (computeLayout_inv g r Hr Hne) as (st & s & m & _ & _ & _ & Hok & Hlay' & _ & ->).
  rewrite Hlay' in Hlay. injection Hlay as <-. cbn [layerNodes layoutOf] in Hl.
  split.
  - eapply NoDup_concat_row; [|done]. by eapply stagesOK_NoDup_rows.
  - intros k. by apply (row_elem_layer g st s l ids k Hok Hl).
Qed.

Lemma rows_hold_their_layer_witness :
  NoDup ["B"; "C"]%string ∧
  ∀ k, k ∈ ["B"; "C"]%string ↔ JSMap.get diamondLayers k = Some 1.
Proof.
  apply (rows_hold_their_layer diamondGraph diamondLayout diamondLayers 1); reflexivity.
Defined.

(** X7. With distinct node ids no column is left empty: every row of
    [layerNodes] holds a node, so there are at most as many rows as
    nodes and the canvas is at most [2 * PAD + |nodes| * H_STEP] wide.
    This holds for cyclic graphs too. *)
Theorem no_empty_rows (g : Graph) (r : Layout) :
  NoDup (nodeIds g) → nodes g ≠ [] → computeLayout g = Some r →
  (∀ l ids, layerNodes r !! l = Some ids → ids ≠ []) ∧
  length (layerNodes r) = maxLayer r + 1 ∧
  maxLayer r + 1 ≤ length (nodes g) ∧
  ∃ cw, canvasW r = Some cw ∧ (cw <= 2 * PAD + nat2Q (length (nodes g)) * H_STEP)%Q.
Proof.
  intros Hnd Hne Hr.
  destruct (computeLayout_inv g r Hr Hne) as (st & s & m & _ & Hsafe & _ & Hok & Hlay & _ & ->).
  cbn [layerNodes maxLayer canvasW layoutOf].
  pose proof Hok as (_ & _ & Hsl & Hmax & Hlen & _ & Hperm & Hkeys & _).
  assert (∀ l ids, st_layerNodes s !! l = Some ids → ids ≠ []) as Hrows.
  { intros l ids Hl Hnil.
    destruct (layers_all_used g (st_layer s) l Hnd Hlay Hkeys) as [n Hn].
    - rewrite Hsl. intros Hnil'. apply (fallback_nonempty g st Hne). by rewrite Hnil'.
    - apply lookup_lt_Some in Hl. rewrite Hlen, Hmax in Hl. lia.
    - apply (row_elem_layer g st s l ids n Hok Hl) in Hn. rewrite Hnil in Hn.
      by apply elem_of_nil in Hn. }
  assert (st_maxLayer s + 1 ≤ length (nodes g)) as Hcount.
  { rewrite <-Hlen. etrans; [by apply concat_length_ge|].
    rewrite Hperm. unfold JSMap.keys.
    assert (JSMap.keys (st_layer s) ≡ₚ nodeIds g) as Hp.
    { apply NoDup_Permutation; [done|done|]. intros k. rewrite Hsl.
      by apply layer_keys_nodeIds. }
    unfold JSMap.keys in Hp. rewrite Hp. unfold nodeIds. by rewrite length_fmap. }
  split_and!; [done|done|done|]. eexists. split; [done|].
  assert (nat2Q (st_maxLayer s + 1) <= nat2Q (length (nodes g)))%Q as Hq
    by (by apply nat2Q_le).
  rewrite Nat.add_1_r, nat2Q_S in Hq. unfold PAD, H_STEP. lra.
Qed.

Lemma no_empty_rows_witness :
  (∀ l ids, layerNodes cycleLayout !! l = Some ids → ids ≠ []) ∧
  length (layerNodes cycleLayout) = maxLayer cycleLayout + 1 ∧
  maxLayer cycleLayout + 1 ≤ length (nodes cycleGraph) ∧
  ∃ cw, canvasW cycleLayout = Some cw ∧
        (cw <= 2 * PAD + nat2Q (length (nodes cycleGraph)) * H_STEP)%Q.
Proof.
  apply (no_empty_rows cycleGraph cycleLayout); [|discriminate|reflexivity].
  apply (bool_decide_unpack _). vm_compute. exact I.
Defined.





(** X10. In an acyclic graph with distinct ids the first column holds the
    nodes without predecessors, stacked from the top: the node at index
    [i] of row 0 has y [PAD + i * V_STEP]. *)
Theorem first_column_stacked (g : Graph) (r : Layout) (ids : list string)
    (i : nat) (a : string) :
  NoDup (nodeIds g) → acyclic g → computeLayout g = Some r →
  layerNodes r !! 0 = Some ids → ids !! i = Some a →
  predsOf g a = [] ∧ (posY r a == PAD + nat2Q i * V_STEP)%Q.
Proof.
  intros Hnd Hacyc Hr Hl.
  assert (∀ j b, ids !! j = Some b → predsOf g b = []) as Hsrc.
  { intros j b Hb. destruct (predsOf g b) as [|p ps] eqn:Hp; [done|]. exfalso.
    destruct (assignLayers_total g) as (st & _ & _ & _ & Hlay).
    destruct (rows_of_layout g r _ 0 ids Hr Hlay Hl) as [_ Hrow].
    destruct (acyclic_layer_edge g _ p b Hnd Hacyc Hlay) as (lp & lb & _ & Hlb & Hle).
    { rewrite Hp. apply list_elem_of_here. }
    assert (JSMap.get (fallback (nodes g) (layer st)) b = Some 0) as Hb0
      by (apply Hrow; by eapply list_elem_of_lookup_2).
    rewrite Hb0 in Hlb. injection Hlb as <-. lia. }
  revert a. induction i as [|i IH]; intros a Ha.
  - split; [by eapply Hsrc|].
    rewrite (dag_placement g r 0 ids 0 a Hnd Hacyc Hr Hl Ha), (Hsrc 0 a Ha).
    unfold placeY. simpl. change (nat2Q 0) with 0%Q. ring.
  - split; [by eapply Hsrc|].
    destruct (lookup_lt_is_Some_2 ids i) as [k Hk].
    { apply lookup_lt_Some in Ha. lia. }
    destruct (IH k Hk) as [_ Hyk].
    rewrite (dag_placement g r 0 ids (S i) a Hnd Hacyc Hr Hl Ha), (Hsrc (S i) a Ha).
    unfold placeY. simpl. rewrite Hk. simpl. rewrite Hyk, nat2Q_S. ring.
Qed.

Lemma first_column_stacked_witness :
  predsOf edgelessGraph "Q" = [] ∧
  (posY edgelessLayout "Q" == PAD + nat2Q 1 * V_STEP)%Q.
Proof.
  apply (first_column_stacked edgelessGraph edgelessLayout ["P"; "Q"; "R"]%string);
    try reflexivity.
  - apply (bool_decide_unpack _). vm_compute. exact I.
  - apply (acyclic_of_rank _ (λ _, 0)). constructor.
Defined.

(** X11. [renderGraph] draws one path for every edge whose two endpoints
    are ids of nodes, in the order of the edge list and with the edge's
    endpoints as [data-source] and [data-target]; the other edges are
    skipped.  So when all edges join nodes, there are as many paths as
    edges. *)
Theorem drawn_paths_are_the_valid_edges (g : Graph) (r : Layout) :
  computeLayout g = Some r →
  ep_ends <$> renderEdges g r = ends <$> filter (validEdge g) (edges g) ∧
  (edgesValid g → length (renderEdges g r) = length (edges g)).
Proof.
  intros Hr.
  assert (∀ es : list Edge, ep_ends <$> omap (edgePath (nodeMapOf g) (positions r)) es
                = ends <$> filter (validEdge g) es) as Heq.
  { induction es as [|e es IH]; [done|]. cbn [omap list_omap]. rewrite filter_cons.
    destruct (edgePath_valid g r e Hr) as [Hv Hinv].
    destruct (decide (validEdge g e)) as [Hval|Hval].
    - destruct (Hv Hval) as (ep & -> & Hends). cbn. by rewrite Hends, <-IH.
    - rewrite (Hinv Hval). exact IH. }
  split; [apply Heq|].
  intros Hval. unfold renderEdges.
  assert (∀ es : list Edge, (∀ e, e ∈ es → validEdge g e) →
            length (omap (edgePath (nodeMapOf g) (positions r)) es) = length es) as Hlen.
  { induction es as [|e es IH]; [done|]. intros Hes. cbn [omap list_omap].
    destruct (edgePath_valid g r e Hr) as [Hv _].
    destruct (Hv (Hes e (list_elem_of_here _ _))) as (ep & -> & _). cbn.
    f_equal. apply IH. intros e' He'. apply Hes. by apply list_elem_of_further. }
  apply Hlen, Hval.
Qed.

Lemma drawn_paths_are_the_valid_edges_witness :
  ep_ends <$> renderEdges danglingGraph danglingLayout
    = ends <$> filter (validEdge danglingGraph) (edges danglingGraph) ∧
  (edgesValid danglingGraph →
   length (renderEdges danglingGraph danglingLayout) = length (edges danglingGraph)).
Proof. apply (drawn_paths_are_the_valid_edges danglingGraph danglingLayout). reflexivity. Defined.

(** X12. In an acyclic graph with distinct node ids, in which no type
    names a member of [Object.prototype], every drawn curve runs from left
    to right: it starts on the right side of the source box and ends on
    the left side of the target box, both 60 below the top and inside the
    height of the box (a number, at least 124), the end is at least
    [H_STEP - NODE_W] right of the start, and the two control points lie
    strictly between them in this order. *)
Theorem dag_curves_run_left_to_right (g : Graph) (r : Layout) (ep : EdgePath) :
  plainTypes g → NoDup (nodeIds g) → acyclic g → computeLayout g = Some r →
  ep ∈ renderEdges g r →
  ∃ ps pt hs ht,
    JSMap.get (positions r) (ep_source ep) = Some ps ∧
    JSMap.get (positions r) (ep_target ep) = Some pt ∧
    h ps = Px hs ∧ h pt = Px ht ∧
    ep_x1 ep = (x ps + w ps)%Q ∧ ep_x2 ep = x pt ∧
    (y ps < ep_y1 ep)%Q ∧ (ep_y1 ep < y ps + hs)%Q ∧
    (y pt < ep_y2 ep)%Q ∧ (ep_y2 ep < y pt + ht)%Q ∧
    (ep_x1 ep + (H_STEP - NODE_W) <= ep_x2 ep)%Q ∧
    (ep_x1 ep < ep_c1x ep)%Q ∧ (ep_c1x ep < ep_c2x ep)%Q ∧ (ep_c2x ep < ep_x2 ep)%Q.
Proof.
  intros Hplain Hnd Hacyc Hr Hep.
  destruct (renderEdges_elem g r ep Hep) as (e & ps & pt & He & Hpath & Hps & Hpt).
  unfold edgePath in Hpath. rewrite Hps, Hpt in Hpath. simpl in Hpath.
  injection Hpath as <-. cbn [ep_source ep_target ep_x1 ep_x2 ep_y1 ep_y2 ep_c1x ep_c2x].
  destruct (plain_height g r _ ps Hplain Hr Hps) as (hs & Hhs' & Hlos & _).
  destruct (plain_height g r _ pt Hplain Hr Hpt) as (ht & Hht' & Hlot & _).
  exists ps, pt, hs, ht.
  pose proof (positions_keys_nodeIds g r _ _ Hr Hps) as Hs.
  pose proof (positions_keys_nodeIds g r _ _ Hr Hpt) as Ht.
  destruct (assignLayers_total g) as (st & _ & _ & _ & Hlay).
  assert (source e ∈ predsOf g (target e)) as Hpred.
  { unfold predsOf. apply list_elem_of_fmap. exists e. split; [done|].
    apply list_elem_of_filter. split; [|done]. split; [done|]. by split. }
  destruct (acyclic_layer_edge g _ _ _ Hnd Hacyc Hlay Hpred) as (ls & lt & Hls & Hlt & Hle).
  destruct (node_position g r _ _ Hr Hlay Hs)
    as (ls' & ps' & nds & _ & Hls' & _ & _ & Hps' & Hxs & Hws & _ & _ & _ & Hhs).
  destruct (node_position g r _ _ Hr Hlay Ht)
    as (lt' & pt' & ndt & _ & Hlt' & _ & _ & Hpt' & Hxt & _ & _ & _ & _ & Hht).
  rewrite Hls in Hls'. injection Hls' as <-. rewrite Hlt in Hlt'. injection Hlt' as <-.
  rewrite Hps in Hps'. injection Hps' as <-. rewrite Hpt in Hpt'. injection Hpt' as <-.
  assert (nat2Q (S ls) <= nat2Q lt)%Q as Hq by (apply nat2Q_le; lia).
  rewrite nat2Q_S in Hq.
  assert (x ps + w ps + (H_STEP - NODE_W) <= x pt)%Q as Hgap.
  { rewrite Hxs, Hxt, Hws. unfold H_STEP, NODE_W. lra. }
  unfold CONN_Y, H_STEP, NODE_W in *.
  split_and!; try done; lra.
Qed.

Lemma dag_curves_run_left_to_right_witness :
  ∃ ps pt hs ht,
    JSMap.get (positions diamondLayout) "B" = Some ps ∧
    JSMap.get (positions diamondLayout) "D" = Some pt ∧
    h ps = Px hs ∧ h pt = Px ht ∧
    (640 : Q) = (x ps + w ps)%Q ∧ (720 : Q) = x pt ∧
    (y ps < 120)%Q ∧ (120 < y ps + hs)%Q ∧
    (y pt < 460 # 2)%Q ∧ (460 # 2 < y pt + ht)%Q ∧
    (640 + (H_STEP - NODE_W) <= 720)%Q ∧
    (640 < 67600 # 100)%Q ∧ (67600 # 100 < 68400 # 100)%Q ∧ (68400 # 100 < 720)%Q.
Proof.
  apply (dag_curves_run_left_to_right diamondGraph diamondLayout
           {| ep_source := "B"; ep_target := "D"; ep_class := "edge-op";
              ep_x1 := 640; ep_y1 := 120; ep_c1x := 67600 # 100; ep_c2x := 68400 # 100;
              ep_x2 := 720; ep_y2 := 460 # 2 |}).
  - apply plainTypes_Forall. apply (bool_decide_unpack _). vm_compute. exact I.
  - apply (bool_decide_unpack _). vm_compute. exact I.
  - apply (acyclic_of_rank _ diamondRank). apply (bool_decide_unpack _).
    vm_compute. exact I.
  - reflexivity.
  - apply (list_elem_of_lookup_2 _ 2). vm_compute. reflexivity.
Defined.

(** X13. [fitView] on the layout of a graph in which no type names a
    member of [Object.prototype], in a viewport wider and higher than the
    two margins of 48, computed on exact numbers: for a graph without
    nodes the view is left as it is; for a graph with nodes the new scale is
    positive and at most 1 (the graph is never enlarged), the canvas is
    centred in the viewport and keeps the margin of 48 on every side,
    the fit is tight (the scale is 1 or the canvas touches the margin
    horizontally or vertically), and every node box is drawn strictly
    inside the margins. *)
Theorem fitView_fits (g : Graph) (r : Layout) (vw vh : Q) (v : View) :
  plainTypes g → computeLayout g = Some r → (96 < vw)%Q → (96 < vh)%Q →
  (nodes g = [] → fitView (Some r) vw vh v = Some v) ∧
  (nodes g ≠ [] →
   ∃ v' cw ch,
     fitView (Some r) vw vh v = Some v' ∧
     canvasW r = Some cw ∧ canvasH r = Some (Fin ch) ∧
     (0 < scale v')%Q ∧ (scale v' <= 1)%Q ∧
     (48 <= screenX v' 0)%Q ∧ (screenX v' 0 + screenX v' cw == vw)%Q ∧
     (48 <= screenY v' 0)%Q ∧ (screenY v' 0 + screenY v' ch == vh)%Q ∧
     (scale v' == 1 ∨ screenX v' 0 == 48 ∨ screenY v' 0 == 48)%Q ∧
     ∀ n p, JSMap.get (positions r) n = Some p →
       ∃ hq, h p = Px hq ∧
       (48 < screenX v' (x p))%Q ∧ (screenX v' (x p + w p) < vw - 48)%Q ∧
       (48 < screenY v' (y p))%Q ∧ (screenY v' (y p + hq) < vh - 48)%Q).
Proof.
  intros Hplain Hr Hvw Hvh. split.
  { intros Hnil. by rewrite (computeLayout_empty g r Hr Hnil). }
  intros Hne.
  destruct (canvas_of_nodes g r Hplain Hr Hne) as (cw & ch & Hcw & Hch & Hcw2 & Hch2).
  assert (0 < cw)%Q as Hcw0 by (unfold PAD in *; lra).
  assert (0 < ch)%Q as Hch0 by (unfold PAD in *; lra).
  destruct (fit_scale vw vh cw ch Hcw0 Hch0 Hvw Hvh) as (Hs0 & Hs1 & Hfw & Hfh & Htight).
  set (s := Qmin (Qmin ((vw - 48 * 2) / cw) ((vh - 48 * 2) / ch)) 1) in *.
  exists {| tx := ((vw - cw * s) / 2)%Q; ty := ((vh - ch * s) / 2)%Q; scale := s |}, cw, ch.
  split; [|split; [done|split; [done|]]].
  { unfold fitView. cbn [mbind option_bind]. rewrite Hcw, Hch.
    rewrite (Qeq_bool_false_pos cw Hcw0). cbn [mbind option_bind finite].
    by rewrite (Qeq_bool_false_pos ch Hch0). }
  unfold screenX, screenY. cbn [tx ty scale].
  assert ((vw - cw * s) / 2 == (vw - cw * s) * (1 # 2))%Q as Etx by field.
  assert ((vh - ch * s) / 2 == (vh - ch * s) * (1 # 2))%Q as Ety by field.
  revert Etx Ety. generalize ((vw - cw * s) / 2)%Q ((vh - ch * s) / 2)%Q. intros tx' ty' Etx Ety.
  split_and!; try done; try lra.
  intros n p Hp.
  destruct (box_in_canvas g r n p Hplain Hr Hp)
    as (cw' & ch' & hq & Hcw' & Hch' & Hh & _ & _ & Hx & Hxw & Hy & Hyh).
  rewrite Hcw in Hcw'. injection Hcw' as <-. rewrite Hch in Hch'. injection Hch' as <-.
  exists hq. split; [done|]. unfold PAD in *.
  assert (0 < x p * s)%Q by (apply Qmult_lt_0_compat; lra).
  assert (0 < y p * s)%Q by (apply Qmult_lt_0_compat; lra).
  assert (0 < (cw - (x p + w p)) * s)%Q by (apply Qmult_lt_0_compat; lra).
  assert (0 < (ch - (y p + hq)) * s)%Q by (apply Qmult_lt_0_compat; lra).
  split_and!; lra.
Qed.

Lemma fitView_fits_witness :
  (nodes diamondGraph = [] → fitView (Some diamondLayout) 1200 800 {| tx := 0; ty := 0; scale := 1 |}
      = Some {| tx := 0; ty := 0; scale := 1 |}) ∧
  (nodes diamondGraph ≠ [] →
   ∃ v' cw ch,
     fitView (Some diamondLayout) 1200 800 {| tx := 0; ty := 0; scale := 1 |} = Some v' ∧
     canvasW diamondLayout = Some cw ∧ canvasH diamondLayout = Some (Fin ch) ∧
     (0 < scale v')%Q ∧ (scale v' <= 1)%Q ∧
     (48 <= screenX v' 0)%Q ∧ (screenX v' 0 + screenX v' cw == 1200)%Q ∧
     (48 <= screenY v' 0)%Q ∧ (screenY v' 0 + screenY v' ch == 800)%Q ∧
     (scale v' == 1 ∨ screenX v' 0 == 48 ∨ screenY v' 0 == 48)%Q ∧
     ∀ n p, JSMap.get (positions diamondLayout) n = Some p →
       ∃ hq, h p = Px hq ∧
       (48 < screenX v' (x p))%Q ∧ (screenX v' (x p + w p) < 1200 - 48)%Q ∧
       (48 < screenY v' (y p))%Q ∧ (screenY v' (y p + hq) < 800 - 48)%Q).
Proof.
  apply (fitView_fits diamondGraph diamondLayout 1200 800 {| tx := 0; ty := 0; scale := 1 |});
    try reflexivity.
  apply plainTypes_Forall. apply (bool_decide_unpack _). vm_compute. exact I.
Defined.

(** X14. [zoomAround] from a view with a positive scale: the new scale
    lies between [SCALE_MIN] and [SCALE_MAX] and is [scale * factor]
    whenever that lies in this range; every point of the graph keeps its
    direction from the cursor [(cx, cy)] and its distance to it is
    multiplied by the ratio of the scales; so the graph point under the
    cursor stays under the cursor. *)
Theorem zoomAround_keeps_cursor_point (cx cy factor : Q) (v : View) :
  (0 < scale v)%Q →
  ∃ v', zoomAround cx cy factor v = Some v' ∧
    (SCALE_MIN <= scale v')%Q ∧ (scale v' <= SCALE_MAX)%Q ∧
    ((SCALE_MIN <= scale v * factor)%Q → (scale v * factor <= SCALE_MAX)%Q →
     (scale v' == scale v * factor)%Q) ∧
    (∀ gx gy,
       ((screenX v' gx - cx) * scale v == (screenX v gx - cx) * scale v')%Q ∧
       ((screenY v' gy - cy) * scale v == (screenY v gy - cy) * scale v')%Q) ∧
    (∀ gx gy, (screenX v gx == cx)%Q → (screenY v gy == cy)%Q →
       (screenX v' gx == cx)%Q ∧ (screenY v' gy == cy)%Q).
Proof.
  intros Hs.
  assert (¬ (scale v == 0)%Q) as Hs0.
  { intros E. rewrite E in Hs. by apply Qlt_irrefl in Hs. }
  set (ns := Qmax SCALE_MIN (Qmin SCALE_MAX (scale v * factor))).
  exists {| tx := (cx - ns / scale v * (cx - tx v))%Q;
            ty := (cy - ns / scale v * (cy - ty v))%Q; scale := ns |}.
  assert (∀ gx gy,
       ((cx - ns / scale v * (cx - tx v) + gx * ns - cx) * scale v
          == (tx v + gx * scale v - cx) * ns)%Q ∧
       ((cy - ns / scale v * (cy - ty v) + gy * ns - cy) * scale v
          == (ty v + gy * scale v - cy) * ns)%Q) as Hdist.
  { intros gx gy. split; field; done. }
  unfold screenX, screenY. cbn [tx ty scale].
  split_and!.
  - unfold zoomAround. by rewrite (Qeq_bool_false_pos _ Hs).
  - apply Q.le_max_l.
  - apply Q.max_lub; [by vm_compute|apply Q.le_min_l].
  - intros Hlo Hhi. unfold ns. rewrite (Q.min_r _ _ Hhi). by rewrite (Q.max_r _ _ Hlo).
  - exact Hdist.
  - intros gx gy Hx Hy. destruct (Hdist gx gy) as [Ex Ey].
    rewrite Hx in Ex. rewrite Hy in Ey.
    split.
    + assert ((cx - ns / scale v * (cx - tx v) + gx * ns - cx) * scale v == 0)%Q as E0
        by (rewrite Ex; ring).
      apply Qmult_integral in E0 as [E0|E0]; [|done]. lra.
    + assert ((cy - ns / scale v * (cy - ty v) + gy * ns - cy) * scale v == 0)%Q as E0
        by (rewrite Ey; ring).
      apply Qmult_integral in E0 as [E0|E0]; [|done]. lra.
Qed.

Lemma zoomAround_keeps_cursor_point_witness :
  ∃ v', zoomAround 100 50 (125 # 100) {| tx := 20; ty := 10; scale := 2 |} = Some v' ∧
    (SCALE_MIN <= scale v')%Q ∧ (scale v' <= SCALE_MAX)%Q ∧
    ((SCALE_MIN <= 2 * (125 # 100))%Q → (2 * (125 # 100) <= SCALE_MAX)%Q →
     (scale v' == 2 * (125 # 100))%Q) ∧
    (∀ gx gy,
       ((screenX v' gx - 100) * 2
          == (screenX {| tx := 20; ty := 10; scale := 2 |} gx - 100) * scale v')%Q ∧
       ((screenY v' gy - 50) * 2
          == (screenY {| tx := 20; ty := 10; scale := 2 |} gy - 50) * scale v')%Q) ∧
    (∀ gx gy, (screenX {| tx := 20; ty := 10; scale := 2 |} gx == 100)%Q →
              (screenY {| tx := 20; ty := 10; scale := 2 |} gy == 50)%Q →
       (screenX v' gx == 100)%Q ∧ (screenY v' gy == 50)%Q).
Proof.
  apply (zoomAround_keeps_cursor_point 100 50 (125 # 100) {| tx := 20; ty := 10; scale := 2 |}).
  reflexivity.
Defined.

(** X15. [navigateToNode] on the layout of a graph in which no type names
    a member of [Object.prototype], computed on exact numbers: for the id
    of a node the scale is kept and the view is moved so that the centre
    of the node's box is drawn at the centre of the viewport; for any
    other id the view is left as it is. *)
Theorem navigateToNode_centres_node (g : Graph) (r : Layout) (vw vh : Q)
    (n : string) (v : View) :
  plainTypes g → computeLayout g = Some r →
  (n ∈ nodeIds g →
   ∃ p hq v', JSMap.get (positions r) n = Some p ∧ h p = Px hq ∧
        navigateToNode (Some r) vw vh n v = Some v' ∧
        scale v' = scale v ∧
        (screenX v' (x p + w p / 2) == vw / 2)%Q ∧
        (screenY v' (y p + hq / 2) == vh / 2)%Q) ∧
  (n ∉ nodeIds g → navigateToNode (Some r) vw vh n v = Some v).
Proof.
  intros Hplain Hr. split.
  - intros Hn. destruct (positions_of_node g r n Hr Hn) as [p Hp].
    destruct (plain_height g r n p Hplain Hr Hp) as (hq & Hh & _).
    exists p, hq. eexists. split; [done|]. split; [done|].
    unfold navigateToNode. rewrite Hp, Hh.
    split_and!; [done|done|..]; unfold screenX, screenY; cbn [tx ty scale]; ring.
  - intros Hn. unfold navigateToNode.
    destruct (JSMap.get (positions r) n) as [p|] eqn:Hp; [|done].
    destruct Hn. by eapply positions_keys_nodeIds.
Qed.

Lemma navigateToNode_centres_node_witness :
  ("D" ∈ nodeIds diamondGraph →
   ∃ p hq v', JSMap.get (positions diamondLayout) "D" = Some p ∧ h p = Px hq ∧
        navigateToNode (Some diamondLayout) 1200 800 "D" {| tx := 0; ty := 0; scale := 1 |}
          = Some v' ∧
        scale v' = 1%Q ∧
        (screenX v' (x p + w p / 2) == 1200 / 2)%Q ∧
        (screenY v' (y p + hq / 2) == 800 / 2)%Q) ∧
  ("D" ∉ nodeIds diamondGraph →
   navigateToNode (Some diamondLayout) 1200 800 "D" {| tx := 0; ty := 0; scale := 1 |}
     = Some {| tx := 0; ty := 0; scale := 1 |}).
Proof.
  apply (navigateToNode_centres_node diamondGraph diamondLayout 1200 800 "D"
           {| tx := 0; ty := 0; scale := 1 |}).
  - apply plainTypes_Forall. apply (bool_decide_unpack _). vm_compute. exact I.
  - reflexivity.
Defined.

(** X16. The scale stays usable whatever the user does with a graph in
    which no type names a member of [Object.prototype]: from the initial
    view, or any view whose scale is positive and at most [SCALE_MAX],
    every sequence of fitting (in a viewport larger than the margins),
    zooming with any factor, dragging and navigating is handled without
    a division by zero, and leaves a scale that is positive and at most
    [SCALE_MAX].  The layouts of the events are [null] or results of
    [computeLayout] on such graphs ([pageEvent]). *)
Theorem view_scale_stays_usable (evs : list ViewEvent) (v : View) :
  Forall pageEvent evs → (0 < scale v)%Q → (scale v <= SCALE_MAX)%Q →
  ∃ v', foldM handle v evs = Some v' ∧ (0 < scale v')%Q ∧ (scale v' <= SCALE_MAX)%Q.
Proof.
  revert v. induction evs as [|ev evs IH]; intros v Hevs Hs Hmax.
  { exists v. done. }
  apply Forall_cons in Hevs as [Hev Hevs]. cbn [foldM].
  assert (∃ v1, handle v ev = Some v1 ∧ (0 < scale v1)%Q ∧ (scale v1 <= SCALE_MAX)%Q)
    as (v1 & Hh & Hs1 & Hmax1).
  { destruct ev as [layout vw vh|cx cy factor|tx' ty'|layout vw vh nodeId]; cbn [handle].
    - destruct Hev as (Hlay & Hvw & Hvh).
      destruct (fitView_scale layout vw vh v Hlay Hvw Hvh Hs) as (v' & Hf & Hs' & Hle).
      exists v'. split_and!; [done|done|].
      destruct Hle as [->|Hle]; [done|]. unfold SCALE_MAX. lra.
    - unfold zoomAround. rewrite (Qeq_bool_false_pos _ Hs). eexists. split; [done|].
      cbn [scale]. split.
      + eapply Qlt_le_trans; [|apply Q.le_max_l]. by vm_compute.
      + apply Q.max_lub; [by vm_compute|apply Q.le_min_l].
    - eexists. split; [done|]. done.
    - cbn [pageEvent] in Hev. unfold navigateToNode.
      destruct Hev as [->|(g & Hplain & Hg)]; [by exists v|].
      destruct layout as [r|]; [|by exists v].
      destruct (JSMap.get (positions r) nodeId) as [p|] eqn:Hp; [|by exists v].
      destruct (plain_height g r nodeId p Hplain Hg Hp) as (hq & -> & _).
      eexists. split; [done|]. done. }
  rewrite Hh. cbn [mbind option_bind]. by apply IH.
Qed.

Lemma view_scale_stays_usable_witness :
  ∃ v', foldM handle initialView
          [EvFit (Some diamondLayout) 1200 800; EvZoom 600 400 0; EvPan 10 20;
           EvNavigate (Some diamondLayout) 1200 800 "D"; EvZoom 0 0 100] = Some v' ∧
        (0 < scale v')%Q ∧ (scale v' <= SCALE_MAX)%Q.
Proof.
  apply (view_scale_stays_usable _ initialView).
  - assert (layoutVar (Some diamondLayout)) as Hlay.
    { right. exists diamondGraph. split; [|reflexivity].
      apply plainTypes_Forall. apply (bool_decide_unpack _). vm_compute. exact I. }
    repeat apply Forall_cons_2; try apply Forall_nil_2; cbn [pageEvent];
      try exact I; try (split_and!; [|reflexivity..]); exact Hlay.
  - reflexivity.
  - by vm_compute.
Defined.

(** X17. The result of [escHtml] contains none of the characters that
    open or close markup or end an attribute value ([<], [>] and the
    double quote), whatever the input. *)
Theorem escHtml_output_has_no_markup (s : string) :
  Forall (λ c, ¬ markup c) (chars (escHtml s)).
Proof.
  induction s as [|a s IH]; [apply Forall_nil_2|].
  rewrite escHtml_cons, chars_app. apply Forall_app. split; [apply escChar_markup_free|done].
Qed.

(** X18. The four replacements of [escHtml], done one after the other on
    the whole string, amount to escaping each character on its own: the
    [&] of an entity written by an earlier pass is not escaped again, and
    escaping distributes over concatenation.  A string is returned
    unchanged exactly when it has none of the four characters. *)
Theorem escHtml_char_by_char (s1 s2 : string) (a : ascii) :
  escHtml (String a s2) = escChar a +:+ escHtml s2 ∧
  escHtml (s1 +:+ s2) = escHtml s1 +:+ escHtml s2 ∧
  (escHtml s1 = s1 ↔ Forall (λ c, ¬ special c) (chars s1)).
Proof.
  split; [apply escHtml_cons|]. split; [apply escHtml_app|].
  induction s1 as [|b s IH]; [split; [intros; apply Forall_nil_2|done]|].
  rewrite escHtml_cons. cbn [chars]. rewrite Forall_cons. split.
  - intros H. pose proof (f_equal String.length H) as Hlen.
    rewrite string_length_app in Hlen. cbn [String.length] in Hlen.
    pose proof (escChar_length b) as [Hb1 Hb2]. pose proof (escHtml_length s) as Hs.
    assert (¬ special b) as Hb by (apply Hb2; lia). split; [done|].
    apply IH. destruct (escChar_cases b) as [[-> _]|[[-> _]|[[-> _]|[[-> _]|[_ Hc]]]]];
      try (destruct Hb; unfold special; by auto).
    rewrite Hc in H. by injection H.
  - intros [Hb Hs]. apply IH in Hs.
    destruct (escChar_cases b) as [[-> _]|[[-> _]|[[-> _]|[[-> _]|[_ Hc]]]]];
      try (destruct Hb; unfold special; by auto).
    rewrite Hc. rewrite append_cons, append_nil_l. by rewrite Hs.
Qed.

(** X19. [escHtml] loses nothing: two different strings never have the
    same escaped form. *)
Theorem escHtml_injective (s t : string) : escHtml s = escHtml t → s = t.
Proof.
  revert t. induction s as [|a s IH]; intros [|b t] H.
  - done.
  - rewrite escHtml_cons in H. pose proof (f_equal String.length H) as Hlen.
    rewrite string_length_app in Hlen. pose proof (escChar_length b) as [? _]. cbn in Hlen. lia.
  - rewrite escHtml_cons in H. pose proof (f_equal String.length H) as Hlen.
    rewrite string_length_app in Hlen. pose proof (escChar_length a) as [? _]. cbn in Hlen. lia.
  - rewrite !escHtml_cons in H. apply escChar_prefix in H as [-> H]. f_equal. by apply IH.
Qed.

Lemma escHtml_injective_witness : ("a<b&c" : string) = "a<b&c".
Proof. apply (escHtml_injective "a<b&c" "a<b&c"). reflexivity. Defined.

(** X20. The edges [parseGraph] makes from the compiler's format are
    exactly those between an operation and an operand of it that is the
    magic number of a tensor: from the tensor to the operation for an
    input, from the operation to the tensor for an output.  So every
    edge joins two nodes of the parsed graph, one a tensor and one an
    operation, and the layout never has to skip an edge. *)
Theorem parsed_edges_join_tensor_and_op (func : Func) (e : Edge) :
  (e ∈ edges (parseFunc func) ↔
   ∃ op tId, op ∈ operations func ∧ tId ∈ magic <$> tensors func ∧
     ((tId ∈ ioperands op ∧ e = mkEdge (tensorId tId) (opId (opmagic op))) ∨
      (tId ∈ ooperands op ∧ e = mkEdge (opId (opmagic op)) (tensorId tId)))) ∧
  edgesValid (parseFunc func).
Proof. split; [apply elem_of_parseFunc_edges|apply parseFunc_edgesValid]. Qed.

(** X21. The ids of the parsed graph are pairwise distinct exactly when
    the magic numbers of the tensors are and those of the operations
    are: the prefixes [t_] and [op_] keep a tensor and an operation with
    the same number apart. *)
Theorem parsed_ids_distinct (func : Func) :
  NoDup (nodeIds (parseFunc func)) ↔
  NoDup (magic <$> tensors func) ∧ NoDup (opmagic <$> operations func).
Proof.
  rewrite parseFunc_nodeIds, NoDup_app.
  rewrite (NoDup_fmap tensorId), (NoDup_fmap opId).
  split; [tauto|]. intros [Ht Ho]. split_and!; [done| |done].
  intros k (a & -> & _)%list_elem_of_fmap (b & Hb & _)%list_elem_of_fmap.
  by apply tensorId_opId in Hb.
Qed.

(** X22. In the layout of a graph made from the compiler's format (the
    branch of [parseGraph] for an input with [functions]) every box
    belongs to a tensor and is 200 high, or to an operation and is 148
    high; the height 124 of an unknown type and the inherited members of
    [NODE_HEIGHTS] do not occur. *)
Theorem parsed_box_heights (func : Func) (r : Layout) (n : string) (p : Pos) :
  computeLayout (parseFunc func) = Some r → JSMap.get (positions r) n = Some p →
  (∃ t, t ∈ tensors func ∧ n = tensorId (magic t) ∧ h p = Px 200) ∨
  (∃ op, op ∈ operations func ∧ n = opId (opmagic op) ∧ h p = Px 148).
Proof.
  intros Hr Hp. pose proof (positions_keys_nodeIds _ r n p Hr Hp) as Hn.
  destruct (assignLayers_total (parseFunc func)) as (st & _ & _ & _ & Hlay).
  destruct (node_position _ r _ n Hr Hlay Hn)
    as (_ & p' & nd & _ & _ & _ & _ & Hp' & _ & _ & _ & Hnd & Hid & Hh).
  rewrite Hp in Hp'. injection Hp' as <-. rewrite Hh, <-Hid.
  destruct (elem_of_parseFunc_nodes func nd Hnd) as [(t & Ht & E & Hh')|(op & Hop & E & Hh')].
  - left. by exists t.
  - right. by exists op.
Qed.

Lemma parsed_box_heights_witness :
  (∃ t, t ∈ tensors sampleFunc ∧ "op_10"%string = tensorId (magic t) ∧ Px 148 = Px 200) ∨
  (∃ op, op ∈ operations sampleFunc ∧ "op_10"%string = opId (opmagic op) ∧ Px 148 = Px 148).
Proof.
  apply (parsed_box_heights sampleFunc sampleFuncLayout "op_10"
           {| x := 390; y := 340 # 2; w := 250; h := Px 148 |}); reflexivity.
Defined.

(** X23. Parsing the compiler's format (the branch of [parseGraph] for an
    input with [functions]), layout and drawing together: every edge of
    the parsed graph is drawn, in the order of the edge list, whatever
    the operations refer to. *)
Theorem parsed_edges_all_drawn (func : Func) (r : Layout) :
  computeLayout (parseFunc func) = Some r →
  ep_ends <$> renderEdges (parseFunc func) r = ends <$> edges (parseFunc func).
Proof.
  intros Hr. unfold renderEdges. pose proof (parseFunc_edgesValid func) as Hval.
  unfold edgesValid in Hval. induction (edges (parseFunc func)) as [|e es IH]; [done|].
  cbn [omap list_omap fmap list_fmap].
  destruct (edgePath_valid _ r e Hr) as [Hv _].
  destruct (Hv (Hval e (list_elem_of_here _ _))) as (ep & -> & Hends). cbn.
  rewrite Hends. f_equal. apply IH. intros e' He'. apply Hval. by apply list_elem_of_further.
Qed.

Lemma parsed_edges_all_drawn_witness :
  ep_ends <$> renderEdges (parseFunc sampleFunc) sampleFuncLayout
    = ends <$> edges (parseFunc sampleFunc).
Proof. apply (parsed_edges_all_drawn sampleFunc sampleFuncLayout). reflexivity. Defined.

Lemma parsed_edges_join_tensor_and_op_witness :
  (mkEdge "t_1" "op_10" ∈ edges (parseFunc sampleFunc) ↔
   ∃ op tId, op ∈ operations sampleFunc ∧ tId ∈ magic <$> tensors sampleFunc ∧
     ((tId ∈ ioperands op ∧ mkEdge "t_1" "op_10" = mkEdge (tensorId tId) (opId (opmagic op))) ∨
      (tId ∈ ooperands op ∧ mkEdge "t_1" "op_10" = mkEdge (opId (opmagic op)) (tensorId tId)))) ∧
  edgesValid (parseFunc sampleFunc).
Proof. apply (parsed_edges_join_tensor_and_op sampleFunc (mkEdge "t_1" "op_10")). Defined.

Lemma parsed_ids_distinct_witness : NoDup (nodeIds (parseFunc sampleFunc)).
Proof.
  apply (proj2 (parsed_ids_distinct sampleFunc)).
  split; apply (bool_decide_unpack _); vm_compute; exact I.
Defined.

Lemma escHtml_output_has_no_markup_witness :
  Forall (λ c, ¬ markup c) (chars (escHtml "<b>R&D</b>")).
Proof. apply (escHtml_output_has_no_markup "<b>R&D</b>"). Defined.

Lemma escHtml_char_by_char_witness :
  escHtml (String "<" "b>") = escChar "<" +:+ escHtml "b>" ∧
  escHtml ("R&D" +:+ "b>") = escHtml "R&D" +:+ escHtml "b>" ∧
  (escHtml "R&D" = "R&D" ↔ Forall (λ c, ¬ special c) (chars "R&D")).
Proof. apply (escHtml_char_by_char "R&D" "b>" "<"). Defined.

(** X24. The layer of a node is the length of the longest path that ends
    at it: in an acyclic graph with distinct ids, no path of edges
    between nodes that ends at [n] has more edges than the layer of [n],
    and some path from a node without predecessors has exactly that
    many. *)
Theorem layer_is_longest_path_length (g : Graph) (lay : list (string * nat)) (n : string) :
  NoDup (nodeIds g) → acyclic g → assignLayers g = Some lay → n ∈ nodeIds g →
  (∀ k a, nsteps (linked g) k a n → k ≤ layerOf lay n) ∧
  (∃ a, nsteps (linked g) (layerOf lay n) a n ∧ predsOf g a = []).
Proof.
  intros Hnd Hacyc Hlay Hn. split; [|by apply path_of_layer].
  intros k a Hpath. pose proof (path_raises_layer g lay k a n Hnd Hacyc Hlay Hpath). lia.
Qed.

Lemma layer_is_longest_path_length_witness :
  (∀ k a, nsteps (linked diamondGraph) k a "D" → k ≤ layerOf diamondLayers "D") ∧
  (∃ a, nsteps (linked diamondGraph) (layerOf diamondLayers "D") a "D" ∧
        predsOf diamondGraph a = []).
Proof.
  apply (layer_is_longest_path_length diamondGraph diamondLayers "D").
  - apply (bool_decide_unpack _). vm_compute. exact I.
  - apply (acyclic_of_rank _ diamondRank). apply (bool_decide_unpack _).
    vm_compute. exact I.
  - reflexivity.
  - apply (bool_decide_unpack _). vm_compute. exact I.
Defined.

(** X25. The columns do not depend on how the edge list is written: two
    acyclic graphs with the same nodes (distinct ids) and the same set of
    edges, in any order and with any repetitions, give every node the
    same layer, hence a box with the same x and the same height in the
    two layouts. *)
Theorem columns_ignore_edge_order (g g' : Graph) (r r' : Layout) (n : string) (p p' : Pos) :
  nodes g = nodes g' → (∀ e, e ∈ edges g ↔ e ∈ edges g') →
  NoDup (nodeIds g) → acyclic g →
  computeLayout g = Some r → computeLayout g' = Some r' →
  JSMap.get (positions r) n = Some p → JSMap.get (positions r') n = Some p' →
  (∃ lay lay', assignLayers g = Some lay ∧ assignLayers g' = Some lay' ∧
               ∀ k, k ∈ nodeIds g → JSMap.get lay k = JSMap.get lay' k) ∧
  x p = x p' ∧ h p = h p'.
Proof.
  intros Hn He Hnd Hacyc Hr Hr' Hp Hp'.
  destruct (assignLayers_total g) as (st & _ & _ & _ & Hlay).
  destruct (assignLayers_total g') as (st' & _ & _ & _ & Hlay').
  assert (NoDup (nodeIds g')) as Hnd' by (unfold nodeIds in *; by rewrite <-Hn).
  pose proof (acyclic_same_edges g g' He Hacyc) as Hacyc'.
  assert (nodeIds g = nodeIds g') as Hids by (unfold nodeIds; by rewrite Hn).
  assert (∀ k, k ∈ nodeIds g →
            JSMap.get (fallback (nodes g) (layer st)) k
            = JSMap.get (fallback (nodes g') (layer st')) k) as Heq.
  { intros k Hk.
    destruct (dag_layer_equation g _ k Hnd Hacyc Hlay Hk) as [-> _].
    assert (k ∈ nodeIds g') as Hk' by (by rewrite <-Hids).
    destruct (dag_layer_equation g' _ k Hnd' Hacyc' Hlay' Hk') as [-> _].
    f_equal. apply Nat.le_antisymm.
    - by eapply (layer_same_edges_le g g').
    - by eapply (layer_same_edges_le g' g). }
  split; [by eauto|].
  pose proof (positions_keys_nodeIds g r n p Hr Hp) as Hin.
  destruct (node_position g r _ n Hr Hlay Hin)
    as (l & q & nd & _ & Hl & _ & _ & Hq & Hx & _ & _ & Hndin & Hid & Hh).
  assert (n ∈ nodeIds g') as Hin' by (by rewrite <-Hids).
  destruct (node_position g' r' _ n Hr' Hlay' Hin') as
    (l' & q' & nd' & _ & Hl' & _ & _ & Hq' & Hx' & _ & _ & Hnd'' & Hid' & Hh').
  rewrite Hp in Hq. injection Hq as <-. rewrite Hp' in Hq'. injection Hq' as <-.
  rewrite (Heq n Hin), Hl' in Hl. injection Hl as <-.
  split; [by rewrite Hx, Hx'|].
  rewrite Hh, Hh'. do 3 f_equal.
  apply (node_of_id (nodes g)); [done|done|by rewrite Hn|congruence].
Qed.

Lemma columns_ignore_edge_order_witness :
  (∃ lay lay', assignLayers diamondGraph = Some lay ∧
               assignLayers diamondGraphShuffled = Some lay' ∧
               ∀ k, k ∈ nodeIds diamondGraph → JSMap.get lay k = JSMap.get lay' k) ∧
  (720 : Q) = 720%Q ∧ Px 148 = Px 148.
Proof.
  apply (columns_ignore_edge_order diamondGraph diamondGraphShuffled
           diamondLayout diamondLayoutShuffled "D"
           {| x := 720; y := 340 # 2; w := 250; h := Px 148 |}
           {| x := 720; y := 340 # 2; w := 250; h := Px 148 |}); try reflexivity.
  - intros e. cbn [edges diamondGraph diamondGraphShuffled].
    rewrite !elem_of_cons, !elem_of_nil. tauto.
  - apply (bool_decide_unpack _). vm_compute. exact I.
  - apply (acyclic_of_rank _ diamondRank). apply (bool_decide_unpack _).
    vm_compute. exact I.
Defined.

(** X26. The canvas is never higher than a single column of all the
    nodes: for a graph with nodes, cyclic or not, in which no type names a
    member of [Object.prototype], every box has its top at most
    [(|nodes| - 1) * V_STEP] below the top padding, the canvas height is
    a number, and
    [2 * PAD + 124 <= canvasH <= 2 * PAD + 200 + (|nodes| - 1) * V_STEP]. *)
Theorem canvas_height_bounds (g : Graph) (r : Layout) :
  plainTypes g → computeLayout g = Some r → nodes g ≠ [] →
  (∀ n p, JSMap.get (positions r) n = Some p →
          (y p <= PAD + (nat2Q (length (nodes g)) - 1) * V_STEP)%Q) ∧
  ∃ ch, canvasH r = Some (Fin ch) ∧ (2 * PAD + 124 <= ch)%Q ∧
        (ch <= 2 * PAD + 200 + (nat2Q (length (nodes g)) - 1) * V_STEP)%Q.
Proof.
  intros Hplain Hr Hne. split; [intros n p; by apply layout_y_below|].
  destruct (plain_canvasH g r Hplain Hr Hne) as (m & Hch & Hin & _).
  apply list_elem_of_fmap in Hin as (p & -> & Hin).
  unfold JSMap.values in Hin. apply list_elem_of_fmap in Hin as ([k p'] & -> & Hin).
  cbn [snd].
  assert (JSMap.get (positions r) k = Some p') as Hp.
  { apply JSMap_elem_of_get; [by eapply positions_NoDup|done]. }
  pose proof (layout_y_below g r k p' Hr Hp) as Hy.
  destruct (box_in_canvas g r k p' Hplain Hr Hp)
    as (_ & _ & hq & _ & _ & Hh & Hlo & Hhi & _ & _ & Hpad & _).
  cbn [snd] in Hch. cbv beta in Hch. rewrite Hh in Hch. cbn [pxOf] in Hch.
  exists (y p' + hq + PAD)%Q. split; [done|]. unfold PAD, V_STEP in *. split; lra.
Qed.

Lemma canvas_height_bounds_witness :
  (∀ n p, JSMap.get (positions edgelessLayout) n = Some p →
          (y p <= PAD + (nat2Q (length (nodes edgelessGraph)) - 1) * V_STEP)%Q) ∧
  ∃ ch, canvasH edgelessLayout = Some (Fin ch) ∧ (2 * PAD + 124 <= ch)%Q ∧
        (ch <= 2 * PAD + 200 + (nat2Q (length (nodes edgelessGraph)) - 1) * V_STEP)%Q.
Proof.
  apply (canvas_height_bounds edgelessGraph edgelessLayout); [|reflexivity|discriminate].
  apply plainTypes_Forall. apply (bool_decide_unpack _). vm_compute. exact I.
Defined.

(** X27. The stages of [scan_passes.js] divide the pass numbers 0 to 36
    without gap or overlap: at most one stage contains a given number, so
    the order in which [find] tries them does not matter; a number gets
    the label [Unknown] exactly when it lies outside 0..36, and the
    label of the stage that contains it otherwise. *)
Theorem stages_partition_the_passes (idx : Z) :
  (∀ s s', s ∈ STAGES → s' ∈ STAGES →
     (st_from s ≤ idx ≤ st_to s)%Z → (st_from s' ≤ idx ≤ st_to s')%Z → s = s') ∧
  (getStage idx = "Unknown"%string ↔ (idx < 0 ∨ 36 < idx)%Z) ∧
  (∀ s, s ∈ STAGES → (st_from s ≤ idx ≤ st_to s)%Z → getStage idx = st_label s).
Proof.
  assert (∀ s, s ∈ STAGES → s = {| st_label := "Tensor"; st_from := 0; st_to := 4 |}
            ∨ s = {| st_label := "Tile"; st_from := 5; st_to := 26 |}
            ∨ s = {| st_label := "Split"; st_from := 27; st_to := 27 |}
            ∨ s = {| st_label := "Block/Execute"; st_from := 28; st_to := 36 |}) as Hcases.
  { intros s Hs. unfold STAGES in Hs. rewrite !elem_of_cons, elem_of_nil in Hs. tauto. }
  assert (∀ s, s ∈ STAGES → (st_from s ≤ idx ≤ st_to s)%Z → getStage idx = st_label s) as Hget.
  { intros s Hs Hr. unfold getStage, STAGES. cbn [list_find].
    destruct (Hcases s Hs) as [-> |[-> |[-> | ->]]]; cbn [st_from st_to st_label] in *;
      repeat (case_decide; cbn [fmap option_fmap option_map default st_label snd st_from st_to];
              try done; try lia). }
  split_and!.
  - intros s s' Hs Hs' Hr Hr'.
    destruct (Hcases s Hs) as [-> |[-> |[-> | ->]]];
    destruct (Hcases s' Hs') as [-> |[-> |[-> | ->]]]; cbn in *; try done; lia.
  - split.
    + intros Hu. destruct (decide (idx < 0 ∨ 36 < idx)%Z) as [|Hin]; [done|]. exfalso.
      assert (∃ s, s ∈ STAGES ∧ (st_from s ≤ idx ≤ st_to s)%Z) as (s & Hs & Hr).
      { unfold STAGES. destruct (decide (idx ≤ 4)%Z); [eexists; split;
          [apply list_elem_of_here|cbn; lia]|].
        destruct (decide (idx ≤ 26)%Z); [eexists; split;
          [apply list_elem_of_further, list_elem_of_here|cbn; lia]|].
        destruct (decide (idx ≤ 27)%Z); [eexists; split;
          [do 2 apply list_elem_of_further; apply list_elem_of_here|cbn; lia]|].
        eexists; split; [do 3 apply list_elem_of_further; apply list_elem_of_here|cbn; lia]. }
      rewrite (Hget s Hs Hr) in Hu.
      destruct (Hcases s Hs) as [-> |[-> |[-> | ->]]]; discriminate Hu.
    + intros Hout. unfold getStage, STAGES. cbn [list_find].
      repeat (case_decide; cbn [fmap option_fmap option_map default st_label snd st_from st_to] in *;
              try lia). done.
  - exact Hget.
Qed.

Lemma stages_partition_the_passes_witness :
  getStage 27 = "Split"%string.
Proof.
  apply (proj2 (proj2 (stages_partition_the_passes 27))
           {| st_label := "Split"; st_from := 27; st_to := 27 |}).
  - do 2 apply list_elem_of_further. apply list_elem_of_here.
  - cbn. lia.
Defined.

(** X28. The minimap shows every node and nothing spills: for a graph in
    which no type names a member of [Object.prototype], on a minimap
    canvas at least 63 wide and 38 high, [drawMinimap] fills one
    rectangle for each node of the graph, at least 2 wide and 1 high as
    the code asks, and every rectangle, after [Math.round], lies inside
    the canvas (the products and quotients before [Math.round] on exact
    numbers). *)
Theorem minimap_rects_inside (g : Graph) (r : Layout) (mw mh : Q) :
  plainTypes g → computeLayout g = Some r → (63 <= mw)%Q → (38 <= mh)%Q →
  length (minimapRects g r mw mh) = length (nodes g) ∧
  ∀ rc, rc ∈ minimapRects g r mw mh →
    (0 ≤ rc_left rc)%Z ∧ (0 ≤ rc_top rc)%Z ∧ (2 ≤ rc_width rc)%Z ∧ (1 ≤ rc_height rc)%Z ∧
    (inject_Z (rc_left rc + rc_width rc) <= mw)%Q ∧
    (inject_Z (rc_top rc + rc_height rc) <= mh)%Q.
Proof.
  intros Hplain Hr Hmw Hmh. split.
  - unfold minimapRects. destruct (decide (length (positions r) = 0)) as [Hz|Hnz].
    + destruct (nodes g) as [|nd nds] eqn:Hn; [done|]. exfalso.
      assert (id nd ∈ nodeIds g) as Hin.
      { unfold nodeIds. rewrite Hn. apply list_elem_of_here. }
      destruct (positions_of_node g r _ Hr Hin) as [p Hp].
      apply nil_length_inv in Hz. rewrite Hz in Hp. done.
    + assert (∀ nds : list Node, (∀ nd, nd ∈ nds → nd ∈ nodes g) →
                length (omap (minimapRect r mw mh) nds) = length nds) as Hlen.
      { induction nds as [|nd nds IH]; intros Hsub; [done|]. cbn [omap list_omap].
        assert (id nd ∈ nodeIds g) as Hin.
        { unfold nodeIds. apply list_elem_of_fmap_2, Hsub, list_elem_of_here. }
        destruct (positions_of_node g r _ Hr Hin) as [p Hp].
        destruct (minimapRect_plain g r mw mh nd p Hplain Hr Hp)
          as (cw & ch & hq & _ & _ & _ & ->).
        cbn. f_equal. apply IH.
        intros nd' Hnd'. by apply Hsub, list_elem_of_further. }
      by apply Hlen.
  - intros rc Hrc. unfold minimapRects in Hrc.
    destruct (decide (length (positions r) = 0)); [by apply elem_of_nil in Hrc|].
    apply list_elem_of_omap in Hrc as (nd & _ & Hrc).
    by eapply minimapRect_inside.
Qed.

Lemma minimap_rects_inside_witness :
  length (minimapRects diamondGraph diamondLayout 200 120) = length (nodes diamondGraph) ∧
  ∀ rc, rc ∈ minimapRects diamondGraph diamondLayout 200 120 →
    (0 ≤ rc_left rc)%Z ∧ (0 ≤ rc_top rc)%Z ∧ (2 ≤ rc_width rc)%Z ∧ (1 ≤ rc_height rc)%Z ∧
    (inject_Z (rc_left rc + rc_width rc) <= 200)%Q ∧
    (inject_Z (rc_top rc + rc_height rc) <= 120)%Q.
Proof.
  apply (minimap_rects_inside diamondGraph diamondLayout 200 120);
    [|reflexivity|by vm_compute..].
  apply plainTypes_Forall. apply (bool_decide_unpack _). vm_compute. exact I.
Defined.

(** X29. What the three sweeps leave behind: in the returned layout every
    row after the first is in ascending order of barycenter with respect
    to the row before it as returned, that is, of the mean index of a
    node's predecessors in that row; if [a] stands before [b] in a row,
    the barycenter of [a] is not larger than that of [b], and a node
    without a predecessor in the row before stands behind all nodes that
    have one.  This holds for every graph. *)
Theorem rows_ordered_by_barycenter (g : Graph) (r : Layout) (l : nat)
    (prev ids : list string) (a b : string) :
  computeLayout g = Some r →
  layerNodes r !! l = Some prev → layerNodes r !! S l = Some ids →
  before a b ids →
  keyLe (baryKey (buildAdj g).1 prev) a b ∧
  (baryKey (buildAdj g).1 prev a = Infinity →
   baryKey (buildAdj g).1 prev b = Infinity).
Proof.
  intros Hr Hprev Hids (i & j & Hij & Hi & Hj).
  destruct (decide (nodes g = [])) as [Hnil|Hne].
  { rewrite (computeLayout_empty g r Hr Hnil) in Hprev. done. }
  destruct (computeLayout_inv g r Hr Hne) as (st & s & m & _ & _ & Hs & Hok & _ & _ & ->).
  cbn [layerNodes layoutOf] in *.
  destruct (stages_lastForward g s Hs) as (ln2 & Hfwd).
  pose proof (forwardPass_sorted _ _ _ _ Hfwd) as Hsorted.
  destruct Hok as (_ & _ & _ & _ & Hlen & _).
  assert (S l < 1 + st_maxLayer s) as Hl by (apply lookup_lt_Some in Hids; lia).
  pose proof (Hsorted l prev ids Hl Hprev Hids) as Hrow.
  pose proof (StronglySorted_lookup_lt _ ids i j a b Hrow Hij Hi Hj) as Hle.
  split; [done|].
  intros Ha. unfold keyLe, keyCmp in Hle. rewrite Ha in Hle.
  destruct (baryPos_regular b (buildAdj g).1 (indexMap prev)) as [Hb|[q Hb]]; [done|].
  unfold baryKey in *. rewrite Hb in Hle. done.
Qed.

Lemma rows_ordered_by_barycenter_witness :
  keyLe (baryKey (buildAdj diamondGraph).1 ["A"%string]) "B" "C" ∧
  (baryKey (buildAdj diamondGraph).1 ["A"%string] "B" = Infinity →
   baryKey (buildAdj diamondGraph).1 ["A"%string] "C" = Infinity).
Proof.
  apply (rows_ordered_by_barycenter diamondGraph diamondLayout 0 ["A"%string]
           ["B"; "C"]%string "B" "C"); try reflexivity.
  exists 0, 1. split_and!; [lia|reflexivity|reflexivity].
Defined.

(** X30. The value of [baryPos]: with [idxs] the indices, in the row
    [adjacent], of those neighbours of [a] that are in that row, the
    barycenter is [Infinity] when there is none (exactly when no
    neighbour of [a] is in the row), and otherwise the mean of these
    indices, a number between 0 and the last index of the row. *)
Theorem barycenter_is_mean_index (neighbors : gmap string (list string))
    (adjacent : list string) (a : string) :
  (∀ i, i ∈ neighborIndices neighbors adjacent a →
        ∃ n, n ∈ default [] (neighbors !! a) ∧ adjacent !! i = Some n) ∧
  (neighborIndices neighbors adjacent a = [] ↔
   ∀ n, n ∈ default [] (neighbors !! a) → n ∉ adjacent) ∧
  (neighborIndices neighbors adjacent a = [] → baryKey neighbors adjacent a = Infinity) ∧
  (neighborIndices neighbors adjacent a ≠ [] →
   baryKey neighbors adjacent a
     = Fin (nat2Q (sum_list (neighborIndices neighbors adjacent a))
            / nat2Q (length (neighborIndices neighbors adjacent a)))%Q ∧
   (0 <= nat2Q (sum_list (neighborIndices neighbors adjacent a))
         / nat2Q (length (neighborIndices neighbors adjacent a)))%Q ∧
   (nat2Q (sum_list (neighborIndices neighbors adjacent a))
      / nat2Q (length (neighborIndices neighbors adjacent a))
    <= nat2Q (length adjacent - 1))%Q).
Proof.
  set (idxs := neighborIndices neighbors adjacent a).
  assert (∀ i, i ∈ idxs → ∃ n, n ∈ default [] (neighbors !! a) ∧ adjacent !! i = Some n) as Hidx.
  { intros i (n & Hn & Hi)%list_elem_of_omap. exists n. split; [done|].
    by apply indexMap_lookup. }
  assert (baryKey neighbors adjacent a
          = if decide (0 < length idxs)
            then Fin (nat2Q (sum_list idxs) / nat2Q (length idxs))%Q else Infinity) as Hkey.
  { unfold baryKey, baryPos. fold idxs.
    destruct (decide (length (default [] (neighbors !! a)) = 0)) as [Hz|Hnz].
    - apply nil_length_inv in Hz. unfold idxs, neighborIndices. rewrite Hz. done.
    - rewrite baryPos_fold. fold (neighborIndices neighbors adjacent a). fold idxs.
      cbn [Nat.add]. done. }
  split_and!.
  - exact Hidx.
  - split.
    + intros Hnil n Hn Hin. apply indexMap_is_Some in Hin as [i Hi].
      assert (i ∈ idxs) as Hi' by (apply list_elem_of_omap; eauto).
      rewrite Hnil in Hi'. by apply elem_of_nil in Hi'.
    + intros Hno. destruct idxs as [|i l] eqn:E; [done|]. exfalso.
      destruct (Hidx i) as (n & Hn & Hi); [apply list_elem_of_here|].
      apply (Hno n Hn). by eapply list_elem_of_lookup_2.
  - intros Hnil. rewrite Hkey, Hnil. done.
  - intros Hne. assert (0 < length idxs) as Hlen by (destruct idxs; [done|simpl; lia]).
    rewrite Hkey, decide_True by done. split; [done|].
    assert (0 < nat2Q (length idxs))%Q as Hpos.
    { destruct idxs; [done|]. cbn [length]. rewrite nat2Q_S.
      assert (0 <= nat2Q (length idxs))%Q by (apply (nat2Q_le 0); lia). lra. }
    split.
    + apply Qle_shift_div_l; [done|]. rewrite Qmult_0_l. apply (nat2Q_le 0). lia.
    + apply Qle_shift_div_r; [done|]. rewrite <-nat2Q_mult. apply nat2Q_le.
      rewrite Nat.mul_comm. apply sum_list_le. intros i Hi.
      destruct (Hidx i Hi) as (n & _ & Hl). apply lookup_lt_Some in Hl. lia.
Qed.

Lemma barycenter_is_mean_index_witness :
  (∀ i, i ∈ neighborIndices (buildAdj diamondGraph).1 ["B"; "C"]%string "D" →
        ∃ n, n ∈ default [] ((buildAdj diamondGraph).1 !! "D"%string) ∧
             ["B"; "C"]%string !! i = Some n) ∧
  (neighborIndices (buildAdj diamondGraph).1 ["B"; "C"]%string "D" = [] ↔
   ∀ n, n ∈ default [] ((buildAdj diamondGraph).1 !! "D"%string) → n ∉ ["B"; "C"]%string) ∧
  (neighborIndices (buildAdj diamondGraph).1 ["B"; "C"]%string "D" = [] →
   baryKey (buildAdj diamondGraph).1 ["B"; "C"]%string "D" = Infinity) ∧
  (neighborIndices (buildAdj diamondGraph).1 ["B"; "C"]%string "D" ≠ [] →
   baryKey (buildAdj diamondGraph).1 ["B"; "C"]%string "D"
     = Fin (nat2Q (sum_list (neighborIndices (buildAdj diamondGraph).1 ["B"; "C"]%string "D"))
            / nat2Q (length (neighborIndices (buildAdj diamondGraph).1 ["B"; "C"]%string "D")))%Q ∧
   (0 <= nat2Q (sum_list (neighborIndices (buildAdj diamondGraph).1 ["B"; "C"]%string "D"))
         / nat2Q (length (neighborIndices (buildAdj diamondGraph).1 ["B"; "C"]%string "D")))%Q ∧
   (nat2Q (sum_list (neighborIndices (buildAdj diamondGraph).1 ["B"; "C"]%string "D"))
      / nat2Q (length (neighborIndices (buildAdj diamondGraph).1 ["B"; "C"]%string "D"))
    <= nat2Q (length ["B"; "C"]%string - 1))%Q).
Proof.
  apply (barycenter_is_mean_index (buildAdj diamondGraph).1 ["B"; "C"]%string "D").
Defined.
